(** * AAMVA DL/ID incremental parser (dlid-hid-js): model and properties

    The repository holds the parser in three successive shapes:
    - [Engine]  : src/parse.ts, second document (StringIO + ParseFunc queue,
                  [parse()] threading an immutable ParseResult);
    - [Mutable] : src/parse.ts, first document (closure queue mutating the
                  parser object, [append(data) : boolean]);
    - the oldest single-shot [parseHeader] / [parseSubfile] (unnamed part 2).
    The buffer reader (StringIO / StringReader) is the same class in all of
    them and is modelled once.

    JavaScript strings are modelled as lists of 8-bit code units (the AAMVA
    character set is ISO-8859-1); numbers that index strings are integers. *)

From Stdlib Require Import ZArith Ascii String List Lia Bool.
From stdpp Require Import base option list gmap strings.
Import ListNotations.

Local Open Scope Z_scope.

Abbreviation jsstring := (list ascii).

(** A string literal of the source. *)
Definition str (s : string) : jsstring := list_ascii_of_string s.

(** ** String primitives of the host language *)

(** [String.prototype.substring(start, end)]: both indices are clamped to
    [0, length] and swapped when start > end. *)
Definition clamp (len i : Z) : Z := Z.min (Z.max i 0) len.

Definition substring (s : jsstring) (istart iend : Z) : jsstring :=
  let len := Z.of_nat (length s) in
  let finalStart := clamp len istart in
  let finalEnd := clamp len iend in
  let from := Z.min finalStart finalEnd in
  let to := Z.max finalStart finalEnd in
  take (Z.to_nat (to - from)) (drop (Z.to_nat from) s).

Definition code (c : ascii) : Z := Z.of_N (N_of_ascii c).

Definition isDigit (c : ascii) : bool := (48 <=? code c) && (code c <=? 57).
Definition isUpper (c : ascii) : bool := (65 <=? code c) && (code c <=? 90).
Definition isLower (c : ascii) : bool := (97 <=? code c) && (code c <=? 122).

(** [StrWhiteSpaceChar] restricted to 8-bit code units: TAB, LF, VT, FF, CR,
    SP and NBSP. *)
Definition isStrWhiteSpaceChar (c : ascii) : bool :=
  ((9 <=? code c) && (code c <=? 13)) || (code c =? 32) || (code c =? 160).

Fixpoint trimStart (s : jsstring) : jsstring :=
  match s with
  | c :: s' => if isStrWhiteSpaceChar c then trimStart s' else s
  | [] => []
  end.

Definition digitValue (radix : Z) (c : ascii) : option Z :=
  let v := if isDigit c then Some (code c - 48)
           else if isLower c then Some (code c - 87)
           else if isUpper c then Some (code c - 55)
           else None in
  match v with
  | Some d => if d <? radix then Some d else None
  | None => None
  end.

(** Longest prefix of radix digits; [None] when that prefix is empty. *)
Fixpoint parseDigits (radix : Z) (acc : option Z) (s : jsstring) : option Z :=
  match s with
  | c :: s' =>
      match digitValue radix c with
      | Some d => parseDigits radix (Some (default 0 acc * radix + d)) s'
      | None => acc
      end
  | [] => acc
  end.

(** [parseInt(string)] without radix; [None] is NaN.  The sign of a zero is
    not kept: nothing in the parser tells [-0] from [0]. *)
Definition parseInt (s : jsstring) : option Z :=
  let s1 := trimStart s in
  let '(sign, s2) :=
    match s1 with
    | "-"%char :: r => (-1, r)
    | "+"%char :: r => (1, r)
    | _ => (1, s1)
    end in
  let '(radix, s3) :=
    match s2 with
    | "0"%char :: "x"%char :: r => (16, r)
    | "0"%char :: "X"%char :: r => (16, r)
    | _ => (10, s2)
    end in
  match parseDigits radix None s3 with
  | Some m => Some (sign * m)
  | None => None
  end.

(** [Number.prototype.toString(16)] of a code unit. *)
Definition hexDigit (d : Z) : ascii :=
  ascii_of_N (Z.to_N (if d <? 10 then 48 + d else 87 + d)).

Definition toString16 (n : Z) : jsstring :=
  if n <? 16 then [hexDigit n] else [hexDigit (n / 16); hexDigit (n mod 16)].

(** [/[a-zA-Z0-9 ]/.test(s)] *)
Definition invalidSeparatorPattern (s : jsstring) : bool :=
  existsb (fun c => isLower c || isUpper c || isDigit c || (code c =? 32)) s.

(** [/[a-zA-Z0-9]/.test(s)] (oldest parser only) *)
Definition badHeaderPattern (s : jsstring) : bool :=
  existsb (fun c => isLower c || isUpper c || isDigit c) s.

(** [/[A-Z]{3}/.test(s)]: the pattern is not anchored. *)
Fixpoint recordKeyPattern (s : jsstring) : bool :=
  match s with
  | a :: ((b :: c :: _) as s') =>
      (isUpper a && isUpper b && isUpper c) || recordKeyPattern s'
  | _ => false
  end.

(** ** Errors

    [EOF] is the insufficient-data condition of the buffer reader;
    [HeaderParseError] extends [ParseError].  The payload is the message. *)
Inductive Exn : Type :=
| EOF
| HeaderParseError (message : jsstring)
| ParseError (message : jsstring).

Global Instance Exn_eq_dec : EqDecision Exn.
Proof. solve_decision. Defined.

Definition isEOF (e : Exn) : bool :=
  match e with EOF => true | _ => false end.

(** [e instanceof HeaderParseError] *)
Definition isHeaderParseError (e : Exn) : bool :=
  match e with HeaderParseError _ => true | _ => false end.

(** ** Computations that mutate an object and may throw

    A throw keeps the mutations made before it, as in the source. *)
Inductive Res (S A : Type) : Type :=
| Ok (a : A) (s : S)
| Err (e : Exn) (s : S).
Arguments Ok {S A} a s.
Arguments Err {S A} e s.

Definition M (S A : Type) : Type := S -> Res S A.

Definition ret {S A} (a : A) : M S A := fun s => Ok a s.
Definition bind {S A B} (m : M S A) (k : A -> M S B) : M S B :=
  fun s => match m s with
           | Ok a s' => k a s'
           | Err e s' => Err e s'
           end.
Definition throw {S A} (e : Exn) : M S A := fun s => Err e s.

Definition get {S} : M S S := fun s => Ok s s.

(** [try { m } catch (e) { h e }] *)
Definition tryCatch {S A} (m : M S A) (h : Exn -> M S A) : M S A :=
  fun s => match m s with
           | Ok a s' => Ok a s'
           | Err e s' => h e s'
           end.

(** Run [m] on an object [obj] that is local to the running function: the
    caller's own state is untouched, the final state of the local object is
    handed back with the value, and a throw propagates. *)
Definition onLocal {S T A} (obj : T) (m : M T A) : M S (A * T) :=
  fun s => match m obj with
           | Ok a obj' => Ok (a, obj') s
           | Err e _ => Err e s
           end.

Declare Scope js_scope.
Delimit Scope js_scope with js.
Notation "'let*' x ':=' m 'in' k" := (bind m (fun x => k))
  (at level 10, x name, m at level 100, k at level 200) : js_scope.
Notation "'let*' ' pat ':=' m 'in' k" := (bind m (fun pat => k))
  (at level 10, pat pattern, m at level 100, k at level 200) : js_scope.
Notation "m ;; k" := (bind m (fun _ => k))
  (at level 100, k at level 200, right associativity) : js_scope.
Local Open Scope js_scope.

(** ** Loops run under a bound on their rounds

    A [while (true)] loop is modelled with a bound on the number of its
    rounds.  In the computations below running out of the bound is the
    result [None], which no run of the code has; [Some] holds the outcome
    of a loop that has ended, by returning or by a throw. *)
Definition Rounds (S A : Type) : Type := S -> option (Res S A).

(** The loop has ended with the outcome of [m]. *)
Definition ended {S A} (m : M S A) : Rounds S A := fun s => Some (m s).

(** Run [m], then go on with [k]; a throw of [m] ends the loop. *)
Definition andThen {S A B} (m : M S A) (k : A -> Rounds S B) : Rounds S B :=
  fun s => match m s with
           | Ok a s' => k a s'
           | Err e s' => Some (Err e s')
           end.

(** ** The buffer reader (class StringIO, earlier StringReader) *)
Record StringIO : Type := mkStringIO { data : jsstring; pos : Z }.

Global Instance StringIO_eq_dec : EqDecision StringIO.
Proof. solve_decision. Defined.

Definition avail (r : StringIO) : Z := Z.of_nat (length (data r)) - pos r.

Definition peek (n : Z) : M StringIO jsstring := fun r =>
  if n >? avail r then Err EOF r
  else Ok (substring (data r) (pos r) (pos r + n)) r.

Definition read (n : Z) : M StringIO jsstring :=
  let* res := peek n in
  fun r => Ok res {| data := data r; pos := pos r + n |}.

Definition append (d : jsstring) (r : StringIO) : StringIO :=
  {| data := data r ++ d; pos := pos r |}.

(** ** Data model (shared by the parser variants) *)
Record Header : Type := mkHeader {
  dataElementSeparator : jsstring;
  recordSeparator : jsstring;
  segmentTerminator : jsstring;
  iin : jsstring;
  aamvaVersion : jsstring;
  jurisdictionVersion : jsstring;
  numEntries : Z
}.

(** Fields [type], [offset], [length] of the source. *)
Record SubfileDesignator : Type := mkSubfileDesignator {
  sd_type : jsstring;
  sd_offset : Z;
  sd_length : Z
}.

Global Instance Header_eq_dec : EqDecision Header.
Proof. solve_decision. Defined.
Global Instance SubfileDesignator_eq_dec : EqDecision SubfileDesignator.
Proof. solve_decision. Defined.

Abbreviation SubfileData := (gmap jsstring jsstring).
Abbreviation Subfiles := (gmap jsstring (gmap jsstring jsstring)).

Definition emptyHeader : Header :=
  {| dataElementSeparator := []; recordSeparator := [];
     segmentTerminator := []; iin := []; aamvaVersion := [];
     jurisdictionVersion := []; numEntries := 0 |}.

(** [{ ...h, field }] *)
Definition with_dataElementSeparator (v : jsstring) (h : Header) : Header :=
  mkHeader v (recordSeparator h) (segmentTerminator h) (iin h)
           (aamvaVersion h) (jurisdictionVersion h) (numEntries h).
Definition with_recordSeparator (v : jsstring) (h : Header) : Header :=
  mkHeader (dataElementSeparator h) v (segmentTerminator h) (iin h)
           (aamvaVersion h) (jurisdictionVersion h) (numEntries h).
Definition with_segmentTerminator (v : jsstring) (h : Header) : Header :=
  mkHeader (dataElementSeparator h) (recordSeparator h) v (iin h)
           (aamvaVersion h) (jurisdictionVersion h) (numEntries h).
Definition with_iin (v : jsstring) (h : Header) : Header :=
  mkHeader (dataElementSeparator h) (recordSeparator h) (segmentTerminator h)
           v (aamvaVersion h) (jurisdictionVersion h) (numEntries h).
Definition with_aamvaVersion (v : jsstring) (h : Header) : Header :=
  mkHeader (dataElementSeparator h) (recordSeparator h) (segmentTerminator h)
           (iin h) v (jurisdictionVersion h) (numEntries h).
Definition with_jurisdictionVersion (v : jsstring) (h : Header) : Header :=
  mkHeader (dataElementSeparator h) (recordSeparator h) (segmentTerminator h)
           (iin h) (aamvaVersion h) v (numEntries h).
Definition with_numEntries (v : Z) (h : Header) : Header :=
  mkHeader (dataElementSeparator h) (recordSeparator h) (segmentTerminator h)
           (iin h) (aamvaVersion h) (jurisdictionVersion h) v.

Definition SUBFILE_DESIGNATOR_SIZE : Z := 10.

(** [sep.charCodeAt(0).toString(16)] *)
Definition charCodeHex (sep : jsstring) : jsstring :=
  match sep with
  | c :: _ => toString16 (code c)
  | [] => str "NaN"
  end.

(** [type == "DL" || type == "ID"] *)
Definition recognized (type : jsstring) : bool :=
  bool_decide (type = str "DL") || bool_decide (type = str "ID").

(** Control characters of the sample data. *)
Definition LF : ascii := "010"%char.
Definition CR : ascii := "013"%char.
Definition RS : ascii := "030"%char.

(** ** The ParseResult-threading parser (src/parse.ts, second document) *)
Module Engine.

Record ParseResult : Type := mkParseResult {
  header : Header;
  subfileDesignators : list SubfileDesignator;
  subfiles : Subfiles
}.

Definition with_header (h : Header) (r : ParseResult) : ParseResult :=
  mkParseResult h (subfileDesignators r) (subfiles r).
Definition with_subfileDesignators (l : list SubfileDesignator)
    (r : ParseResult) : ParseResult :=
  mkParseResult (header r) l (subfiles r).
Definition with_subfiles (m : Subfiles) (r : ParseResult) : ParseResult :=
  mkParseResult (header r) (subfileDesignators r) m.

(** The closures of type ParseFunc, one constructor per function literal.
    Every closure captures the parser's [reader]; that object is the
    [reader] of the parser state below.  The two record-scanning closures
    also capture the subfile's own reader and its [records] map: both objects
    are created by [parseSubfile] and are only ever reachable from the one
    closure that stands in the queue, so their state is kept in it. *)
Inductive ParseFunc : Type :=
| ParseHeader
| ExpectAt
| ReadDataElementSeparator
| ReadRecordSeparator
| ReadSegmentTerminator
| ExpectAnsi
| ReadIin
| ReadAamvaVersion
| ReadJurisdictionVersion
| ReadNumEntries
| ParseSubfileDesignators
| ParseSubfileDesignator
| ParseSubfiles
| ParseSubfile (sd : SubfileDesignator)
| MaybeParseRecord (sfReader : StringIO) (sfType : jsstring)
                   (records : SubfileData)
| ParseRecord (sfReader : StringIO) (sfType : jsstring)
              (records : SubfileData).

(** [next] absent and [next: []] are the same to the engine
    ([res.next ?? []]). *)
Record ParseFuncResult : Type := mkParseFuncResult {
  pfr_result : ParseResult;
  pfr_next : list ParseFunc
}.

(** The objects a record-scanning closure works on. *)
Record Scan : Type := mkScan { sfReader : StringIO; records : SubfileData }.

Definition onReader {A} (m : M StringIO A) : M Scan A := fun sc =>
  match m (sfReader sc) with
  | Ok a r => Ok a (mkScan r (records sc))
  | Err e r => Err e (mkScan r (records sc))
  end.

(** [records.set(k, v)] *)
Definition recordsSet (k v : jsstring) : M Scan unit := fun sc =>
  Ok tt (mkScan (sfReader sc) (<[k := v]> (records sc))).

Definition readSeparator : M StringIO jsstring :=
  let* sep := read 1 in
  if invalidSeparatorPattern sep
  then throw (HeaderParseError (str "Invalid separator 0x" ++ charCodeHex sep))
  else ret sep.

Definition headerFuncs : list ParseFunc :=
  [ExpectAt; ReadDataElementSeparator; ReadRecordSeparator;
   ReadSegmentTerminator; ExpectAnsi; ReadIin; ReadAamvaVersion;
   ReadJurisdictionVersion; ReadNumEntries].

Definition updHeader (f : Header -> Header) (result : ParseResult)
    : ParseFuncResult :=
  mkParseFuncResult (with_header (f (header result)) result) [].

Definition parseSubfileDesignator (result : ParseResult)
    : M StringIO ParseFuncResult :=
  let* block := peek SUBFILE_DESIGNATOR_SIZE in
  let* '(fields, _) :=
    onLocal (mkStringIO block 0)
      (let* type := read 2 in
       let* offset := read 4 in
       let* length := read 4 in
       ret (type, parseInt offset, parseInt length)) in
  match fields with
  | (_, None, _) => throw (ParseError (str "Invalid offset 'NaN"))
  | (_, Some _, None) => throw (ParseError (str "Invalid length 'NaN"))
  | (type, Some offset, Some length) =>
      read SUBFILE_DESIGNATOR_SIZE ;;
      ret (mkParseFuncResult
             (with_subfileDesignators
                (subfileDesignators result
                   ++ [mkSubfileDesignator type offset length]) result)
             [])
  end.

Definition parseSubfile (result : ParseResult) (sd : SubfileDesignator)
    : M StringIO ParseFuncResult :=
  let* reader := get in
  let copied := mkStringIO (data reader) (sd_offset sd) in
  let* '(snapshot, _) := onLocal copied (peek (sd_length sd)) in
  if recognized (sd_type sd) then
    let* '(_, sfReader) := onLocal (mkStringIO snapshot 0) (read 2) in
    ret (mkParseFuncResult result [MaybeParseRecord sfReader (sd_type sd) ∅])
  else ret (mkParseFuncResult result []).

(** [new Map(result.subfiles).set(sfType, records)] *)
Definition commitSubfile (result : ParseResult) (sfType : jsstring)
    (records : SubfileData) : ParseFuncResult :=
  mkParseFuncResult
    (with_subfiles (<[sfType := records]> (subfiles result)) result) [].

Definition maybeParseRecord (result : ParseResult) (sfType : jsstring)
    : M Scan ParseFuncResult :=
  let* peeked :=
    tryCatch (let* c := onReader (peek 1) in ret (Some c))
             (fun e => if isEOF e then ret None else throw e) in
  match peeked with
  | None =>
      (* eof, treat as no more records *)
      let* sc := get in
      ret (commitSubfile result sfType (records sc))
  | Some next =>
      if bool_decide (next = segmentTerminator (header result)) then
        (* no more records *)
        onReader (read 1) ;;
        let* sc := get in
        ret (commitSubfile result sfType (records sc))
      else
        (* read next record *)
        let* sc := get in
        ret (mkParseFuncResult result
               [ParseRecord (sfReader sc) sfType (records sc)])
  end.

(** The [while (true)] of parseRecord.  Each round that does not return
    advances [copied] by one, and [copied.peek(1)] throws once nothing is
    left, so [avail copied + 1] rounds are enough; the [O] branch is not
    reached from [parseRecord] (see [parseRecord_loop_fuel]). *)
Fixpoint parseRecord_loop (fuel : nat) (result : ParseResult)
    (sfType key val : jsstring) (copied : StringIO)
    : M Scan ParseFuncResult :=
  match fuel with
  | O => throw EOF
  | S fuel' =>
      let* '(next, _) := onLocal copied (peek 1) in
      if bool_decide (next = segmentTerminator (header result))
         || bool_decide (next = dataElementSeparator (header result))
      then
        (* end of record *)
        recordsSet key val ;;
        onReader (read (Z.of_nat (length key) + Z.of_nat (length val))) ;;
        (if bool_decide (next = dataElementSeparator (header result))
         then (* read the data element separator *)
              onReader (read 1) ;; ret tt
         else ret tt) ;;
        let* sc := get in
        ret (mkParseFuncResult result
               [MaybeParseRecord (sfReader sc) sfType (records sc)])
      else
        let* '(_, copied') := onLocal copied (read 1) in
        parseRecord_loop fuel' result sfType key (val ++ next) copied'
  end.

(** The [while (true)] of parseRecord again, with the bound on the rounds
    told apart from every outcome. *)
Fixpoint parseRecord_rounds (fuel : nat) (result : ParseResult)
    (sfType key val : jsstring) (copied : StringIO)
    : Rounds Scan ParseFuncResult :=
  match fuel with
  | O => fun _ => None
  | S fuel' =>
      andThen (onLocal copied (peek 1)) (fun '(next, _) =>
      if bool_decide (next = segmentTerminator (header result))
         || bool_decide (next = dataElementSeparator (header result))
      then
        (* end of record *)
        ended
          (recordsSet key val ;;
           onReader (read (Z.of_nat (length key) + Z.of_nat (length val))) ;;
           (if bool_decide (next = dataElementSeparator (header result))
            then (* read the data element separator *)
                 onReader (read 1) ;; ret tt
            else ret tt) ;;
           let* sc := get in
           ret (mkParseFuncResult result
                  [MaybeParseRecord (sfReader sc) sfType (records sc)]))
      else
        andThen (onLocal copied (read 1)) (fun '(_, copied') =>
        parseRecord_rounds fuel' result sfType key (val ++ next) copied'))
  end.

Definition parseRecord (result : ParseResult) (sfType : jsstring)
    : M Scan ParseFuncResult :=
  let* sc := get in
  let* '(key, copied) :=
    onLocal (mkStringIO (data (sfReader sc)) (pos (sfReader sc))) (read 3) in
  if negb (recordKeyPattern key)
  then throw (ParseError (str "Invalid record: '" ++ key ++ str "'"))
  else parseRecord_loop (Z.to_nat (avail copied) + 1) result sfType key []
                        copied.

(** What calling the closure [cur(result)] does: it returns, or it throws
    and leaves the closure (with the objects it captured) and the reader in
    the state they had at the throw. *)
Inductive Outcome : Type :=
| Returned (res : ParseFuncResult) (reader' : StringIO)
| Threw (e : Exn) (cur' : ParseFunc) (reader' : StringIO).

(** A closure whose body works on the parser's reader. *)
Definition onParserReader (cur : ParseFunc) (m : M StringIO ParseFuncResult)
    (reader : StringIO) : Outcome :=
  match m reader with
  | Ok res reader' => Returned res reader'
  | Err e reader' => Threw e cur reader'
  end.

(** A closure whose body works on the subfile reader and records map it
    captured; [rebuild] is that same closure over the objects' new state. *)
Definition onCaptured (rebuild : StringIO -> SubfileData -> ParseFunc)
    (m : M Scan ParseFuncResult) (sc : Scan) (reader : StringIO) : Outcome :=
  match m sc with
  | Ok res _ => Returned res reader
  | Err e sc' => Threw e (rebuild (sfReader sc') (records sc')) reader
  end.

Definition call (cur : ParseFunc) (result : ParseResult) (reader : StringIO)
    : Outcome :=
  match cur with
  | ParseHeader =>
      onParserReader cur (ret (mkParseFuncResult result headerFuncs)) reader
  | ExpectAt =>
      onParserReader cur
        (let* a := read 1 in
         if bool_decide (a = str "@") then ret (mkParseFuncResult result [])
         else throw (HeaderParseError (str "Expected '@'"))) reader
  | ReadDataElementSeparator =>
      onParserReader cur
        (let* sep := readSeparator in
         ret (updHeader (with_dataElementSeparator sep) result)) reader
  | ReadRecordSeparator =>
      onParserReader cur
        (let* sep := readSeparator in
         ret (updHeader (with_recordSeparator sep) result)) reader
  | ReadSegmentTerminator =>
      onParserReader cur
        (let* sep := readSeparator in
         ret (updHeader (with_segmentTerminator sep) result)) reader
  | ExpectAnsi =>
      onParserReader cur
        (let* a := read 5 in
         if bool_decide (a = str "ANSI ")
         then ret (mkParseFuncResult result [])
         else throw (ParseError (str "Invalid header"))) reader
  | ReadIin =>
      onParserReader cur
        (let* v := read 6 in ret (updHeader (with_iin v) result)) reader
  | ReadAamvaVersion =>
      onParserReader cur
        (let* v := read 2 in ret (updHeader (with_aamvaVersion v) result))
        reader
  | ReadJurisdictionVersion =>
      onParserReader cur
        (let* v := read 2 in
         ret (updHeader (with_jurisdictionVersion v) result)) reader
  | ReadNumEntries =>
      onParserReader cur
        (let* v := read 2 in
         match parseInt v with
         | None => throw (ParseError (str "Invalid number of entries: 'NaN'"))
         | Some n => ret (updHeader (with_numEntries n) result)
         end) reader
  | ParseSubfileDesignators =>
      onParserReader cur
        (ret (mkParseFuncResult result
                (replicate (Z.to_nat (numEntries (header result)))
                           ParseSubfileDesignator))) reader
  | ParseSubfileDesignator =>
      onParserReader cur (parseSubfileDesignator result) reader
  | ParseSubfiles =>
      onParserReader cur
        (ret (mkParseFuncResult result
                (map ParseSubfile (subfileDesignators result)))) reader
  | ParseSubfile sd => onParserReader cur (parseSubfile result sd) reader
  | MaybeParseRecord sf sfType recs =>
      onCaptured (fun sf' recs' => MaybeParseRecord sf' sfType recs')
                 (maybeParseRecord result sfType) (mkScan sf recs) reader
  | ParseRecord sf sfType recs =>
      onCaptured (fun sf' recs' => ParseRecord sf' sfType recs')
                 (parseRecord result sfType) (mkScan sf recs) reader
  end.

(** class _Parser *)
Record Parser : Type := mkParser {
  reader : StringIO;
  funcs : list ParseFunc;
  result : ParseResult
}.

Definition initialResult : ParseResult :=
  mkParseResult emptyHeader [] ∅.

Definition makeDLIDParser (reader : StringIO) : Parser :=
  mkParser reader [ParseHeader; ParseSubfileDesignators; ParseSubfiles]
           initialResult.

(** How a call of [parse()] ends: it returns [this.result], or it throws,
    or (in the model only) the bound on the number of closure calls is used
    up.  Each case carries the parser object as it then is. *)
Inductive Run : Type :=
| Done (p : Parser)
| Raised (e : Exn) (p : Parser)
| Paused (p : Parser).

Fixpoint parse (fuel : nat) (p : Parser) : Run :=
  match funcs p with
  | [] => Done p
  | cur :: rest =>
      match fuel with
      | O => Paused p
      | S fuel' =>
          match call cur (result p) (reader p) with
          | Returned res reader' =>
              parse fuel' (mkParser reader' (pfr_next res ++ rest)
                                    (pfr_result res))
          | Threw e cur' reader' =>
              Raised e (mkParser reader' (cur' :: rest) (result p))
          end
      end
  end.

(** [parser.reader.append(chunk)] *)
Definition feed (chunk : jsstring) (p : Parser) : Parser :=
  mkParser (append chunk (reader p)) (funcs p) (result p).

(** The caller's loop (tests, input capture): append a chunk, call
    [parse()], and on EOF wait for the next chunk.  The value is the outcome
    of the last [parse()] call made; any other throw ends the loop. *)
Fixpoint feedAll (fuel : nat) (chunks : list jsstring) (p : Parser)
    (last : Run) : Run :=
  match chunks with
  | [] => last
  | chunk :: chunks' =>
      match parse fuel (feed chunk p) with
      | Done p' => feedAll fuel chunks' p' (Done p')
      | Raised EOF p' => feedAll fuel chunks' p' (Raised EOF p')
      | r => r
      end
  end.

(** A parser over an empty buffer, as the input capture creates it. *)
Definition fresh : Parser := makeDLIDParser (mkStringIO [] 0).

(** Feed the chunks to a new parser; before the first chunk the last
    outcome is that of [parse()] on the empty buffer. *)
Definition parseChunks (fuel : nat) (chunks : list jsstring) : Run :=
  feedAll fuel chunks fresh (parse fuel fresh).

(** *** Vocabulary of the properties below *)

Definition finished (r : Run) : Prop :=
  match r with Paused _ => False | _ => True end.

(** Every subfile closure in the queue is for a designator of the result. *)
Definition queued_known (p : Parser) : Prop :=
  forall sd, ParseSubfile sd ∈ funcs p -> sd ∈ subfileDesignators (result p).

Definition lengths_nonneg (r : ParseResult) : Prop :=
  forall sd, sd ∈ subfileDesignators r -> 0 <= sd_length sd.

(** The separator closures of the header. *)
Definition separatorFunc (cur : ParseFunc) : Prop :=
  cur = ReadDataElementSeparator \/ cur = ReadRecordSeparator
  \/ cur = ReadSegmentTerminator.

(** The header field a separator closure sets. *)
Definition setSeparator (cur : ParseFunc) (sep : jsstring) (h : Header)
    : Header :=
  match cur with
  | ReadDataElementSeparator => with_dataElementSeparator sep h
  | ReadRecordSeparator => with_recordSeparator sep h
  | ReadSegmentTerminator => with_segmentTerminator sep h
  | _ => h
  end.

Definition stateOf (r : Run) : Parser :=
  match r with Done p | Raised _ p | Paused p => p end.

(** The type a record-scanning closure files its records under. *)
Definition scansRecognized (cur : ParseFunc) : Prop :=
  match cur with
  | MaybeParseRecord _ sfType _ | ParseRecord _ sfType _ =>
      recognized sfType = true
  | _ => True
  end.

Definition keysRecognized (r : ParseResult) : Prop :=
  forall ty, is_Some (subfiles r !! ty) -> recognized ty = true.

Definition typesRecognized (p : Parser) : Prop :=
  keysRecognized (result p) /\ Forall scansRecognized (funcs p).

(** [x] occurs in [s] as a run of consecutive characters. *)
Definition infixOf (x s : jsstring) : Prop := exists a b, s = a ++ x ++ b.

Definition entriesWithin (snapshot : jsstring) (recs : SubfileData) : Prop :=
  forall k v, recs !! k = Some v -> infixOf k snapshot /\ infixOf v snapshot.

(** Two outcomes of [parse()] that differ at most in the parser's reader. *)
Definition sameButReader (r1 r2 : Run) : Prop :=
  match r1, r2 with
  | Done p1, Done p2 | Paused p1, Paused p2 =>
      funcs p1 = funcs p2 /\ result p1 = result p2
  | Raised e1 p1, Raised e2 p2 =>
      e1 = e2 /\ funcs p1 = funcs p2 /\ result p1 = result p2
  | _, _ => False
  end.

Definition isScan (cur : ParseFunc) : Prop :=
  match cur with
  | MaybeParseRecord _ _ _ | ParseRecord _ _ _ => True
  | _ => False
  end.

(** The queue holds one record-scanning closure over the snapshot. *)
Definition scanning (snapshot sfType : jsstring) (fs : list ParseFunc) : Prop :=
  exists sf recs,
    (fs = [MaybeParseRecord sf sfType recs] \/ fs = [ParseRecord sf sfType recs])
    /\ data sf = snapshot /\ 0 <= pos sf /\ entriesWithin snapshot recs.

Definition sampleBody : jsstring :=
  str "DLDAQT64235789" ++ [LF] ++ str "DCSSAMPLE" ++ [CR].

Definition sampleRecords : SubfileData :=
  <[str "DCS" := str "SAMPLE"]> (<[str "DAQ" := str "T64235789"]> ∅).

Definition leadingSeparatorInput : jsstring :=
  str "@" ++ [LF; RS; CR] ++ str "ANSI 636000110001" ++ str "DL00310026"
  ++ str "DL" ++ [LF] ++ str "DAQT64235789" ++ [LF] ++ str "DCSSAMPLE" ++ [CR].

(** The 21 characters of a header. *)
Definition headerText (s1 s2 s3 : ascii) (iin av jv ne : jsstring) : jsstring :=
  str "@" ++ [s1; s2; s3] ++ str "ANSI " ++ iin ++ av ++ jv ++ ne.

(** A 10-character directory entry and the designator it stands for. *)
Inductive blockOf : jsstring -> SubfileDesignator -> Prop :=
| blockOf_intro type offset length o l :
    List.length type = 2%nat -> List.length offset = 4%nat ->
    List.length length = 4%nat ->
    parseInt offset = Some o -> parseInt length = Some l ->
    blockOf (type ++ offset ++ length) (mkSubfileDesignator type o l).

(** Closures of the subfile phase. *)
Definition inBody (cur : ParseFunc) : Prop :=
  match cur with
  | ParseSubfiles | ParseSubfile _ | MaybeParseRecord _ _ _
  | ParseRecord _ _ _ => True
  | _ => False
  end.

(** One "DL" entry with offset 60 and length field "-006"; the 6
    characters before offset 60 are "XXABC<CR>". *)
Definition negativeLengthInput : jsstring :=
  str "@" ++ [LF; RS; CR] ++ str "ANSI 636000110001" ++ str "DL0060-006"
  ++ str "......................." ++ str "XXABC" ++ [CR].

(** *** Bounds on the number of closure calls

    [entryBound]: the largest entry count the header holds now or may hold
    later (a two-character field reads as 99 at most).  [designatorBound]:
    the most designators the result may hold once the queue has run.
    [cost D E S cur]: the most calls the closure [cur] stands for, itself
    included, when snapshots have at most [D] characters. *)
Definition entryBound (r : ParseResult) : nat :=
  Z.to_nat (Z.max 99 (numEntries (header r))).

Definition designatorsToCome (E : nat) (cur : ParseFunc) : nat :=
  match cur with
  | ParseSubfileDesignators => E
  | ParseSubfileDesignator => 1
  | _ => 0
  end.

Definition designatorBound (p : Parser) : nat :=
  length (subfileDesignators (result p))
  + sum_list_with (designatorsToCome (entryBound (result p))) (funcs p).

Definition cost (D E S : nat) (cur : ParseFunc) : nat :=
  match cur with
  | ParseHeader => 10
  | ParseSubfileDesignators => 1 + E
  | ParseSubfiles => 1 + S * (2 * D + 3)
  | ParseSubfile _ => 2 * D + 3
  | MaybeParseRecord sf _ _ => 2 * Z.to_nat (avail sf) + 2
  | ParseRecord sf _ _ => 2 * Z.to_nat (avail sf) + 1
  | _ => 1
  end.

Definition budget (p : Parser) : nat :=
  sum_list_with
    (cost (length (data (reader p))) (entryBound (result p))
          (designatorBound p))
    (funcs p).

(** *** Where HeaderParseError can come from

    The closures of the marker and of the three separators, and those that
    follow them in the queue of a new parser. *)
Definition frontFuncs : list ParseFunc :=
  [ExpectAt; ReadDataElementSeparator; ReadRecordSeparator;
   ReadSegmentTerminator].

Definition backFuncs : list ParseFunc :=
  [ExpectAnsi; ReadIin; ReadAamvaVersion; ReadJurisdictionVersion;
   ReadNumEntries; ParseSubfileDesignators; ParseSubfiles].

Definition pastFront (cur : ParseFunc) : Prop :=
  match cur with
  | ParseHeader | ExpectAt | ReadDataElementSeparator | ReadRecordSeparator
  | ReadSegmentTerminator => False
  | _ => True
  end.

(** How far a parser has come with the marker and the separators: it is
    new, or [k] of the four characters have been read, or all four. *)
Definition headerShape (p : Parser) : Prop :=
  (funcs p = [ParseHeader; ParseSubfileDesignators; ParseSubfiles]
   /\ pos (reader p) = 0)
  \/ (exists k, (k <= 3)%nat /\ funcs p = drop k frontFuncs ++ backFuncs
                /\ pos (reader p) = Z.of_nat k)
  \/ Forall pastFront (funcs p).

(** What a throw of HeaderParseError tells: the cursor stands just after
    one of the first four characters, the one that was refused. *)
Definition refusedAt (p : Parser) : Prop :=
  let q := pos (reader p) in
  let x := substring (data (reader p)) (q - 1) q in
  1 <= q <= 4 /\ q <= Z.of_nat (length (data (reader p)))
  /\ if bool_decide (q = 1) then x <> str "@"
     else invalidSeparatorPattern x = true.

(** What the end of a [parse()] call tells about the marker and the
    separators. *)
Definition outcomeShape (r : Run) : Prop :=
  match r with
  | Done p' | Paused p' => headerShape p'
  | Raised EOF p' =>
      headerShape p'
      /\ ((4 <= length (data (reader p')))%nat -> Forall pastFront (funcs p'))
  | Raised (HeaderParseError _) p' => refusedAt p'
  | Raised (ParseError _) p' => Forall pastFront (funcs p')
  end.

End Engine.

(** ** The append-driven parser (src/parse.ts, first document)

    Here [EOF] extends [ParseError], errors carry no message, and the steps
    mutate the parser object in place. *)
Module Mutable.

(** [parseRecord(header, reader)]; the state is [reader]. *)
Fixpoint parseRecord_loop (fuel : nat) (header : Header) (val : jsstring)
    (copied : StringIO) : M StringIO (jsstring * StringIO) :=
  match fuel with
  | O => throw EOF
  | S fuel' =>
      let* '(next, _) := onLocal copied (peek 1) in
      if bool_decide (next = dataElementSeparator header)
         || bool_decide (next = segmentTerminator header)
      then ret (val, copied)
      else
        let* '(c, copied') := onLocal copied (read 1) in
        parseRecord_loop fuel' header (val ++ c) copied'
  end.

Definition parseRecord (header : Header) : M StringIO (jsstring * jsstring) :=
  let* reader := get in
  let* '(key, copied) :=
    onLocal (mkStringIO (data reader) (pos reader)) (read 3) in
  if negb (recordKeyPattern key) then throw (ParseError [])
  else
    let* '(val, copied') :=
      parseRecord_loop (Z.to_nat (avail copied) + 1) header [] copied in
    (* reader.pos = copied.pos *)
    fun r => Ok (key, val) (mkStringIO (data r) (pos copied')).

(** The [while (true)] of parseSubfile; the state is [sfReader].  Every
    round that continues moves [sfReader] forward, so [avail sfReader + 1]
    rounds are enough. *)
Fixpoint parseSubfile_loop (fuel : nat) (header : Header)
    (records : SubfileData) : M StringIO SubfileData :=
  match fuel with
  | O => throw EOF
  | S fuel' =>
      let* next := peek 1 in
      if bool_decide (next = segmentTerminator header) then
        read 1 ;; ret records
      else if bool_decide (next = dataElementSeparator header) then
        read 1 ;; parseSubfile_loop fuel' header records
      else
        let* '(k, v) := parseRecord header in
        parseSubfile_loop fuel' header (<[k := v]> records)
  end.

(** The two [while (true)] loops again, with the bound on the rounds told
    apart from every outcome. *)
Fixpoint parseRecord_rounds (fuel : nat) (header : Header) (val : jsstring)
    (copied : StringIO) : Rounds StringIO (jsstring * StringIO) :=
  match fuel with
  | O => fun _ => None
  | S fuel' =>
      andThen (onLocal copied (peek 1)) (fun '(next, _) =>
      if bool_decide (next = dataElementSeparator header)
         || bool_decide (next = segmentTerminator header)
      then ended (ret (val, copied))
      else
        andThen (onLocal copied (read 1)) (fun '(c, copied') =>
        parseRecord_rounds fuel' header (val ++ c) copied'))
  end.

Fixpoint parseSubfile_rounds (fuel : nat) (header : Header)
    (records : SubfileData) : Rounds StringIO SubfileData :=
  match fuel with
  | O => fun _ => None
  | S fuel' =>
      andThen (peek 1) (fun next =>
      if bool_decide (next = segmentTerminator header) then
        ended (read 1 ;; ret records)
      else if bool_decide (next = dataElementSeparator header) then
        andThen (read 1) (fun _ => parseSubfile_rounds fuel' header records)
      else
        andThen (parseRecord header) (fun '(k, v) =>
        parseSubfile_rounds fuel' header (<[k := v]> records)))
  end.

(** The scan of a snapshot, from the [sfReader.read(2)] on. *)
Definition scanSubfile (header : Header) : M StringIO SubfileData :=
  read 2 ;;
  let* sfReader := get in
  parseSubfile_loop (Z.to_nat (avail sfReader) + 1) header ∅.

Definition parseSubfile (header : Header) (sd : SubfileDesignator)
    : M StringIO SubfileData :=
  let* reader := get in
  let copied := mkStringIO (data reader) (sd_offset sd) in
  let* '(snapshot, _) := onLocal copied (peek (sd_length sd)) in
  let* '(records, _) := onLocal (mkStringIO snapshot 0) (scanSubfile header) in
  ret records.

Definition parseSubfileDesignator : M StringIO SubfileDesignator :=
  let* block := peek SUBFILE_DESIGNATOR_SIZE in
  let* '(fields, _) :=
    onLocal (mkStringIO block 0)
      (let* type := read 2 in
       let* offset := read 4 in
       let* length := read 4 in
       ret (type, parseInt offset, parseInt length)) in
  match fields with
  | (type, Some offset, Some length) =>
      read SUBFILE_DESIGNATOR_SIZE ;;
      ret (mkSubfileDesignator type offset length)
  | _ => throw (ParseError [])
  end.

Definition readSeparator : M StringIO jsstring :=
  let* s := read 1 in
  if invalidSeparatorPattern s then throw (ParseError []) else ret s.

(** The closures held in [this.steps]. *)
Inductive Step : Type :=
| ExpectAt
| ReadDataElementSeparator
| ReadRecordSeparator
| ReadSegmentTerminator
| ExpectAnsi
| ReadIin
| ReadAamvaVersion
| ReadJurisdictionVersion
| ReadNumEntries
| PushDesignatorSteps
| DesignatorStep
| SubfileStep (sd : SubfileDesignator).

(** class _Parser; [error] is [undefined] or the caught error object. *)
Record Parser : Type := mkParser {
  reader : StringIO;
  error : option Exn;
  header : Header;
  subfileDesignators : list SubfileDesignator;
  subfiles : Subfiles;
  done : bool;
  steps : list Step
}.

Definition with_reader (r : StringIO) (p : Parser) : Parser :=
  mkParser r (error p) (header p) (subfileDesignators p) (subfiles p)
           (done p) (steps p).
Definition with_error (e : option Exn) (p : Parser) : Parser :=
  mkParser (reader p) e (header p) (subfileDesignators p) (subfiles p)
           (done p) (steps p).
Definition with_header (h : Header) (p : Parser) : Parser :=
  mkParser (reader p) (error p) h (subfileDesignators p) (subfiles p)
           (done p) (steps p).
Definition with_subfileDesignators (l : list SubfileDesignator) (p : Parser)
    : Parser :=
  mkParser (reader p) (error p) (header p) l (subfiles p) (done p) (steps p).
Definition with_subfiles (m : Subfiles) (p : Parser) : Parser :=
  mkParser (reader p) (error p) (header p) (subfileDesignators p) m
           (done p) (steps p).
Definition with_done (b : bool) (p : Parser) : Parser :=
  mkParser (reader p) (error p) (header p) (subfileDesignators p)
           (subfiles p) b (steps p).
Definition with_steps (l : list Step) (p : Parser) : Parser :=
  mkParser (reader p) (error p) (header p) (subfileDesignators p)
           (subfiles p) (done p) l.

(** Run a computation on [this.reader]. *)
Definition onReader {A} (m : M StringIO A) : M Parser A := fun p =>
  match m (reader p) with
  | Ok a r => Ok a (with_reader r p)
  | Err e r => Err e (with_reader r p)
  end.

Definition modify (f : Parser -> Parser) : M Parser unit :=
  fun p => Ok tt (f p).

Definition setHeader (f : Header -> Header) : M Parser unit :=
  modify (fun p => with_header (f (header p)) p).

(** Calling the closure [step()]. *)
Definition runStep (step : Step) : M Parser unit :=
  match step with
  | ExpectAt =>
      let* a := onReader (read 1) in
      if bool_decide (a = str "@") then ret tt else throw (ParseError [])
  | ReadDataElementSeparator =>
      let* s := onReader readSeparator in
      setHeader (with_dataElementSeparator s)
  | ReadRecordSeparator =>
      let* s := onReader readSeparator in
      setHeader (with_recordSeparator s)
  | ReadSegmentTerminator =>
      let* s := onReader readSeparator in
      setHeader (with_segmentTerminator s)
  | ExpectAnsi =>
      let* a := onReader (read 5) in
      if bool_decide (a = str "ANSI ") then ret tt else throw (ParseError [])
  | ReadIin =>
      let* v := onReader (read 6) in setHeader (with_iin v)
  | ReadAamvaVersion =>
      let* v := onReader (read 2) in setHeader (with_aamvaVersion v)
  | ReadJurisdictionVersion =>
      let* v := onReader (read 2) in setHeader (with_jurisdictionVersion v)
  | ReadNumEntries =>
      let* v := onReader (read 2) in
      match parseInt v with
      | None => throw (ParseError [])
      | Some num => setHeader (with_numEntries num)
      end
  | PushDesignatorSteps =>
      modify (fun p =>
        with_steps (steps p ++ replicate (Z.to_nat (numEntries (header p)))
                                         DesignatorStep) p)
  | DesignatorStep =>
      let* sd := onReader parseSubfileDesignator in
      modify (fun p =>
        with_subfileDesignators (subfileDesignators p ++ [sd]) p) ;;
      modify (fun p => with_steps (steps p ++ [SubfileStep sd]) p)
  | SubfileStep sd =>
      if recognized (sd_type sd) then
        let* p := get in
        let* parsed := onReader (parseSubfile (header p) sd) in
        modify (fun p => with_subfiles (<[sd_type sd := parsed]> (subfiles p)) p)
      else
        let* p := get in
        let sdReader := mkStringIO (data (reader p)) (sd_offset sd) in
        onLocal sdReader (peek (sd_length sd)) ;;
        modify (fun p => with_subfiles (<[sd_type sd := ∅]> (subfiles p)) p)
  end.

Definition initialSteps : list Step :=
  [ExpectAt; ReadDataElementSeparator; ReadRecordSeparator;
   ReadSegmentTerminator; ExpectAnsi; ReadIin; ReadAamvaVersion;
   ReadJurisdictionVersion; ReadNumEntries; PushDesignatorSteps].

Definition makeDLIDParser (initialData : jsstring) : Parser :=
  mkParser (mkStringIO initialData 0) None emptyHeader [] ∅ false
           initialSteps.

Definition updateParseOnce : M Parser unit :=
  let* p := get in
  match steps p with
  | step :: _ =>
      runStep step ;;
      (* this.steps.splice(0, 1) *)
      modify (fun p => with_steps (tail (steps p)) p)
  | [] => modify (with_done true)
  end.

(** The [while (!this.done && !this.error)] of updateParse; [None] when the
    bound on the number of rounds is used up. *)
Fixpoint updateParse_loop (fuel : nat) (p : Parser) : option (Res Parser unit) :=
  if negb (done p) && negb (bool_decide (is_Some (error p))) then
    match fuel with
    | O => None
    | S fuel' =>
        match updateParseOnce p with
        | Ok _ p' => updateParse_loop fuel' p'
        | Err e p' => Some (Err e p')
        end
    end
  else Some (Ok tt p).

Definition updateParse (fuel : nat) (p : Parser) : option (bool * Parser) :=
  if bool_decide (is_Some (error p)) then Some (false, p)
  else
    match updateParse_loop fuel p with
    | None => None
    | Some (Ok _ p') => Some (false, p')
    | Some (Err e p') =>
        if isEOF e then Some (true, p')
        else Some (false, with_error (Some e) p')
    end.

(** [this.reader.append(d)] *)
Definition grow (d : jsstring) (p : Parser) : Parser :=
  with_reader (append d (reader p)) p.

(** [append(data): boolean] *)
Definition append (fuel : nat) (d : jsstring) (p : Parser)
    : option (bool * Parser) :=
  if bool_decide (is_Some (error p)) || done p then Some (false, p)
  else updateParse fuel (grow d p).

(** The caller's successive [append] calls; the value lists what each call
    returned. *)
Fixpoint appendAll (fuel : nat) (chunks : list jsstring) (p : Parser)
    : option (list bool * Parser) :=
  match chunks with
  | [] => Some ([], p)
  | chunk :: chunks' =>
      match append fuel chunk p with
      | None => None
      | Some (waiting, p') =>
          match appendAll fuel chunks' p' with
          | None => None
          | Some (rest, p'') => Some (waiting :: rest, p'')
          end
      end
  end.

(** Every subfile step in the queue is for a designator already found. *)
Definition queued_known (p : Parser) : Prop :=
  forall sd, SubfileStep sd ∈ steps p -> sd ∈ subfileDesignators p.

(** No designator found so far has a negative length. *)
Definition lengths_nonneg (p : Parser) : Prop :=
  forall sd, sd ∈ subfileDesignators p -> 0 <= sd_length sd.

(** [m] leaves [this.error] as it was, whether it returns or throws. *)
Definition keepsError {A} (m : M Mutable.Parser A) : Prop :=
  forall p, match m p with
            | Ok _ p' | Err _ p' => Mutable.error p' = Mutable.error p
            end.

(** *** Bounds on the number of rounds of [updateParse]

    [cost E step]: the rounds the step stands for, itself and the steps it
    pushes included, when the header's entry count is at most [E]. *)
Definition entryBound (p : Parser) : nat :=
  Z.to_nat (Z.max 99 (numEntries (header p))).

Definition cost (E : nat) (step : Step) : nat :=
  match step with
  | PushDesignatorSteps => 1 + 2 * E
  | DesignatorStep => 2
  | _ => 1
  end.

(** One more round sets [done]. *)
Definition budget (p : Parser) : nat :=
  sum_list_with (cost (entryBound p)) (steps p) + 1.

End Mutable.

(** ** The oldest parser (unnamed part 2): its one-shot header parser; its
    parseRecord and parseSubfile are those of [Mutable], word for word. *)
Module Oldest.

Definition HEADER_SIZE : Z := 21.

(** [s.charAt(i)] *)
Definition charAt (s : jsstring) (i : nat) : jsstring :=
  match s !! i with Some c => [c] | None => [] end.

Definition parseHeader : M StringIO Header :=
  (* quickly check the first two chars to fail immediately *)
  let* check := peek 2 in
  if negb (bool_decide (charAt check 0 = str "@"))
     || badHeaderPattern (charAt check 1)
  then throw (ParseError [])
  else
    let* block := peek HEADER_SIZE in
    let* '(parsed, _) :=
      onLocal (mkStringIO block 0)
        (read 1 ;;
         let* dataElementSeparator := read 1 in
         let* recordSeparator := read 1 in
         let* segmentTerminator := read 1 in
         let* ansi := read 5 in
         if negb (bool_decide (ansi = str "ANSI ")) then throw (ParseError [])
         else
           let* iin := read 6 in
           let* aamvaVersion := read 2 in
           let* jurisdictionVersion := read 2 in
           let* num := read 2 in
           match parseInt num with
           | None => throw (ParseError [])
           | Some numEntries =>
               ret (mkHeader dataElementSeparator recordSeparator
                             segmentTerminator iin aamvaVersion
                             jurisdictionVersion numEntries)
           end) in
    read HEADER_SIZE ;;
    ret parsed.

(** class _Parser of the oldest parser.  [header] is [undefined] until the
    header has been parsed.  [parseSubfileDesignator] and [parseSubfile] are
    those of the append-driven parser, word for word.  The keys of
    [subfiles] are subfile types: [sd.type in this.subfiles] is membership
    in the map (no property of Object.prototype has a name of two
    characters). *)
Record Parser : Type := mkParser {
  reader : StringIO;
  error : option Exn;
  header : option Header;
  subfileDesignators : list SubfileDesignator;
  subfiles : Subfiles;
  nSubfiles : Z;
  done : bool
}.

Definition with_reader (r : StringIO) (p : Parser) : Parser :=
  mkParser r (error p) (header p) (subfileDesignators p) (subfiles p)
           (nSubfiles p) (done p).
Definition with_error (e : option Exn) (p : Parser) : Parser :=
  mkParser (reader p) e (header p) (subfileDesignators p) (subfiles p)
           (nSubfiles p) (done p).
Definition with_header (h : option Header) (p : Parser) : Parser :=
  mkParser (reader p) (error p) h (subfileDesignators p) (subfiles p)
           (nSubfiles p) (done p).
Definition with_subfileDesignators (l : list SubfileDesignator) (p : Parser)
    : Parser :=
  mkParser (reader p) (error p) (header p) l (subfiles p) (nSubfiles p)
           (done p).
(** [this.subfiles[type] = records; this.nSubfiles++] *)
Definition fileSubfile (type : jsstring) (records : SubfileData) (p : Parser)
    : Parser :=
  mkParser (reader p) (error p) (header p) (subfileDesignators p)
           (<[type := records]> (subfiles p)) (nSubfiles p + 1) (done p).
Definition with_done (b : bool) (p : Parser) : Parser :=
  mkParser (reader p) (error p) (header p) (subfileDesignators p)
           (subfiles p) (nSubfiles p) b.

Definition makeDLIDParser (initialData : jsstring) : Parser :=
  mkParser (mkStringIO initialData 0) None None [] ∅ 0 false.

(** Run a computation on [this.reader]. *)
Definition onReader {A} (m : M StringIO A) : M Parser A := fun p =>
  match m (reader p) with
  | Ok a r => Ok a (with_reader r p)
  | Err e r => Err e (with_reader r p)
  end.

Definition modify (f : Parser -> Parser) : M Parser unit :=
  fun p => Ok tt (f p).

(** The body of [for (const sd of this.subfileDesignators)]. *)
Definition parseMissingSubfile (h : Header) (sd : SubfileDesignator)
    : M Parser unit :=
  let* p := get in
  if bool_decide (is_Some (subfiles p !! sd_type sd)) then ret tt
  else if recognized (sd_type sd) then
    let* parsed := onReader (Mutable.parseSubfile h sd) in
    modify (fileSubfile (sd_type sd) parsed)
  else
    (* skip *)
    let sdReader := mkStringIO (data (reader p)) (sd_offset sd) in
    onLocal sdReader (peek (sd_length sd)) ;;
    modify (fileSubfile (sd_type sd) ∅).

Fixpoint forSubfileDesignators (h : Header) (sds : list SubfileDesignator)
    : M Parser unit :=
  match sds with
  | [] => ret tt
  | sd :: sds' => parseMissingSubfile h sd ;; forSubfileDesignators h sds'
  end.

Definition updateParseOnce : M Parser bool :=
  let* p := get in
  match header p with
  | None =>
      let* h := onReader parseHeader in
      modify (with_header (Some h)) ;; ret true
  | Some h =>
      if Z.of_nat (length (subfileDesignators p)) <? numEntries h then
        let* sd := onReader Mutable.parseSubfileDesignator in
        modify (fun p =>
          with_subfileDesignators (subfileDesignators p ++ [sd]) p) ;;
        ret true
      else if nSubfiles p <? Z.of_nat (length (subfileDesignators p)) then
        forSubfileDesignators h (subfileDesignators p) ;; ret true
      else
        modify (with_done true) ;; ret false
  end.

(** The [while (cont)] of updateParse; [None] when the bound on the number
    of rounds is used up. *)
Fixpoint updateParse_loop (fuel : nat) (p : Parser)
    : option (Res Parser bool) :=
  match fuel with
  | O => None
  | S fuel' =>
      match updateParseOnce p with
      | Ok true p' => updateParse_loop fuel' p'
      | Ok false p' => Some (Ok false p')
      | Err e p' => Some (Err e p')
      end
  end.

Definition updateParse (fuel : nat) (p : Parser) : option (bool * Parser) :=
  if bool_decide (is_Some (error p)) then Some (false, p)
  else
    match updateParse_loop fuel p with
    | None => None
    | Some (Ok cont p') => Some (cont, p')
    | Some (Err e p') =>
        if isEOF e then Some (true, p')
        else Some (false, with_error (Some e) p')
    end.

(** [this.reader.append(d)] *)
Definition grow (d : jsstring) (p : Parser) : Parser :=
  with_reader (append d (reader p)) p.

(** [append(data): boolean] *)
Definition append (fuel : nat) (d : jsstring) (p : Parser)
    : option (bool * Parser) :=
  if bool_decide (is_Some (error p)) || done p then Some (false, p)
  else updateParse fuel (grow d p).

(** The types of the designators found, as a set. *)
Definition typesOf (sds : list SubfileDesignator) : gset jsstring :=
  list_to_set (map sd_type sds).

(** Every subfile filed was counted and is of a designator's type. *)
Definition counted (p : Parser) : Prop :=
  nSubfiles p = Z.of_nat (size (dom (subfiles p)))
  /\ dom (subfiles p) ⊆ typesOf (subfileDesignators p).

(** The caller's successive [append] calls; the value lists what each call
    returned. *)
Fixpoint appendAll (fuel : nat) (chunks : list jsstring) (p : Parser)
    : option (list bool * Parser) :=
  match chunks with
  | [] => Some ([], p)
  | chunk :: chunks' =>
      match append fuel chunk p with
      | None => None
      | Some (waiting, p') =>
          match appendAll fuel chunks' p' with
          | None => None
          | Some (rest, p'') => Some (waiting :: rest, p'')
          end
      end
  end.

(** [done] is only set once every designator has a subfile of its own. *)
Definition settled (p : Parser) : Prop :=
  counted p
  /\ (done p = true ->
      NoDup (map sd_type (subfileDesignators p))
      /\ nSubfiles p = Z.of_nat (length (subfileDesignators p))).

End Oldest.

(** ** Well-formed subfile text (vocabulary of the properties)

    A record is a key of three upper-case letters and a value that holds
    neither the data element separator nor the segment terminator. *)
Definition keyOK (k : jsstring) : Prop :=
  exists a b c, k = [a; b; c]
    /\ isUpper a = true /\ isUpper b = true /\ isUpper c = true.

Definition valueOK (sep term : ascii) (v : jsstring) : Prop :=
  (sep ∉ v) /\ (term ∉ v).

Definition entryOK (sep term : ascii) (kv : jsstring * jsstring) : Prop :=
  keyOK kv.1 /\ valueOK sep term kv.2.

(** Records each followed by the data element separator. *)
Definition recordsText (sep : ascii) (entries : list (jsstring * jsstring))
    : jsstring :=
  concat (map (fun kv => kv.1 ++ kv.2 ++ [sep]) entries).

(** A last record that is followed by the segment terminator directly. *)
Definition lastText (last : option (jsstring * jsstring)) : jsstring :=
  match last with Some kv => kv.1 ++ kv.2 | None => [] end.

(** The records map after [records.set] for each entry in turn. *)
Definition recordsOf (entries : list (jsstring * jsstring))
    (records : SubfileData) : SubfileData :=
  fold_left (fun m kv => <[kv.1 := kv.2]> m) entries records.

(** Records each preceded by a number of extra data element separators and
    followed by one. *)
Definition paddedRecordsText (sep : ascii)
    (entries : list (nat * (jsstring * jsstring))) : jsstring :=
  concat (map (fun e => replicate e.1 sep ++ e.2.1 ++ e.2.2 ++ [sep]) entries).

(** ** Well-formed documents (vocabulary of the properties)

    The range of the designator [sd] in [input] holds a well-formed
    subfile; [records] is what the scan is to file for it, nothing for a
    type other than "DL" and "ID". *)
Definition holdsSubfile (sep term : ascii) (input : jsstring)
    (sd : SubfileDesignator) (records : option SubfileData) : Prop :=
  exists pre body post,
    input = pre ++ body ++ post
    /\ sd_offset sd = Z.of_nat (length pre)
    /\ sd_length sd = Z.of_nat (length body)
    /\ if recognized (sd_type sd) then
         exists type entries last junk,
           length type = 2%nat
           /\ Forall (entryOK sep term) (entries ++ option_list last)
           /\ body = type ++ recordsText sep entries ++ lastText last
                     ++ [term] ++ junk
           /\ records = Some (recordsOf (entries ++ option_list last) ∅)
       else records = None.

(** The subfiles map after the subfiles have been filed in the order of
    their designators. *)
Definition filed (l : list (SubfileDesignator * option SubfileData))
    (m : Subfiles) : Subfiles :=
  fold_left (fun m x => match x.2 with
                        | Some r => <[sd_type x.1 := r]> m
                        | None => m
                        end) l m.
(** The sample document of the test suite (src/parse.test.ts,
    [exampleData]) and its records in the order of the text. *)
Definition exampleData : jsstring :=
  str "@" ++ [LF; RS; CR] ++ str "ANSI 636000110002DL00410277ZV03180008"
  ++ str "DL"
  ++ str "DAQT64235789" ++ [LF]
  ++ str "DCSSAMPLE" ++ [LF]
  ++ str "DDEN" ++ [LF]
  ++ str "DACMICHAEL" ++ [LF]
  ++ str "DDFN" ++ [LF]
  ++ str "DADJOHN" ++ [LF]
  ++ str "DDGN" ++ [LF]
  ++ str "DCUJR" ++ [LF]
  ++ str "DCAD" ++ [LF]
  ++ str "DCBK" ++ [LF]
  ++ str "DCDPH" ++ [LF]
  ++ str "DBD06062022" ++ [LF]
  ++ str "DBB06062006" ++ [LF]
  ++ str "DBA06062027" ++ [LF]
  ++ str "DBC1" ++ [LF]
  ++ str "DAU068 in" ++ [LF]
  ++ str "DAYBRO" ++ [LF]
  ++ str "DAG2300 WEST BROAD STREET" ++ [LF]
  ++ str "DAIRICHMOND" ++ [LF]
  ++ str "DAJVA" ++ [LF]
  ++ str "DAK232690000 " ++ [LF]
  ++ str "DCF2424244747474786102204" ++ [LF]
  ++ str "DCGUSA" ++ [LF]
  ++ str "DCK123456789" ++ [LF]
  ++ str "DDAF" ++ [LF]
  ++ str "DDB06062018" ++ [LF]
  ++ str "DDJ06062027" ++ [LF]
  ++ str "DDD1" ++ [CR]
  ++ str "ZV" ++ str "ZVA01" ++ [CR].

Definition exampleRecords : list (jsstring * jsstring) :=
  [(str "DAQ", str "T64235789");
   (str "DCS", str "SAMPLE");
   (str "DDE", str "N");
   (str "DAC", str "MICHAEL");
   (str "DDF", str "N");
   (str "DAD", str "JOHN");
   (str "DDG", str "N");
   (str "DCU", str "JR");
   (str "DCA", str "D");
   (str "DCB", str "K");
   (str "DCD", str "PH");
   (str "DBD", str "06062022");
   (str "DBB", str "06062006");
   (str "DBA", str "06062027");
   (str "DBC", str "1");
   (str "DAU", str "068 in");
   (str "DAY", str "BRO");
   (str "DAG", str "2300 WEST BROAD STREET");
   (str "DAI", str "RICHMOND");
   (str "DAJ", str "VA");
   (str "DAK", str "232690000 ");
   (str "DCF", str "2424244747474786102204");
   (str "DCG", str "USA");
   (str "DCK", str "123456789");
   (str "DDA", str "F");
   (str "DDB", str "06062018");
   (str "DDJ", str "06062027");
   (str "DDD", str "1")].

(** ** The input capture (src/input.ts, class _Input)

    [this.reader] and the reader the parser was made over are one object:
    it is the [reader] of [parser].  The timer is modelled by whether one is
    pending, the observers by how often they have been notified.  [parse()]
    is run with the bound [Engine.budget], which it never uses up
    ([EngineProps.parse_within_budget]). *)
Module Capture.

Record InputState : Type := mkInputState {
  value : jsstring;
  isCapturing : bool;
  isParsingDLID : bool;
  result : option Engine.ParseResult
}.

Record Input : Type := mkInput {
  parser : Engine.Parser;
  state : InputState;
  timeout : bool;
  notified : nat
}.

(** [new _Input(initialData)]; [initialData || ""] *)
Definition make (initialData : option jsstring) : Input :=
  mkInput Engine.fresh (mkInputState (default [] initialData) false false None)
          false 0.

(** [update(action)]: the new state, then every observer is called. *)
Definition update (action : InputState -> InputState) (i : Input) : Input :=
  mkInput (parser i) (action (state i)) (timeout i) (S (notified i)).

Definition with_parser (p : Engine.Parser) (i : Input) : Input :=
  mkInput p (state i) (timeout i) (notified i).

Definition with_timeout (t : bool) (i : Input) : Input :=
  mkInput (parser i) (state i) t (notified i).

(** [clearTimeout] of the pending timer, then [setTimeout]. *)
Definition resetTimeout (i : Input) : Input := with_timeout true i.

Definition startCapturing (i : Input) : Input :=
  update (fun s => mkInputState (value s) true (isParsingDLID s) (result s))
    (resetTimeout (with_parser (Engine.feed (str "@") (parser i)) i)).

(** [s.substring(1)] *)
Definition substringFrom (s : jsstring) (start : Z) : jsstring :=
  substring s start (Z.of_nat (length s)).

Definition cancelCapturing (i : Input) : Input :=
  let i := with_timeout false i in
  if isCapturing (state i) then
    let newVal :=
      value (state i) ++ substringFrom (data (Engine.reader (parser i))) 1 in
    update (fun _ => mkInputState newVal false false None)
      (with_parser Engine.fresh i)
  else i.

Definition completeCapturing (res : Engine.ParseResult) (i : Input) : Input :=
  update (fun s => mkInputState (value s) false false (Some res))
    (with_parser Engine.fresh (with_timeout false i)).

(** The timer fires. *)
Definition handleTimeout (i : Input) : Input :=
  cancelCapturing (with_timeout false i).

(** [newVal.length > 0 && newVal.charAt(newVal.length - 1) == "@"] *)
Definition endsWithAt (newVal : jsstring) : bool :=
  (0 <? length newVal)%nat
  && bool_decide (Oldest.charAt newVal (length newVal - 1) = str "@").

Definition append (v : jsstring) (i : Input) : Input :=
  if isCapturing (state i) then
    let p := Engine.feed v (parser i) in
    match Engine.parse (Engine.budget p) p with
    | Engine.Done p' => completeCapturing (Engine.result p') (with_parser p' i)
    | Engine.Raised e p' =>
        let i := with_parser p' i in
        match e with
        | EOF =>
            (* continue reading *)
            let i := resetTimeout i in
            if (4 <=? length (data (Engine.reader p')))%nat
               && negb (isParsingDLID (state i))
            then update (fun s => mkInputState (value s) (isCapturing s) true
                                               (result s)) i
            else i
        | HeaderParseError _ =>
            (* failed parsing part of DLID header, bail out *)
            cancelCapturing i
        | ParseError _ =>
            (* ignore *)
            resetTimeout i
        end
    | Engine.Paused _ => i
    end
  else
    let newVal := value (state i) ++ v in
    let i := update (fun s => mkInputState newVal (isCapturing s)
                                           (isParsingDLID s) (result s)) i in
    if endsWithAt newVal then (* start parsing *) startCapturing i else i.

(** [v.startsWith(p)] *)
Definition startsWith (v p : jsstring) : bool :=
  bool_decide (take (length p) v = p).

Definition setValue (v : jsstring) (i : Input) : Input :=
  if startsWith v (value (state i)) then
    let added := substringFrom v (Z.of_nat (length (value (state i)))) in
    append added i
  else
    append v (update (fun s => mkInputState [] (isCapturing s)
                                            (isParsingDLID s) (result s)) i).

(** [getSnapshot()] *)
Definition getSnapshot (i : Input) : InputState := state i.

(** The operations a user of the hook can cause. *)
Inductive Event : Type :=
| Append (v : jsstring)
| SetValue (v : jsstring)
| Timeout.

Definition step (ev : Event) (i : Input) : Input :=
  match ev with
  | Append v => append v i
  | SetValue v => setValue v i
  | Timeout => if timeout i then handleTimeout i else i
  end.

Definition run (evs : list Event) (i : Input) : Input :=
  fold_left (fun i ev => step ev i) evs i.

(** All the text the input holds: its value and, while it is capturing, what
    has been captured after the marker. *)
Definition fullText (i : Input) : jsstring :=
  value (state i)
  ++ if isCapturing (state i)
     then drop 1 (data (Engine.reader (parser i))) else [].

(** When it is not capturing the input has a new parser, no timer and is
    not parsing; while it is capturing a timer is pending and the buffer
    starts with the marker. *)
Definition consistent (i : Input) : Prop :=
  if isCapturing (state i)
  then timeout i = true
       /\ exists captured, data (Engine.reader (parser i)) = str "@" ++ captured
  else timeout i = false /\ parser i = Engine.fresh
       /\ isParsingDLID (state i) = false.

(** The parser of the input has come as far with the marker and the
    separators as [isParsingDLID] says. *)
Definition parsingPast (i : Input) : Prop :=
  Engine.headerShape (parser i)
  /\ (isParsingDLID (state i) = true ->
      Forall Engine.pastFront (Engine.funcs (parser i))).

End Capture.

(** The subfiles map after an assignment [subfiles[sd.type] = ...] for
    every designator in turn, the empty object for a skipped subfile. *)
Definition filedEvery (l : list (SubfileDesignator * option SubfileData))
    (m : Subfiles) : Subfiles :=
  fold_left (fun m x => <[sd_type x.1 := default ∅ x.2]> m) l m.

(** ** Well-formed records (vocabulary of the properties)

    A value that holds neither the data element separator nor the segment
    terminator of the header [h]; records whose keys are three upper-case
    letters and whose values are such. *)
Definition cleanValue (h : Header) (v : jsstring) : Prop :=
  Forall (fun c => [c] <> dataElementSeparator h
                   /\ [c] <> segmentTerminator h) v.

Definition recordsOK (h : Header) (recs : SubfileData) : Prop :=
  forall k v, recs !! k = Some v -> keyOK k /\ cleanValue h v.

(** A closure of the subfile phase other than [ParseSubfiles], with
    well-formed records in what it captured. *)
Definition scanOK (h : Header) (cur : Engine.ParseFunc) : Prop :=
  match cur with
  | Engine.ParseSubfile _ => True
  | Engine.MaybeParseRecord _ _ recs | Engine.ParseRecord _ _ recs =>
      recordsOK h recs
  | _ => False
  end.

(** A closure of the header or of the directory. *)
Definition preBody (cur : Engine.ParseFunc) : Prop :=
  match cur with
  | Engine.ParseSubfiles | Engine.ParseSubfile _
  | Engine.MaybeParseRecord _ _ _ | Engine.ParseRecord _ _ _ => False
  | _ => True
  end.

(** Before the subfile phase nothing is filed; in it, everything filed or
    collected is well-formed. *)
Definition recordsInv (p : Engine.Parser) : Prop :=
  (exists l, Engine.funcs p = l ++ [Engine.ParseSubfiles]
             /\ Forall preBody l
             /\ Engine.subfiles (Engine.result p) = ∅)
  \/ (Forall (scanOK (Engine.header (Engine.result p))) (Engine.funcs p)
      /\ forall ty recs,
           Engine.subfiles (Engine.result p) !! ty = Some recs ->
           recordsOK (Engine.header (Engine.result p)) recs).

(** The subfile step of the designator [sd] has run on the reader [r]:
    [parseSubfile] returned [rec] for a recognized type; for another type
    the [peek] of the step did not throw, that is, the length of the
    designator is at most the length of the buffer minus the designator's
    offset (nothing is said on the signs of offset and length). *)
Definition subfileRead (h : Header) (r : StringIO) (sd : SubfileDesignator)
    (rec : option SubfileData) : Prop :=
  if recognized (sd_type sd)
  then exists parsed,
         rec = Some parsed /\ Mutable.parseSubfile h sd r = Ok parsed r
  else rec = None
       /\ sd_length sd <= avail (mkStringIO (data r) (sd_offset sd)).

(** * Properties *)

(** ** The buffer reader *)
Section Reader.

Lemma substring_length_le (s : jsstring) (a b : Z) :
  Z.of_nat (length (substring s a b)) <= Z.abs (b - a).
Proof.
  unfold substring, clamp. rewrite length_take.
  etransitivity; [apply inj_le, Nat.le_min_l|].
  pose proof (Nat2Z.is_nonneg (length s)) as Hl.
  generalize dependent (Z.of_nat (length s)). intros l Hl.
  rewrite Z2Nat.id by lia. lia.
Qed.

Lemma substring_length (s : jsstring) (a n : Z) :
  0 <= a -> 0 <= n -> a + n <= Z.of_nat (length s) ->
  Z.of_nat (length (substring s a (a + n))) = n.
Proof.
  intros Ha Hn Hl. unfold substring, clamp. rewrite length_take, length_drop.
  rewrite (Z.max_l a 0), (Z.max_l (a + n) 0) by lia.
  rewrite (Z.min_l a), (Z.min_l (a + n)) by lia.
  rewrite Z.max_r, Z.min_l by lia. lia.
Qed.

(** What a successful lookahead returned stays the same when the buffer
    grows. *)
Lemma substring_app_stable (d e : jsstring) (p n : Z) :
  0 <= n -> n <= Z.of_nat (length d) - p ->
  substring (d ++ e) p (p + n) = substring d p (p + n).
Proof.
  intros Hn Hav. unfold substring, clamp. rewrite length_app, Nat2Z.inj_add.
  set (ld := Z.of_nat (length d)) in *. set (le := Z.of_nat (length e)).
  assert (0 <= ld) by (unfold ld; lia). assert (0 <= le) by (unfold le; lia).
  replace (Z.min (Z.max (p + n) 0) (ld + le)) with (Z.min (Z.max (p + n) 0) ld)
    by lia.
  replace (Z.min (Z.max p 0) (ld + le)) with (Z.min (Z.max p 0) ld) by lia.
  set (from := Z.min (Z.min (Z.max p 0) ld) (Z.min (Z.max (p + n) 0) ld)).
  set (to := Z.max (Z.min (Z.max p 0) ld) (Z.min (Z.max (p + n) 0) ld)).
  assert (0 <= from <= to /\ to <= ld) as Hb by (unfold from, to; lia).
  rewrite drop_app_le by (unfold ld in *; lia).
  rewrite take_app_le; [reflexivity|].
  rewrite length_drop. unfold ld in *; lia.
Qed.

Lemma substring_pre_post (pre body post : jsstring) :
  substring (pre ++ body ++ post) (Z.of_nat (length pre))
            (Z.of_nat (length pre) + Z.of_nat (length body)) = body.
Proof.
  unfold substring, clamp. rewrite !length_app, !Nat2Z.inj_add.
  set (a := Z.of_nat (length pre)). set (n := Z.of_nat (length body)).
  set (m := Z.of_nat (length post)).
  assert (0 <= a /\ 0 <= n /\ 0 <= m) as (? & ? & ?) by (unfold a, n, m; lia).
  rewrite (Z.max_l a 0), (Z.max_l (a + n) 0) by lia.
  rewrite (Z.min_l a), (Z.min_l (a + n)) by lia.
  rewrite Z.max_r, Z.min_l by lia.
  replace (Z.to_nat (a + n - a)) with (length body) by (unfold n; lia).
  unfold a. rewrite Nat2Z.id, drop_app_length. apply take_app_length.
Qed.

Lemma peek_Ok n r x r' :
  peek n r = Ok x r' ->
  r' = r /\ n <= avail r /\ x = substring (data r) (pos r) (pos r + n).
Proof.
  unfold peek. rewrite Z.gtb_ltb.
  destruct (Z.ltb_spec (avail r) n); intros [= <- <-]; auto.
Qed.

Lemma peek_Err n r e r' :
  peek n r = Err e r' -> e = EOF /\ r' = r /\ avail r < n.
Proof.
  unfold peek. rewrite Z.gtb_ltb.
  destruct (Z.ltb_spec (avail r) n); intros [= <- <-]; auto.
Qed.

Lemma peek_enough n r :
  n <= avail r -> peek n r = Ok (substring (data r) (pos r) (pos r + n)) r.
Proof.
  intros. unfold peek. rewrite Z.gtb_ltb.
  destruct (Z.ltb_spec (avail r) n); [lia | reflexivity].
Qed.

Lemma peek_short n r : avail r < n -> peek n r = Err EOF r.
Proof.
  intros. unfold peek. rewrite Z.gtb_ltb.
  destruct (Z.ltb_spec (avail r) n); [reflexivity | lia].
Qed.

Lemma read_Ok n r x r' :
  read n r = Ok x r' ->
  r' = mkStringIO (data r) (pos r + n) /\ n <= avail r
  /\ x = substring (data r) (pos r) (pos r + n).
Proof.
  unfold read, bind. destruct (peek n r) as [y r1|e r1] eqn:E; [|discriminate].
  apply peek_Ok in E as (-> & ? & ->). intros [= <- <-]. auto.
Qed.

Lemma read_Err n r e r' :
  read n r = Err e r' -> e = EOF /\ r' = r /\ avail r < n.
Proof.
  unfold read, bind. destruct (peek n r) as [y r1|e1 r1] eqn:E; [discriminate|].
  apply peek_Err in E as (-> & -> & ?). intros [= <- <-]. auto.
Qed.

Lemma read_enough n r :
  n <= avail r ->
  read n r = Ok (substring (data r) (pos r) (pos r + n))
                (mkStringIO (data r) (pos r + n)).
Proof. intros. unfold read, bind. rewrite peek_enough by assumption. reflexivity. Qed.

Lemma read_short n r : avail r < n -> read n r = Err EOF r.
Proof. intros. unfold read, bind. rewrite peek_short by assumption. reflexivity. Qed.

End Reader.

(** ** The buffer reader: contract, composition and edge cases *)
Section ReaderLaws.

Lemma substring_take_drop (s : jsstring) (a n : Z) :
  0 <= a -> 0 <= n -> a + n <= Z.of_nat (length s) ->
  substring s a (a + n) = take (Z.to_nat n) (drop (Z.to_nat a) s).
Proof.
  intros Ha Hn Hl. unfold substring, clamp.
  rewrite (Z.max_l a 0), (Z.max_l (a + n) 0) by lia.
  rewrite (Z.min_l a), (Z.min_l (a + n)) by lia.
  rewrite Z.max_r, Z.min_l by lia.
  replace (a + n - a) with n by lia. reflexivity.
Qed.

(** On a cursor inside the buffer, [read(n)] with [0 <= n <= avail] returns
    exactly the [n] characters under the cursor and moves the cursor past
    them; [peek(n)] returns the same characters and moves nothing. *)
Theorem read_exact n r :
  0 <= pos r -> 0 <= n -> n <= avail r ->
  exists x,
    read n r = Ok x (mkStringIO (data r) (pos r + n))
    /\ peek n r = Ok x r
    /\ Z.of_nat (length x) = n
    /\ data r = take (Z.to_nat (pos r)) (data r) ++ x
                ++ drop (Z.to_nat (pos r + n)) (data r)
    /\ avail (mkStringIO (data r) (pos r + n)) = avail r - n.
Proof.
  intros Hp Hn Hav. exists (substring (data r) (pos r) (pos r + n)).
  rewrite read_enough, peek_enough by assumption.
  unfold avail in *. cbn [data pos].
  repeat split; try lia.
  - apply substring_length; lia.
  - rewrite substring_take_drop by lia.
    rewrite Z2Nat.inj_add by lia. rewrite <- drop_drop.
    rewrite (take_drop (Z.to_nat n)). rewrite take_drop. reflexivity.
Qed.

Lemma read_exact_witness :
  exists x,
    read 2 (mkStringIO (str "test") 0) = Ok x (mkStringIO (str "test") (0 + 2))
    /\ peek 2 (mkStringIO (str "test") 0) = Ok x (mkStringIO (str "test") 0)
    /\ Z.of_nat (length x) = 2
    /\ str "test" = take (Z.to_nat 0) (str "test") ++ x
                    ++ drop (Z.to_nat (0 + 2)) (str "test")
    /\ avail (mkStringIO (str "test") (0 + 2))
       = avail (mkStringIO (str "test") 0) - 2.
Proof.
  apply (read_exact 2 (mkStringIO (str "test") 0)); vm_compute; congruence.
Defined.

(** Two reads in a row.  When both fit they are one read of the sum; when
    only the first fits, EOF is thrown with the first already consumed (the
    reason the parser reads fixed-size items from a lookahead copy). *)
Theorem read_read n m r :
  0 <= pos r -> 0 <= n -> 0 <= m ->
  (let* a := read n in let* b := read m in ret (a ++ b)) r
  = if n + m <=? avail r then read (n + m) r
    else if n <=? avail r then Err EOF (mkStringIO (data r) (pos r + n))
    else Err EOF r.
Proof.
  intros Hp Hn Hm. unfold bind, ret.
  destruct (Z.leb_spec (n + m) (avail r)) as [Hfit|Hshort].
  - rewrite (read_enough n r) by lia.
    rewrite (read_enough m) by (unfold avail in *; cbn [data pos]; lia).
    rewrite (read_enough (n + m)) by assumption. cbn [data pos].
    f_equal; [|f_equal; lia].
    unfold avail in Hfit.
    rewrite !substring_take_drop by lia.
    rewrite (Z2Nat.inj_add (pos r) n), (Z2Nat.inj_add n m) by lia.
    rewrite <- drop_drop. apply take_take_drop.
  - destruct (Z.leb_spec n (avail r)) as [Hfit1|Hshort1].
    + rewrite (read_enough n r) by lia.
      rewrite read_short by (unfold avail in *; cbn [data pos]; lia).
      reflexivity.
    + rewrite read_short by lia. reflexivity.
Qed.

Lemma read_read_witness :
  (let* a := read 2 in let* b := read 4 in ret (a ++ b))
    (mkStringIO (str "DL0031") 0)
  = Ok (str "DL0031") (mkStringIO (str "DL0031") 6).
Proof.
  rewrite (read_read 2 4 (mkStringIO (str "DL0031") 0)); [|simpl; lia..].
  reflexivity.
Defined.

(** [append] and the cursor.  After [append(d)] the reader has [length d]
    more characters available; a read of [n] characters now returns the
    first [n] of what was unread followed by [d]; so reading everything
    gives back the unread rest and then [d], exactly; and a read that
    succeeded before the append returns the same string after it. *)
Theorem append_read d r :
  0 <= pos r <= Z.of_nat (length (data r)) ->
  avail (append d r) = avail r + Z.of_nat (length d)
  /\ (forall n, 0 <= n <= avail r + Z.of_nat (length d) ->
        read n (append d r)
        = Ok (take (Z.to_nat n) (drop (Z.to_nat (pos r)) (data r) ++ d))
             (mkStringIO (data r ++ d) (pos r + n)))
  /\ read (avail (append d r)) (append d r)
     = Ok (drop (Z.to_nat (pos r)) (data r) ++ d)
          (mkStringIO (data r ++ d) (Z.of_nat (length (data r ++ d))))
  /\ (forall n x r', 0 <= n -> read n r = Ok x r' ->
        read n (append d r) = Ok x (append d r')).
Proof.
  intros Hp.
  assert (avail (append d r) = avail r + Z.of_nat (length d)) as Hav.
  { unfold avail, append. cbn [data pos]. rewrite length_app. lia. }
  assert (forall n, 0 <= n <= avail r + Z.of_nat (length d) ->
            read n (append d r)
            = Ok (take (Z.to_nat n) (drop (Z.to_nat (pos r)) (data r) ++ d))
                 (mkStringIO (data r ++ d) (pos r + n))) as Hread.
  { intros n Hn. rewrite read_enough by lia. unfold append. cbn [data pos].
    f_equal. unfold avail in Hn.
    rewrite substring_take_drop by (rewrite ?length_app; lia).
    rewrite drop_app_le by lia. reflexivity. }
  split; [exact Hav|]. split; [exact Hread|]. split.
  - rewrite Hread by (rewrite Hav; unfold avail; lia).
    rewrite Hav. unfold avail. rewrite length_app.
    f_equal; [|f_equal; lia].
    apply take_ge. rewrite length_app, length_drop. lia.
  - intros n x r' Hn H. apply read_Ok in H as (-> & Hle & ->).
    rewrite read_enough by lia. unfold append. cbn [data pos].
    rewrite substring_app_stable; [reflexivity|assumption|].
    unfold avail in Hle. lia.
Qed.

Lemma append_read_witness :
  read 4 (append (str "test") (mkStringIO [] 0))
  = Ok (str "test") (mkStringIO (str "test") 4).
Proof.
  destruct (append_read (str "test") (mkStringIO [] 0)) as (_ & _ & H & _).
  - simpl. lia.
  - exact H.
Defined.

(** Cursors and counts out of range.  (1) A cursor beyond the end of the
    buffer makes every read of a non-negative count throw EOF, also
    [read(0)].  (2) A negative count never throws on a cursor inside the
    buffer: it returns the characters before the cursor, and [read] moves
    the cursor backwards.  (3) On a negative cursor a read returns fewer
    characters than were asked for. *)
Theorem read_out_of_range r :
  (forall n, Z.of_nat (length (data r)) < pos r -> 0 <= n ->
     read n r = Err EOF r)
  /\ (forall n, n < 0 -> 0 <= pos r <= Z.of_nat (length (data r)) ->
        read n r
        = Ok (take (Z.to_nat (pos r - Z.max 0 (pos r + n)))
                   (drop (Z.to_nat (Z.max 0 (pos r + n))) (data r)))
             (mkStringIO (data r) (pos r + n)))
  /\ (forall n, pos r < 0 -> 0 <= pos r + n <= Z.of_nat (length (data r)) ->
        read n r = Ok (take (Z.to_nat (pos r + n)) (data r))
                      (mkStringIO (data r) (pos r + n))).
Proof.
  split; [|split].
  - intros n Hp Hn. apply read_short. unfold avail. lia.
  - intros n Hn Hp. rewrite read_enough by (unfold avail; lia). f_equal.
    unfold substring, clamp.
    pose proof (Nat2Z.is_nonneg (length (data r))) as Hl.
    generalize dependent (Z.of_nat (length (data r))). intros l Hp Hl.
    f_equal; [f_equal|f_equal; f_equal]; lia.
  - intros n Hp Hn. rewrite read_enough by (unfold avail; lia). f_equal.
    unfold substring, clamp.
    pose proof (Nat2Z.is_nonneg (length (data r))) as Hl.
    generalize dependent (Z.of_nat (length (data r))). intros l Hn Hl.
    rewrite (Z.max_r (pos r) 0), (Z.min_l 0 l) by lia.
    rewrite (Z.max_l (pos r + n) 0), (Z.min_l (pos r + n) l) by lia.
    rewrite Z.min_l, Z.max_r by lia. rewrite Z.sub_0_r. reflexivity.
Qed.

End ReaderLaws.

(** ** The ParseResult-threading parser *)
Module EngineProps.
Import Engine.

Ltac unfold_js :=
  unfold bind, ret, throw, get, tryCatch, onLocal, onReader, recordsSet in *.

(** *** A closure call that throws EOF has changed nothing *)

Lemma maybeParseRecord_returns result sfType sc :
  exists res sc', maybeParseRecord result sfType sc = Ok res sc'.
Proof.
  unfold maybeParseRecord. unfold_js.
  destruct (peek 1 (sfReader sc)) as [next r|e r] eqn:E.
  - apply peek_Ok in E as (-> & Hav & _).
    destruct (bool_decide _); [|eauto].
    rewrite read_enough by assumption. eauto.
  - apply peek_Err in E as (-> & -> & _). simpl. eauto.
Qed.

Lemma parseRecord_loop_Err fuel result sfType key : forall val copied sc e sc',
  data copied = data (sfReader sc) ->
  pos (sfReader sc) + Z.of_nat (length key) + Z.of_nat (length val)
    <= pos copied ->
  parseRecord_loop fuel result sfType key val copied sc = Err e sc' ->
  e = EOF /\ sc' = sc.
Proof.
  induction fuel as [|fuel IH]; intros val copied sc e sc' Hdata Hpos; simpl.
  - unfold throw. intros [= <- <-]. auto.
  - unfold_js.
    destruct (peek 1 copied) as [next r|e1 r] eqn:E.
    + apply peek_Ok in E as (-> & Hav & Hnext).
      pose proof (substring_length_le (data copied) (pos copied) (pos copied + 1))
        as Hlen.
      rewrite <- Hnext in Hlen. unfold avail in Hav.
      generalize Hav; intros Hav'; rewrite Hdata in Hav'.
      destruct (_ || _).
      * simpl. rewrite read_enough by (unfold avail; simpl; lia). simpl.
        destruct (bool_decide _); simpl.
        -- rewrite read_enough by (unfold avail; simpl; lia). discriminate.
        -- discriminate.
      * rewrite read_enough by (unfold avail; lia).
        apply IH; simpl; [assumption|].
        rewrite length_app. lia.
    + apply peek_Err in E as (-> & -> & _). intros [= <- <-]. auto.
Qed.

Lemma parseRecord_Err result sfType sc e sc' :
  parseRecord result sfType sc = Err e sc' -> sc' = sc.
Proof.
  unfold parseRecord. unfold_js.
  destruct (read 3 _) as [key copied|e1 r] eqn:E.
  - apply read_Ok in E as (-> & Hav & Hkey). simpl in *.
    destruct (negb _).
    + intros [= <- <-]. reflexivity.
    + intros H. eapply parseRecord_loop_Err in H as [_ ->]; [reflexivity..|].
      simpl.
      pose proof (substring_length_le (data (sfReader sc)) (pos (sfReader sc))
                    (pos (sfReader sc) + 3)) as Hlen.
      rewrite <- Hkey in Hlen. lia.
  - intros [= <- <-]. reflexivity.
Qed.

Lemma parseSubfileDesignator_Err result reader e reader' :
  parseSubfileDesignator result reader = Err e reader' -> reader' = reader.
Proof.
  unfold parseSubfileDesignator, SUBFILE_DESIGNATOR_SIZE. unfold_js.
  destruct (peek 10 reader) as [block r|e1 r] eqn:E.
  - apply peek_Ok in E as (-> & Hav & _).
    destruct (read 2 _) as [type c1|e1 c1]; [|intros [= <- <-]; reflexivity].
    destruct (read 4 c1) as [off c2|e1 c2]; [|intros [= <- <-]; reflexivity].
    destruct (read 4 c2) as [len c3|e1 c3]; [|intros [= <- <-]; reflexivity].
    destruct (parseInt off); [|intros [= <- <-]; reflexivity].
    destruct (parseInt len); [|intros [= <- <-]; reflexivity].
    rewrite read_enough by assumption. discriminate.
  - apply peek_Err in E as (-> & -> & _). intros [= <- <-]. reflexivity.
Qed.

Lemma parseSubfileDesignator_Ok result reader res reader' :
  parseSubfileDesignator result reader = Ok res reader' ->
  reader' = mkStringIO (data reader) (pos reader + 10)
  /\ pfr_next res = []
  /\ exists sd, pfr_result res =
       with_subfileDesignators (subfileDesignators result ++ [sd]) result.
Proof.
  unfold parseSubfileDesignator, SUBFILE_DESIGNATOR_SIZE. unfold_js.
  destruct (peek 10 reader) as [block r|e1 r] eqn:E; [|discriminate].
  apply peek_Ok in E as (-> & Hav & _).
  destruct (read 2 _) as [type c1|e1 c1]; [|discriminate].
  destruct (read 4 c1) as [off c2|e1 c2]; [|discriminate].
  destruct (read 4 c2) as [len c3|e1 c3]; [|discriminate].
  destruct (parseInt off); [|discriminate].
  destruct (parseInt len); [|discriminate].
  rewrite read_enough by assumption. intros [= <- <-]. simpl. eauto.
Qed.

Lemma parseSubfile_Err result sd reader e reader' :
  parseSubfile result sd reader = Err e reader' -> e = EOF /\ reader' = reader.
Proof.
  unfold parseSubfile. unfold_js.
  destruct (peek _ _) as [snapshot r|e1 r] eqn:E.
  - destruct (recognized _); [|discriminate].
    destruct (read 2 _) as [x c|e1 c] eqn:E2; [discriminate|].
    apply read_Err in E2 as (-> & _). intros [= <- <-]. auto.
  - apply peek_Err in E as (-> & _). intros [= <- <-]. auto.
Qed.

(** Whatever a closure throws, the objects it captured are as before the
    call; when it throws EOF, so is the parser's reader. *)
Lemma call_Threw cur result reader e cur' reader' :
  call cur result reader = Threw e cur' reader' ->
  cur' = cur /\ (e = EOF -> reader' = reader).
Proof.
  assert (forall c (r1 r2 : StringIO) e1,
            Threw e1 c r1 = Threw e cur' reader' ->
            (e1 = EOF -> r1 = r2) -> cur' = c /\ (e = EOF -> reader' = r2))
    as Hthrew by (intros c r1 r2 e1 [= <- <- <-]; auto).
  destruct cur as [ | | | | | | | | | | | | |sd|sf ty recs|sf ty recs];
    unfold call, onParserReader, onCaptured, readSeparator;
    unfold_js.
  all: try discriminate.
  all: try (destruct (read _ reader) as [x r|e1 r] eqn:E;
            [apply read_Ok in E as (-> & _ & _)
            |apply read_Err in E as (-> & -> & _);
             intros H; apply (Hthrew _ _ _ _ H); reflexivity]).
  all: repeat match goal with
       | |- context [if ?b then _ else _] => destruct b
       | |- context [match parseInt ?x with _ => _ end] => destruct (parseInt x)
       end.
  all: try discriminate.
  all: try (intros H; apply (Hthrew _ _ _ _ H); discriminate).
  - destruct (parseSubfileDesignator result reader) as [res r|e1 r] eqn:E;
      [discriminate|].
    apply parseSubfileDesignator_Err in E as ->.
    intros H; apply (Hthrew _ _ _ _ H); reflexivity.
  - destruct (parseSubfile result sd reader) as [res r|e1 r] eqn:E;
      [discriminate|].
    apply parseSubfile_Err in E as (-> & ->).
    intros H; apply (Hthrew _ _ _ _ H); reflexivity.
  - destruct (maybeParseRecord_returns result ty (mkScan sf recs))
      as (res & sc' & ->). discriminate.
  - destruct (parseRecord result ty _) as [res sc'|e1 sc'] eqn:E;
      [discriminate|].
    apply parseRecord_Err in E as ->. simpl.
    intros H; apply (Hthrew _ _ _ _ H); reflexivity.
Qed.

(** *** Closures called on a longer buffer *)

Lemma peek_append n r e x r' :
  0 <= n -> peek n r = Ok x r' -> peek n (append e r) = Ok x (append e r').
Proof.
  intros Hn H. apply peek_Ok in H as (-> & Hav & ->).
  rewrite peek_enough.
  - simpl. rewrite substring_app_stable; [reflexivity|assumption|].
    unfold avail in Hav. lia.
  - unfold avail in *. simpl. rewrite length_app. lia.
Qed.

Lemma read_append n r e x r' :
  0 <= n -> read n r = Ok x r' -> read n (append e r) = Ok x (append e r').
Proof.
  intros Hn H. apply read_Ok in H as (-> & Hav & ->).
  rewrite read_enough.
  - simpl. rewrite substring_app_stable; [reflexivity|assumption|].
    unfold avail in Hav. lia.
  - unfold avail in *. simpl. rewrite length_app. lia.
Qed.

Ltac grow_read reader e :=
  lazymatch goal with
  | |- context [read ?n reader] =>
      let x := fresh "x" in let r := fresh "r" in let E := fresh "E" in
      let e1 := fresh "e1" in
      destruct (read n reader) as [x r|e1 r] eqn:E;
      [rewrite (read_append n reader e x r) by first [exact E|lia];
       apply read_Ok in E as (-> & _ & _)
      |apply read_Err in E as (-> & -> & _); left; reflexivity]
  end.

Lemma call_append cur result reader e :
  (forall sd, cur = ParseSubfile sd -> 0 <= sd_length sd) ->
  match call cur result reader with
  | Returned res r' => call cur result (append e reader) = Returned res (append e r')
  | Threw ex cur' r' =>
      ex = EOF \/ call cur result (append e reader) = Threw ex cur' (append e r')
  end.
Proof.
  intros Hlen.
  destruct cur as [ | | | | | | | | | | | | |sd|sf ty recs|sf ty recs];
    unfold call, onParserReader, onCaptured, readSeparator; unfold_js.
  all: try reflexivity.
  all: try grow_read reader e.
  all: repeat match goal with
       | |- context [if ?b then _ else _] => destruct b
       | |- context [match parseInt ?x with _ => _ end] => destruct (parseInt x)
       end.
  all: try reflexivity.
  all: try (right; reflexivity).

  - (* designator *)
    unfold parseSubfileDesignator, SUBFILE_DESIGNATOR_SIZE. unfold_js.
    destruct (peek 10 reader) as [block r|e1 r] eqn:E.
    + rewrite (peek_append 10 reader e block r) by first [exact E|lia].
      apply peek_Ok in E as (-> & Hav & _).
      destruct (read 2 _) as [type c1|e1 c1] eqn:E1.
      2:{ apply read_Err in E1 as (-> & _). left; reflexivity. }
      destruct (read 4 c1) as [off c2|e1 c2] eqn:E2.
      2:{ apply read_Err in E2 as (-> & _). left; reflexivity. }
      destruct (read 4 c2) as [len c3|e1 c3] eqn:E3.
      2:{ apply read_Err in E3 as (-> & _). left; reflexivity. }
      destruct (parseInt off); [|right; reflexivity].
      destruct (parseInt len); [|right; reflexivity].
      rewrite (read_enough 10 reader) by assumption.
      rewrite (read_enough 10 (append e reader))
        by (unfold avail in *; simpl; rewrite length_app; lia).
      reflexivity.
    + apply peek_Err in E as (-> & -> & _). left; reflexivity.
  - (* subfile *)
    unfold parseSubfile. unfold_js. simpl.
    destruct (peek _ _) as [snapshot r|e1 r] eqn:E.
    + apply (peek_append _ _ e) in E; [|eauto]. unfold append in E at 1.
      simpl in E. rewrite E.
      destruct (recognized _); [|reflexivity].
      destruct (read 2 _) as [x c|e1 c] eqn:E2; [reflexivity|].
      apply read_Err in E2 as (-> & _). left; reflexivity.
    + apply peek_Err in E as (-> & _). left; reflexivity.
  - destruct (maybeParseRecord _ _ _); [reflexivity|right; reflexivity].
  - destruct (parseRecord _ _ _); [reflexivity|right; reflexivity].
Qed.

(** *** What a returning closure does to the result and the queue *)

Lemma parseRecord_loop_Ok fuel result sfType key : forall val copied sc res sc',
  parseRecord_loop fuel result sfType key val copied sc = Ok res sc' ->
  pfr_result res = result
  /\ pfr_next res = [MaybeParseRecord (sfReader sc') sfType (records sc')].
Proof.
  induction fuel as [|fuel IH]; intros val copied sc res sc'; simpl.
  - discriminate.
  - unfold_js.
    destruct (peek 1 copied) as [next r|e1 r]; [|discriminate].
    destruct (_ || _).
    + simpl. destruct (read _ _) as [x1 r1|e1 r1]; [|discriminate]. simpl.
      destruct (bool_decide _); simpl.
      * destruct (read 1 r1) as [x2 r2|e2 r2]; [|discriminate].
        intros [= <- <-]. auto.
      * intros [= <- <-]. auto.
    + destruct (read 1 copied) as [x1 r1|e1 r1]; [|discriminate].
      apply IH.
Qed.

Lemma parseRecord_Ok result sfType sc res sc' :
  parseRecord result sfType sc = Ok res sc' ->
  pfr_result res = result
  /\ pfr_next res = [MaybeParseRecord (sfReader sc') sfType (records sc')].
Proof.
  unfold parseRecord. unfold_js.
  destruct (read 3 _) as [key copied|e1 r]; [|discriminate].
  destruct (negb _); [discriminate|]. apply parseRecord_loop_Ok.
Qed.

Lemma maybeParseRecord_Ok result sfType sc res sc' :
  maybeParseRecord result sfType sc = Ok res sc' ->
  (res = commitSubfile result sfType (records sc))
  \/ (res = mkParseFuncResult result [ParseRecord (sfReader sc) sfType (records sc)]).
Proof.
  unfold maybeParseRecord. unfold_js.
  destruct (peek 1 (sfReader sc)) as [next r|e r] eqn:E.
  - apply peek_Ok in E as (-> & Hav & _).
    destruct (bool_decide _).
    + rewrite read_enough by assumption. intros [= <- <-]. auto.
    + intros [= <- <-]. auto.
  - apply peek_Err in E as (-> & -> & _). simpl. intros [= <- <-]. auto.
Qed.

Lemma parseSubfile_Ok result sd reader res reader' :
  parseSubfile result sd reader = Ok res reader' ->
  reader' = reader /\ pfr_result res = result
  /\ (pfr_next res = []
      \/ exists sf, pfr_next res = [MaybeParseRecord sf (sd_type sd) ∅]).
Proof.
  unfold parseSubfile. unfold_js.
  destruct (peek _ _) as [snapshot r|e1 r]; [|discriminate].
  destruct (recognized _).
  - destruct (read 2 _) as [x c|e1 c]; [|discriminate].
    intros [= <- <-]. simpl. eauto.
  - intros [= <- <-]. simpl. eauto.
Qed.

(** A returning closure keeps the designators found so far (it may add one
    at the end), and the subfile closures it queues are for designators
    already found. *)
Lemma call_Returned_designators cur result reader res reader' :
  call cur result reader = Returned res reader' ->
  subfileDesignators result `prefix_of` subfileDesignators (pfr_result res)
  /\ (forall sd, ParseSubfile sd ∈ pfr_next res ->
                 sd ∈ subfileDesignators result).
Proof.
  assert (forall (r : ParseFuncResult) (rd : StringIO),
            subfileDesignators (pfr_result r) = subfileDesignators result ->
            (forall sd, ParseSubfile sd ∈ pfr_next r ->
                        sd ∈ subfileDesignators result) ->
            Returned r rd = Returned res reader' ->
            subfileDesignators result `prefix_of`
              subfileDesignators (pfr_result res)
            /\ (forall sd, ParseSubfile sd ∈ pfr_next res ->
                           sd ∈ subfileDesignators result))
    as Hsame.
  { intros r rd Heq Hnext [= <- <-]. rewrite Heq. split; [reflexivity|exact Hnext]. }
  assert (forall sd, ParseSubfile sd ∈ headerFuncs -> sd ∈ subfileDesignators result)
    as Hhdr.
  { intros sd H. unfold headerFuncs in H.
    repeat (apply elem_of_cons in H as [H|H]; [discriminate|]).
    inversion H. }
  assert (forall sd, ParseSubfile sd ∈ @nil ParseFunc -> sd ∈ subfileDesignators result)
    as Hnil by (intros sd H; inversion H).
  destruct cur as [ | | | | | | | | | | | | |sd|sf ty recs|sf ty recs];
    unfold call, onParserReader, onCaptured, readSeparator; unfold_js.
  all: try (destruct (read _ reader) as [x r|e1 r]; [|discriminate]).
  all: repeat match goal with
       | |- context [if ?b then _ else _] => destruct b
       | |- context [match parseInt ?x with _ => _ end] => destruct (parseInt x)
       end.
  all: try discriminate.
  all: try (apply Hsame; [reflexivity|assumption]).
  - apply Hsame; [reflexivity|]. simpl. intros sd H.
    apply elem_of_replicate in H as [H _]. discriminate.
  - destruct (parseSubfileDesignator result reader) as [r rd|e1 rd] eqn:E;
      [|discriminate].
    apply parseSubfileDesignator_Ok in E as (-> & Hnext & sd & Hres).
    intros [= <- <-]. rewrite Hres, Hnext. simpl.
    split; [apply prefix_app_r; reflexivity|assumption].
  - apply Hsame; [reflexivity|]. simpl. intros sd H.
    apply list_elem_of_In, in_map_iff in H as (sd' & [= ->] & H).
    apply list_elem_of_In. assumption.
  - destruct (parseSubfile result sd reader) as [r rd|e1 rd] eqn:E;
      [|discriminate].
    apply parseSubfile_Ok in E as (-> & Hres & Hnext).
    apply Hsame; [rewrite Hres; reflexivity|].
    intros sd' H. destruct Hnext as [Hn|[sf Hn]]; rewrite Hn in H.
    + inversion H.
    + apply list_elem_of_singleton in H. discriminate.
  - destruct (maybeParseRecord _ _ _) as [r sc'|e1 sc'] eqn:E; [|discriminate].
    apply maybeParseRecord_Ok in E as [->| ->];
      (apply Hsame; [reflexivity|]); simpl; [assumption|].
    intros sd H. apply list_elem_of_singleton in H. discriminate.
  - destruct (parseRecord _ _ _) as [r sc'|e1 sc'] eqn:E; [|discriminate].
    apply parseRecord_Ok in E as (Hres & Hnext).
    apply Hsame; [rewrite Hres; reflexivity|]. rewrite Hnext.
    intros sd H. apply list_elem_of_singleton in H. discriminate.
Qed.

(** *** The engine *)

Lemma parse_nil fuel p : funcs p = [] -> parse fuel p = Done p.
Proof. intros H. destruct fuel; simpl; rewrite H; reflexivity. Qed.

(** More calls allowed do not change how a finished [parse()] ended. *)
Lemma parse_fuel_mono fuel : forall p fuel',
  finished (parse fuel p) -> (fuel <= fuel')%nat -> parse fuel' p = parse fuel p.
Proof.
  induction fuel as [|fuel IH]; intros p fuel' Hfin Hle.
  - simpl in Hfin. destruct (funcs p) eqn:E; [|contradiction].
    rewrite !parse_nil by assumption. reflexivity.
  - destruct fuel' as [|fuel']; [lia|]. simpl in Hfin |- *.
    destruct (funcs p) as [|cur rest]; [reflexivity|].
    destruct (call cur (result p) (reader p)); [|reflexivity].
    apply IH; [assumption|lia].
Qed.

Lemma parse_Done_funcs fuel : forall p p',
  parse fuel p = Done p' -> funcs p' = [].
Proof.
  induction fuel as [|fuel IH]; intros p p'; simpl.
  - destruct (funcs p) eqn:E; [|discriminate]. intros [= <-]. assumption.
  - destruct (funcs p) as [|cur rest] eqn:E; [intros [= <-]; assumption|].
    destruct (call cur (result p) (reader p)); [|discriminate]. apply IH.
Qed.

(** The designators found so far are kept by the rest of the run. *)
Lemma parse_Done_designators fuel : forall p p',
  parse fuel p = Done p' ->
  subfileDesignators (result p) `prefix_of` subfileDesignators (result p').
Proof.
  induction fuel as [|fuel IH]; intros p p'; simpl.
  - destruct (funcs p); [|discriminate]. intros [= <-]. reflexivity.
  - destruct (funcs p) as [|cur rest]; [intros [= <-]; reflexivity|].
    destruct (call cur (result p) (reader p)) as [res r|] eqn:E; [|discriminate].
    intros H. apply IH in H. simpl in H.
    apply call_Returned_designators in E as [Hpre _].
    etransitivity; eassumption.
Qed.

Lemma queued_known_fresh reader : queued_known (makeDLIDParser reader).
Proof.
  intros sd H. unfold makeDLIDParser in H. simpl in H.
  repeat (apply elem_of_cons in H as [H|H]; [discriminate|]).
  inversion H.
Qed.

Lemma queued_known_step cur rest result reader res reader' :
  queued_known (mkParser reader (cur :: rest) result) ->
  call cur result reader = Returned res reader' ->
  queued_known (mkParser reader' (pfr_next res ++ rest) (pfr_result res)).
Proof.
  intros Hq E sd H. simpl in *.
  apply call_Returned_designators in E as [Hpre Hnext].
  eapply elem_of_prefix; [|exact Hpre].
  apply elem_of_app in H as [H|H].
  - auto.
  - apply (Hq sd). simpl. apply elem_of_cons. auto.
Qed.

(** A [parse()] that ended on EOF ends the same way when called again
    without new data. *)
Lemma parse_Raised_EOF_again fuel : forall p p',
  parse fuel p = Raised EOF p' -> parse fuel p' = Raised EOF p'.
Proof.
  induction fuel as [|fuel IH]; intros p p' H; simpl in H.
  - destruct (funcs p); discriminate.
  - destruct (funcs p) as [|cur rest] eqn:Ef; [discriminate|].
    destruct (call cur (result p) (reader p)) as [res r|e cur' r] eqn:E.
    + apply IH in H.
      rewrite <- H. apply parse_fuel_mono; [rewrite H; exact I|lia].
    + injection H as -> <-. simpl.
      destruct (call_Threw _ _ _ _ _ _ E) as [-> Hr].
      rewrite (Hr eq_refl) in E |- *. rewrite E. reflexivity.
Qed.

Lemma feed_nil p : feed [] p = p.
Proof.
  destruct p as [[d q] f r]. unfold feed, append. simpl.
  rewrite app_nil_r. reflexivity.
Qed.

Lemma feed_feed a b p : feed b (feed a p) = feed (a ++ b) p.
Proof.
  destruct p as [[d q] f r]. unfold feed, append. simpl.
  rewrite app_assoc. reflexivity.
Qed.

(** If [parse()] completes once the data [e] has been appended, then called
    before that it either completes with the same result, or stops on EOF
    in a state from which [e] leads to the same completion. *)
Lemma parse_resume fuel : forall p e pR,
  queued_known p -> lengths_nonneg (result pR) ->
  parse fuel (feed e p) = Done pR ->
  (exists p', parse fuel p = Done p' /\ feed e p' = pR)
  \/ (exists p', parse fuel p = Raised EOF p' /\ queued_known p'
                 /\ parse fuel (feed e p') = Done pR).
Proof.
  induction fuel as [|fuel IH]; intros p e pR Hq Hlen Hrun.
  - simpl in *. destruct (funcs p) as [|cur rest]; [|discriminate].
    left. exists p. split; [reflexivity|]. congruence.
  - pose proof (parse_Done_designators _ _ _ Hrun) as Hpre.
    destruct p as [reader fs result]. simpl in Hrun, Hpre.
    destruct fs as [|cur rest].
    { left. eexists. split; [reflexivity|]. congruence. }
    assert (forall sd, cur = ParseSubfile sd -> 0 <= sd_length sd) as Hcur.
    { intros sd ->. apply Hlen. eapply elem_of_prefix; [|exact Hpre].
      apply (Hq sd). simpl. apply elem_of_cons. auto. }
    pose proof (call_append cur result reader e Hcur) as Happ.
    destruct (call cur result reader) as [res r|ex cur' r] eqn:E.
    + rewrite Happ in Hrun.
      pose proof (queued_known_step _ _ _ _ _ _ Hq E) as Hq1.
      destruct (IH (mkParser r (pfr_next res ++ rest) (pfr_result res))
                   e pR Hq1 Hlen Hrun) as [(p' & H1 & H2)|(p' & H1 & H2 & H3)].
      * left. exists p'. split; [|assumption]. simpl. rewrite E. assumption.
      * right. exists p'. split; [simpl; rewrite E; assumption|].
        split; [assumption|].
        rewrite <- H3. apply parse_fuel_mono; [rewrite H3; exact I|lia].
    + destruct (call_Threw _ _ _ _ _ _ E) as [-> Hr].
      destruct Happ as [->|Happ].
      * rewrite (Hr eq_refl) in E. right. eexists.
        split; [simpl; rewrite E; reflexivity|].
        split; [assumption|]. simpl. exact Hrun.
      * rewrite Happ in Hrun. discriminate.
Qed.

(** Feeding the data chunk by chunk ends as feeding it at once. *)
Lemma feedAll_resume fuel chunks : forall p last pR,
  queued_known p -> lengths_nonneg (result pR) ->
  last = parse fuel p ->
  parse fuel (feed (concat chunks) p) = Done pR ->
  exists p', feedAll fuel chunks p last = Done p' /\ result p' = result pR.
Proof.
  induction chunks as [|chunk chunks IH]; intros p last pR Hq Hlen Hlast Hrun.
  - simpl in *. rewrite feed_nil in Hrun. exists pR.
    split; congruence.
  - simpl in *. rewrite <- feed_feed in Hrun.
    assert (queued_known (feed chunk p)) as Hq1 by exact Hq.
    destruct (parse_resume _ _ _ _ Hq1 Hlen Hrun)
      as [(p' & H1 & H2)|(p' & H1 & H2 & H3)]; rewrite H1.
    + pose proof (parse_Done_funcs _ _ _ H1) as Hnil.
      apply (IH p' (Done p') pR); try assumption.
      * intros sd H. rewrite Hnil in H. inversion H.
      * symmetry. apply parse_nil. assumption.
      * rewrite H2. apply parse_nil.
        apply (parse_Done_funcs _ _ _ Hrun).
    + apply (IH p' (Raised EOF p') pR); try assumption.
      symmetry. eapply parse_Raised_EOF_again. eassumption.
Qed.

(** A [parse()] that ended on EOF left the parser as it stood before the
    call that threw: the state reached after some number of returned
    calls. *)
Lemma parse_Raised_EOF_state fuel : forall p p',
  parse fuel p = Raised EOF p' ->
  exists k, (k < fuel)%nat /\ parse k p = Paused p'.
Proof.
  induction fuel as [|fuel IH]; intros p p' H; simpl in H.
  - destruct (funcs p); discriminate.
  - destruct p as [reader fs result]. simpl in H.
    destruct fs as [|cur rest]; [discriminate|].
    destruct (call cur result reader) as [res r|e cur' r] eqn:E.
    + apply IH in H as (k & Hk & H). exists (S k). split; [lia|].
      simpl. rewrite E. assumption.
    + injection H as -> <-.
      destruct (call_Threw _ _ _ _ _ _ E) as [-> Hr]. rewrite (Hr eq_refl).
      exists O. split; [lia|]. reflexivity.
Qed.

(** C2 (step atomicity on insufficient data).  (1) A closure call that
    throws EOF leaves the closure, with the objects it captured, and the
    parser's reader exactly as they were.  (2) When [parse()] ends on EOF,
    the parser is in the state it had before the failed call (result,
    queue with the failed closure first, cursor), and driving it again
    without new data fails in the same way from that state.  (3) A
    subfile-designator call either returns with the cursor moved by exactly
    10, or throws with the reader untouched. *)
Theorem C2_step_atomicity :
  (forall cur result reader cur' reader',
      call cur result reader = Threw EOF cur' reader' ->
      cur' = cur /\ reader' = reader)
  /\ (forall fuel p p',
         parse fuel p = Raised EOF p' ->
         (exists k, (k < fuel)%nat /\ parse k p = Paused p')
         /\ parse fuel p' = Raised EOF p')
  /\ (forall result reader,
         match call ParseSubfileDesignator result reader with
         | Returned _ reader' =>
             reader' = mkStringIO (data reader) (pos reader + 10)
         | Threw _ cur' reader' =>
             cur' = ParseSubfileDesignator /\ reader' = reader
         end).
Proof.
  split; [|split].
  - intros cur result reader cur' reader' H.
    apply call_Threw in H as [-> Hr]. auto.
  - intros fuel p p' H. split.
    + apply parse_Raised_EOF_state. assumption.
    + eapply parse_Raised_EOF_again. eassumption.
  - intros result reader. unfold call, onParserReader.
    destruct (parseSubfileDesignator result reader) as [res r|e r] eqn:E.
    + apply parseSubfileDesignator_Ok in E as (-> & _). reflexivity.
    + apply parseSubfileDesignator_Err in E as ->. auto.
Qed.

(** The first header closure on an empty buffer. *)
Lemma C2_step_atomicity_witness :
  call ExpectAt initialResult (mkStringIO [] 0)
    = Threw EOF ExpectAt (mkStringIO [] 0)
  /\ ExpectAt = ExpectAt /\ mkStringIO [] 0 = mkStringIO [] 0.
Proof.
  split; [reflexivity|].
  apply (proj1 C2_step_atomicity ExpectAt initialResult (mkStringIO [] 0)).
  reflexivity.
Defined.

(** *** Reading at a known place of the buffer *)

Lemma peek_split d pre body post n q :
  d = pre ++ body ++ post -> q = Z.of_nat (length pre) ->
  n = Z.of_nat (length body) ->
  peek n (mkStringIO d q) = Ok body (mkStringIO d q).
Proof.
  intros -> -> ->. rewrite peek_enough.
  - simpl. rewrite substring_pre_post. reflexivity.
  - unfold avail. simpl. rewrite !length_app. lia.
Qed.

Lemma read_split d pre body post n q :
  d = pre ++ body ++ post -> q = Z.of_nat (length pre) ->
  n = Z.of_nat (length body) ->
  read n (mkStringIO d q) = Ok body (mkStringIO d (q + n)).
Proof.
  intros Hd Hq Hn. unfold read, bind.
  rewrite (peek_split d pre body post) by assumption. reflexivity.
Qed.

Lemma read_char (r : StringIO) (c : ascii) :
  0 <= pos r -> data r !! Z.to_nat (pos r) = Some c ->
  read 1 r = Ok [c] (mkStringIO (data r) (pos r + 1)).
Proof.
  intros Hpos Hc. destruct r as [d q]. simpl in *.
  apply (read_split d (take (Z.to_nat q) d) [c] (drop (S (Z.to_nat q)) d)).
  - symmetry. apply take_drop_middle. assumption.
  - apply lookup_lt_Some in Hc. rewrite length_take. lia.
  - reflexivity.
Qed.

Ltac unfold_call :=
  unfold call, onParserReader, onCaptured, readSeparator, bind, ret, throw,
    get.

(** One round of the [while] of [parse()]. *)
Lemma parse_Returned fuel reader cur rest result res reader' :
  call cur result reader = Returned res reader' ->
  parse (S fuel) (mkParser reader (cur :: rest) result)
  = parse fuel (mkParser reader' (pfr_next res ++ rest) (pfr_result res)).
Proof. intros H. simpl. rewrite H. reflexivity. Qed.

Lemma parse_Threw fuel reader cur rest result e cur' reader' :
  call cur result reader = Threw e cur' reader' ->
  parse (S fuel) (mkParser reader (cur :: rest) result)
  = Raised e (mkParser reader' (cur' :: rest) result).
Proof. intros H. simpl. rewrite H. reflexivity. Qed.

Lemma call_ExpectAt result d post :
  d = str "@" ++ post ->
  call ExpectAt result (mkStringIO d 0)
  = Returned (mkParseFuncResult result []) (mkStringIO d 1).
Proof.
  intros Hd. unfold_call.
  rewrite (read_split d [] (str "@") post) by (assumption || reflexivity).
  reflexivity.
Qed.

Lemma invalidSeparatorPattern_char c :
  invalidSeparatorPattern [c]
  = isLower c || isUpper c || isDigit c || (code c =? 32).
Proof. unfold invalidSeparatorPattern. simpl. apply orb_false_r. Qed.

Lemma separator_rejected cur result reader c :
  separatorFunc cur ->
  0 <= pos reader -> data reader !! Z.to_nat (pos reader) = Some c ->
  invalidSeparatorPattern [c] = true ->
  call cur result reader
  = Threw (HeaderParseError (str "Invalid separator 0x" ++ toString16 (code c)))
          cur (mkStringIO (data reader) (pos reader + 1)).
Proof.
  intros Hcur Hpos Hc Hbad.
  destruct Hcur as [->|[->| ->]]; unfold_call;
    rewrite (read_char reader c) by assumption; rewrite Hbad; reflexivity.
Qed.

Lemma separator_accepted cur result reader c :
  separatorFunc cur ->
  0 <= pos reader -> data reader !! Z.to_nat (pos reader) = Some c ->
  invalidSeparatorPattern [c] = false ->
  call cur result reader
  = Returned (updHeader (setSeparator cur [c]) result)
             (mkStringIO (data reader) (pos reader + 1)).
Proof.
  intros Hcur Hpos Hc Hbad.
  destruct Hcur as [->|[->| ->]]; unfold_call;
    rewrite (read_char reader c) by assumption; rewrite Hbad; reflexivity.
Qed.

(** C4 (separator rejection).  (1) When the closure that reads one of the
    three header separators finds a letter, a digit or a space under the
    cursor, it throws HeaderParseError, having read exactly that character.
    (2) On an input whose marker is followed by fewer than three valid
    separators and then such a character, [parse()] throws
    HeaderParseError with the cursor just past that character.  (3) The
    input of the test suite, with a space as first separator, does so. *)
Theorem C4_separator_rejection :
  (forall cur result reader c,
      separatorFunc cur ->
      0 <= pos reader -> data reader !! Z.to_nat (pos reader) = Some c ->
      invalidSeparatorPattern [c] = true ->
      call cur result reader
      = Threw (HeaderParseError
                 (str "Invalid separator 0x" ++ toString16 (code c)))
              cur (mkStringIO (data reader) (pos reader + 1)))
  /\ (forall good c rest fuel,
         (length good < 3)%nat ->
         invalidSeparatorPattern good = false ->
         invalidSeparatorPattern [c] = true ->
         (length good + 3 <= fuel)%nat ->
         exists p',
           parse fuel (makeDLIDParser
                         (mkStringIO (str "@" ++ good ++ c :: rest) 0))
           = Raised (HeaderParseError
                       (str "Invalid separator 0x" ++ toString16 (code c))) p'
           /\ pos (reader p') = Z.of_nat (length good) + 2)
  /\ (exists p',
         parse 3 (makeDLIDParser
                    (mkStringIO (str "@  ANSI 000000000000XXXXXX") 0))
         = Raised (HeaderParseError (str "Invalid separator 0x20")) p'
         /\ pos (reader p') = 2).
Proof.
  split; [|split].
  - intros. apply separator_rejected; assumption.
  - intros good c rest fuel Hlen Hgood Hbad Hfuel.
    set (d := str "@" ++ good ++ c :: rest).
    assert (exists p',
               parse (length good + 3) (makeDLIDParser (mkStringIO d 0))
               = Raised (HeaderParseError
                           (str "Invalid separator 0x" ++ toString16 (code c))) p'
               /\ pos (reader p') = Z.of_nat (length good) + 2)
      as (p' & Hp & Hpos).
    { unfold makeDLIDParser.
      rewrite Nat.add_comm. cbn [Nat.add].
      rewrite (parse_Returned _ _ _ _ _ (mkParseFuncResult initialResult headerFuncs)
                 (mkStringIO d 0)) by reflexivity.
      cbn [pfr_next pfr_result headerFuncs app].
      rewrite (parse_Returned _ _ _ _ _ _ _
                 (call_ExpectAt _ d (good ++ c :: rest) eq_refl)).
      cbn [pfr_next pfr_result app].
      unfold invalidSeparatorPattern in Hgood.
      destruct good as [|a [|b [|x good]]]; simpl in Hlen; [| | |lia];
        cbn [length].
      - rewrite (parse_Threw _ _ _ _ _ _ _ _
                   (separator_rejected ReadDataElementSeparator _
                      (mkStringIO d 1) c (or_introl eq_refl)
                      ltac:(simpl; lia) eq_refl Hbad)).
        eexists. split; reflexivity.
      - simpl in Hgood. apply orb_false_elim in Hgood as [Ha _].
        rewrite <- invalidSeparatorPattern_char in Ha.
        rewrite (parse_Returned _ _ _ _ _ _ _
                   (separator_accepted ReadDataElementSeparator _
                      (mkStringIO d 1) a (or_introl eq_refl)
                      ltac:(simpl; lia) eq_refl Ha)).
        cbn [pfr_next pfr_result updHeader app data pos].
        rewrite (parse_Threw _ _ _ _ _ _ _ _
                   (separator_rejected ReadRecordSeparator _
                      (mkStringIO d (1 + 1)) c (or_intror (or_introl eq_refl))
                      ltac:(simpl; lia) eq_refl Hbad)).
        eexists. split; reflexivity.
      - simpl in Hgood. apply orb_false_elim in Hgood as [Ha Hgood].
        apply orb_false_elim in Hgood as [Hb _].
        rewrite <- invalidSeparatorPattern_char in Ha.
        rewrite <- invalidSeparatorPattern_char in Hb.
        rewrite (parse_Returned _ _ _ _ _ _ _
                   (separator_accepted ReadDataElementSeparator _
                      (mkStringIO d 1) a (or_introl eq_refl)
                      ltac:(simpl; lia) eq_refl Ha)).
        cbn [pfr_next pfr_result updHeader app data pos].
        rewrite (parse_Returned _ _ _ _ _ _ _
                   (separator_accepted ReadRecordSeparator _
                      (mkStringIO d (1 + 1)) b (or_intror (or_introl eq_refl))
                      ltac:(simpl; lia) eq_refl Hb)).
        cbn [pfr_next pfr_result updHeader app data pos].
        rewrite (parse_Threw _ _ _ _ _ _ _ _
                   (separator_rejected ReadSegmentTerminator _
                      (mkStringIO d (1 + 1 + 1)) c (or_intror (or_intror eq_refl))
                      ltac:(simpl; lia) eq_refl Hbad)).
        eexists. split; reflexivity. }
    exists p'. split; [|assumption].
    rewrite <- Hp. apply parse_fuel_mono; [rewrite Hp; exact I|assumption].
  - eexists. split; vm_compute; reflexivity.
Qed.

(** A digit where the record separator should stand. *)
Lemma C4_separator_rejection_witness :
  call ReadRecordSeparator initialResult (mkStringIO (str "@|7~ANSI ") 2)
  = Threw (HeaderParseError (str "Invalid separator 0x37"))
          ReadRecordSeparator (mkStringIO (str "@|7~ANSI ") 3).
Proof.
  apply (proj1 C4_separator_rejection ReadRecordSeparator initialResult
           (mkStringIO (str "@|7~ANSI ") 2) "7"%char).
  - right; left; reflexivity.
  - simpl; lia.
  - reflexivity.
  - reflexivity.
Defined.

(** *** Subfile types in the records map *)

Lemma keysRecognized_commit result ty recs :
  keysRecognized result -> recognized ty = true ->
  keysRecognized (pfr_result (commitSubfile result ty recs)).
Proof.
  intros Hk Hty ty' H. simpl in H.
  destruct (decide (ty = ty')) as [<-|Hne]; [assumption|].
  rewrite lookup_insert_ne in H by assumption. auto.
Qed.

Lemma call_Returned_types cur result reader res reader' :
  scansRecognized cur -> keysRecognized result ->
  call cur result reader = Returned res reader' ->
  keysRecognized (pfr_result res) /\ Forall scansRecognized (pfr_next res).
Proof.
  intros Hcur Hkeys.
  assert (forall (r : ParseFuncResult) (rd : StringIO),
            subfiles (pfr_result r) = subfiles result ->
            Forall scansRecognized (pfr_next r) ->
            Returned r rd = Returned res reader' ->
            keysRecognized (pfr_result res)
            /\ Forall scansRecognized (pfr_next res)) as Hsame.
  { intros r rd Heq Hnext [= <- <-]. split; [|assumption].
    intros ty. rewrite Heq. apply Hkeys. }
  destruct cur as [ | | | | | | | | | | | | |sd|sf ty recs|sf ty recs];
    unfold call, onParserReader, onCaptured, readSeparator; unfold_js.
  all: try (destruct (read _ reader) as [x r|e1 r]; [|discriminate]).
  all: repeat match goal with
       | |- context [if ?b then _ else _] => destruct b
       | |- context [match parseInt ?x with _ => _ end] => destruct (parseInt x)
       end.
  all: try discriminate.
  all: try (apply Hsame; [reflexivity|simpl; repeat constructor]; fail).
  - apply Hsame; [reflexivity|]. simpl.
    apply Forall_forall. intros f Hf.
    apply elem_of_replicate in Hf as [-> _]. exact I.
  - destruct (parseSubfileDesignator result reader) as [r rd|e1 rd] eqn:E;
      [|discriminate].
    apply parseSubfileDesignator_Ok in E as (-> & Hnext & sd & Hres).
    apply Hsame; [rewrite Hres; reflexivity|rewrite Hnext; constructor].
  - apply Hsame; [reflexivity|]. simpl.
    apply Forall_forall. intros f Hf.
    apply list_elem_of_In, in_map_iff in Hf as (sd & <- & _). exact I.
  - unfold parseSubfile. unfold_js.
    destruct (peek _ _) as [snapshot r|e1 r]; [|discriminate].
    destruct (recognized (sd_type sd)) eqn:Hty.
    + destruct (read 2 _) as [x c|e1 c]; [|discriminate].
      apply Hsame; [reflexivity|]. simpl. repeat constructor. assumption.
    + apply Hsame; [reflexivity|constructor].
  - simpl in Hcur.
    destruct (maybeParseRecord _ _ _) as [r sc'|e1 sc'] eqn:E; [|discriminate].
    apply maybeParseRecord_Ok in E as [->| ->]; intros [= <- <-].
    + split; [apply keysRecognized_commit; assumption|constructor].
    + split; [assumption|]. repeat constructor. assumption.
  - simpl in Hcur.
    destruct (parseRecord _ _ _) as [r sc'|e1 sc'] eqn:E; [|discriminate].
    apply parseRecord_Ok in E as (Hres & Hnext).
    apply Hsame; [rewrite Hres; reflexivity|]. rewrite Hnext.
    repeat constructor. assumption.
Qed.

Lemma typesRecognized_parse fuel : forall p,
  typesRecognized p -> typesRecognized (stateOf (parse fuel p)).
Proof.
  induction fuel as [|fuel IH]; intros [reader fs result] Hp; simpl.
  - destruct fs; assumption.
  - destruct fs as [|cur rest]; [assumption|].
    destruct Hp as [Hk Hf]. simpl in Hk, Hf.
    apply Forall_cons in Hf as [Hcur Hrest].
    destruct (call cur result reader) as [res r|e cur' r] eqn:E.
    + apply IH.
      destruct (call_Returned_types _ _ _ _ _ Hcur Hk E) as [Hk' Hn'].
      split; simpl; [assumption|]. apply Forall_app. auto.
    + destruct (call_Threw _ _ _ _ _ _ E) as [-> _].
      split; simpl; [assumption|]. constructor; assumption.
Qed.

Lemma typesRecognized_fresh reader : typesRecognized (makeDLIDParser reader).
Proof.
  split.
  - intros ty H. change (is_Some ((∅ : Subfiles) !! ty)) in H.
    rewrite lookup_empty in H. destruct H as [? [=]].
  - simpl. repeat constructor.
Qed.

Lemma parse_designators fuel : forall p,
  subfileDesignators (result p)
    `prefix_of` subfileDesignators (result (stateOf (parse fuel p))).
Proof.
  induction fuel as [|fuel IH]; intros [reader fs result]; simpl.
  - destruct fs; reflexivity.
  - destruct fs as [|cur rest]; [reflexivity|].
    destruct (call cur result reader) as [res r|e cur' r] eqn:E;
      [|reflexivity].
    apply call_Returned_designators in E as [Hpre _].
    etransitivity; [exact Hpre|]. apply (IH (mkParser _ _ _)).
Qed.

(** C8 (unrecognized-type tolerance).  For a designator whose type is
    neither "DL" nor "ID": (1) when its range is in the buffer the subfile
    closure returns without error and leaves the result as it is (so the
    designator list and the records map are untouched); (2) while the range
    is not there it throws EOF and nothing else; (3) the designators found
    are kept to the end of any run; and (4) whatever is fed to a new
    parser, the records map only ever has keys "DL" and "ID", so the type
    is not a key of it. *)
Theorem C8_unrecognized_type :
  forall sd, recognized (sd_type sd) = false ->
  (forall result reader,
      sd_length sd <= Z.of_nat (length (data reader)) - sd_offset sd ->
      call (ParseSubfile sd) result reader
      = Returned (mkParseFuncResult result []) reader)
  /\ (forall result reader,
         Z.of_nat (length (data reader)) - sd_offset sd < sd_length sd ->
         call (ParseSubfile sd) result reader
         = Threw EOF (ParseSubfile sd) reader)
  /\ (forall fuel p,
         sd ∈ subfileDesignators (result p) ->
         sd ∈ subfileDesignators (result (stateOf (parse fuel p))))
  /\ (forall fuel chunks,
         subfiles (result (stateOf (parseChunks fuel chunks))) !! sd_type sd
         = None).
Proof.
  intros sd Hty. split; [|split; [|split]].
  - intros result reader Hav. unfold call, onParserReader, parseSubfile.
    unfold_js. rewrite peek_enough by (unfold avail; simpl; lia).
    rewrite Hty. reflexivity.
  - intros result reader Hav. unfold call, onParserReader, parseSubfile.
    unfold_js. rewrite peek_short by (unfold avail; simpl; lia). reflexivity.
  - intros fuel p Hin. eapply elem_of_prefix; [exact Hin|].
    apply parse_designators.
  - intros fuel chunks.
    assert (forall cs p last,
               typesRecognized p -> typesRecognized (stateOf last) ->
               typesRecognized (stateOf (feedAll fuel cs p last))) as Hfeed.
    { induction cs as [|c cs IH]; intros p last Hp Hlast; simpl; [assumption|].
      pose proof (typesRecognized_parse fuel (feed c p) Hp) as H.
      destruct (parse fuel (feed c p)) as [p'|e p'|p'] eqn:E;
        [apply IH; assumption| |assumption].
      destruct e; [apply IH; assumption|assumption..]. }
    unfold parseChunks.
    destruct (subfiles _ !! sd_type sd) eqn:E; [|reflexivity].
    assert (recognized (sd_type sd) = true) as Hrec; [|congruence].
    eapply (Hfeed chunks fresh (parse fuel fresh)); [| |rewrite E; eauto].
    + apply typesRecognized_fresh.
    + apply typesRecognized_parse, typesRecognized_fresh.
Qed.

(** The "ZV" designator of the repository's example data. *)
Lemma C8_unrecognized_type_witness :
  call (ParseSubfile (mkSubfileDesignator (str "ZV") 4 6)) initialResult
       (mkStringIO (str "....ZVA01.") 0)
  = Returned (mkParseFuncResult initialResult [])
             (mkStringIO (str "....ZVA01.") 0).
Proof.
  apply (proj1 (C8_unrecognized_type
                  (mkSubfileDesignator (str "ZV") 4 6) eq_refl)).
  simpl. lia.
Defined.

(** *** End of the snapshot at a record boundary *)

(** C10 (missing-terminator leniency).  (1) When the closure that stands at
    a record boundary finds the snapshot used up, it returns without error
    and files the records scanned so far under the subfile's type, queueing
    nothing more.  (2) A "DL" subfile whose range ends right after a data
    element separator parses to completion with its one record. *)
Theorem C10_missing_terminator :
  (forall result sf sfType recs reader,
      avail sf < 1 ->
      call (MaybeParseRecord sf sfType recs) result reader
      = Returned (mkParseFuncResult
                    (with_subfiles (<[sfType := recs]> (subfiles result))
                                   result) [])
                 reader)
  /\ (exists p,
         parse 100 (makeDLIDParser
           (mkStringIO (str "@" ++ [LF; RS; CR] ++ str "ANSI 636000110001"
                        ++ str "DL00310015" ++ str "DLDAQT64235789" ++ [LF])
                       0))
         = Done p
         /\ subfiles (result p)
            = {[ str "DL" := {[ str "DAQ" := str "T64235789" ]} ]}).
Proof.
  split.
  - intros result sf sfType recs reader Hav.
    unfold call, onCaptured, maybeParseRecord. unfold_js. simpl.
    rewrite peek_short by assumption. reflexivity.
  - eexists. split; [vm_compute; reflexivity|]. vm_compute. reflexivity.
Qed.

(** The scan of "DLDAQT64235789<LF>" after its record. *)
Lemma C10_missing_terminator_witness :
  call (MaybeParseRecord (mkStringIO (str "DLDAQT64235789" ++ [LF]) 15)
          (str "DL") {[ str "DAQ" := str "T64235789" ]})
       initialResult (mkStringIO [] 0)
  = Returned (mkParseFuncResult
                (with_subfiles
                   (<[str "DL" := {[ str "DAQ" := str "T64235789" ]}]>
                      (subfiles initialResult)) initialResult) [])
             (mkStringIO [] 0).
Proof.
  apply (proj1 C10_missing_terminator). unfold avail. simpl. lia.
Defined.

(** *** The record scan sees the snapshot only *)

Lemma substring_infix s a b : infixOf (substring s a b) s.
Proof.
  assert (forall n m, infixOf (take n (drop m s)) s) as H.
  { intros n m. exists (take m s), (drop n (drop m s)).
    rewrite take_drop, take_drop. reflexivity. }
  apply H.
Qed.

Lemma substring_snoc s a b :
  0 <= a <= b -> b + 1 <= Z.of_nat (length s) ->
  substring s a b ++ substring s b (b + 1) = substring s a (b + 1).
Proof.
  intros Hab Hb. unfold substring, clamp.
  set (l := Z.of_nat (length s)) in *.
  rewrite (Z.max_l a 0), (Z.max_l b 0), (Z.max_l (b + 1) 0) by lia.
  rewrite (Z.min_l a l), (Z.min_l b l), (Z.min_l (b + 1) l) by lia.
  rewrite (Z.min_l a b), (Z.max_r a b) by lia.
  rewrite (Z.min_l b (b + 1)), (Z.max_r b (b + 1)) by lia.
  rewrite (Z.min_l a (b + 1)), (Z.max_r a (b + 1)) by lia.
  replace (Z.to_nat (b + 1 - a)) with (Z.to_nat (b - a) + Z.to_nat (b + 1 - b))%nat
    by lia.
  rewrite <- take_take_drop. f_equal. rewrite drop_drop.
  f_equal. f_equal. lia.
Qed.

Lemma scan_call_reader cur result r1 r2 :
  isScan cur ->
  match call cur result r1, call cur result r2 with
  | Returned res1 r1', Returned res2 r2' => res1 = res2 /\ Forall isScan (pfr_next res1)
  | Threw e1 c1 _, Threw e2 c2 _ => e1 = e2 /\ c1 = c2
  | _, _ => False
  end.
Proof.
  destruct cur as [ | | | | | | | | | | | | |sd|sf ty recs|sf ty recs];
    try contradiction; intros _; unfold call, onCaptured.
  - destruct (maybeParseRecord _ _ _) as [r sc'|e1 sc'] eqn:E; [|auto].
    split; [reflexivity|].
    apply maybeParseRecord_Ok in E as [->| ->]; simpl; repeat constructor.
  - destruct (parseRecord _ _ _) as [r sc'|e1 sc'] eqn:E; [|auto].
    split; [reflexivity|].
    apply parseRecord_Ok in E as (_ & ->). repeat constructor.
Qed.

Lemma scan_parse_reader fuel : forall fs result r1 r2,
  Forall isScan fs ->
  sameButReader (parse fuel (mkParser r1 fs result))
                (parse fuel (mkParser r2 fs result)).
Proof.
  induction fuel as [|fuel IH]; intros fs result r1 r2 Hfs; simpl.
  - destruct fs; simpl; auto.
  - destruct fs as [|cur rest]; simpl; [auto|].
    apply Forall_cons in Hfs as [Hcur Hrest].
    pose proof (scan_call_reader cur result r1 r2 Hcur) as H.
    destruct (call cur result r1) as [res1 r1'|e1 c1 r1'],
             (call cur result r2) as [res2 r2'|e2 c2 r2']; try contradiction.
    + destruct H as [<- Hnext]. apply IH. apply Forall_app. auto.
    + destruct H as [<- <-]. simpl. auto.
Qed.

Lemma parseRecord_loop_within fuel result sfType key p0 :
  forall val copied sc res sc',
  data copied = data (sfReader sc) ->
  0 <= p0 <= pos copied ->
  val = substring (data copied) p0 (pos copied) ->
  0 <= pos (sfReader sc) ->
  parseRecord_loop fuel result sfType key val copied sc = Ok res sc' ->
  data (sfReader sc') = data (sfReader sc)
  /\ 0 <= pos (sfReader sc')
  /\ exists v, infixOf v (data (sfReader sc))
               /\ records sc' = <[key := v]> (records sc).
Proof.
  induction fuel as [|fuel IH]; intros val copied sc res sc' Hdata Hp0 Hval Hpos;
    simpl.
  - discriminate.
  - unfold_js.
    destruct (peek 1 copied) as [next r|e1 r] eqn:E; [|discriminate].
    apply peek_Ok in E as (-> & Hav & Hnext). unfold avail in Hav.
    destruct (_ || _).
    + simpl. destruct (read _ _) as [x1 r1|e1 r1] eqn:E1; [|discriminate].
      apply read_Ok in E1 as (-> & _ & _). simpl.
      assert (infixOf val (data (sfReader sc))) as Hin.
      { rewrite Hval, Hdata. apply substring_infix. }
      destruct (bool_decide _); simpl.
      * destruct (read 1 _) as [x2 r2|e2 r2] eqn:E2; [|discriminate].
        apply read_Ok in E2 as (-> & _ & _). simpl.
        intros [= <- <-]. simpl. split; [reflexivity|]. split; [lia|]. eauto.
      * intros [= <- <-]. simpl. split; [reflexivity|]. split; [lia|]. eauto.
    + destruct (read 1 copied) as [x1 r1|e1 r1] eqn:E1; [|discriminate].
      apply read_Ok in E1 as (-> & _ & _).
      apply IH; simpl; try assumption; [lia|].
      rewrite Hval, Hnext. apply substring_snoc; lia.
Qed.

Lemma parseRecord_within result sfType sc res sc' :
  0 <= pos (sfReader sc) ->
  parseRecord result sfType sc = Ok res sc' ->
  data (sfReader sc') = data (sfReader sc)
  /\ 0 <= pos (sfReader sc')
  /\ exists k v, infixOf k (data (sfReader sc))
                 /\ infixOf v (data (sfReader sc))
                 /\ records sc' = <[k := v]> (records sc).
Proof.
  intros Hpos. unfold parseRecord. unfold_js.
  destruct (read 3 _) as [key copied|e1 r] eqn:E; [|discriminate].
  apply read_Ok in E as (-> & Hav & Hkey). simpl in *.
  destruct (negb _); [discriminate|]. intros H.
  eapply (parseRecord_loop_within _ _ _ _ (pos (sfReader sc) + 3)) in H
    as (Hd & Hp & v & Hv & Hr); simpl; try reflexivity; try lia.
  - split; [assumption|]. split; [assumption|].
    exists key, v. split; [|auto]. rewrite Hkey. apply substring_infix.
  - unfold substring, clamp.
    replace (Z.to_nat _) with O by lia. reflexivity.
Qed.

Lemma entriesWithin_insert snapshot recs k v :
  entriesWithin snapshot recs -> infixOf k snapshot -> infixOf v snapshot ->
  entriesWithin snapshot (<[k := v]> recs).
Proof.
  intros Hr Hk Hv k' v' H.
  destruct (decide (k = k')) as [<-|Hne].
  - rewrite lookup_insert_eq in H. injection H as <-. auto.
  - rewrite lookup_insert_ne in H by assumption. auto.
Qed.

Lemma scanning_Done snapshot sfType fuel : forall reader fs result p',
  scanning snapshot sfType fs ->
  parse fuel (mkParser reader fs result) = Done p' ->
  exists recs, subfiles (Engine.result p') !! sfType = Some recs
               /\ entriesWithin snapshot recs.
Proof.
  induction fuel as [|fuel IH]; intros reader fs result p' Hs; simpl.
  - destruct Hs as (sf & recs & [->| ->] & _); discriminate.
  - destruct Hs as (sf & recs & [->| ->] & Hd & Hp & Hr); unfold call, onCaptured.
    + destruct (maybeParseRecord _ _ _) as [r sc'|e1 sc'] eqn:E; [|discriminate].
      apply maybeParseRecord_Ok in E as [->| ->]; simpl.
      * intros H. rewrite parse_nil in H by reflexivity. injection H as <-.
        simpl. rewrite lookup_insert_eq. eauto.
      * apply IH. exists sf, recs. auto.
    + destruct (parseRecord _ _ _) as [r sc'|e1 sc'] eqn:E; [|discriminate].
      destruct (parseRecord_Ok _ _ _ _ _ E) as (-> & ->).
      apply parseRecord_within in E as (Hd' & Hp' & k & v & Hk & Hv & Hrec);
        [|assumption].
      simpl in *. apply IH. exists (sfReader sc'), (records sc').
      split; [auto|]. split; [congruence|]. split; [assumption|].
      rewrite Hrec. rewrite Hd in *. apply entriesWithin_insert; assumption.
Qed.

(** C9 (snapshot isolation).  For a designator whose range lies within two
    buffers that agree on it: (1) running the designator's subfile closure
    and the record closures it queues ends in the same way on both, with
    the same result, wherever the parser's cursor stands and whatever else
    the buffers hold; (2) when the subfile is of a recognized type and its
    scan completes, every key and every value filed for it is a run of
    consecutive characters of the range. *)
Theorem C9_snapshot_isolation :
  forall result sd d1 d2 q1 q2,
  0 <= sd_offset sd -> 0 <= sd_length sd ->
  sd_offset sd + sd_length sd <= Z.of_nat (length d1) ->
  sd_offset sd + sd_length sd <= Z.of_nat (length d2) ->
  substring d1 (sd_offset sd) (sd_offset sd + sd_length sd)
  = substring d2 (sd_offset sd) (sd_offset sd + sd_length sd) ->
  (forall fuel,
      sameButReader
        (parse fuel (mkParser (mkStringIO d1 q1) [ParseSubfile sd] result))
        (parse fuel (mkParser (mkStringIO d2 q2) [ParseSubfile sd] result)))
  /\ (forall fuel p',
         recognized (sd_type sd) = true ->
         parse fuel (mkParser (mkStringIO d1 q1) [ParseSubfile sd] result)
         = Done p' ->
         exists recs,
           subfiles (Engine.result p') !! sd_type sd = Some recs
           /\ entriesWithin
                (substring d1 (sd_offset sd) (sd_offset sd + sd_length sd))
                recs).
Proof.
  intros result sd d1 d2 q1 q2 Hoff Hlen H1 H2 Hsnap.
  assert (forall d q,
             sd_offset sd + sd_length sd <= Z.of_nat (length d) ->
             parseSubfile result sd (mkStringIO d q)
             = (if recognized (sd_type sd) then
                  match read 2 (mkStringIO (substring d (sd_offset sd)
                                  (sd_offset sd + sd_length sd)) 0) with
                  | Ok _ sf =>
                      Ok (mkParseFuncResult result
                            [MaybeParseRecord sf (sd_type sd) ∅])
                         (mkStringIO d q)
                  | Err e _ => Err e (mkStringIO d q)
                  end
                else Ok (mkParseFuncResult result []) (mkStringIO d q)))
    as Hstep.
  { intros d q Hd. unfold parseSubfile. unfold_js. simpl.
    rewrite peek_enough by (unfold avail; simpl; lia). simpl.
    destruct (recognized _); [|reflexivity].
    destruct (read 2 _); reflexivity. }
  split.
  - intros [|fuel]; simpl; [auto|]. unfold call, onParserReader.
    rewrite (Hstep d1 q1 H1), (Hstep d2 q2 H2), Hsnap.
    destruct (recognized _).
    + destruct (read 2 _) as [x sf|e sf]; simpl; [|auto].
      apply scan_parse_reader. repeat constructor.
    + simpl. rewrite !parse_nil by reflexivity. simpl. auto.
  - intros [|fuel] p' Hty; simpl; [discriminate|]. unfold call, onParserReader.
    rewrite (Hstep d1 q1 H1), Hty.
    destruct (read 2 _) as [x sf|e sf] eqn:E; simpl; [|discriminate].
    apply read_Ok in E as (-> & _ & _). simpl.
    apply scanning_Done. eexists _, ∅. split; [left; reflexivity|].
    split; [reflexivity|]. split; [simpl; lia|].
    intros k v H. rewrite lookup_empty in H. discriminate.
Qed.

(** The same "DL" range inside two different buffers. *)
Lemma C9_snapshot_isolation_witness :
  let result :=
    mkParseResult (mkHeader [LF] [RS] [CR] (str "636000") (str "11")
                            (str "00") 1) [] ∅ in
  let sd := mkSubfileDesignator (str "DL") 2 9 in
  sameButReader
    (parse 10 (mkParser (mkStringIO (str "..DLDCSXY" ++ [LF; CR] ++ str "tail") 0)
                        [ParseSubfile sd] result))
    (parse 10 (mkParser (mkStringIO (str "@@DLDCSXY" ++ [LF; CR]) 7)
                        [ParseSubfile sd] result)).
Proof.
  intros result sd.
  apply (proj1 (C9_snapshot_isolation result sd
                  (str "..DLDCSXY" ++ [LF; CR] ++ str "tail")
                  (str "@@DLDCSXY" ++ [LF; CR]) 0 7
                  ltac:(simpl; lia) ltac:(simpl; lia) ltac:(simpl; lia)
                  ltac:(simpl; lia) eq_refl)).
Defined.

(** *** Record boundaries *)

Lemma call_ParseSubfile_recognized result sd d q pre body post :
  recognized (sd_type sd) = true ->
  d = pre ++ body ++ post ->
  sd_offset sd = Z.of_nat (length pre) ->
  sd_length sd = Z.of_nat (length body) ->
  (2 <= length body)%nat ->
  call (ParseSubfile sd) result (mkStringIO d q)
  = Returned (mkParseFuncResult result
                [MaybeParseRecord (mkStringIO body 2) (sd_type sd) ∅])
             (mkStringIO d q).
Proof.
  intros Hty Hd Hoff Hlen H2. unfold call, onParserReader, parseSubfile.
  unfold_js. simpl.
  rewrite (peek_split d pre body post) by assumption. rewrite Hty.
  rewrite read_enough by (unfold avail; simpl; lia). reflexivity.
Qed.

(** C5 (record boundary correctness).  Header separators LF and CR; a "DL"
    designator whose range holds exactly "DLDAQT64235789<LF>DCSSAMPLE<CR>",
    anywhere in any buffer.  (1) After the subfile closure and four record
    closures the scan stands on the CR with the two records DAQ and DCS
    collected; (2) the next closure reads the CR, which ends the snapshot,
    and returns a result whose subfiles hold exactly these two records
    under "DL"; (3) so [parse()] completes: the reader and the queue are as
    written, the header and the designators of the result are unchanged,
    its subfiles hold under "DL" the two records and under every other type
    what they held.  (4) The records are DAQ with "T64235789" and DCS with
    "SAMPLE" and no other.  (5) The loop of the append-driven parser yields
    the same two records and also stops having read the CR. *)
Theorem C5_record_boundaries :
  forall pre post q result,
  dataElementSeparator (header result) = [LF] ->
  segmentTerminator (header result) = [CR] ->
  let reader := mkStringIO (pre ++ sampleBody ++ post) q in
  let sd := mkSubfileDesignator (str "DL") (Z.of_nat (length pre)) 25 in
  parse 5 (mkParser reader [ParseSubfile sd] result)
  = Paused (mkParser reader
              [MaybeParseRecord (mkStringIO sampleBody 24) (str "DL")
                                sampleRecords] result)
  /\ (exists res,
        maybeParseRecord result (str "DL")
          (mkScan (mkStringIO sampleBody 24) sampleRecords)
        = Ok res (mkScan (mkStringIO sampleBody 25) sampleRecords)
        /\ pfr_next res = []
        /\ header (pfr_result res) = header result
        /\ subfileDesignators (pfr_result res) = subfileDesignators result
        /\ subfiles (pfr_result res)
           = <[str "DL" := sampleRecords]> (subfiles result))
  /\ (forall fuel, (6 <= fuel)%nat ->
        exists p',
          parse fuel (mkParser reader [ParseSubfile sd] result) = Done p'
          /\ p' = mkParser reader []
                    (mkParseResult (header result) (subfileDesignators result)
                       (<[str "DL" := sampleRecords]> (subfiles result)))
          /\ subfiles (Engine.result p') !! str "DL" = Some sampleRecords
          /\ (forall type, type <> str "DL" ->
                subfiles (Engine.result p') !! type
                = subfiles result !! type))
  /\ (forall k v,
        sampleRecords !! k = Some v
        <-> (k = str "DAQ" /\ v = str "T64235789")
            \/ (k = str "DCS" /\ v = str "SAMPLE"))
  /\ Mutable.parseSubfile (header result) sd reader = Ok sampleRecords reader
  /\ Mutable.scanSubfile (header result) (mkStringIO sampleBody 0)
     = Ok sampleRecords (mkStringIO sampleBody 25).
Proof.
  intros pre post q [[des rs st i av jv n] dsg sfs] Hdes Hst reader sd.
  simpl in Hdes, Hst. subst des st.
  assert (forall fuel,
             parse (S fuel) (mkParser reader [ParseSubfile sd]
                               (mkParseResult (mkHeader [LF] rs [CR] i av jv n)
                                              dsg sfs))
             = parse fuel (mkParser reader
                 [MaybeParseRecord (mkStringIO sampleBody 2) (str "DL") ∅]
                 (mkParseResult (mkHeader [LF] rs [CR] i av jv n) dsg sfs)))
    as Hfirst.
  { intros fuel.
    rewrite (parse_Returned _ _ _ _ _ _ _
               (call_ParseSubfile_recognized _ sd _ q pre sampleBody post
                  eq_refl eq_refl eq_refl eq_refl ltac:(simpl; lia))).
    reflexivity. }
  split; [|split; [|split; [|split; [|split]]]].
  - rewrite Hfirst. reflexivity.
  - eexists. split; [reflexivity|]. repeat split.
  - intros fuel Hfuel. eexists. split; [|split; [reflexivity|split]].
    + transitivity (parse 6 (mkParser reader [ParseSubfile sd]
                               (mkParseResult (mkHeader [LF] rs [CR] i av jv n)
                                              dsg sfs))).
      * apply parse_fuel_mono; [|assumption]. rewrite Hfirst. exact I.
      * rewrite Hfirst. reflexivity.
    + cbn [Engine.result subfiles]. apply lookup_insert_eq.
    + intros type Htype. cbn [Engine.result subfiles].
      apply lookup_insert_ne. congruence.
  - intros k v. unfold sampleRecords. split.
    + intros H.
      destruct (decide (k = str "DCS")) as [->|Hk1].
      { rewrite lookup_insert_eq in H. injection H as <-. right. auto. }
      rewrite lookup_insert_ne in H by congruence.
      destruct (decide (k = str "DAQ")) as [->|Hk2].
      { rewrite lookup_insert_eq in H. injection H as <-. left. auto. }
      rewrite lookup_insert_ne in H by congruence.
      rewrite lookup_empty in H. discriminate.
    + intros [[-> ->]|[-> ->]].
      * rewrite lookup_insert_ne by discriminate. apply lookup_insert_eq.
      * apply lookup_insert_eq.
  - unfold Mutable.parseSubfile. unfold_js. simpl.
    rewrite (peek_split _ pre sampleBody post) by reflexivity.
    reflexivity.
  - reflexivity.
Qed.

(** The sample subfile right after a one-entry directory: [parse()]
    completes, and the subfiles of its result are the two records under
    "DL" and nothing else. *)
Lemma C5_record_boundaries_witness :
  let result :=
    mkParseResult (mkHeader [LF] [RS] [CR] (str "636000") (str "11")
                            (str "00") 1) [] ∅ in
  exists p',
    parse 6
      (mkParser (mkStringIO (str "0123456789" ++ sampleBody ++ []) 3)
                [ParseSubfile (mkSubfileDesignator (str "DL") 10 25)] result)
    = Done p'
    /\ subfiles (Engine.result p') !! str "DL" = Some sampleRecords
    /\ subfiles (Engine.result p')
       = <[str "DL" := <[str "DCS" := str "SAMPLE"]>
                         (<[str "DAQ" := str "T64235789"]> ∅)]> ∅.
Proof.
  intros result.
  destruct (proj1 (proj2 (proj2
              (C5_record_boundaries (str "0123456789") [] 3 result
                 eq_refl eq_refl))) 6%nat (le_n 6))
    as (p' & Hrun & -> & Hdl & _).
  exists (mkParser (mkStringIO (str "0123456789" ++ sampleBody ++ []) 3) []
            (mkParseResult (header result) (subfileDesignators result)
               (<[str "DL" := sampleRecords]> (subfiles result)))).
  split; [exact Hrun|]. split; [exact Hdl|]. reflexivity.
Defined.

(** *** A data element separator where a record should start *)

(** The loop of the append-driven parser skips a data element separator
    that it meets where a record could start. *)
Lemma Mutable_loop_skips_separator fuel header records sfReader :
  1 <= avail sfReader ->
  substring (data sfReader) (pos sfReader) (pos sfReader + 1)
  = dataElementSeparator header ->
  dataElementSeparator header <> segmentTerminator header ->
  Mutable.parseSubfile_loop (S fuel) header records sfReader
  = Mutable.parseSubfile_loop fuel header records
      (mkStringIO (data sfReader) (pos sfReader + 1)).
Proof.
  intros Hav Hsep Hne. simpl. unfold_js.
  rewrite peek_enough by assumption. rewrite Hsep.
  rewrite bool_decide_eq_false_2 by assumption.
  rewrite bool_decide_eq_true_2 by reflexivity.
  rewrite read_enough by assumption. reflexivity.
Qed.

(** C6 (separator tolerance), as the code has it.  On a "DL" subfile that
    starts with a data element separator right after its type prefix the
    ParseResult-threading parser throws ParseError ("Invalid record"),
    reading the separator as the first character of a key; the append-driven
    parser skips that separator and completes with the records of the body
    without it. *)
Theorem C6_leading_separator_rejected :
  (exists p,
      parse 100 (makeDLIDParser (mkStringIO leadingSeparatorInput 0))
      = Raised (ParseError (str "Invalid record: '" ++ [LF] ++ str "DA'")) p
      /\ funcs p = [ParseRecord (mkStringIO (drop 31 leadingSeparatorInput) 2)
                                (str "DL") ∅])
  /\ (exists p,
         Mutable.append 100 leadingSeparatorInput (Mutable.makeDLIDParser [])
         = Some (false, p)
         /\ Mutable.done p = true /\ Mutable.error p = None
         /\ Mutable.subfiles p = {[ str "DL" := sampleRecords ]}).
Proof.
  split.
  - eexists. split; vm_compute; reflexivity.
  - eexists. split; [vm_compute; reflexivity|].
    split; [reflexivity|].
    split; [reflexivity|].
    apply (bool_decide_unpack _). vm_compute. exact I.
Qed.

(** *** The header and the directory of a well-formed input *)

Lemma call_read_field cur (upd : jsstring -> Header -> Header) n
    result d q q' pre v post :
  (forall reader,
      call cur result reader
      = onParserReader cur
          (bind (read n) (fun v => ret (updHeader (upd v) result))) reader) ->
  d = pre ++ v ++ post -> q = Z.of_nat (length pre) ->
  n = Z.of_nat (length v) -> q' = q + n ->
  call cur result (mkStringIO d q)
  = Returned (updHeader (upd v) result) (mkStringIO d q').
Proof.
  intros Hcall Hd Hq Hn ->. rewrite Hcall. unfold onParserReader, bind, ret.
  rewrite (read_split d pre v post) by assumption. reflexivity.
Qed.

Lemma call_ExpectAnsi result d q q' pre post :
  d = pre ++ str "ANSI " ++ post -> q = Z.of_nat (length pre) -> q' = q + 5 ->
  call ExpectAnsi result (mkStringIO d q)
  = Returned (mkParseFuncResult result []) (mkStringIO d q').
Proof.
  intros Hd Hq ->. unfold_call.
  rewrite (read_split d pre (str "ANSI ") post) by (assumption || reflexivity).
  reflexivity.
Qed.

Lemma call_ReadNumEntries result d q q' pre v post n :
  d = pre ++ v ++ post -> q = Z.of_nat (length pre) ->
  length v = 2%nat -> parseInt v = Some n -> q' = q + 2 ->
  call ReadNumEntries result (mkStringIO d q)
  = Returned (updHeader (with_numEntries n) result) (mkStringIO d q').
Proof.
  intros Hd Hq Hv Hn ->. unfold_call.
  rewrite (read_split d pre v post) by (assumption || lia).
  rewrite Hn. reflexivity.
Qed.

Lemma call_separator cur result d q q' pre c post :
  separatorFunc cur -> d = pre ++ [c] ++ post -> q = Z.of_nat (length pre) ->
  invalidSeparatorPattern [c] = false -> q' = q + 1 ->
  call cur result (mkStringIO d q)
  = Returned (updHeader (setSeparator cur [c]) result) (mkStringIO d q').
Proof.
  intros Hcur Hd Hq Hc ->.
  apply (separator_accepted cur result (mkStringIO d q) c); try assumption.
  - simpl. lia.
  - simpl. subst. rewrite Nat2Z.id. apply list_lookup_middle. reflexivity.
Qed.

(** Ten rounds of [parse()] take a new parser through a well-formed
    header. *)
Lemma header_phase s1 s2 s3 iin av jv ne N rest fuel :
  invalidSeparatorPattern [s1] = false ->
  invalidSeparatorPattern [s2] = false ->
  invalidSeparatorPattern [s3] = false ->
  length iin = 6%nat -> length av = 2%nat -> length jv = 2%nat ->
  length ne = 2%nat -> parseInt ne = Some N ->
  let d := headerText s1 s2 s3 iin av jv ne ++ rest in
  parse (10 + fuel) (makeDLIDParser (mkStringIO d 0))
  = parse fuel
      (mkParser (mkStringIO d 21) [ParseSubfileDesignators; ParseSubfiles]
         (mkParseResult (mkHeader [s1] [s2] [s3] iin av jv N) [] ∅)).
Proof.
  intros H1 H2 H3 Hiin Hav Hjv Hne HN d.
  set (p4 := str "@" ++ [s1; s2; s3]).
  set (p9 := p4 ++ str "ANSI ").
  assert (d = str "@" ++ [s1] ++ [s2; s3] ++ str "ANSI " ++ iin ++ av ++ jv
              ++ ne ++ rest) as Hd1.
  { unfold d, headerText. rewrite <- !app_assoc. reflexivity. }
  assert (d = (str "@" ++ [s1]) ++ [s2] ++ [s3] ++ str "ANSI " ++ iin ++ av
              ++ jv ++ ne ++ rest) as Hd2 by exact Hd1.
  assert (d = (str "@" ++ [s1; s2]) ++ [s3] ++ str "ANSI " ++ iin ++ av
              ++ jv ++ ne ++ rest) as Hd3 by exact Hd1.
  assert (d = p4 ++ str "ANSI " ++ iin ++ av ++ jv ++ ne ++ rest) as Hd4
    by exact Hd1.
  assert (d = p9 ++ iin ++ av ++ jv ++ ne ++ rest) as Hd9 by exact Hd1.
  assert (d = (p9 ++ iin) ++ av ++ jv ++ ne ++ rest) as Hd15.
  { rewrite Hd9, <- !app_assoc. reflexivity. }
  assert (d = (p9 ++ iin ++ av) ++ jv ++ ne ++ rest) as Hd17.
  { rewrite Hd9, <- !app_assoc. reflexivity. }
  assert (d = (p9 ++ iin ++ av ++ jv) ++ ne ++ rest) as Hd19.
  { rewrite Hd9, <- !app_assoc. reflexivity. }
  assert (Z.of_nat (length (p9 ++ iin)) = 15) as L15
    by (rewrite length_app, Hiin; reflexivity).
  assert (Z.of_nat (length (p9 ++ iin ++ av)) = 17) as L17
    by (rewrite !length_app, Hiin, Hav; reflexivity).
  assert (Z.of_nat (length (p9 ++ iin ++ av ++ jv)) = 19) as L19
    by (rewrite !length_app, Hiin, Hav, Hjv; reflexivity).
  clearbody d. unfold makeDLIDParser.
  cbn [Nat.add].
  rewrite (parse_Returned _ _ _ _ _
             (mkParseFuncResult initialResult headerFuncs) (mkStringIO d 0))
    by reflexivity.
  cbn [pfr_next pfr_result headerFuncs app].
  rewrite (parse_Returned _ _ _ _ _ _ _ (call_ExpectAt _ d _ Hd1)).
  cbn [pfr_next pfr_result app].
  rewrite (parse_Returned _ _ _ _ _ _ _
             (call_separator ReadDataElementSeparator _ d 1 2 _ s1 _
                (or_introl eq_refl) Hd1 eq_refl H1 eq_refl)).
  cbn [pfr_next pfr_result updHeader app].
  rewrite (parse_Returned _ _ _ _ _ _ _
             (call_separator ReadRecordSeparator _ d 2 3 _ s2 _
                (or_intror (or_introl eq_refl)) Hd2 eq_refl H2 eq_refl)).
  cbn [pfr_next pfr_result updHeader app].
  rewrite (parse_Returned _ _ _ _ _ _ _
             (call_separator ReadSegmentTerminator _ d 3 4 _ s3 _
                (or_intror (or_intror eq_refl)) Hd3 eq_refl H3 eq_refl)).
  cbn [pfr_next pfr_result updHeader app].
  rewrite (parse_Returned _ _ _ _ _ _ _
             (call_ExpectAnsi _ d 4 9 _ _ Hd4 eq_refl eq_refl)).
  cbn [pfr_next pfr_result app].
  rewrite (parse_Returned _ _ _ _ _ _ _
             (call_read_field ReadIin with_iin 6 _ d 9 15 _ iin _
                (fun _ => eq_refl) Hd9 eq_refl
                ltac:(rewrite Hiin; reflexivity) eq_refl)).
  cbn [pfr_next pfr_result updHeader app].
  rewrite (parse_Returned _ _ _ _ _ _ _
             (call_read_field ReadAamvaVersion with_aamvaVersion 2 _ d 15 17 _
                av _ (fun _ => eq_refl) Hd15 (eq_sym L15)
                ltac:(rewrite Hav; reflexivity) eq_refl)).
  cbn [pfr_next pfr_result updHeader app].
  rewrite (parse_Returned _ _ _ _ _ _ _
             (call_read_field ReadJurisdictionVersion with_jurisdictionVersion
                2 _ d 17 19 _ jv _ (fun _ => eq_refl) Hd17 (eq_sym L17)
                ltac:(rewrite Hjv; reflexivity) eq_refl)).
  cbn [pfr_next pfr_result updHeader app].
  rewrite (parse_Returned _ _ _ _ _ _ _
             (call_ReadNumEntries _ d 19 21 _ ne _ N Hd19 (eq_sym L19) Hne HN
                eq_refl)).
  reflexivity.
Qed.

Lemma blockOf_length block sd : blockOf block sd -> length block = 10%nat.
Proof. intros [ty off len o l H1 H2 H3 _ _]. rewrite !length_app. lia. Qed.

Lemma call_ParseSubfileDesignator result d q pre block sd post :
  blockOf block sd -> d = pre ++ block ++ post -> q = Z.of_nat (length pre) ->
  call ParseSubfileDesignator result (mkStringIO d q)
  = Returned (mkParseFuncResult
                (with_subfileDesignators (subfileDesignators result ++ [sd])
                                         result) [])
             (mkStringIO d (q + 10)).
Proof.
  intros Hb Hd Hq. pose proof (blockOf_length _ _ Hb) as H10.
  destruct Hb as [ty off len o l H1 H2 H3 Ho Hl].
  unfold call, onParserReader, parseSubfileDesignator, SUBFILE_DESIGNATOR_SIZE.
  unfold_js.
  rewrite (peek_split d pre (ty ++ off ++ len) post) by (assumption || lia).
  rewrite (read_split _ [] ty (off ++ len)) by (reflexivity || lia).
  rewrite (read_split _ ty off len) by (reflexivity || (simpl; lia)).
  rewrite (read_split _ (ty ++ off) len [])
    by (rewrite <- ?app_assoc, ?app_nil_r, ?length_app; reflexivity || lia).
  rewrite Ho, Hl.
  rewrite read_enough.
  - reflexivity.
  - unfold avail. simpl. subst d q. rewrite !length_app in *. lia.
Qed.

(** One round per directory entry. *)
Lemma designators_phase blocks : forall sds pre post rest result fuel,
  Forall2 blockOf blocks sds ->
  let d := pre ++ concat blocks ++ post in
  parse (length blocks + fuel)
    (mkParser (mkStringIO d (Z.of_nat (length pre)))
       (replicate (length blocks) ParseSubfileDesignator ++ rest) result)
  = parse fuel
      (mkParser (mkStringIO d (Z.of_nat (length pre)
                               + 10 * Z.of_nat (length blocks)))
         rest
         (with_subfileDesignators (subfileDesignators result ++ sds) result)).
Proof.
  induction blocks as [|block blocks IH]; intros sds pre post rest result fuel Hb d.
  - apply Forall2_nil_inv_l in Hb as ->. simpl.
    rewrite app_nil_r, Z.add_0_r. destruct result; reflexivity.
  - apply Forall2_cons_inv_l in Hb as (sd & sds' & Hsd & Hsds & ->).
    pose proof (blockOf_length _ _ Hsd) as H10.
    cbn [length replicate app Nat.add].
    assert (d = pre ++ block ++ (concat blocks ++ post)) as Hd.
    { unfold d. simpl. rewrite <- app_assoc. reflexivity. }
    rewrite (parse_Returned _ _ _ _ _ _ _
               (call_ParseSubfileDesignator result d _ pre block sd _
                  Hsd Hd eq_refl)).
    cbn [pfr_next pfr_result app].
    assert (d = (pre ++ block) ++ concat blocks ++ post) as Hd'.
    { rewrite Hd, <- app_assoc. reflexivity. }
    clearbody d. subst d.
    replace (Z.of_nat (length pre) + 10)
      with (Z.of_nat (length (pre ++ block)))
      by (rewrite length_app; lia).
    rewrite Hd'.
    rewrite (IH sds' (pre ++ block) post rest _ fuel Hsds).
    f_equal. f_equal.
    + f_equal. rewrite length_app. lia.
    + unfold with_subfileDesignators. simpl. rewrite <- app_assoc.
      reflexivity.
Qed.

(** The subfile phase does not touch the designator list. *)
Lemma call_Returned_inBody cur result reader res reader' :
  inBody cur -> call cur result reader = Returned res reader' ->
  subfileDesignators (pfr_result res) = subfileDesignators result
  /\ Forall inBody (pfr_next res).
Proof.
  destruct cur as [ | | | | | | | | | | | | |sd|sf ty recs|sf ty recs];
    try contradiction; intros _; unfold call, onParserReader, onCaptured;
    unfold_js.
  - intros [= <- <-]. simpl. split; [reflexivity|].
    apply Forall_forall. intros f Hf.
    apply list_elem_of_In, in_map_iff in Hf as (sd & <- & _). exact I.
  - destruct (parseSubfile result sd reader) as [r rd|e1 rd] eqn:E;
      [|discriminate].
    apply parseSubfile_Ok in E as (-> & Hres & Hnext). intros [= <- <-].
    rewrite Hres. split; [reflexivity|].
    destruct Hnext as [->|[sf ->]]; repeat constructor.
  - destruct (maybeParseRecord _ _ _) as [r sc'|e1 sc'] eqn:E; [|discriminate].
    apply maybeParseRecord_Ok in E as [->| ->]; intros [= <- <-]; simpl;
      split; repeat constructor.
  - destruct (parseRecord _ _ _) as [r sc'|e1 sc'] eqn:E; [|discriminate].
    apply parseRecord_Ok in E as (Hres & Hnext). intros [= <- <-].
    rewrite Hres, Hnext. split; repeat constructor.
Qed.

Lemma inBody_parse_designators fuel : forall p,
  Forall inBody (funcs p) ->
  subfileDesignators (result (stateOf (parse fuel p)))
  = subfileDesignators (result p).
Proof.
  induction fuel as [|fuel IH]; intros [reader fs result] Hfs; simpl.
  - destruct fs; reflexivity.
  - destruct fs as [|cur rest]; [reflexivity|]. simpl in Hfs.
    apply Forall_cons in Hfs as [Hcur Hrest].
    destruct (call cur result reader) as [res r|e cur' r] eqn:E; [|reflexivity].
    apply call_Returned_inBody in E as [Hres Hnext]; [|assumption].
    rewrite IH; [assumption|]. simpl. apply Forall_app. auto.
Qed.

Lemma call_ParseSubfileDesignator_short result reader :
  avail reader < 10 ->
  call ParseSubfileDesignator result reader
  = Threw EOF ParseSubfileDesignator reader.
Proof.
  intros Hav. unfold call, onParserReader, parseSubfileDesignator,
    SUBFILE_DESIGNATOR_SIZE. unfold_js.
  rewrite peek_short by assumption. reflexivity.
Qed.

(** C3 (exact entry count).  The input starts with a well-formed header
    whose entry-count field reads as [N], followed by well-formed 10-character
    directory entries [blocks] and then [tail].  (1) When there are [N]
    entries, the parser makes one designator call per entry, each reading 10
    characters: after them the cursor stands at 21 + 10 N, the designator
    list holds the [N] designators in order and only the subfile phase is
    left, which never changes that list.  (2) When fewer than [N] entries
    are there and less than one more entry follows, [parse()] ends on EOF
    having parsed the entries present, with the missing designator calls
    still queued.  (3) A designator call with fewer than 10 characters left
    always throws EOF, whatever those characters are. *)
Theorem C3_exact_entry_count :
  forall s1 s2 s3 iin av jv ne N blocks sds tail,
  invalidSeparatorPattern [s1] = false ->
  invalidSeparatorPattern [s2] = false ->
  invalidSeparatorPattern [s3] = false ->
  length iin = 6%nat -> length av = 2%nat -> length jv = 2%nat ->
  length ne = 2%nat -> parseInt ne = Some N ->
  Forall2 blockOf blocks sds ->
  let input := headerText s1 s2 s3 iin av jv ne ++ concat blocks ++ tail in
  let parsed := mkParseResult (mkHeader [s1] [s2] [s3] iin av jv N) sds ∅ in
  let p0 := makeDLIDParser (mkStringIO input 0) in
  (Z.of_nat (length blocks) = N ->
     parse (11 + length blocks) p0
     = Paused (mkParser (mkStringIO input (21 + 10 * N)) [ParseSubfiles] parsed)
     /\ length sds = Z.to_nat N
     /\ forall fuel, (11 + length blocks <= fuel)%nat ->
          subfileDesignators (result (stateOf (parse fuel p0))) = sds)
  /\ (Z.of_nat (length blocks) < N -> (length tail < 10)%nat ->
      forall fuel, (11 + length blocks < fuel)%nat ->
        parse fuel p0
        = Raised EOF
            (mkParser (mkStringIO input (21 + 10 * Z.of_nat (length blocks)))
               (replicate (Z.to_nat N - length blocks) ParseSubfileDesignator
                ++ [ParseSubfiles])
               parsed))
  /\ (forall result reader,
         avail reader < 10 ->
         call ParseSubfileDesignator result reader
         = Threw EOF ParseSubfileDesignator reader).
Proof.
  intros s1 s2 s3 iin av jv ne N blocks sds tail H1 H2 H3 Hiin Hav Hjv Hne HN
    Hblocks input parsed p0.
  set (hd := headerText s1 s2 s3 iin av jv ne) in *.
  assert (length hd = 21%nat) as Hhd.
  { unfold hd, headerText. rewrite !length_app, Hiin, Hav, Hjv, Hne.
    reflexivity. }
  (* the run up to the designator calls, for any queue split *)
  assert (forall k fuel todo,
             replicate (Z.to_nat N) ParseSubfileDesignator
             = replicate (length blocks) ParseSubfileDesignator ++ todo ->
             k = (11 + length blocks + fuel)%nat ->
             parse k p0
             = parse fuel
                 (mkParser
                    (mkStringIO input (21 + 10 * Z.of_nat (length blocks)))
                    (todo ++ [ParseSubfiles]) parsed)) as Hrun.
  { intros k fuel todo Htodo ->. unfold p0, input.
    replace (11 + length blocks + fuel)%nat
      with (10 + S (length blocks + fuel))%nat by lia.
    rewrite (header_phase s1 s2 s3 iin av jv ne N (concat blocks ++ tail))
      by assumption.
    fold hd. fold input.
    rewrite (parse_Returned _ _ _ _ _
               (mkParseFuncResult _
                  (replicate (Z.to_nat N) ParseSubfileDesignator))
               (mkStringIO input 21)) by reflexivity.
    cbn [pfr_next pfr_result].
    rewrite Htodo, <- app_assoc.
    replace 21 with (Z.of_nat (length hd)) by lia.
    unfold input.
    rewrite (designators_phase blocks sds hd tail _ _ fuel Hblocks).
    reflexivity. }
  split; [|split].
  - intros Hn.
    assert (replicate (Z.to_nat N) ParseSubfileDesignator
            = replicate (length blocks) ParseSubfileDesignator ++ []) as Hall.
    { rewrite app_nil_r. f_equal. lia. }
    split; [|split].
    + rewrite (Hrun _ O [] Hall) by lia. rewrite Hn. reflexivity.
    + apply Forall2_length in Hblocks. lia.
    + intros fuel Hfuel.
      rewrite (Hrun fuel (fuel - 11 - length blocks)%nat [] Hall) by lia.
      rewrite inBody_parse_designators; [reflexivity|].
      simpl. repeat constructor.
  - intros Hn Htail fuel Hfuel.
    assert (replicate (Z.to_nat N) ParseSubfileDesignator
            = replicate (length blocks) ParseSubfileDesignator
              ++ replicate (Z.to_nat N - length blocks) ParseSubfileDesignator)
      as Hsome.
    { rewrite <- replicate_add. f_equal. lia. }
    rewrite (Hrun fuel (fuel - 11 - length blocks)%nat _ Hsome) by lia.
    destruct (fuel - 11 - length blocks)%nat as [|fuel'] eqn:Ef; [lia|].
    destruct (Z.to_nat N - length blocks)%nat as [|todo] eqn:Et; [lia|].
    cbn [replicate app].
    rewrite (parse_Threw _ _ _ _ _ EOF ParseSubfileDesignator
               (mkStringIO input (21 + 10 * Z.of_nat (length blocks)))).
    + reflexivity.
    + apply call_ParseSubfileDesignator_short. unfold avail, input.
      cbn [data pos]. rewrite !length_app, Hhd.
      assert (length (concat blocks) = (10 * length blocks)%nat) as Hc.
      { clear -Hblocks. induction Hblocks as [|b sd bs sds Hb _ IH]; simpl;
          [reflexivity|].
        rewrite length_app, IH, (blockOf_length _ _ Hb). lia. }
      rewrite Hc. lia.
  - apply call_ParseSubfileDesignator_short.
Qed.

(** Two decimal digits read as the number they spell. *)
Lemma parseInt_two_digits (d1 d2 : nat) :
  (d1 < 10)%nat -> (d2 < 10)%nat ->
  parseInt [ascii_of_nat (48 + d1); ascii_of_nat (48 + d2)]
  = Some (Z.of_nat (10 * d1 + d2)).
Proof.
  intros Hd1 Hd2.
  do 10 (destruct d1 as [|d1];
         [do 10 (destruct d2 as [|d2]; [reflexivity|]); lia|]).
  lia.
Qed.

(** The header and directory of the repository's example data, cut off
    inside the second entry. *)
Lemma C3_exact_entry_count_witness :
  parse 13
    (makeDLIDParser
       (mkStringIO (headerText LF RS CR (str "636000") (str "11") (str "00")
                               (str "02")
                    ++ concat [str "DL00410277"] ++ str "ZV0318") 0))
  = Raised EOF
      (mkParser
         (mkStringIO (headerText LF RS CR (str "636000") (str "11") (str "00")
                                 (str "02")
                      ++ concat [str "DL00410277"] ++ str "ZV0318") 31)
         [ParseSubfileDesignator; ParseSubfiles]
         (mkParseResult
            (mkHeader [LF] [RS] [CR] (str "636000") (str "11") (str "00") 2)
            [mkSubfileDesignator (str "DL") 41 277] ∅)).
Proof.
  refine (proj1 (proj2
    (C3_exact_entry_count LF RS CR (str "636000") (str "11") (str "00")
       (str "02") 2 [str "DL00410277"] [mkSubfileDesignator (str "DL") 41 277]
       (str "ZV0318") eq_refl eq_refl eq_refl eq_refl eq_refl eq_refl eq_refl
       eq_refl _)) _ _ 13%nat _).
  - constructor; [|constructor].
    apply (blockOf_intro (str "DL") (str "0041") (str "0277") 41 277);
      reflexivity.
  - simpl. lia.
  - simpl. lia.
  - simpl. lia.
Defined.

(** *** Feeding the input in chunks *)

(** When every designator of the completed parse has a length that is not
    negative, any way of cutting the input into chunks ends with the same
    ParseResult as the input fed at once. *)
Theorem resumption_nonneg_lengths :
  forall fuel input chunks pR,
  concat chunks = input ->
  parse fuel (makeDLIDParser (mkStringIO input 0)) = Done pR ->
  lengths_nonneg (result pR) ->
  exists p', parseChunks fuel chunks = Done p' /\ result p' = result pR.
Proof.
  intros fuel input chunks pR Hcat Hrun Hlen. unfold parseChunks.
  apply feedAll_resume; try assumption.
  - apply queued_known_fresh.
  - reflexivity.
  - rewrite Hcat. exact Hrun.
Qed.

Lemma resumption_nonneg_lengths_witness :
  let input := str "@" ++ [LF; RS; CR] ++ str "ANSI 636000110001"
               ++ str "DL00310025" ++ sampleBody in
  exists pR p',
    parse 100 (makeDLIDParser (mkStringIO input 0)) = Done pR
    /\ parseChunks 100 [take 10 input; take 30 (drop 10 input); drop 40 input]
       = Done p'
    /\ result p' = result pR
    /\ subfiles (result pR) = {[ str "DL" := sampleRecords ]}.
Proof.
  intros input.
  assert (exists pR, parse 100 (makeDLIDParser (mkStringIO input 0)) = Done pR
                     /\ subfileDesignators (result pR)
                        = [mkSubfileDesignator (str "DL") 31 25]
                     /\ subfiles (result pR) = {[ str "DL" := sampleRecords ]})
    as (pR & Hrun & Hsds & Hsub).
  { eexists. split; [vm_compute; reflexivity|]. split; [reflexivity|].
    apply (bool_decide_unpack _). vm_compute. exact I. }
  destruct (resumption_nonneg_lengths 100 input
              [take 10 input; take 30 (drop 10 input); drop 40 input] pR)
    as (p' & Hchunks & Hres).
  - vm_compute. reflexivity.
  - exact Hrun.
  - intros sd Hsd. rewrite Hsds in Hsd.
    apply list_elem_of_singleton in Hsd as ->. simpl. lia.
  - exists pR, p'. auto.
Defined.

(** C1 (idempotent resumption), as the code has it on a designator with a
    negative length.  Fed at once, [negativeLengthInput] parses to
    completion with the record ABC in subfile "DL"; fed as its first 56
    characters and then the rest, parsing completes on the first chunk with
    no record in "DL", and the second chunk changes nothing.  The
    append-driven parser, which takes a new snapshot on every attempt and
    does not complete on a used-up snapshot, gives the record ABC both
    ways. *)
Theorem C1_chunked_result_differs :
  let chunks := [take 56 negativeLengthInput; drop 56 negativeLengthInput] in
  concat chunks = negativeLengthInput
  /\ (exists pR p',
         parse 100 (makeDLIDParser (mkStringIO negativeLengthInput 0)) = Done pR
         /\ parseChunks 100 chunks = Done p'
         /\ subfileDesignators (result pR)
            = [mkSubfileDesignator (str "DL") 60 (-6)]
         /\ subfiles (result pR) = {[ str "DL" := {[ str "ABC" := [] ]} ]}
         /\ subfiles (result p') = {[ str "DL" := ∅ ]}
         /\ result p' <> result pR)
  /\ (exists q q',
         Mutable.append 100 negativeLengthInput (Mutable.makeDLIDParser [])
         = Some (false, q)
         /\ Mutable.appendAll 100 chunks (Mutable.makeDLIDParser [])
            = Some ([true; false], q')
         /\ Mutable.subfiles q = {[ str "DL" := {[ str "ABC" := [] ]} ]}
         /\ Mutable.subfiles q' = Mutable.subfiles q).
Proof.
  intros chunks. split; [reflexivity|]. split.
  - eexists. eexists.
    split; [vm_compute; reflexivity|].
    split; [vm_compute; reflexivity|].
    split; [reflexivity|].
    split; [apply (bool_decide_unpack _); vm_compute; exact I|].
    split; [apply (bool_decide_unpack _); vm_compute; exact I|].
    intros H.
    apply (f_equal (fun r => subfiles r !! str "DL" ≫= (.!! str "ABC"))) in H.
    vm_compute in H. discriminate.
  - eexists. eexists.
    split; [vm_compute; reflexivity|].
    split; [vm_compute; reflexivity|].
    split; apply (bool_decide_unpack _); vm_compute; exact I.
Qed.

(** *** [parseInt] on short fields *)

Lemma trimStart_length s : (length (trimStart s) <= length s)%nat.
Proof.
  induction s as [|c s IH]; simpl; [lia|].
  destruct (isStrWhiteSpaceChar c); simpl; lia.
Qed.

Lemma digitValue_range radix c d :
  digitValue radix c = Some d -> 0 <= d < radix.
Proof.
  unfold digitValue, isDigit, isLower, isUpper.
  repeat match goal with
         | |- context [(?a <=? ?b) && (?c <=? ?d)] =>
             destruct (Z.leb_spec a b); destruct (Z.leb_spec c d); simpl
         end.
  all: try discriminate.
  all: match goal with
       | |- context [?x <? ?r] => destruct (Z.ltb_spec x r)
       end; try discriminate.
  all: intros [= ?]; subst; lia.
Qed.

Lemma parseDigits_bound radix s : forall acc m,
  0 < radix -> 0 <= default 0 acc ->
  parseDigits radix acc s = Some m ->
  0 <= m < (default 0 acc + 1) * radix ^ Z.of_nat (length s).
Proof.
  induction s as [|c s IH]; intros acc m Hr Hacc; simpl length.
  - simpl parseDigits. intros ->. simpl in *. lia.
  - simpl parseDigits. rewrite Nat2Z.inj_succ, Z.pow_succ_r by lia.
    pose proof (Z.pow_pos_nonneg radix (Z.of_nat (length s)) Hr
                  (Nat2Z.is_nonneg _)) as Hpow.
    destruct (digitValue radix c) as [d|] eqn:Ed.
    + apply digitValue_range in Ed. intros H.
      apply IH in H; [|assumption|simpl; nia]. simpl in H. nia.
    + intros ->. simpl in *. nia.
Qed.

Lemma parseDigits_nil radix : parseDigits radix None [] = None.
Proof. reflexivity. Qed.

(** The sign and radix prefixes [parseInt] strips. *)
Lemma parseInt_shape s :
  exists sign radix s3,
    parseInt s = match parseDigits radix None s3 with
                 | Some m => Some (sign * m)
                 | None => None
                 end
    /\ (sign = 1 \/ sign = -1)
    /\ ((radix = 10 /\ (length s3 <= length s)%nat)
        \/ (radix = 16 /\ (length s3 + 2 <= length s)%nat)).
Proof.
  unfold parseInt.
  pose proof (trimStart_length s) as Htrim.
  set (s1 := trimStart s) in *.
  assert (exists sign s2,
            match s1 with
            | "-"%char :: r => (-1, r)
            | "+"%char :: r => (1, r)
            | _ => (1, s1)
            end = (sign, s2)
            /\ (sign = 1 \/ sign = -1)
            /\ (length s2 <= length s1)%nat) as (sign & s2 & -> & Hsign & Hlen2).
  { destruct s1 as [|[[] [] [] [] [] [] [] []] r];
      (eexists _, _; split; [reflexivity|]; simpl; split; [auto|lia]). }
  assert (exists radix s3,
            match s2 with
            | "0"%char :: "x"%char :: r => (16, r)
            | "0"%char :: "X"%char :: r => (16, r)
            | _ => (10, s2)
            end = (radix, s3)
            /\ ((radix = 10 /\ s3 = s2)
                \/ (radix = 16 /\ (length s3 + 2 = length s2)%nat)))
    as (radix & s3 & -> & Hradix).
  { assert (forall (x : Z * jsstring),
              (x = (10, s2) \/ exists r, x = (16, r)
                                        /\ (length r + 2 = length s2)%nat) ->
              exists radix s3, x = (radix, s3)
                /\ ((radix = 10 /\ s3 = s2)
                    \/ (radix = 16 /\ (length s3 + 2 = length s2)%nat)))
      as Hcases.
    { intros x [->|(r & -> & Hr)]; eauto 10. }
    apply Hcases.
    destruct s2 as [|a s2']; [auto|].
    destruct a as [[] [] [] [] [] [] [] []]; auto.
    destruct s2' as [|b r]; [auto|].
    destruct b as [[] [] [] [] [] [] [] []]; auto;
      (right; exists r; split; [reflexivity|simpl; lia]). }
  exists sign, radix, s3. split; [reflexivity|]. split; [assumption|].
  destruct Hradix as [[-> ->]|[-> Hlen3]]; [left|right]; split; auto; lia.
Qed.

(** A field of at most two characters reads as a number of at most two
    digits, one of at most four characters as one of at most four. *)
Lemma parseInt_short s m :
  parseInt s = Some m ->
  ((length s <= 2)%nat -> -99 <= m <= 99)
  /\ ((length s <= 4)%nat -> -9999 <= m <= 9999).
Proof.
  destruct (parseInt_shape s) as (sign & radix & s3 & -> & Hsign & Hradix).
  destruct (parseDigits radix None s3) as [n|] eqn:E; [|discriminate].
  intros [= <-].
  assert (forall k : nat, (length s3 <= k)%nat ->
            radix ^ Z.of_nat (length s3) <= radix ^ Z.of_nat k) as Hmono.
  { intros k Hk. apply Z.pow_le_mono_r; destruct Hradix as [[-> _]|[-> _]]; lia. }
  destruct Hradix as [[-> Hlen]|[-> Hlen]];
    apply parseDigits_bound in E; simpl; try lia; simpl in E.
  - split; intros Hs.
    + specialize (Hmono 2%nat ltac:(lia)). simpl in Hmono.
      destruct Hsign as [-> | ->]; lia.
    + specialize (Hmono 4%nat ltac:(lia)). simpl in Hmono.
      destruct Hsign as [-> | ->]; lia.
  - split; intros Hs.
    + specialize (Hmono 0%nat ltac:(lia)). simpl in Hmono.
      destruct Hsign as [-> | ->]; lia.
    + specialize (Hmono 2%nat ltac:(lia)). simpl in Hmono.
      destruct Hsign as [-> | ->]; lia.
Qed.

(** *** [parse()] terminates *)

Lemma recordKeyPattern_length key :
  recordKeyPattern key = true -> (3 <= length key)%nat.
Proof.
  induction key as [|a [|b [|c s]] IH]; simpl; try discriminate.
  intros _. lia.
Qed.

Lemma substring_length_data (s : jsstring) (a b : Z) :
  (length (substring s a b) <= length s)%nat.
Proof.
  unfold substring. rewrite length_take, length_drop. lia.
Qed.

(** A record closure that returns has moved the subfile's reader past the
    key and the value at least. *)
Lemma parseRecord_loop_Ok_avail fuel result sfType key :
  forall val copied sc res sc',
  parseRecord_loop fuel result sfType key val copied sc = Ok res sc' ->
  Z.of_nat (length key) + Z.of_nat (length val) <= avail (sfReader sc)
  /\ avail (sfReader sc')
     <= avail (sfReader sc) - Z.of_nat (length key) - Z.of_nat (length val).
Proof.
  induction fuel as [|fuel IH]; intros val copied sc res sc'; simpl.
  - discriminate.
  - unfold_js.
    destruct (peek 1 copied) as [next r|e1 r]; [|discriminate].
    destruct (_ || _).
    + simpl. destruct (read _ _) as [x1 r1|e1 r1] eqn:E1; [|discriminate].
      apply read_Ok in E1 as (-> & Hav & _). simpl.
      destruct (bool_decide _); simpl.
      * destruct (read 1 _) as [x2 r2|e2 r2] eqn:E2; [|discriminate].
        apply read_Ok in E2 as (-> & Hav2 & _).
        intros [= <- <-]. unfold avail in *. simpl in *. lia.
      * intros [= <- <-]. unfold avail in *. simpl in *. lia.
    + destruct (read 1 copied) as [x1 r1|e1 r1]; [|discriminate].
      intros H. apply IH in H. rewrite length_app in H.
      lia.
Qed.

Lemma parseRecord_Ok_avail result sfType sc res sc' :
  parseRecord result sfType sc = Ok res sc' ->
  (Z.to_nat (avail (sfReader sc')) + 1 <= Z.to_nat (avail (sfReader sc)))%nat.
Proof.
  unfold parseRecord. unfold_js.
  destruct (read 3 _) as [key copied|e1 r]; [|discriminate].
  destruct (recordKeyPattern key) eqn:Ek; [|discriminate]. simpl.
  intros H. apply parseRecord_loop_Ok_avail in H.
  apply recordKeyPattern_length in Ek. simpl in H. lia.
Qed.

Lemma sum_list_with_mono {A} (f g : A -> nat) l :
  (forall x, (f x <= g x)%nat) ->
  (sum_list_with f l <= sum_list_with g l)%nat.
Proof.
  intros H. induction l as [|x l IH]; simpl; [lia|]. specialize (H x). lia.
Qed.

Lemma cost_mono D E S E' S' cur :
  (E' <= E)%nat -> (S' <= S)%nat -> (cost D E' S' cur <= cost D E S cur)%nat.
Proof. intros HE HS. destruct cur; simpl; nia. Qed.

Lemma designatorsToCome_mono E E' cur :
  (E' <= E)%nat -> (designatorsToCome E' cur <= designatorsToCome E cur)%nat.
Proof. intros HE. destruct cur; simpl; lia. Qed.

(** What a returning closure does to the quantities of the bound. *)
Lemma call_Returned_cost cur result reader res reader' S :
  call cur result reader = Returned res reader' ->
  (length (subfileDesignators result) <= S)%nat ->
  data reader' = data reader
  /\ (entryBound (pfr_result res) <= entryBound result)%nat
  /\ (length (subfileDesignators (pfr_result res))
      + sum_list_with (designatorsToCome (entryBound result)) (pfr_next res)
      <= length (subfileDesignators result)
         + designatorsToCome (entryBound result) cur)%nat
  /\ (sum_list_with (cost (length (data reader)) (entryBound result) S)
                    (pfr_next res) + 1
      <= cost (length (data reader)) (entryBound result) S cur)%nat.
Proof.
  intros Hcall HS.
  assert (forall v : jsstring,
            (length v <= 2)%nat ->
            match parseInt v with
            | Some n => (entryBound (pfr_result (updHeader (with_numEntries n) result))
                         <= entryBound result)%nat
            | None => True
            end) as Hnum.
  { intros v Hv. destruct (parseInt v) as [n|] eqn:E; [|exact I].
    apply parseInt_short in E as [E _]. specialize (E Hv).
    unfold entryBound. simpl. lia. }
  destruct cur as [ | | | | | | | | | | | | |sd|sf ty recs|sf ty recs];
    unfold call, onParserReader, onCaptured, readSeparator in Hcall;
    unfold bind, ret, throw in Hcall.
  all: try (destruct (read _ reader) as [x r|e1 r] eqn:Er; [|discriminate];
            apply read_Ok in Er as (-> & _ & Hx)).
  all: repeat match type of Hcall with
       | context [if ?b then _ else _] => destruct b
       end.
  all: try discriminate.
  all: try (injection Hcall as <- <-; unfold entryBound; simpl;
            repeat split; lia).
  - (* ReadNumEntries *)
    specialize (Hnum x).
    destruct (parseInt x) as [n|]; [|discriminate]. simpl in Hcall.
    injection Hcall as <- <-. simpl. repeat split; try lia.
    apply Hnum. rewrite Hx.
    pose proof (substring_length_le (data reader) (pos reader) (pos reader + 2)).
    lia.
  - (* ParseSubfileDesignators *)
    injection Hcall as <- <-. simpl.
    assert (forall f : ParseFunc -> nat, forall n,
              sum_list_with f (replicate n ParseSubfileDesignator)
              = (n * f ParseSubfileDesignator)%nat) as Hrep.
    { intros f n. induction n as [|n IHn]; simpl; lia. }
    rewrite !Hrep. simpl. unfold entryBound. repeat split; lia.
  - (* ParseSubfileDesignator *)
    destruct (parseSubfileDesignator result reader) as [r rd|e1 rd] eqn:E;
      [|discriminate].
    apply parseSubfileDesignator_Ok in E as (-> & Hnext & sd & Hres).
    injection Hcall as <- <-. rewrite Hres, Hnext. simpl.
    rewrite length_app. unfold entryBound. simpl. repeat split; lia.
  - (* ParseSubfiles *)
    injection Hcall as <- <-. simpl.
    assert (forall f : ParseFunc -> nat, forall c l,
              (forall sd, f (ParseSubfile sd) = c) ->
              sum_list_with f (map ParseSubfile l) = (length l * c)%nat) as Hmap.
    { intros f c l Hf. induction l as [|sd l IHl]; simpl; [lia|].
      rewrite IHl, Hf. lia. }
    rewrite (Hmap _ 0%nat) by reflexivity.
    rewrite (Hmap _ (2 * length (data reader) + 3)%nat) by reflexivity.
    repeat split; nia.
  - (* ParseSubfile *)
    unfold parseSubfile in Hcall. unfold_js.
    destruct (peek _ _) as [snapshot r|e1 r] eqn:Ep; [|discriminate].
    apply peek_Ok in Ep as (_ & _ & Hsnap). simpl in Hsnap.
    destruct (recognized _).
    + destruct (read 2 _) as [x c|e1 c] eqn:Er; [|discriminate].
      apply read_Ok in Er as (-> & Hav & _).
      injection Hcall as <- <-. simpl.
      pose proof (substring_length_data (data reader) (sd_offset sd)
                    (sd_offset sd + sd_length sd)) as Hlen.
      rewrite <- Hsnap in Hlen. unfold avail in *. simpl in *.
      repeat split; lia.
    + injection Hcall as <- <-. simpl. repeat split; lia.
  - (* MaybeParseRecord *)
    destruct (maybeParseRecord _ _ _) as [r sc'|e1 sc'] eqn:E; [|discriminate].
    injection Hcall as <- <-.
    apply maybeParseRecord_Ok in E as [->| ->]; unfold entryBound; simpl;
      repeat split; lia.
  - (* ParseRecord *)
    destruct (parseRecord _ _ _) as [r sc'|e1 sc'] eqn:E; [|discriminate].
    injection Hcall as <- <-.
    pose proof (parseRecord_Ok_avail _ _ _ _ _ E) as Hav.
    apply parseRecord_Ok in E as (Hres & Hnext). rewrite Hres, Hnext.
    unfold entryBound. simpl in *. repeat split; lia.
Qed.

Lemma cost_pos D E S cur : (1 <= cost D E S cur)%nat.
Proof. destruct cur; simpl; lia. Qed.

(** Every returning call lowers the bound. *)
Lemma budget_step cur rest result reader res reader' :
  call cur result reader = Returned res reader' ->
  (budget (mkParser reader' (pfr_next res ++ rest) (pfr_result res)) + 1
   <= budget (mkParser reader (cur :: rest) result))%nat.
Proof.
  intros Hcall. unfold budget, designatorBound. cbn [Engine.funcs Engine.result Engine.reader].
  set (E := entryBound result). set (E' := entryBound (pfr_result res)).
  set (S := (length (subfileDesignators result)
             + sum_list_with (designatorsToCome E) (cur :: rest))%nat).
  set (S' := (length (subfileDesignators (pfr_result res))
              + sum_list_with (designatorsToCome E') (pfr_next res ++ rest))%nat).
  assert (length (subfileDesignators result) <= S)%nat as HS by (unfold S; lia).
  destruct (call_Returned_cost _ _ _ _ _ S Hcall HS)
    as (Hdata & HE & Hdes & Hcost).
  fold E E' in HE, Hdes, Hcost. rewrite Hdata.
  assert (S' <= S)%nat as HS'.
  { unfold S', S. rewrite sum_list_with_app. simpl.
    pose proof (sum_list_with_mono (designatorsToCome E') (designatorsToCome E)
                  (pfr_next res) (fun c => designatorsToCome_mono E E' c HE)).
    pose proof (sum_list_with_mono (designatorsToCome E') (designatorsToCome E)
                  rest (fun c => designatorsToCome_mono E E' c HE)).
    lia. }
  rewrite sum_list_with_app. simpl.
  pose proof (sum_list_with_mono _ _ (pfr_next res)
                (fun c => cost_mono (length (data reader)) E S E' S' c HE HS')).
  pose proof (sum_list_with_mono _ _ rest
                (fun c => cost_mono (length (data reader)) E S E' S' c HE HS')).
  lia.
Qed.

Lemma parse_within_budget fuel : forall p,
  (budget p <= fuel)%nat -> finished (parse fuel p).
Proof.
  induction fuel as [|fuel IH]; intros [reader fs result] Hb;
    destruct fs as [|cur rest]; simpl; try exact I.
  - unfold budget in Hb. simpl in Hb.
    pose proof (cost_pos (length (data reader)) (entryBound result)
                  (designatorBound (mkParser reader (cur :: rest) result)) cur).
    lia.
  - destruct (call cur result reader) as [res r|e cur' r] eqn:E; [|exact I].
    apply IH. apply budget_step with (rest := rest) in E. lia.
Qed.

(** [parse()] always ends: from any state of the parser it returns or throws
    after at most [budget] closure calls, and allowing more calls changes
    nothing.  For a new parser over a buffer of [n] characters the bound is
    [408 + 198 n]. *)
Theorem parse_terminates :
  forall p,
  finished (parse (budget p) p)
  /\ (forall fuel, (budget p <= fuel)%nat -> parse fuel p = parse (budget p) p)
  /\ (forall d q,
        budget (makeDLIDParser (mkStringIO d q)) = (408 + 198 * length d)%nat).
Proof.
  intros p.
  pose proof (parse_within_budget (budget p) p (Nat.le_refl _)) as Hfin.
  split; [exact Hfin|]. split.
  - intros fuel Hle. apply parse_fuel_mono; assumption.
  - intros d q. unfold budget, designatorBound, entryBound. simpl. lia.
Qed.

(** *** The scan of well-formed subfile text *)

Lemma keyOK_pattern k : keyOK k -> recordKeyPattern k = true.
Proof.
  intros (a & b & c & -> & Ha & Hb & Hc). simpl. rewrite Ha, Hb, Hc.
  reflexivity.
Qed.

Lemma keyOK_length k : keyOK k -> length k = 3%nat.
Proof. intros (a & b & c & -> & _). reflexivity. Qed.

Lemma separator_not_upper c :
  invalidSeparatorPattern [c] = false -> isUpper c = false.
Proof.
  rewrite invalidSeparatorPattern_char. intros H.
  apply orb_false_iff in H as [H _]. apply orb_false_iff in H as [H _].
  apply orb_false_iff in H as [_ H]. exact H.
Qed.

(** The value loop of [parseRecord]: it walks over the characters of the
    value that are still to come. *)
Lemma parseRecord_loop_value result sfType k sep term d pre dl post sc :
  dataElementSeparator (header result) = [sep] ->
  segmentTerminator (header result) = [term] ->
  forall v2 v1 fuel,
  d = pre ++ k ++ v1 ++ v2 ++ dl :: post ->
  (length v2 <= fuel)%nat ->
  sep ∉ v2 -> term ∉ v2 ->
  parseRecord_loop fuel result sfType k v1
    (mkStringIO d (Z.of_nat (length pre + length k + length v1))) sc
  = parseRecord_loop (fuel - length v2) result sfType k (v1 ++ v2)
      (mkStringIO d (Z.of_nat (length pre + length k + length v1 + length v2)))
      sc.
Proof.
  intros Hsep Hterm.
  induction v2 as [|c v2 IH]; intros v1 fuel Hd Hfuel Hns Hnt.
  - simpl. rewrite app_nil_r, Nat.sub_0_r, Nat.add_0_r. reflexivity.
  - destruct fuel as [|fuel]; [simpl in Hfuel; lia|].
    simpl parseRecord_loop at 1. unfold bind at 1. unfold onLocal at 1.
    rewrite (peek_split d (pre ++ k ++ v1) [c] (v2 ++ dl :: post))
      by (rewrite ?length_app; simpl; try lia;
          rewrite Hd, <- !app_assoc; reflexivity).
    rewrite Hsep, Hterm.
    rewrite bool_decide_eq_false_2
      by (intros [= ->]; apply Hnt; apply elem_of_cons; auto).
    rewrite bool_decide_eq_false_2
      by (intros [= ->]; apply Hns; apply elem_of_cons; auto).
    cbn [orb]. unfold bind at 1. unfold onLocal at 1.
    rewrite (read_split d (pre ++ k ++ v1) [c] (v2 ++ dl :: post) 1)
      by (rewrite ?length_app; simpl; try lia;
          rewrite Hd, <- !app_assoc; reflexivity).
    replace (Z.of_nat (length pre + length k + length v1) + 1)
      with (Z.of_nat (length pre + length k + length (v1 ++ [c])))
      by (rewrite length_app; simpl; lia).
    rewrite (IH (v1 ++ [c]) fuel).
    + simpl length. rewrite <- app_assoc. simpl.
      f_equal. f_equal. rewrite length_app. simpl. lia.
    + rewrite Hd, <- !app_assoc. reflexivity.
    + simpl in Hfuel. lia.
    + intros H. apply Hns. apply elem_of_cons. auto.
    + intros H. apply Hnt. apply elem_of_cons. auto.
Qed.

(** The record closure on a record that is in the snapshot: it files the
    record and leaves the subfile's reader after the value, and after the
    data element separator when that is what follows. *)
Lemma call_ParseRecord_entry result ty sep term d pre k v dl post recs reader :
  dataElementSeparator (header result) = [sep] ->
  segmentTerminator (header result) = [term] ->
  keyOK k -> valueOK sep term v ->
  dl = sep \/ dl = term ->
  d = pre ++ k ++ v ++ dl :: post ->
  (dl = sep -> sep <> term) ->
  call (ParseRecord (mkStringIO d (Z.of_nat (length pre))) ty recs) result reader
  = Returned
      (mkParseFuncResult result
         [MaybeParseRecord
            (mkStringIO d (Z.of_nat (length pre + 3 + length v
                                     + if bool_decide (dl = sep) then 1 else 0)))
            ty (<[k := v]> recs)])
      reader.
Proof.
  intros Hsep Hterm Hk [Hns Hnt] Hdl Hd Hne.
  pose proof (keyOK_length k Hk) as Hlen.
  unfold call, onCaptured, parseRecord. unfold bind at 1. unfold get at 1.
  cbn [sfReader data pos]. unfold bind at 1. unfold onLocal at 1.
  rewrite (read_split d pre k (v ++ dl :: post) 3) by (auto; lia).
  rewrite (keyOK_pattern k Hk). cbn [negb].
  replace (Z.of_nat (length pre) + 3)
    with (Z.of_nat (length pre + length k + length (@nil ascii)))
    by (simpl; lia).
  rewrite (parseRecord_loop_value result ty k sep term d pre dl post _
             Hsep Hterm v []); try assumption.
  2:{ unfold avail. cbn [data pos]. subst d. rewrite !length_app.
      cbn [length]. lia. }
  assert (exists f, (Z.to_nat (avail (mkStringIO d
                       (Z.of_nat (length pre + length k + length (@nil ascii)))))
                     + 1 - length v)%nat = S f) as [f ->].
  { unfold avail. cbn [data pos]. rewrite Hd. rewrite !length_app.
    cbn [length]. exists (S (length post)). lia. }
  simpl parseRecord_loop. unfold bind at 1. unfold onLocal at 1.
  rewrite (peek_split d (pre ++ k ++ v) [dl] post)
    by (rewrite ?length_app; simpl; try lia;
        rewrite Hd, <- !app_assoc; reflexivity).
  rewrite Hsep, Hterm.
  assert (bool_decide ([dl] = [term]) || bool_decide ([dl] = [sep]) = true)
    as ->.
  { destruct Hdl as [-> | ->].
    - rewrite (bool_decide_eq_true_2 ([sep] = [sep])) by reflexivity.
      apply orb_true_r.
    - rewrite (bool_decide_eq_true_2 ([term] = [term])) by reflexivity.
      reflexivity. }
  unfold recordsSet, onReader, bind, get, ret. cbn [sfReader records].
  rewrite (read_split d pre (k ++ v) (dl :: post))
    by (rewrite ?length_app; simpl; try lia;
        rewrite Hd, <- !app_assoc; reflexivity).
  cbn [sfReader records].
  destruct (decide (dl = sep)) as [->|Hdl'].
  - rewrite !(bool_decide_eq_true_2 (_ = _)) by reflexivity.
    cbn [sfReader records].
    rewrite (read_split d (pre ++ k ++ v) [sep] post 1)
      by (rewrite ?length_app; simpl; try lia;
          rewrite Hd, <- !app_assoc; reflexivity).
    cbn [sfReader records]. rewrite ?length_app.
    repeat f_equal; lia.
  - rewrite (bool_decide_eq_false_2 ([dl] = [sep])) by congruence.
    rewrite (bool_decide_eq_false_2 (dl = sep)) by assumption.
    cbn [sfReader records]. rewrite ?length_app.
    repeat f_equal; lia.
Qed.

Lemma call_MaybeParseRecord_key result ty term d pre k post recs reader :
  segmentTerminator (header result) = [term] ->
  isUpper term = false ->
  keyOK k -> d = pre ++ k ++ post ->
  call (MaybeParseRecord (mkStringIO d (Z.of_nat (length pre))) ty recs)
       result reader
  = Returned
      (mkParseFuncResult result
         [ParseRecord (mkStringIO d (Z.of_nat (length pre))) ty recs])
      reader.
Proof.
  intros Hterm Hup (a & b & c & -> & Ha & _) Hd.
  unfold call, onCaptured, maybeParseRecord, tryCatch, onReader, bind, ret, get.
  cbn [sfReader records].
  rewrite (peek_split d pre [a] (b :: c :: post)) by (auto; rewrite Hd; auto).
  rewrite Hterm. rewrite bool_decide_eq_false_2; [reflexivity|].
  intros [= ->]. congruence.
Qed.

Lemma call_MaybeParseRecord_terminator result ty term d pre post recs reader :
  segmentTerminator (header result) = [term] ->
  d = pre ++ term :: post ->
  call (MaybeParseRecord (mkStringIO d (Z.of_nat (length pre))) ty recs)
       result reader
  = Returned (commitSubfile result ty recs) reader.
Proof.
  intros Hterm Hd.
  unfold call, onCaptured, maybeParseRecord, tryCatch, onReader, bind, ret, get.
  cbn [sfReader records].
  rewrite (peek_split d pre [term] post) by auto.
  rewrite Hterm. rewrite bool_decide_eq_true_2 by reflexivity.
  cbn [sfReader records].
  rewrite (read_split d pre [term] post 1) by auto. reflexivity.
Qed.

Lemma recordsText_cons sep kv entries :
  recordsText sep (kv :: entries)
  = kv.1 ++ kv.2 ++ [sep] ++ recordsText sep entries.
Proof. unfold recordsText. simpl. rewrite <- !app_assoc. reflexivity. Qed.

(** Two calls per record: the scan walks over records that are each
    followed by the data element separator. *)
Lemma parse_scan_entries result ty sep term d reader more :
  dataElementSeparator (header result) = [sep] ->
  segmentTerminator (header result) = [term] ->
  isUpper term = false -> sep <> term ->
  forall entries pre post recs fuel,
  Forall (entryOK sep term) entries ->
  d = pre ++ recordsText sep entries ++ post ->
  parse (2 * length entries + fuel)
    (mkParser reader
       (MaybeParseRecord (mkStringIO d (Z.of_nat (length pre))) ty recs :: more)
       result)
  = parse fuel
      (mkParser reader
         (MaybeParseRecord
            (mkStringIO d (Z.of_nat (length (pre ++ recordsText sep entries))))
            ty (recordsOf entries recs) :: more)
         result).
Proof.
  intros Hsep Hterm Hup Hne.
  induction entries as [|[k v] entries IH]; intros pre post recs fuel Hok Hd.
  - simpl. unfold recordsText. simpl. rewrite app_nil_r. reflexivity.
  - apply Forall_cons in Hok as [[Hk Hv] Hok]. simpl in Hk, Hv.
    rewrite recordsText_cons in Hd. simpl in Hd.
    replace (2 * length ((k, v) :: entries) + fuel)%nat
      with (S (S (2 * length entries + fuel))) by (simpl; lia).
    rewrite (parse_Returned _ _ _ _ _ _ _
               (call_MaybeParseRecord_key result ty term d pre k _ recs reader
                  Hterm Hup Hk ltac:(rewrite Hd, <- !app_assoc; reflexivity))).
    cbn [pfr_next pfr_result app].
    rewrite (parse_Returned _ _ _ _ _ _ _
               (call_ParseRecord_entry result ty sep term d pre k v sep _ recs
                  reader Hsep Hterm Hk Hv (or_introl eq_refl)
                  ltac:(rewrite Hd, <- !app_assoc; reflexivity)
                  (fun _ => Hne))).
    cbn [pfr_next pfr_result app].
    rewrite bool_decide_eq_true_2 by reflexivity.
    replace (Z.of_nat (length pre + 3 + length v + 1))
      with (Z.of_nat (length (pre ++ k ++ v ++ [sep])))
      by (rewrite !length_app, (keyOK_length k Hk); simpl; lia).
    rewrite (IH (pre ++ k ++ v ++ [sep]) post (<[k := v]> recs) fuel Hok)
      by (rewrite Hd, <- !app_assoc; reflexivity).
    rewrite recordsText_cons. simpl. rewrite <- !app_assoc. reflexivity.
Qed.

Lemma recordsOf_app entries1 entries2 recs :
  recordsOf (entries1 ++ entries2) recs
  = recordsOf entries2 (recordsOf entries1 recs).
Proof. unfold recordsOf. apply fold_left_app. Qed.

(** The end of the scan: a last record that runs up to the segment
    terminator, if there is one, and the terminator. *)
Lemma parse_scan_end result ty sep term d reader more :
  dataElementSeparator (header result) = [sep] ->
  segmentTerminator (header result) = [term] ->
  isUpper term = false -> sep <> term ->
  forall last pre junk recs fuel,
  Forall (entryOK sep term) (option_list last) ->
  d = pre ++ lastText last ++ [term] ++ junk ->
  parse (2 * length (option_list last) + 1 + fuel)
    (mkParser reader
       (MaybeParseRecord (mkStringIO d (Z.of_nat (length pre))) ty recs :: more)
       result)
  = parse fuel
      (mkParser reader more
         (with_subfiles
            (<[ty := recordsOf (option_list last) recs]> (subfiles result))
            result)).
Proof.
  intros Hsep Hterm Hup Hne [[k v]|] pre junk recs fuel Hok Hd; simpl in Hd.
  - apply Forall_cons in Hok as [[Hk Hv] _]. simpl in Hk, Hv.
    replace (2 * length (option_list (Some (k, v))) + 1 + fuel)%nat
      with (S (S (S fuel))) by (simpl; lia).
    rewrite (parse_Returned _ _ _ _ _ _ _
               (call_MaybeParseRecord_key result ty term d pre k _ recs reader
                  Hterm Hup Hk ltac:(rewrite Hd, <- !app_assoc; reflexivity))).
    cbn [pfr_next pfr_result app].
    rewrite (parse_Returned _ _ _ _ _ _ _
               (call_ParseRecord_entry result ty sep term d pre k v term _ recs
                  reader Hsep Hterm Hk Hv (or_intror eq_refl)
                  ltac:(rewrite Hd, <- !app_assoc; reflexivity)
                  (fun H => False_ind _ (Hne (eq_sym H))))).
    cbn [pfr_next pfr_result app].
    rewrite bool_decide_eq_false_2 by congruence.
    replace (Z.of_nat (length pre + 3 + length v + 0))
      with (Z.of_nat (length (pre ++ k ++ v)))
      by (rewrite !length_app, (keyOK_length k Hk); lia).
    rewrite (parse_Returned _ _ _ _ _ _ _
               (call_MaybeParseRecord_terminator result ty term d
                  (pre ++ k ++ v) junk _ reader Hterm
                  ltac:(rewrite Hd, <- !app_assoc; reflexivity))).
    reflexivity.
  - replace (2 * length (option_list (@None (jsstring * jsstring))) + 1 + fuel)%nat
      with (S fuel) by (simpl; lia).
    rewrite (parse_Returned _ _ _ _ _ _ _
               (call_MaybeParseRecord_terminator result ty term d pre junk _
                  reader Hterm Hd)).
    reflexivity.
Qed.

(** The whole scan from the first record on. *)
Lemma parse_scan_body result ty sep term reader more type entries last junk
    fuel :
  dataElementSeparator (header result) = [sep] ->
  segmentTerminator (header result) = [term] ->
  isUpper term = false -> sep <> term ->
  Forall (entryOK sep term) (entries ++ option_list last) ->
  let body := type ++ recordsText sep entries ++ lastText last
              ++ [term] ++ junk in
  parse (2 * length (entries ++ option_list last) + 1 + fuel)
    (mkParser reader
       (MaybeParseRecord (mkStringIO body (Z.of_nat (length type))) ty ∅
        :: more)
       result)
  = parse fuel
      (mkParser reader more
         (with_subfiles
            (<[ty := recordsOf (entries ++ option_list last) ∅]>
               (subfiles result))
            result)).
Proof.
  intros Hsep Hterm Hup Hne Hok body.
  apply Forall_app in Hok as [Hok Hlast].
  rewrite length_app.
  replace (2 * (length entries + length (option_list last)) + 1 + fuel)%nat
    with (2 * length entries
          + (2 * length (option_list last) + 1 + fuel))%nat by lia.
  rewrite (parse_scan_entries result ty sep term body reader more
             Hsep Hterm Hup Hne entries type
             (lastText last ++ [term] ++ junk) ∅ _ Hok eq_refl).
  rewrite (parse_scan_end result ty sep term body reader more
             Hsep Hterm Hup Hne last (type ++ recordsText sep entries) junk
             _ _ Hlast).
  - rewrite recordsOf_app. reflexivity.
  - unfold body. rewrite <- !app_assoc. reflexivity.
Qed.

(** The scan of a well-formed subfile, for a header whose data element
    separator and segment terminator are single characters that differ from
    each other, the terminator not being an upper-case letter.  The
    designator's range holds two characters (whatever they are), records
    (a key of three upper-case letters and a value that holds neither the
    separator nor the terminator) that are each followed by the data
    element separator, possibly a last record that is not, and the segment
    terminator; what follows the terminator is not looked at.  Then the
    subfile closure and the record closures it queues complete; the result
    keeps its header and designators, and its subfiles hold under the
    designator's type the map that [records.set] builds from the records in
    their order (of two records with one key the later one stays) and under
    every other type what they held. *)
Theorem scan_well_formed :
  forall result sep term sd pre post q type entries last junk fuel,
  dataElementSeparator (header result) = [sep] ->
  segmentTerminator (header result) = [term] ->
  isUpper term = false -> sep <> term ->
  recognized (sd_type sd) = true ->
  length type = 2%nat ->
  Forall (entryOK sep term) (entries ++ option_list last) ->
  let body := type ++ recordsText sep entries ++ lastText last
              ++ [term] ++ junk in
  sd_offset sd = Z.of_nat (length pre) ->
  sd_length sd = Z.of_nat (length body) ->
  (2 * length (entries ++ option_list last) + 2 <= fuel)%nat ->
  let reader := mkStringIO (pre ++ body ++ post) q in
  parse fuel (mkParser reader [ParseSubfile sd] result)
  = Done (mkParser reader []
            (mkParseResult (header result) (subfileDesignators result)
               (<[sd_type sd := recordsOf (entries ++ option_list last) ∅]>
                  (subfiles result)))).
Proof.
  intros result sep term sd pre post q type entries last junk fuel
    Hsep Hterm Hup Hne Hty Htype Hok body Hoff Hlen Hfuel reader.
  change (mkParseResult (header result) (subfileDesignators result)
            (<[sd_type sd := recordsOf (entries ++ option_list last) ∅]>
               (subfiles result)))
    with (with_subfiles
            (<[sd_type sd := recordsOf (entries ++ option_list last) ∅]>
               (subfiles result))
            result).
  replace fuel
    with (S (2 * length (entries ++ option_list last) + 1
             + (fuel - (2 * length (entries ++ option_list last) + 2))))%nat
    by lia.
  rewrite (parse_Returned _ _ _ _ _ _ _
             (call_ParseSubfile_recognized result sd _ q pre body post
                Hty eq_refl Hoff Hlen
                ltac:(unfold body; rewrite length_app; lia))).
  cbn [pfr_next pfr_result app].
  replace (mkStringIO body 2) with (mkStringIO body (Z.of_nat (length type)))
    by (rewrite Htype; reflexivity).
  fold body.
  rewrite (parse_scan_body result (sd_type sd) sep term reader [] type entries
             last junk _ Hsep Hterm Hup Hne Hok).
  apply parse_nil. reflexivity.
Qed.

(** The sample subfile: one record followed by LF, a last one by CR. *)
Lemma scan_well_formed_witness :
  let result :=
    mkParseResult (mkHeader [LF] [RS] [CR] (str "636000") (str "11")
                            (str "00") 1) [] ∅ in
  let reader := mkStringIO (str "0123456789" ++ sampleBody ++ str "rest") 0 in
  parse 6 (mkParser reader
             [ParseSubfile (mkSubfileDesignator (str "DL") 10 25)] result)
  = Done (mkParser reader []
            (mkParseResult (header result) []
               (<[str "DL" := recordsOf [(str "DAQ", str "T64235789");
                                         (str "DCS", str "SAMPLE")] ∅]> ∅))).
Proof.
  intros result reader.
  apply (scan_well_formed result LF CR (mkSubfileDesignator (str "DL") 10 25)
           (str "0123456789") (str "rest") 0 (str "DL")
           [(str "DAQ", str "T64235789")] (Some (str "DCS", str "SAMPLE")) []
           6%nat); try reflexivity.
  - discriminate.
  - repeat constructor; simpl.
    + exists "D"%char, "A"%char, "Q"%char. auto.
    + apply (bool_decide_unpack _). vm_compute. exact I.
    + apply (bool_decide_unpack _). vm_compute. exact I.
    + exists "D"%char, "C"%char, "S"%char. auto.
    + apply (bool_decide_unpack _). vm_compute. exact I.
    + apply (bool_decide_unpack _). vm_compute. exact I.
Defined.

(** *** A well-formed document *)

Lemma call_ParseSubfile_skipped result sd d q pre body post :
  recognized (sd_type sd) = false ->
  d = pre ++ body ++ post ->
  sd_offset sd = Z.of_nat (length pre) ->
  sd_length sd = Z.of_nat (length body) ->
  call (ParseSubfile sd) result (mkStringIO d q)
  = Returned (mkParseFuncResult result []) (mkStringIO d q).
Proof.
  intros Hty Hd Hoff Hlen. unfold call, onParserReader, parseSubfile.
  unfold_js. simpl.
  rewrite (peek_split d pre body post) by assumption. rewrite Hty.
  reflexivity.
Qed.

(** The subfile closures of a well-formed document, one after the other. *)
Lemma parse_subfiles_phase sep term d q more :
  isUpper term = false -> sep <> term ->
  forall sds recs, Forall2 (holdsSubfile sep term d) sds recs ->
  forall result,
  dataElementSeparator (header result) = [sep] ->
  segmentTerminator (header result) = [term] ->
  exists n, forall fuel,
    parse (n + fuel)
      (mkParser (mkStringIO d q) (map ParseSubfile sds ++ more) result)
    = parse fuel
        (mkParser (mkStringIO d q) more
           (with_subfiles (filed (zip sds recs) (subfiles result)) result)).
Proof.
  intros Hup Hne sds recs Hall.
  induction Hall as [|sd r sds recs Hsd _ IH]; intros result Hsep Hterm.
  - exists 0%nat. intros fuel. simpl. destruct result; reflexivity.
  - destruct Hsd as (pre & body & post & Hd & Hoff & Hlen & Hbody).
    destruct (recognized (sd_type sd)) eqn:Hty.
    + destruct Hbody as (type & entries & last & junk & Htype & Hok & Hb & ->).
      set (recs1 := recordsOf (entries ++ option_list last) ∅).
      destruct (IH (with_subfiles (<[sd_type sd := recs1]> (subfiles result))
                                  result) Hsep Hterm) as [n Hn].
      exists (S (2 * length (entries ++ option_list last) + 1 + n)).
      intros fuel. cbn [map app].
      replace (S (2 * length (entries ++ option_list last) + 1 + n) + fuel)%nat
        with (S (2 * length (entries ++ option_list last) + 1 + (n + fuel)))
        by lia.
      rewrite (parse_Returned _ _ _ _ _ _ _
                 (call_ParseSubfile_recognized result sd d q pre body post
                    Hty Hd Hoff Hlen
                    ltac:(rewrite Hb, length_app; lia))).
      cbn [pfr_next pfr_result app].
      replace (mkStringIO body 2)
        with (mkStringIO body (Z.of_nat (length type)))
        by (rewrite Htype; reflexivity).
      rewrite Hb.
      rewrite (parse_scan_body result (sd_type sd) sep term (mkStringIO d q)
                 (map ParseSubfile sds ++ more) type entries last junk _
                 Hsep Hterm Hup Hne Hok).
      rewrite Hn. reflexivity.
    + subst r.
      destruct (IH result Hsep Hterm) as [n Hn].
      exists (S n). intros fuel. cbn [map app Nat.add].
      rewrite (parse_Returned _ _ _ _ _ _ _
                 (call_ParseSubfile_skipped result sd d q pre body post
                    Hty Hd Hoff Hlen)).
      cbn [pfr_next pfr_result app]. rewrite Hn. reflexivity.
Qed.

(** A [parse()] that completes does so within the bound. *)
Lemma parse_Done_budget fuel p p' :
  parse fuel p = Done p' -> parse (budget p) p = Done p'.
Proof.
  intros H. pose proof (parse_within_budget (budget p) p (Nat.le_refl _)) as Hb.
  destruct (Nat.le_ge_cases fuel (budget p)) as [Hle|Hle].
  - rewrite (parse_fuel_mono fuel p (budget p)); [assumption| |assumption].
    rewrite H. exact I.
  - rewrite <- (parse_fuel_mono (budget p) p fuel); assumption.
Qed.

Lemma headerText_length s1 s2 s3 iin av jv ne :
  length iin = 6%nat -> length av = 2%nat -> length jv = 2%nat ->
  length ne = 2%nat -> length (headerText s1 s2 s3 iin av jv ne) = 21%nat.
Proof.
  intros Hiin Hav Hjv Hne. unfold headerText.
  rewrite !length_app, Hiin, Hav, Hjv, Hne. reflexivity.
Qed.

(** A well-formed document parses to what it says.  The input is a header
    (marker, three valid separators, "ANSI ", the three identification
    fields and an entry count that reads as [N]), [N] directory entries,
    and a rest in which the range of every designator holds a well-formed
    subfile.  Then [parse()], given the whole input, completes: the header
    holds the fields, the designator list holds the entries in order, the
    subfiles map holds the records of every "DL" and "ID" subfile (the
    later of two subfiles of one type), and the cursor stands after the
    directory. *)
Theorem parse_well_formed_document :
  forall s1 s2 s3 iin av jv ne N blocks sds tail recs,
  invalidSeparatorPattern [s1] = false ->
  invalidSeparatorPattern [s2] = false ->
  invalidSeparatorPattern [s3] = false ->
  s1 <> s3 ->
  length iin = 6%nat -> length av = 2%nat -> length jv = 2%nat ->
  length ne = 2%nat -> parseInt ne = Some N ->
  Forall2 blockOf blocks sds -> Z.of_nat (length blocks) = N ->
  let input := headerText s1 s2 s3 iin av jv ne ++ concat blocks ++ tail in
  Forall2 (holdsSubfile s1 s3 input) sds recs ->
  let p0 := makeDLIDParser (mkStringIO input 0) in
  parse (budget p0) p0
  = Done (mkParser (mkStringIO input (21 + 10 * N)) []
            (mkParseResult (mkHeader [s1] [s2] [s3] iin av jv N) sds
                           (filed (zip sds recs) ∅))).
Proof.
  intros s1 s2 s3 iin av jv ne N blocks sds tail recs H1 H2 H3 Hne13
    Hiin Hav Hjv Hne HN Hblocks Hcount input Hsubs p0.
  set (hd := headerText s1 s2 s3 iin av jv ne) in *.
  pose proof (headerText_length s1 s2 s3 iin av jv ne Hiin Hav Hjv Hne) as Hhd.
  fold hd in Hhd.
  set (result1 := mkParseResult (mkHeader [s1] [s2] [s3] iin av jv N) sds ∅).
  destruct (parse_subfiles_phase s1 s3 input (21 + 10 * N) []
              (separator_not_upper s3 H3) Hne13 sds recs Hsubs result1
              eq_refl eq_refl) as [n Hn].
  apply (parse_Done_budget (10 + S (length blocks + S (n + 0)))).
  unfold p0, input.
  rewrite (header_phase s1 s2 s3 iin av jv ne N (concat blocks ++ tail))
    by assumption.
  fold hd. fold input.
  rewrite (parse_Returned _ _ _ _ _
             (mkParseFuncResult _
                (replicate (Z.to_nat N) ParseSubfileDesignator))
             (mkStringIO input 21)) by reflexivity.
  cbn [pfr_next pfr_result].
  replace (Z.to_nat N) with (length blocks) by lia.
  replace 21 with (Z.of_nat (length hd)) at 1 by lia.
  unfold input at 1.
  rewrite (designators_phase blocks sds hd tail _ _ _ Hblocks).
  fold input. cbn [subfileDesignators with_subfileDesignators app header subfiles].
  rewrite (parse_Returned _ _ _ _ _
             (mkParseFuncResult result1 (map ParseSubfile sds))
             (mkStringIO input (Z.of_nat (length hd)
                                + 10 * Z.of_nat (length blocks))))
    by reflexivity.
  cbn [pfr_next pfr_result].
  replace (Z.of_nat (length hd) + 10 * Z.of_nat (length blocks))
    with (21 + 10 * N) by lia.
  rewrite Hn. reflexivity.
Qed.

Ltac solve_entryOK :=
  repeat first
    [ apply Forall_nil_2
    | apply Forall_cons; split;
        [ split;
            [ eexists _, _, _; repeat split; reflexivity
            | split; apply (bool_decide_unpack _); vm_compute; exact I ]
        | ] ].

(** The sample document of the test suite: the expected header, both
    designators, and the 28 records of the "DL" subfile; the "ZV" subfile
    is skipped. *)
Lemma parse_well_formed_document_witness :
  let p0 := makeDLIDParser (mkStringIO exampleData 0) in
  parse (budget p0) p0
  = Done (mkParser (mkStringIO exampleData 41) []
            (mkParseResult
               (mkHeader [LF] [RS] [CR] (str "636000") (str "11") (str "00") 2)
               [mkSubfileDesignator (str "DL") 41 277;
                mkSubfileDesignator (str "ZV") 318 8]
               (<[str "DL" := recordsOf exampleRecords ∅]> ∅))).
Proof.
  refine (parse_well_formed_document LF RS CR (str "636000") (str "11")
            (str "00") (str "02") 2 [str "DL00410277"; str "ZV03180008"]
            [mkSubfileDesignator (str "DL") 41 277;
             mkSubfileDesignator (str "ZV") 318 8]
            (drop 41 exampleData)
            [Some (recordsOf exampleRecords ∅); None]
            eq_refl eq_refl eq_refl _ eq_refl eq_refl eq_refl eq_refl eq_refl
            _ eq_refl _).
  - discriminate.
  - repeat constructor.
    + apply (blockOf_intro (str "DL") (str "0041") (str "0277") 41 277);
        reflexivity.
    + apply (blockOf_intro (str "ZV") (str "0318") (str "0008") 318 8);
        reflexivity.
  - repeat constructor.
    + exists (take 41 exampleData), (take 277 (drop 41 exampleData)),
        (drop 318 exampleData).
      split; [reflexivity|]. split; [reflexivity|]. split; [reflexivity|].
      cbn [sd_type]. change (recognized (str "DL")) with true. cbv iota.
      exists (str "DL"), (removelast exampleRecords),
        (Some (str "DDD", str "1")), [].
      split; [reflexivity|]. split; [|split; reflexivity].
      cbn [removelast exampleRecords app option_list]. solve_entryOK.
    + exists (take 318 exampleData), (drop 318 exampleData), [].
      split; [reflexivity|]. split; [reflexivity|]. split; [reflexivity|].
      cbn [sd_type]. change (recognized (str "ZV")) with false. cbv iota.
      reflexivity.
Defined.

(** *** The buffer is only ever read *)

Lemma read_data n r x r' : read n r = Ok x r' -> data r' = data r.
Proof. intros H. apply read_Ok in H as (-> & _). reflexivity. Qed.

Lemma call_Threw_data cur result reader e cur' reader' :
  call cur result reader = Threw e cur' reader' -> data reader' = data reader.
Proof.
  destruct cur as [ | | | | | | | | | | | | |sd|sf ty recs|sf ty recs];
    unfold call, onParserReader, onCaptured, readSeparator;
    unfold_js.
  all: try discriminate.
  all: try (destruct (read _ reader) as [x r|e1 r] eqn:E;
            [apply read_Ok in E as (-> & _ & _)
            |apply read_Err in E as (-> & -> & _);
             intros [= <- <- <-]; reflexivity]).
  all: repeat match goal with
       | |- context [if ?b then _ else _] => destruct b
       | |- context [match parseInt ?x with _ => _ end] => destruct (parseInt x)
       end.
  all: try discriminate.
  all: try (intros [= <- <- <-]; reflexivity).
  - destruct (parseSubfileDesignator result reader) as [res r|e1 r] eqn:E;
      [discriminate|].
    apply parseSubfileDesignator_Err in E as ->.
    intros [= <- <- <-]; reflexivity.
  - destruct (parseSubfile result sd reader) as [res r|e1 r] eqn:E;
      [discriminate|].
    apply parseSubfile_Err in E as (-> & ->).
    intros [= <- <- <-]; reflexivity.
  - destruct (maybeParseRecord _ _ _) as [res sc'|e1 sc']; [discriminate|].
    intros [= <- <- <-]; reflexivity.
  - destruct (parseRecord result ty _) as [res sc'|e1 sc'];
      [discriminate|].
    intros [= <- <- <-]; reflexivity.
Qed.

Lemma parse_data fuel : forall p,
  data (reader (stateOf (parse fuel p))) = data (reader p).
Proof.
  induction fuel as [|fuel IH]; intros [rd fs res]; simpl.
  - destruct fs; reflexivity.
  - destruct fs as [|cur rest]; [reflexivity|].
    destruct (call cur res rd) as [r rd'|e cur' rd'] eqn:E.
    + rewrite IH. simpl.
      apply (call_Returned_cost _ _ _ _ _ (length (subfileDesignators res)))
        in E as (Hd & _); [assumption|lia].
    + simpl. eapply call_Threw_data. eassumption.
Qed.

(** How a [parse()] ended within some number of calls is how it ends within
    the bound. *)
Lemma parse_finished_budget fuel p :
  finished (parse fuel p) -> parse (budget p) p = parse fuel p.
Proof.
  intros H. pose proof (parse_within_budget (budget p) p (Nat.le_refl _)) as Hb.
  destruct (Nat.le_ge_cases fuel (budget p)) as [Hle|Hle].
  - apply parse_fuel_mono; assumption.
  - symmetry. apply parse_fuel_mono; assumption.
Qed.

(** *** The value loop ends *)

(** The [while (true)] of [parseRecord] makes at most [avail copied + 1]
    rounds: with any larger bound it ends in the same way, so the bound of
    the model is never what ends it. *)
Lemma parseRecord_loop_fuel fuel result sfType key : forall val copied sc,
  (Z.to_nat (avail copied) + 1 <= fuel)%nat ->
  parseRecord_loop fuel result sfType key val copied sc
  = parseRecord_loop (Z.to_nat (avail copied) + 1) result sfType key val
      copied sc.
Proof.
  induction fuel as [|fuel IH]; intros val copied sc Hfuel; [lia|].
  rewrite Nat.add_1_r. cbn [parseRecord_loop]. unfold bind, onLocal.
  destruct (peek 1 copied) as [next r|e r] eqn:Ep; [|reflexivity].
  apply peek_Ok in Ep as (-> & Hav & _).
  destruct (_ || _); [reflexivity|].
  rewrite read_enough by assumption.
  rewrite (IH _ (mkStringIO (data copied) (pos copied + 1)))
    by (unfold avail in *; cbn [data pos]; lia).
  f_equal. unfold avail in *. cbn [data pos]. lia.
Qed.

(** Within [avail copied + 1] rounds the value loop has ended, and the loop
    gives that outcome. *)
Lemma parseRecord_rounds_end fuel result sfType key : forall val copied sc,
  (Z.to_nat (avail copied) + 1 <= fuel)%nat ->
  parseRecord_rounds fuel result sfType key val copied sc
  = Some (parseRecord_loop fuel result sfType key val copied sc).
Proof.
  induction fuel as [|fuel IH]; intros val copied sc Hfuel; [lia|].
  cbn [parseRecord_rounds parseRecord_loop].
  unfold andThen, ended, bind, onLocal.
  destruct (peek 1 copied) as [next r|e r] eqn:Ep; [|reflexivity].
  apply peek_Ok in Ep as (-> & Hav & _).
  destruct (_ || _); [reflexivity|].
  rewrite read_enough by assumption.
  apply IH. unfold avail in *. cbn [data pos]. lia.
Qed.

(** The directory and the subfiles of the sample document. *)
Lemma exampleData_directory :
  Forall2 blockOf [str "DL00410277"; str "ZV03180008"]
    [mkSubfileDesignator (str "DL") 41 277;
     mkSubfileDesignator (str "ZV") 318 8].
Proof.
  repeat constructor.
  - apply (blockOf_intro (str "DL") (str "0041") (str "0277") 41 277);
      reflexivity.
  - apply (blockOf_intro (str "ZV") (str "0318") (str "0008") 318 8);
      reflexivity.
Qed.

Lemma exampleData_subfiles :
  Forall2 (holdsSubfile LF CR exampleData)
    [mkSubfileDesignator (str "DL") 41 277;
     mkSubfileDesignator (str "ZV") 318 8]
    [Some (recordsOf exampleRecords ∅); None].
Proof.
  repeat constructor.
  - exists (take 41 exampleData), (take 277 (drop 41 exampleData)),
      (drop 318 exampleData).
    split; [reflexivity|]. split; [reflexivity|]. split; [reflexivity|].
    cbn [sd_type]. change (recognized (str "DL")) with true. cbv iota.
    exists (str "DL"), (removelast exampleRecords),
      (Some (str "DDD", str "1")), [].
    split; [reflexivity|]. split; [|split; reflexivity].
    cbn [removelast exampleRecords app option_list]. solve_entryOK.
  - exists (take 318 exampleData), (drop 318 exampleData), [].
    split; [reflexivity|]. split; [reflexivity|]. split; [reflexivity|].
    cbn [sd_type]. change (recognized (str "ZV")) with false. cbv iota.
    reflexivity.
Qed.

(** *** A completed parse says what the text holds *)

Lemma read_Ok_drop n d q x r' :
  0 <= q -> 0 <= n ->
  read n (mkStringIO d q) = Ok x r' ->
  r' = mkStringIO d (q + n)
  /\ length x = Z.to_nat n
  /\ drop (Z.to_nat q) d = x ++ drop (Z.to_nat (q + n)) d.
Proof.
  intros Hq Hn H. apply read_Ok in H as (-> & Hav & ->).
  unfold avail in Hav. cbn [data pos] in *.
  rewrite substring_take_drop by lia.
  split; [reflexivity|]. split.
  - rewrite length_take, length_drop. lia.
  - rewrite <- (take_drop (Z.to_nat n) (drop (Z.to_nat q) d)) at 1.
    f_equal. rewrite drop_drop. f_equal. lia.
Qed.

Lemma parse_Done_step fuel reader cur rest result p' :
  parse fuel (mkParser reader (cur :: rest) result) = Done p' ->
  exists fuel' res reader',
    fuel = S fuel' /\ call cur result reader = Returned res reader'
    /\ parse fuel' (mkParser reader' (pfr_next res ++ rest) (pfr_result res))
       = Done p'.
Proof.
  destruct fuel as [|fuel']; simpl; [discriminate|].
  destruct (call cur result reader) as [res r|e c r] eqn:E; [|discriminate].
  intros H. exists fuel', res, r. auto.
Qed.

Ltac done_step H Hcall :=
  let f := fresh "fuel" in let res := fresh "res" in let r := fresh "r" in
  apply parse_Done_step in H as (f & res & r & -> & Hcall & H);
  unfold call, onParserReader in Hcall.

Ltac read_step Hcall n x Hlen Hdrop :=
  let r := fresh "r" in let E := fresh "E" in let e := fresh "e" in
  unfold bind at 1 in Hcall;
  match type of Hcall with
  | context [read n ?rd] =>
      destruct (read n rd) as [x r|e r] eqn:E; [|discriminate Hcall];
      apply read_Ok_drop in E as (-> & Hlen & Hdrop); [|lia|lia]
  end.

(** A completed header: the first 21 characters. *)
Lemma parse_Done_header d fuel p' :
  parse fuel (makeDLIDParser (mkStringIO d 0)) = Done p' ->
  exists s1 s2 s3 iin av jv ne N rest fuel',
    d = headerText s1 s2 s3 iin av jv ne ++ rest
    /\ invalidSeparatorPattern [s1] = false
    /\ invalidSeparatorPattern [s2] = false
    /\ invalidSeparatorPattern [s3] = false
    /\ length iin = 6%nat /\ length av = 2%nat /\ length jv = 2%nat
    /\ length ne = 2%nat /\ parseInt ne = Some N
    /\ parse fuel'
         (mkParser (mkStringIO d 21) [ParseSubfileDesignators; ParseSubfiles]
            (mkParseResult (mkHeader [s1] [s2] [s3] iin av jv N) [] ∅))
       = Done p'.
Proof.
  unfold makeDLIDParser. intros H.
  done_step H Hcall. unfold ret in Hcall. injection Hcall as <- <-.
  cbn [pfr_next pfr_result headerFuncs app] in H.
  (* '@' *)
  done_step H Hcall. read_step Hcall 1 x0 L0 D0.
  destruct (bool_decide (x0 = str "@")) eqn:E0; [|discriminate].
  apply bool_decide_eq_true_1 in E0. subst x0.
  unfold ret in Hcall. injection Hcall as <- <-.
  cbn [pfr_next pfr_result app] in H.
  (* separators *)
  done_step H Hcall. unfold readSeparator in Hcall. unfold bind at 1 in Hcall.
  read_step Hcall 1 x1 L1 D1.
  destruct (invalidSeparatorPattern x1) eqn:V1; [discriminate|].
  unfold ret in Hcall. injection Hcall as <- <-.
  cbn [pfr_next pfr_result app updHeader] in H.
  done_step H Hcall. unfold readSeparator in Hcall. unfold bind at 1 in Hcall.
  read_step Hcall 1 x2 L2 D2.
  destruct (invalidSeparatorPattern x2) eqn:V2; [discriminate|].
  unfold ret in Hcall. injection Hcall as <- <-.
  cbn [pfr_next pfr_result app updHeader] in H.
  done_step H Hcall. unfold readSeparator in Hcall. unfold bind at 1 in Hcall.
  read_step Hcall 1 x3 L3 D3.
  destruct (invalidSeparatorPattern x3) eqn:V3; [discriminate|].
  unfold ret in Hcall. injection Hcall as <- <-.
  cbn [pfr_next pfr_result app updHeader] in H.
  (* "ANSI " *)
  done_step H Hcall. read_step Hcall 5 x4 L4 D4.
  destruct (bool_decide (x4 = str "ANSI ")) eqn:E4; [|discriminate].
  apply bool_decide_eq_true_1 in E4. subst x4.
  unfold ret in Hcall. injection Hcall as <- <-.
  cbn [pfr_next pfr_result app] in H.
  (* the fields *)
  done_step H Hcall. read_step Hcall 6 x5 L5 D5.
  unfold ret in Hcall. injection Hcall as <- <-.
  cbn [pfr_next pfr_result app updHeader] in H.
  done_step H Hcall. read_step Hcall 2 x6 L6 D6.
  unfold ret in Hcall. injection Hcall as <- <-.
  cbn [pfr_next pfr_result app updHeader] in H.
  done_step H Hcall. read_step Hcall 2 x7 L7 D7.
  unfold ret in Hcall. injection Hcall as <- <-.
  cbn [pfr_next pfr_result app updHeader] in H.
  done_step H Hcall. read_step Hcall 2 x8 L8 D8.
  destruct (parseInt x8) as [N|] eqn:EN; [|discriminate].
  unfold ret in Hcall. injection Hcall as <- <-.
  cbn [pfr_next pfr_result app updHeader] in H.
  destruct x1 as [|s1 [|]]; try discriminate.
  destruct x2 as [|s2 [|]]; try discriminate.
  destruct x3 as [|s3 [|]]; try discriminate.
  exists s1, s2, s3, x5, x6, x7, x8, N, (drop 21 d). eexists.
  repeat match goal with
         | Hx : context [Z.to_nat ?z] |- _ =>
             let v := eval vm_compute in (Z.to_nat z) in
             change (Z.to_nat z) with v in Hx
         end.
  change (drop 0 d) with d in D0.
  split.
  { unfold headerText. rewrite <- !app_assoc. cbn [app].
    rewrite D0 at 1. rewrite D1, D2, D3, D4, D5, D6, D7, D8. reflexivity. }
  repeat (split; [assumption|]).
  exact H.
Qed.

Lemma parseSubfileDesignator_block result d q res r' :
  0 <= q ->
  parseSubfileDesignator result (mkStringIO d q) = Ok res r' ->
  exists block sd,
    blockOf block sd
    /\ drop (Z.to_nat q) d = block ++ drop (Z.to_nat (q + 10)) d
    /\ r' = mkStringIO d (q + 10)
    /\ res = mkParseFuncResult
               (with_subfileDesignators (subfileDesignators result ++ [sd])
                                        result) [].
Proof.
  intros Hq. unfold parseSubfileDesignator, SUBFILE_DESIGNATOR_SIZE.
  unfold bind at 1.
  destruct (peek 10 (mkStringIO d q)) as [block r|e r] eqn:E; [|discriminate].
  apply peek_Ok in E as (-> & Hav & Hblock). cbn [data pos] in Hblock.
  unfold bind at 1. unfold onLocal at 1.
  intros H.
  read_step H 2 type Lty Dty. read_step H 4 off Lof Dof.
  read_step H 4 len Lle Dle.
  unfold ret at 1 in H. cbv beta iota in H.
  destruct (parseInt off) as [o|] eqn:Eo; [|discriminate].
  destruct (parseInt len) as [l|] eqn:El; [|discriminate].
  unfold bind, ret in H.
  destruct (read 10 (mkStringIO d q)) as [x r|e r] eqn:E; [|discriminate].
  injection H as <- <-.
  pose proof E as E'. apply read_Ok in E' as (_ & _ & Hx).
  cbn [data pos] in Hx. rewrite <- Hblock in Hx. subst x.
  apply read_Ok_drop in E as (-> & L10 & D10); [|lia|lia].
  repeat match goal with
         | Hx : context [Z.to_nat ?z] |- _ =>
             match z with
             | context [q] => fail 1
             | _ => let v := eval vm_compute in (Z.to_nat z) in
                    change (Z.to_nat z) with v in Hx
             end
         end.
  change (drop 0 block) with block in Dty.
  assert (block = type ++ off ++ len) as Hb.
  { rewrite Dty at 1. rewrite Dof, Dle.
    rewrite (drop_ge block 10) by lia. rewrite app_nil_r. reflexivity. }
  exists block, (mkSubfileDesignator type o l).
  split; [|split; [exact D10|split; reflexivity]].
  rewrite Hb. apply blockOf_intro; assumption.
Qed.

(** The designator closures of a completed parse: each took a well-formed
    directory entry. *)
Lemma parse_Done_designator_calls m : forall fuel d q h sds0 subs rest p',
  0 <= q ->
  parse fuel (mkParser (mkStringIO d q)
                (replicate m ParseSubfileDesignator ++ rest)
                (mkParseResult h sds0 subs)) = Done p' ->
  exists blocks sds fuel',
    length blocks = m /\ Forall2 blockOf blocks sds
    /\ drop (Z.to_nat q) d
       = concat blocks ++ drop (Z.to_nat (q + 10 * Z.of_nat m)) d
    /\ parse fuel' (mkParser (mkStringIO d (q + 10 * Z.of_nat m)) rest
                      (mkParseResult h (sds0 ++ sds) subs)) = Done p'.
Proof.
  induction m as [|m IH]; intros fuel d q h sds0 subs rest p' Hq H.
  - exists [], [], fuel. cbn [replicate app] in H.
    rewrite Z.mul_0_r, Z.add_0_r, app_nil_r.
    split; [reflexivity|]. split; [constructor|]. split; [reflexivity|exact H].
  - cbn [replicate app] in H.
    done_step H Hcall.
    destruct (parseSubfileDesignator _ _) as [res1 r1|e r1] eqn:E;
      [|discriminate].
    injection Hcall as <- <-.
    apply parseSubfileDesignator_block in E
      as (block & sd & Hb & Hd & -> & ->); [|exact Hq].
    cbn [pfr_next pfr_result app with_subfileDesignators header subfiles
         subfileDesignators] in H.
    apply IH in H as (blocks & sds & fuel' & Hlen & Hall & Hdrop & H); [|lia].
    exists (block :: blocks), (sd :: sds), fuel'.
    split; [simpl; lia|]. split; [constructor; assumption|].
    replace (q + 10 * Z.of_nat (S m)) with (q + 10 + 10 * Z.of_nat m) by lia.
    split.
    + rewrite Hd, Hdrop. cbn [concat]. rewrite <- app_assoc. reflexivity.
    + rewrite <- app_assoc in H. exact H.
Qed.

(** What a returning closure of the subfile phase leaves alone, and what a
    returning [ParseSubfile] closure has checked. *)
Lemma call_Returned_body cur result reader res reader' :
  inBody cur -> call cur result reader = Returned res reader' ->
  reader' = reader
  /\ header (pfr_result res) = header result
  /\ (forall sd, cur = ParseSubfile sd ->
        sd_length sd <= Z.of_nat (length (data reader)) - sd_offset sd)
  /\ (forall sd, ParseSubfile sd ∈ pfr_next res ->
        cur = ParseSubfiles /\ sd ∈ subfileDesignators result)
  /\ ParseSubfiles ∉ pfr_next res.
Proof.
  destruct cur as [ | | | | | | | | | | | | |sd|sf ty recs|sf ty recs];
    try contradiction; intros _; unfold call, onParserReader, onCaptured.
  - unfold ret. intros [= <- <-]. cbn [pfr_next pfr_result].
    split; [reflexivity|]. split; [reflexivity|].
    split; [discriminate|]. split.
    + intros sd Hin. split; [reflexivity|].
      apply list_elem_of_fmap in Hin as (sd' & [= ->] & Hin). exact Hin.
    + intros Hin. apply list_elem_of_fmap in Hin as (sd' & [=] & _).
  - destruct (parseSubfile result sd reader) as [r rd|e1 rd] eqn:E;
      [|discriminate].
    intros [= <- <-].
    assert (sd_length sd <= Z.of_nat (length (data reader)) - sd_offset sd)
      as Hrange.
    { unfold parseSubfile, bind, get, onLocal in E.
      destruct (peek (sd_length sd) _) as [snapshot r1|e1 r1] eqn:Ep;
        [|discriminate].
      apply peek_Ok in Ep as (_ & Hav & _). exact Hav. }
    apply parseSubfile_Ok in E as (-> & Hres & Hnext).
    split; [reflexivity|]. split; [rewrite Hres; reflexivity|].
    split; [intros sd' [= <-]; exact Hrange|].
    destruct Hnext as [->|[sf ->]]; split; intros * Hin;
      try (apply elem_of_nil in Hin; contradiction);
      apply list_elem_of_singleton in Hin; discriminate.
  - destruct (maybeParseRecord _ _ _) as [r sc'|e1 sc'] eqn:E; [|discriminate].
    intros [= <- <-].
    apply maybeParseRecord_Ok in E as [->| ->]; cbn [pfr_next pfr_result];
      (split; [reflexivity|]); (split; [reflexivity|]);
      (split; [discriminate|]); split; intros * Hin;
      try (apply elem_of_nil in Hin; contradiction);
      apply list_elem_of_singleton in Hin; discriminate.
  - destruct (parseRecord _ _ _) as [r sc'|e1 sc'] eqn:E; [|discriminate].
    intros [= <- <-].
    apply parseRecord_Ok in E as (Hres & Hnext). rewrite Hres, Hnext.
    split; [reflexivity|]. split; [reflexivity|].
    split; [discriminate|]. split; intros * Hin;
      apply list_elem_of_singleton in Hin; discriminate.
Qed.

(** The subfile phase of a completed parse: the header, the designators and
    the parser's reader are as before it, and the range of every designator
    whose closure was run lies within the buffer. *)
Lemma parse_Done_body fuel : forall p p',
  Forall inBody (funcs p) -> parse fuel p = Done p' ->
  reader p' = reader p
  /\ header (result p') = header (result p)
  /\ subfileDesignators (result p') = subfileDesignators (result p)
  /\ (forall sd,
        ParseSubfile sd ∈ funcs p
        \/ (ParseSubfiles ∈ funcs p /\ sd ∈ subfileDesignators (result p)) ->
        sd_length sd <= Z.of_nat (length (data (reader p))) - sd_offset sd).
Proof.
  induction fuel as [|fuel IH]; intros [reader fs result] p' Hfs H.
  - simpl in H. destruct fs; [|discriminate]. injection H as <-.
    cbn [Engine.reader Engine.result Engine.funcs].
    repeat split; try reflexivity.
    intros sd [Hin|[Hin _]]; apply elem_of_nil in Hin; contradiction.
  - destruct fs as [|cur rest].
    { simpl in H. injection H as <-.
      cbn [Engine.reader Engine.result Engine.funcs].
      repeat split; try reflexivity.
      intros sd [Hin|[Hin _]]; apply elem_of_nil in Hin; contradiction. }
    cbn [Engine.funcs] in Hfs. apply Forall_cons in Hfs as [Hcur Hrest].
    apply parse_Done_step in H as (fuel' & res & r & [= <-] & Hcall & H).
    pose proof (call_Returned_inBody _ _ _ _ _ Hcur Hcall) as [Hsds Hnext].
    pose proof (call_Returned_body _ _ _ _ _ Hcur Hcall)
      as (-> & Hh & Hrange & Hpushed & Hnops).
    apply IH in H; [|cbn [Engine.funcs]; apply Forall_app; auto].
    cbn [Engine.reader Engine.result Engine.funcs] in *.
    destruct H as (Hr & Hh' & Hsds' & Hall).
    split; [exact Hr|]. split; [congruence|]. split; [congruence|].
    intros sd [Hin|[Hin Hsd]].
    + apply elem_of_cons in Hin as [<-|Hin].
      * apply Hrange. reflexivity.
      * apply Hall. left. apply elem_of_app. right. exact Hin.
    + apply elem_of_cons in Hin as [<-|Hin].
      * apply Hall. left. apply elem_of_app. left.
        unfold call, onParserReader, ret in Hcall. injection Hcall as <-.
        cbn [pfr_next]. apply list_elem_of_fmap. eauto.
      * apply Hall. right. split.
        -- apply elem_of_app. right. exact Hin.
        -- rewrite Hsds. exact Hsd.
Qed.

(** A completed parse says what the text holds.  When [parse()], given the
    whole input in a new parser, returns, the input starts with a header
    text (the marker, three valid separators, "ANSI ", the identification
    fields and an entry count that [parseInt] reads as [N]) followed by [N]
    well-formed directory entries when [N] is positive, none otherwise; the
    result holds exactly these header fields and the designators of these
    entries in order; the cursor stands just after the directory; and the
    length of every designator is at most the length of the input minus the
    designator's offset, which is all that the [peek] of the subfile closure
    checks (for an offset and a length that are not negative this says that
    the range lies within the input; nothing is said on their signs). *)
Theorem parse_Done_sound :
  forall d fuel p',
  parse fuel (makeDLIDParser (mkStringIO d 0)) = Done p' ->
  exists s1 s2 s3 iin av jv ne N blocks tail,
    d = headerText s1 s2 s3 iin av jv ne ++ concat blocks ++ tail
    /\ invalidSeparatorPattern [s1] = false
    /\ invalidSeparatorPattern [s2] = false
    /\ invalidSeparatorPattern [s3] = false
    /\ length iin = 6%nat /\ length av = 2%nat /\ length jv = 2%nat
    /\ length ne = 2%nat /\ parseInt ne = Some N
    /\ length blocks = Z.to_nat N
    /\ Forall2 blockOf blocks (subfileDesignators (result p'))
    /\ header (result p') = mkHeader [s1] [s2] [s3] iin av jv N
    /\ reader p' = mkStringIO d (21 + 10 * Z.of_nat (length blocks))
    /\ Forall (fun sd => sd_length sd
                         <= Z.of_nat (length d) - sd_offset sd)
              (subfileDesignators (result p')).
Proof.
  intros d fuel p' H.
  apply parse_Done_header in H
    as (s1 & s2 & s3 & iin & av & jv & ne & N & rest & fuel1 & Hd & H1 & H2
        & H3 & Hiin & Hav & Hjv & Hne & HN & H).
  done_step H Hcall. unfold ret in Hcall. injection Hcall as <- <-.
  cbn [pfr_next pfr_result header numEntries] in H.
  apply parse_Done_designator_calls in H
    as (blocks & sds & fuel2 & Hlen & Hblocks & Hdrop & H); [|lia].
  cbn [app] in H.
  done_step H Hcall. unfold ret in Hcall. injection Hcall as <- <-.
  cbn [pfr_next pfr_result subfileDesignators app] in H.
  rewrite app_nil_r in H.
  apply parse_Done_body in H as (Hr & Hh & Hsds & Hrange);
    [|cbn [funcs]; apply Forall_forall; intros f Hf;
      apply list_elem_of_fmap in Hf as (sd & -> & _); exact I].
  cbn [Engine.reader Engine.result Engine.funcs header subfileDesignators data]
    in *.
  pose proof (headerText_length s1 s2 s3 iin av jv ne Hiin Hav Hjv Hne) as Hhd.
  exists s1, s2, s3, iin, av, jv, ne, N, blocks,
    (drop (Z.to_nat (21 + 10 * Z.of_nat (Z.to_nat N))) d).
  split.
  { rewrite <- Hdrop. rewrite Hd at 2.
    change (Z.to_nat 21) with 21%nat. rewrite <- Hhd.
    rewrite drop_app_length. exact Hd. }
  repeat (split; [assumption|]).
  split; [rewrite Hsds; exact Hblocks|].
  split; [exact Hh|].
  split; [rewrite Hr, Hlen; reflexivity|].
  apply Forall_forall. intros sd Hin. apply Hrange. left.
  apply list_elem_of_fmap. exists sd. split; [reflexivity|].
  rewrite <- Hsds. exact Hin.
Qed.

(** A document with one "DL" subfile. *)
Lemma parse_Done_sound_witness :
  let d := str "@" ++ [LF; RS; CR] ++ str "ANSI 636000110001"
           ++ str "DL00310025" ++ sampleBody in
  exists p',
    parse 100 (makeDLIDParser (mkStringIO d 0)) = Done p'
    /\ exists s1 s2 s3 iin av jv ne N blocks tail,
         d = headerText s1 s2 s3 iin av jv ne ++ concat blocks ++ tail
         /\ invalidSeparatorPattern [s1] = false
         /\ invalidSeparatorPattern [s2] = false
         /\ invalidSeparatorPattern [s3] = false
         /\ length iin = 6%nat /\ length av = 2%nat /\ length jv = 2%nat
         /\ length ne = 2%nat /\ parseInt ne = Some N
         /\ length blocks = Z.to_nat N
         /\ Forall2 blockOf blocks (subfileDesignators (result p'))
         /\ header (result p') = mkHeader [s1] [s2] [s3] iin av jv N
         /\ reader p' = mkStringIO d (21 + 10 * Z.of_nat (length blocks))
         /\ Forall (fun sd => sd_length sd
                              <= Z.of_nat (length d) - sd_offset sd)
                   (subfileDesignators (result p')).
Proof.
  intros d.
  destruct (parse 100 (makeDLIDParser (mkStringIO d 0))) as [p'|e p'|p'] eqn:E.
  - exists p'. split; [reflexivity|]. exact (parse_Done_sound d 100 p' E).
  - vm_compute in E. discriminate.
  - vm_compute in E. discriminate.
Defined.

(** *** Calling [parse()] again after a throw that is not EOF *)

Ltac returned_round d pre body post extra :=
  erewrite parse_Returned;
  [|unfold_call;
    rewrite (read_split d pre body post) by reflexivity;
    extra; reflexivity];
  cbn [pfr_next pfr_result updHeader app].

(** A throw that is not EOF is not final.  The closure that threw stays at
    the head of the queue and the characters it read stay consumed, so the
    next [parse()] runs it again on what follows.  On a header whose
    "ANSI " stands five characters too far, [parse()] throws ParseError
    "Invalid header" with the cursor at 9; called again, without new data,
    it accepts "ANSI " at 9 and reads the fields after it, and the run goes
    on with the directory at 26. *)
Theorem parse_again_after_invalid_header :
  forall s1 s2 s3 junk iin av jv ne N rest fuel,
  invalidSeparatorPattern [s1] = false ->
  invalidSeparatorPattern [s2] = false ->
  invalidSeparatorPattern [s3] = false ->
  length junk = 5%nat -> junk <> str "ANSI " ->
  length iin = 6%nat -> length av = 2%nat -> length jv = 2%nat ->
  length ne = 2%nat -> parseInt ne = Some N ->
  let d := str "@" ++ [s1; s2; s3] ++ junk ++ str "ANSI " ++ iin ++ av ++ jv
           ++ ne ++ rest in
  let seps :=
    mkParseResult (mkHeader [s1] [s2] [s3] [] [] [] 0) [] ∅ in
  let failed :=
    mkParser (mkStringIO d 9)
      [ExpectAnsi; ReadIin; ReadAamvaVersion; ReadJurisdictionVersion;
       ReadNumEntries; ParseSubfileDesignators; ParseSubfiles] seps in
  parse (6 + fuel) (makeDLIDParser (mkStringIO d 0))
  = Raised (ParseError (str "Invalid header")) failed
  /\ parse (5 + fuel) failed
     = parse fuel
         (mkParser (mkStringIO d 26) [ParseSubfileDesignators; ParseSubfiles]
            (mkParseResult (mkHeader [s1] [s2] [s3] iin av jv N) [] ∅)).
Proof.
  intros s1 s2 s3 junk iin av jv ne N rest fuel H1 H2 H3 Hjunk Hbad
    Hiin Hav Hjv Hne HN d seps failed.
  destruct junk as [|u0 [|u1 [|u2 [|u3 [|u4 [|]]]]]]; try discriminate.
  destruct iin as [|i0 [|i1 [|i2 [|i3 [|i4 [|i5 [|]]]]]]]; try discriminate.
  destruct av as [|a0 [|a1 [|]]]; try discriminate.
  destruct jv as [|j0 [|j1 [|]]]; try discriminate.
  destruct ne as [|n0 [|n1 [|]]]; try discriminate.
  cbn [str list_ascii_of_string app] in d.
  unfold makeDLIDParser, failed. cbn [Nat.add]. split.
  - rewrite (parse_Returned _ _ _ _ _
               (mkParseFuncResult initialResult headerFuncs) (mkStringIO d 0))
      by reflexivity.
    cbn [pfr_next pfr_result headerFuncs app].
    returned_round d (@nil ascii) (str "@") (drop 1 d) idtac.
    returned_round d (take 1 d) [s1] (drop 2 d) ltac:(rewrite H1).
    returned_round d (take 2 d) [s2] (drop 3 d) ltac:(rewrite H2).
    returned_round d (take 3 d) [s3] (drop 4 d) ltac:(rewrite H3).
    erewrite parse_Threw;
      [|unfold_call;
        rewrite (read_split d (take 4 d) [u0; u1; u2; u3; u4] (drop 9 d))
          by reflexivity;
        rewrite bool_decide_eq_false_2 by exact Hbad; reflexivity].
    reflexivity.
  - returned_round d (take 9 d) (str "ANSI ") (drop 14 d) idtac.
    returned_round d (take 14 d) [i0; i1; i2; i3; i4; i5] (drop 20 d) idtac.
    returned_round d (take 20 d) [a0; a1] (drop 22 d) idtac.
    returned_round d (take 22 d) [j0; j1] (drop 24 d) idtac.
    returned_round d (take 24 d) [n0; n1] (drop 26 d) ltac:(rewrite HN).
    reflexivity.
Qed.

(** The sample header with "-----" before "ANSI ". *)
Lemma parse_again_after_invalid_header_witness :
  let d := str "@" ++ [LF; RS; CR] ++ str "-----" ++ str "ANSI "
           ++ str "636000" ++ str "11" ++ str "00" ++ str "00" ++ [] in
  let failed :=
    mkParser (mkStringIO d 9)
      [ExpectAnsi; ReadIin; ReadAamvaVersion; ReadJurisdictionVersion;
       ReadNumEntries; ParseSubfileDesignators; ParseSubfiles]
      (mkParseResult (mkHeader [LF] [RS] [CR] [] [] [] 0) [] ∅) in
  parse (6 + 4) (makeDLIDParser (mkStringIO d 0))
  = Raised (ParseError (str "Invalid header")) failed
  /\ parse (5 + 4) failed
     = parse 4
         (mkParser (mkStringIO d 26) [ParseSubfileDesignators; ParseSubfiles]
            (mkParseResult
               (mkHeader [LF] [RS] [CR] (str "636000") (str "11") (str "00") 0)
               [] ∅)).
Proof.
  refine (parse_again_after_invalid_header LF RS CR (str "-----")
            (str "636000") (str "11") (str "00") (str "00") 0 [] 4
            eq_refl eq_refl eq_refl eq_refl _ eq_refl eq_refl eq_refl eq_refl
            eq_refl).
  discriminate.
Defined.

(** *** HeaderParseError comes from the first four characters only *)

Lemma parseSubfileDesignator_Err_kind result reader e reader' :
  parseSubfileDesignator result reader = Err e reader' ->
  forall m, e <> HeaderParseError m.
Proof.
  unfold parseSubfileDesignator, SUBFILE_DESIGNATOR_SIZE. unfold_js.
  destruct (peek 10 reader) as [block r|e1 r] eqn:E.
  - destruct (read 2 _) as [type c1|e1 c1] eqn:E1;
      [|apply read_Err in E1 as (-> & _); intros [= <- <-]; discriminate].
    destruct (read 4 c1) as [off c2|e1 c2] eqn:E2;
      [|apply read_Err in E2 as (-> & _); intros [= <- <-]; discriminate].
    destruct (read 4 c2) as [len c3|e1 c3] eqn:E3;
      [|apply read_Err in E3 as (-> & _); intros [= <- <-]; discriminate].
    destruct (parseInt off); [|intros [= <- <-]; discriminate].
    destruct (parseInt len); [|intros [= <- <-]; discriminate].
    destruct (read 10 r) as [x r1|e1 r1] eqn:E4; [discriminate|].
    apply read_Err in E4 as (-> & _). intros [= <- <-]; discriminate.
  - apply peek_Err in E as (-> & _). intros [= <- <-]. discriminate.
Qed.

Lemma parseRecord_Err_kind result sfType sc e sc' :
  parseRecord result sfType sc = Err e sc' -> forall m, e <> HeaderParseError m.
Proof.
  unfold parseRecord. unfold_js.
  destruct (read 3 _) as [key copied|e1 r] eqn:E.
  - apply read_Ok in E as (-> & Hav & Hkey). simpl in *.
    destruct (negb _).
    + intros [= <- <-]. discriminate.
    + intros H. eapply parseRecord_loop_Err in H as [-> _];
        [discriminate|reflexivity|].
      simpl.
      pose proof (substring_length_le (data (sfReader sc)) (pos (sfReader sc))
                    (pos (sfReader sc) + 3)) as Hlen.
      rewrite <- Hkey in Hlen. lia.
  - apply read_Err in E as (-> & _). intros [= <- <-]. discriminate.
Qed.

(** The closures past the separators queue closures of their kind only and
    never throw HeaderParseError. *)
Lemma call_pastFront cur result reader :
  pastFront cur ->
  match call cur result reader with
  | Returned res _ => Forall pastFront (pfr_next res)
  | Threw e cur' _ => pastFront cur' /\ forall m, e <> HeaderParseError m
  end.
Proof.
  intros Hcur.
  destruct (call cur result reader) as [res r|e cur' r] eqn:Hcall.
  - destruct cur as [ | | | | | | | | | | | | |sd|sf ty recs|sf ty recs];
      try contradiction; unfold call, onParserReader, onCaptured in Hcall;
      unfold_js.
    all: try (destruct (read _ reader) as [x r1|e1 r1]; [|discriminate]).
    all: repeat match type of Hcall with
         | context [if ?b then _ else _] => destruct b
         | context [match parseInt ?x with _ => _ end] => destruct (parseInt x)
         end.
    all: try discriminate.
    all: try (injection Hcall as <- <-; cbn [pfr_next updHeader];
              repeat constructor).
    + apply Forall_forall. intros f Hf.
      apply elem_of_replicate in Hf as [-> _]. exact I.
    + destruct (parseSubfileDesignator result reader) as [r1 rd|e1 rd] eqn:E;
        [|discriminate].
      injection Hcall as <- <-.
      apply parseSubfileDesignator_Ok in E as (_ & -> & _). constructor.
    + apply Forall_forall. intros f Hf.
      apply list_elem_of_fmap in Hf as (sd & -> & _). exact I.
    + destruct (parseSubfile result sd reader) as [r1 rd|e1 rd] eqn:E;
        [|discriminate].
      injection Hcall as <- <-.
      apply parseSubfile_Ok in E as (_ & _ & [->|[sf ->]]); repeat constructor.
    + destruct (maybeParseRecord _ _ _) as [r1 sc'|e1 sc'] eqn:E;
        [|discriminate].
      injection Hcall as <- <-.
      apply maybeParseRecord_Ok in E as [->| ->]; repeat constructor.
    + destruct (parseRecord _ _ _) as [r1 sc'|e1 sc'] eqn:E; [|discriminate].
      injection Hcall as <- <-.
      apply parseRecord_Ok in E as (_ & ->). repeat constructor.
  - pose proof (call_Threw _ _ _ _ _ _ Hcall) as [-> _].
    split; [exact Hcur|].
    destruct cur as [ | | | | | | | | | | | | |sd|sf ty recs|sf ty recs];
      try contradiction; unfold call, onParserReader, onCaptured in Hcall;
      unfold_js.
    all: try (destruct (read _ reader) as [x r1|e1 r1] eqn:E;
              [|apply read_Err in E as (-> & _);
                injection Hcall as <- _; discriminate]).
    all: repeat match type of Hcall with
         | context [if ?b then _ else _] => destruct b
         | context [match parseInt ?x with _ => _ end] => destruct (parseInt x)
         end.
    all: try discriminate.
    all: try (injection Hcall as <- _; discriminate).
    + destruct (parseSubfileDesignator result reader) as [r1 rd|e1 rd] eqn:E;
        [discriminate|].
      injection Hcall as <- _.
      eapply parseSubfileDesignator_Err_kind. exact E.
    + destruct (parseSubfile result sd reader) as [r1 rd|e1 rd] eqn:E;
        [discriminate|].
      injection Hcall as <- _.
      apply parseSubfile_Err in E as (-> & _). discriminate.
    + destruct (maybeParseRecord_returns result ty (mkScan sf recs))
        as (res & sc' & Hret). rewrite Hret in Hcall. discriminate.
    + destruct (parseRecord result ty _) as [r1 sc'|e1 sc'] eqn:E;
        [discriminate|].
      injection Hcall as <- _.
      eapply parseRecord_Err_kind. exact E.
Qed.

(** A run that starts past the separators stays there and never throws
    HeaderParseError. *)
Lemma parse_pastFront fuel : forall p,
  Forall pastFront (funcs p) ->
  Forall pastFront (funcs (stateOf (parse fuel p)))
  /\ match parse fuel p with
     | Raised e _ => forall m, e <> HeaderParseError m
     | _ => True
     end.
Proof.
  induction fuel as [|fuel IH]; intros [reader fs result] Hfs;
    cbn [funcs] in Hfs.
  - simpl. destruct fs; simpl; auto.
  - destruct fs as [|cur rest]; [simpl; auto|].
    apply Forall_cons in Hfs as [Hcur Hrest].
    pose proof (call_pastFront cur result reader Hcur) as Hcall.
    simpl. destruct (call cur result reader) as [res r|e cur' r].
    + apply IH. cbn [funcs]. apply Forall_app. auto.
    + destruct Hcall as [Hcur' He]. simpl. split; [|exact He].
      constructor; assumption.
Qed.

(** The four closures of the marker and the separators: each reads one
    character; it returns, or throws EOF having read nothing, or throws
    HeaderParseError having read the character it refuses. *)
Lemma call_front cur result reader :
  cur ∈ frontFuncs ->
  let x := substring (data reader) (pos reader) (pos reader + 1) in
  match call cur result reader with
  | Returned res r' =>
      pfr_next res = [] /\ r' = mkStringIO (data reader) (pos reader + 1)
  | Threw e cur' r' =>
      cur' = cur
      /\ match e with
         | EOF => r' = reader /\ avail reader < 1
         | HeaderParseError _ =>
             r' = mkStringIO (data reader) (pos reader + 1)
             /\ 1 <= avail reader
             /\ match cur with
                | ExpectAt => x <> str "@"
                | _ => invalidSeparatorPattern x = true
                end
         | ParseError _ => False
         end
  end.
Proof.
  intros Hcur x.
  assert (cur = ExpectAt \/ separatorFunc cur) as Hcases.
  { unfold frontFuncs in Hcur. unfold separatorFunc.
    repeat (apply elem_of_cons in Hcur as [->|Hcur]; auto).
    apply elem_of_nil in Hcur. contradiction. }
  destruct Hcases as [->|Hsep].
  - unfold call, onParserReader, bind.
    destruct (read 1 reader) as [y r|e r] eqn:E.
    + apply read_Ok in E as (-> & Hav & ->). fold x.
      destruct (bool_decide (x = str "@")) eqn:Ex.
      * unfold ret. auto.
      * unfold throw. split; [reflexivity|].
        split; [reflexivity|]. split; [exact Hav|].
        apply (bool_decide_eq_false_1 _ Ex).
    + apply read_Err in E as (-> & -> & Hav). auto.
  - destruct Hsep as [->|[->| ->]];
      unfold call, onParserReader, readSeparator, bind;
      (destruct (read 1 reader) as [y r|e r] eqn:E;
       [apply read_Ok in E as (-> & Hav & ->); fold x;
        destruct (invalidSeparatorPattern x) eqn:Ex;
        [unfold throw; auto|unfold ret; auto]
       |apply read_Err in E as (-> & -> & Hav); auto]).
Qed.


Lemma parse_headerShape fuel : forall p,
  headerShape p -> outcomeShape (parse fuel p).
Proof.
  induction fuel as [|fuel IH]; intros [reader fs result] Hp.
  - simpl. destruct fs; exact Hp.
  - destruct Hp as [[Hfs Hpos]|[(k & Hk & Hfs & Hpos)|Hfs]];
      cbn [funcs Engine.reader] in *.
    + subst fs.
      rewrite (parse_Returned _ _ _ _ _
                 (mkParseFuncResult result headerFuncs) reader) by reflexivity.
      apply IH. right. left. exists 0%nat.
      split; [lia|]. split; [reflexivity|exact Hpos].
    + assert (exists cur rest,
                fs = cur :: rest /\ cur ∈ frontFuncs
                /\ match cur with ExpectAt => k = 0%nat | _ => k <> 0%nat end
                /\ ((k < 3)%nat -> rest = drop (S k) frontFuncs ++ backFuncs)
                /\ (k = 3%nat -> rest = backFuncs))
        as (cur & rest & -> & Hin & Hfirst & Hnext & Hlast).
      { destruct k as [|[|[|[|]]]]; [| | | |lia]; subst fs;
          eexists _, _; (split; [reflexivity|]);
          (split; [unfold frontFuncs; repeat constructor|]);
          (split; [lia|]); split; intros; try lia; reflexivity. }
      pose proof (call_front cur result reader Hin) as Hcall.
      cbv zeta in Hcall. simpl.
      destruct (call cur result reader) as [res r|e cur' r].
      * destruct Hcall as [Hnil ->]. rewrite Hnil. cbn [app].
        apply IH. cbn [data pos].
        destruct (decide (k = 3%nat)) as [->|Hne].
        -- right. right. cbn [funcs]. rewrite Hlast by reflexivity.
           unfold backFuncs. repeat constructor.
        -- right. left. exists (S k). cbn [funcs Engine.reader pos].
           split; [lia|]. split; [apply Hnext; lia|lia].
      * destruct Hcall as [-> He]. destruct e as [|m|m]; [| |contradiction].
        -- destruct He as [-> Hav]. cbn [outcomeShape]. split.
           ++ right. left. exists k. cbn [funcs Engine.reader].
              split; [lia|]. split; [exact Hfs|exact Hpos].
           ++ cbn [Engine.reader funcs]. unfold avail in Hav. intros. lia.
        -- destruct He as (-> & Hav & Hbad). cbn [outcomeShape].
           unfold refusedAt. cbn zeta. cbn [Engine.reader data pos].
           unfold avail in Hav. rewrite Hpos in *.
           split; [lia|]. split; [lia|].
           replace (Z.of_nat k + 1 - 1) with (Z.of_nat k) by lia.
           destruct cur; cbv beta iota in Hfirst;
             first [subst k; exact Hbad
                   |rewrite bool_decide_eq_false_2 by lia; exact Hbad].
    + pose proof (parse_pastFront (S fuel) (mkParser reader fs result) Hfs)
        as [Hst He].
      destruct (parse (S fuel) (mkParser reader fs result)) as [p'|e p'|p'];
        cbn [stateOf] in Hst.
      * right. right. exact Hst.
      * destruct e as [|m|m]; cbn [outcomeShape].
        -- split; [right; right; exact Hst|intros _; exact Hst].
        -- exfalso. exact (He m eq_refl).
        -- exact Hst.
      * right. right. exact Hst.
Qed.

Lemma feed_headerShape chunk p : headerShape p -> headerShape (feed chunk p).
Proof. intros H. exact H. Qed.

Lemma feedAll_outcomeShape fuel chunks : forall p last,
  headerShape p -> outcomeShape last ->
  outcomeShape (feedAll fuel chunks p last).
Proof.
  induction chunks as [|chunk chunks IH]; intros p last Hp Hlast.
  - exact Hlast.
  - cbn [feedAll].
    pose proof (parse_headerShape fuel (feed chunk p)
                  (feed_headerShape chunk p Hp)) as H.
    destruct (parse fuel (feed chunk p)) as [p'|e p'|p'].
    + apply IH; [exact H|exact H].
    + destruct e as [|m|m]; try exact H.
      apply IH; [apply H|exact H].
    + exact H.
Qed.

(** HeaderParseError comes from the first four characters only.  However
    the input is cut into chunks, when a [parse()] call of the caller's loop
    throws HeaderParseError the cursor stands just after one of the first
    four characters of the buffer, and that character is the one refused:
    it is not the marker when it is the first, a letter, digit or space
    otherwise.  Once the four characters have been accepted (the queue
    holds none of their closures) no call throws HeaderParseError,
    whatever is appended. *)
Theorem header_error_within_four :
  (forall fuel chunks m p',
      parseChunks fuel chunks = Raised (HeaderParseError m) p' ->
      let q := pos (reader p') in
      let x := substring (data (reader p')) (q - 1) q in
      1 <= q <= 4 /\ q <= Z.of_nat (length (data (reader p')))
      /\ if bool_decide (q = 1) then x <> str "@"
         else invalidSeparatorPattern x = true)
  /\ (forall fuel p chunk m p',
         Forall pastFront (funcs p) ->
         parse fuel (feed chunk p) <> Raised (HeaderParseError m) p').
Proof.
  split.
  - intros fuel chunks m p' Hrun.
    assert (headerShape fresh) as Hfresh by (left; split; reflexivity).
    pose proof (feedAll_outcomeShape fuel chunks fresh (parse fuel fresh)
                  Hfresh (parse_headerShape fuel fresh Hfresh)) as H.
    unfold parseChunks in Hrun. rewrite Hrun in H. exact H.
  - intros fuel p chunk m p' Hp Hrun.
    pose proof (parse_pastFront fuel (feed chunk p) Hp) as [_ He].
    rewrite Hrun in He. exact (He m eq_refl).
Qed.

(** The marker, a valid separator, then a letter typed one by one. *)
Lemma header_error_within_four_witness :
  let p' := mkParser (mkStringIO (str "@" ++ [LF] ++ str "A") 3)
              [ReadRecordSeparator; ReadSegmentTerminator; ExpectAnsi; ReadIin;
               ReadAamvaVersion; ReadJurisdictionVersion; ReadNumEntries;
               ParseSubfileDesignators; ParseSubfiles]
              (mkParseResult (mkHeader [LF] [] [] [] [] [] 0) [] ∅) in
  parseChunks 20 [str "@"; [LF]; str "A"]
  = Raised (HeaderParseError (str "Invalid separator 0x41")) p'
  /\ 1 <= 3 <= 4 /\ 3 <= Z.of_nat (length (str "@" ++ [LF] ++ str "A"))
  /\ invalidSeparatorPattern (str "A") = true.
Proof.
  intros p'.
  assert (parseChunks 20 [str "@"; [LF]; str "A"]
          = Raised (HeaderParseError (str "Invalid separator 0x41")) p') as E
    by reflexivity.
  split; [exact E|].
  exact (proj1 header_error_within_four 20%nat _ _ _ E).
Defined.

(** *** The records filed are well-formed *)

Lemma keyOK_of_pattern key :
  recordKeyPattern key = true -> (length key <= 3)%nat -> keyOK key.
Proof.
  destruct key as [|a [|b [|c [|]]]]; simpl; try discriminate; try lia.
  rewrite orb_false_r. intros H _.
  apply andb_true_iff in H as [H Hc]. apply andb_true_iff in H as [Ha Hb].
  exists a, b, c. auto.
Qed.

Lemma substring_length_nat (s : jsstring) (a n : Z) :
  0 <= n -> (length (substring s a (a + n)) <= Z.to_nat n)%nat.
Proof.
  intros Hn. pose proof (substring_length_le s a (a + n)) as H.
  replace (a + n - a) with n in H by lia. lia.
Qed.

Lemma cleanValue_snoc h v next :
  cleanValue h v -> (length next <= 1)%nat ->
  next <> segmentTerminator h -> next <> dataElementSeparator h ->
  cleanValue h (v ++ next).
Proof.
  intros Hv Hlen Ht Hs. apply Forall_app. split; [exact Hv|].
  destruct next as [|c [|]]; [constructor| |simpl in Hlen; lia].
  repeat constructor; assumption.
Qed.

Lemma recordsOK_insert h recs k v :
  recordsOK h recs -> keyOK k -> cleanValue h v ->
  recordsOK h (<[k := v]> recs).
Proof.
  intros Hrecs Hk Hv k' v' H.
  destruct (decide (k = k')) as [<-|Hne].
  - rewrite lookup_insert_eq in H. injection H as <-. auto.
  - rewrite lookup_insert_ne in H by assumption. auto.
Qed.

Lemma parseRecord_loop_clean fuel result sfType key :
  forall val copied sc res sc',
  cleanValue (header result) val ->
  parseRecord_loop fuel result sfType key val copied sc = Ok res sc' ->
  exists val',
    cleanValue (header result) val'
    /\ records sc' = <[key := val']> (records sc).
Proof.
  induction fuel as [|fuel IH]; intros val copied sc res sc' Hval; simpl.
  - discriminate.
  - unfold_js.
    destruct (peek 1 copied) as [next r|e1 r] eqn:E; [|discriminate].
    apply peek_Ok in E as (-> & _ & Hnext).
    assert (length next <= 1)%nat as Hlen.
    { rewrite Hnext. apply (substring_length_nat _ _ 1). lia. }
    destruct (bool_decide (next = segmentTerminator (header result))) eqn:Et;
      destruct (bool_decide (next = dataElementSeparator (header result)))
        eqn:Es; cbn [orb].
    4: { destruct (read 1 copied) as [x1 r1|e1 r1]; [|discriminate].
         apply IH. apply cleanValue_snoc; [assumption..| |].
         - apply (bool_decide_eq_false_1 _ Et).
         - apply (bool_decide_eq_false_1 _ Es). }
    all: simpl; destruct (read _ _) as [x1 r1|e1 r1]; [|discriminate]; simpl.
    all: try (destruct (read 1 r1) as [x2 r2|e2 r2]; [|discriminate]).
    all: intros [= <- <-]; exists val; split; [exact Hval|reflexivity].
Qed.

Lemma parseRecord_clean result sfType sc res sc' :
  recordsOK (header result) (records sc) ->
  parseRecord result sfType sc = Ok res sc' ->
  pfr_result res = result
  /\ pfr_next res = [MaybeParseRecord (sfReader sc') sfType (records sc')]
  /\ recordsOK (header result) (records sc').
Proof.
  intros Hrecs H.
  pose proof (parseRecord_Ok _ _ _ _ _ H) as [Hres Hnext].
  split; [exact Hres|]. split; [exact Hnext|].
  unfold parseRecord in H. unfold_js.
  destruct (read 3 _) as [key copied|e1 r] eqn:E; [|discriminate].
  apply read_Ok in E as (_ & _ & Hkey). cbn [data pos] in Hkey.
  destruct (recordKeyPattern key) eqn:Hpat; [|discriminate]. cbn [negb] in H.
  apply parseRecord_loop_clean in H as (val' & Hval & ->); [|constructor].
  apply recordsOK_insert; [exact Hrecs| |exact Hval].
  apply keyOK_of_pattern; [exact Hpat|].
  rewrite Hkey. apply (substring_length_nat _ _ 3). lia.
Qed.

(** A closure of the header or of the directory files nothing and queues
    closures of its kind. *)
Lemma call_preBody cur result reader res reader' :
  preBody cur -> call cur result reader = Returned res reader' ->
  Forall preBody (pfr_next res)
  /\ subfiles (pfr_result res) = subfiles result.
Proof.
  intros Hcur Hcall.
  destruct cur as [ | | | | | | | | | | | | |sd|sf ty recs|sf ty recs];
    try contradiction; unfold call, onParserReader, readSeparator in Hcall;
    unfold_js.
  all: try (destruct (read _ reader) as [x r1|e1 r1]; [|discriminate]).
  all: repeat match type of Hcall with
       | context [if ?b then _ else _] => destruct b
       | context [match parseInt ?x with _ => _ end] => destruct (parseInt x)
       end.
  all: try discriminate.
  all: try (injection Hcall as <- <-; cbn [pfr_next pfr_result updHeader];
            split; [repeat constructor|reflexivity]).
  - apply Forall_forall. intros f Hf.
    apply elem_of_replicate in Hf as [-> _]. exact I.
  - destruct (parseSubfileDesignator result reader) as [r1 rd|e1 rd] eqn:E;
      [|discriminate].
    injection Hcall as <- <-.
    apply parseSubfileDesignator_Ok in E as (_ & -> & sd & ->).
    split; [constructor|reflexivity].
Qed.

(** A closure of the subfile phase keeps the header and files and collects
    well-formed records only. *)
Lemma call_scanOK cur result reader :
  scanOK (header result) cur ->
  (forall ty recs, subfiles result !! ty = Some recs ->
                   recordsOK (header result) recs) ->
  match call cur result reader with
  | Returned res _ =>
      header (pfr_result res) = header result
      /\ Forall (scanOK (header result)) (pfr_next res)
      /\ forall ty recs, subfiles (pfr_result res) !! ty = Some recs ->
                         recordsOK (header result) recs
  | Threw _ cur' _ => scanOK (header result) cur'
  end.
Proof.
  intros Hcur Hfiled.
  destruct cur as [ | | | | | | | | | | | | |sd|sf ty recs|sf ty recs];
    try contradiction; unfold call, onParserReader, onCaptured.
  - destruct (parseSubfile result sd reader) as [r rd|e1 rd] eqn:E;
      [|exact I].
    apply parseSubfile_Ok in E as (_ & -> & Hnext).
    split; [reflexivity|]. split; [|exact Hfiled].
    destruct Hnext as [->|[sf ->]]; [constructor|].
    constructor; [|constructor].
    intros k0 v0 H. rewrite lookup_empty in H. discriminate.
  - cbn [scanOK] in Hcur.
    destruct (maybeParseRecord _ _ _) as [r sc'|e1 sc'] eqn:E.
    + apply maybeParseRecord_Ok in E as [->| ->];
        cbn [pfr_result pfr_next commitSubfile records sfReader].
      * split; [reflexivity|]. split; [constructor|].
        intros ty' recs' H. cbn [subfiles with_subfiles] in H.
        destruct (decide (ty = ty')) as [<-|Hne].
        -- rewrite lookup_insert_eq in H. injection H as <-. exact Hcur.
        -- rewrite lookup_insert_ne in H by assumption. eauto.
      * split; [reflexivity|]. split; [|exact Hfiled].
        constructor; [exact Hcur|constructor].
    + destruct (maybeParseRecord_returns result ty (mkScan sf recs))
        as (res & sc'' & Hret). congruence.
  - cbn [scanOK] in Hcur.
    destruct (parseRecord _ _ _) as [r sc'|e1 sc'] eqn:E.
    + apply parseRecord_clean in E as (-> & -> & Hok); [|exact Hcur].
      split; [reflexivity|]. split; [|exact Hfiled].
      constructor; [exact Hok|constructor].
    + apply parseRecord_Err in E as ->. exact Hcur.
Qed.

Lemma parse_recordsInv fuel : forall p,
  recordsInv p -> recordsInv (stateOf (parse fuel p)).
Proof.
  induction fuel as [|fuel IH]; intros [reader fs result] Hp.
  - simpl. destruct fs; exact Hp.
  - destruct fs as [|cur rest]; [exact Hp|].
    destruct Hp as [(l & Hfs & Hl & Hnone)|[Hfs Hfiled]];
      cbn [funcs Engine.result] in *.
    + destruct l as [|cur0 l]; cbn [app] in Hfs; injection Hfs as -> ->.
      * (* [ParseSubfiles] is called: the subfile phase starts *)
        rewrite (parse_Returned _ _ _ _ _
                   (mkParseFuncResult result
                      (map ParseSubfile (subfileDesignators result))) reader)
          by reflexivity.
        apply IH. right. cbn [funcs Engine.result pfr_next pfr_result].
        split.
        -- rewrite app_nil_r. apply Forall_forall. intros f Hf.
           apply list_elem_of_fmap in Hf as (sd & -> & _). exact I.
        -- intros ty recs H. rewrite Hnone, lookup_empty in H. discriminate.
      * apply Forall_cons in Hl as [Hcur Hl]. simpl.
        destruct (call cur0 result reader) as [res r|e cur' r] eqn:Hcall.
        -- apply call_preBody in Hcall as [Hnext Hsame]; [|exact Hcur].
           apply IH. left. exists (pfr_next res ++ l).
           cbn [funcs Engine.result].
           split; [rewrite app_assoc; reflexivity|].
           split; [apply Forall_app; auto|congruence].
        -- apply call_Threw in Hcall as [-> _].
           left. exists (cur0 :: l). cbn [stateOf funcs Engine.result].
           split; [reflexivity|]. split; [constructor; assumption|exact Hnone].
    + apply Forall_cons in Hfs as [Hcur Hrest].
      pose proof (call_scanOK cur result reader Hcur Hfiled) as Hcall.
      simpl. destruct (call cur result reader) as [res r|e cur' r].
      * destruct Hcall as (Hh & Hnext & Hfiled').
        apply IH. right. cbn [funcs Engine.result]. rewrite Hh.
        split; [apply Forall_app; auto|exact Hfiled'].
      * right. cbn [stateOf funcs Engine.result].
        split; [constructor; assumption|exact Hfiled].
Qed.

Lemma feedAll_recordsInv fuel chunks : forall p last,
  recordsInv p -> recordsInv (stateOf last) ->
  recordsInv (stateOf (feedAll fuel chunks p last)).
Proof.
  induction chunks as [|chunk chunks IH]; intros p last Hp Hlast.
  - exact Hlast.
  - cbn [feedAll].
    pose proof (parse_recordsInv fuel (feed chunk p) Hp) as H.
    destruct (parse fuel (feed chunk p)) as [p'|e p'|p'].
    + apply IH; exact H.
    + destruct e as [|m|m]; try exact H. apply IH; exact H.
    + exact H.
Qed.

(** The records filed are well-formed.  However the input is cut into
    chunks and however the caller's loop ends, every record found in the
    subfiles map of the result has a key of exactly three upper-case
    letters and a value that holds neither the data element separator nor
    the segment terminator of the header. *)
Theorem parse_records_well_formed :
  forall fuel chunks ty recs k v,
  let r := result (stateOf (parseChunks fuel chunks)) in
  subfiles r !! ty = Some recs -> recs !! k = Some v ->
  keyOK k
  /\ Forall (fun c => [c] <> dataElementSeparator (header r)
                      /\ [c] <> segmentTerminator (header r)) v.
Proof.
  intros fuel chunks ty recs k v r Hty Hk.
  assert (recordsInv fresh) as Hfresh.
  { left. exists [ParseHeader; ParseSubfileDesignators].
    split; [reflexivity|]. split; [repeat constructor|reflexivity]. }
  pose proof (feedAll_recordsInv fuel chunks fresh (parse fuel fresh)
                Hfresh (parse_recordsInv fuel fresh Hfresh)) as H.
  fold (parseChunks fuel chunks) in H.
  destruct H as [(l & _ & _ & Hnone)|[_ Hfiled]].
  - unfold r in Hty. rewrite Hnone, lookup_empty in Hty. discriminate.
  - exact (Hfiled ty recs Hty k v Hk).
Qed.

(** The document with one "DL" subfile, in two chunks. *)
Lemma parse_records_well_formed_witness :
  let d := str "@" ++ [LF; RS; CR] ++ str "ANSI 636000110001"
           ++ str "DL00310025" ++ sampleBody in
  let r := result (stateOf (parseChunks 100 [take 40 d; drop 40 d])) in
  subfiles r !! str "DL" = Some sampleRecords
  /\ sampleRecords !! str "DAQ" = Some (str "T64235789")
  /\ keyOK (str "DAQ")
  /\ Forall (fun c => [c] <> dataElementSeparator (header r)
                      /\ [c] <> segmentTerminator (header r))
            (str "T64235789").
Proof.
  intros d r.
  assert (subfiles r !! str "DL" = Some sampleRecords) as H1
    by (apply (bool_decide_unpack _); vm_compute; exact I).
  assert (sampleRecords !! str "DAQ" = Some (str "T64235789")) as H2
    by (apply (bool_decide_unpack _); vm_compute; exact I).
  split; [exact H1|]. split; [exact H2|].
  exact (parse_records_well_formed 100 [take 40 d; drop 40 d] (str "DL")
           sampleRecords (str "DAQ") (str "T64235789") H1 H2).
Defined.

End EngineProps.

(** ** The append-driven parser *)
Module MutableProps.

(** *** After a validation failure *)

Lemma append_failed fuel d p e :
  Mutable.error p = Some e -> Mutable.append fuel d p = Some (false, p).
Proof.
  intros He. unfold Mutable.append. rewrite He.
  rewrite bool_decide_eq_true_2 by eauto. reflexivity.
Qed.

Lemma appendAll_failed fuel chunks p e :
  Mutable.error p = Some e ->
  Mutable.appendAll fuel chunks p
  = Some (replicate (length chunks) false, p).
Proof.
  intros He. induction chunks as [|chunk chunks IH]; simpl; [reflexivity|].
  rewrite (append_failed fuel chunk p e He), IH. reflexivity.
Qed.

Lemma keepsError_bind {A B} (m : M Mutable.Parser A)
    (k : A -> M Mutable.Parser B) :
  Mutable.keepsError m -> (forall a, Mutable.keepsError (k a)) -> Mutable.keepsError (bind m k).
Proof.
  intros Hm Hk p. unfold bind. specialize (Hm p).
  destruct (m p) as [a p1|e p1]; [|assumption].
  specialize (Hk a p1). destruct (k a p1); congruence.
Qed.

Lemma keepsError_onReader {A} (m : M StringIO A) :
  Mutable.keepsError (Mutable.onReader m).
Proof. intros p. unfold Mutable.onReader. destruct (m _); reflexivity. Qed.

Lemma keepsError_modify f :
  (forall p, Mutable.error (f p) = Mutable.error p) ->
  Mutable.keepsError (Mutable.modify f).
Proof. intros Hf p. apply Hf. Qed.

Lemma keepsError_ret {A} (a : A) : Mutable.keepsError (ret a).
Proof. intros p. reflexivity. Qed.

Lemma keepsError_throw {A} e : Mutable.keepsError (@throw _ A e).
Proof. intros p. reflexivity. Qed.

Lemma keepsError_get : Mutable.keepsError get.
Proof. intros p. reflexivity. Qed.

Lemma keepsError_onLocal {T A} (obj : T) (m : M T A) :
  Mutable.keepsError (onLocal obj m).
Proof. intros p. unfold onLocal. destruct (m obj); reflexivity. Qed.

Lemma keepsError_runStep step : Mutable.keepsError (Mutable.runStep step).
Proof.
  destruct step; unfold Mutable.runStep, Mutable.setHeader;
    repeat first
      [ apply keepsError_bind; [|intros ?]
      | apply keepsError_onReader
      | apply keepsError_modify; intros ?; reflexivity
      | apply keepsError_ret
      | apply keepsError_throw
      | apply keepsError_get
      | apply keepsError_onLocal
      | match goal with
        | |- Mutable.keepsError (if ?b then _ else _) => destruct b
        | |- Mutable.keepsError (match ?x with Some _ => _ | None => _ end) =>
            destruct x
        end ].
Qed.

Lemma keepsError_updateParseOnce : Mutable.keepsError Mutable.updateParseOnce.
Proof.
  unfold Mutable.updateParseOnce.
  apply keepsError_bind; [apply keepsError_get|]. intros p.
  destruct (Mutable.steps p).
  - apply keepsError_modify. reflexivity.
  - apply keepsError_bind; [apply keepsError_runStep|]. intros _.
    apply keepsError_modify. reflexivity.
Qed.

Lemma updateParse_loop_error fuel : forall p r,
  Mutable.updateParse_loop fuel p = Some r ->
  match r with
  | Ok _ p' | Err _ p' => Mutable.error p' = Mutable.error p
  end.
Proof.
  induction fuel as [|fuel IH]; intros p r; simpl.
  - destruct (_ && _); [discriminate|]. intros [= <-]. reflexivity.
  - destruct (_ && _); [|intros [= <-]; reflexivity].
    pose proof (keepsError_updateParseOnce p) as H.
    destruct (Mutable.updateParseOnce p) as [u p1|e p1].
    + intros Hr. apply IH in Hr. destruct r; congruence.
    + intros [= <-]. assumption.
Qed.

(** C7 (terminal failed state).  (1) [error] is set exactly when a step
    throws something other than EOF during an [append], and that call
    returns [false].  (2) On a parser whose [error] is set, [append]
    returns [false] and leaves the whole parser object as it is: header,
    designators, subfiles, [done], the cursor and the buffer itself.  (3) So
    does every call of any later sequence of calls. *)
Theorem C7_terminal_failed_state :
  (forall fuel d p waiting p',
      Mutable.error p = None ->
      Mutable.append fuel d p = Some (waiting, p') ->
      forall e,
        Mutable.error p' = Some e <->
        (e <> EOF /\ waiting = false
         /\ exists p1,
              Mutable.updateParse_loop fuel (Mutable.grow d p)
              = Some (Err e p1)
              /\ p' = Mutable.with_error (Some e) p1))
  /\ (forall p e fuel d,
         Mutable.error p = Some e ->
         Mutable.append fuel d p = Some (false, p))
  /\ (forall p e fuel chunks,
         Mutable.error p = Some e ->
         Mutable.appendAll fuel chunks p
         = Some (replicate (length chunks) false, p)).
Proof.
  split; [|split].
  - intros fuel d p waiting p' Hnone Happ e.
    unfold Mutable.append in Happ. rewrite Hnone in Happ.
    rewrite bool_decide_eq_false_2 in Happ by (intros [? [=]]).
    simpl in Happ.
    destruct (Mutable.done p) eqn:Hdone.
    { injection Happ as <- <-. rewrite Hnone. split; [discriminate|].
      intros (_ & _ & p1 & Hloop & _).
      destruct fuel; simpl in Hloop; rewrite Hdone in Hloop; discriminate. }
    unfold Mutable.updateParse in Happ. simpl in Happ. rewrite Hnone in Happ.
    rewrite bool_decide_eq_false_2 in Happ by (intros [? [=]]).
    destruct (Mutable.updateParse_loop _ _) as [[u p1|e1 p1]|] eqn:Hloop;
      [| |discriminate].
    + injection Happ as <- <-.
      apply updateParse_loop_error in Hloop. simpl in Hloop.
      rewrite Hloop, Hnone. split; [discriminate|].
      intros (_ & _ & p2 & [=] & _).
    + apply updateParse_loop_error in Hloop as Herr. simpl in Herr.
      destruct e1; simpl in Happ; injection Happ as <- <-.
      * rewrite Herr, Hnone. split; [discriminate|].
        intros (_ & [=] & _).
      * simpl. split.
        -- intros [= <-]. split; [discriminate|]. split; [reflexivity|]. eauto.
        -- intros (_ & _ & p2 & [= <- <-] & _). reflexivity.
      * simpl. split.
        -- intros [= <-]. split; [discriminate|]. split; [reflexivity|]. eauto.
        -- intros (_ & _ & p2 & [= <- <-] & _). reflexivity.
  - intros p e fuel d He. apply (append_failed fuel d p e He).
  - intros p e fuel chunks He. apply (appendAll_failed fuel chunks p e He).
Qed.

(** A parser that met a space where the data element separator should be;
    more input then arrives. *)
Lemma C7_terminal_failed_state_witness :
  let failed :=
    Mutable.mkParser (mkStringIO (str "@ ") 2) (Some (ParseError []))
      emptyHeader [] ∅ false
      (tail Mutable.initialSteps) in
  Mutable.append 100 (str "@ ") (Mutable.makeDLIDParser [])
  = Some (false, failed)
  /\ Mutable.append 100 (str "ANSI 636000110001") failed = Some (false, failed).
Proof.
  intros failed. split; [reflexivity|].
  apply (proj1 (proj2 C7_terminal_failed_state) failed (ParseError [])).
  reflexivity.
Defined.

(** *** Feeding the input in chunks *)

Ltac unfold_mutable :=
  unfold Mutable.runStep, Mutable.setHeader, Mutable.onReader, Mutable.modify,
    Mutable.readSeparator, Mutable.parseSubfileDesignator,
    Mutable.parseSubfile, SUBFILE_DESIGNATOR_SIZE, bind, ret, throw, get,
    onLocal.

Ltac grow_reader_read p e :=
  lazymatch goal with
  | |- context [read ?n (Mutable.reader p)] =>
      let x := fresh "x" in let r := fresh "r" in let E := fresh "E" in
      let e1 := fresh "e1" in
      destruct (read n (Mutable.reader p)) as [x r|e1 r] eqn:E;
      [rewrite (EngineProps.read_append n (Mutable.reader p) e x r)
         by first [exact E|lia];
       apply read_Ok in E as (-> & _ & _)
      |apply read_Err in E as (-> & -> & _); left; split; [reflexivity|];
       destruct p; reflexivity]
  end.

(** A step on a longer buffer: what it returned or threw stays, except
    that an EOF may go away; and a step that throws EOF has changed
    nothing. *)
Lemma runStep_grow step p e :
  (forall sd, step = Mutable.SubfileStep sd -> 0 <= sd_length sd) ->
  match Mutable.runStep step p with
  | Ok u p' => Mutable.runStep step (Mutable.grow e p) = Ok u (Mutable.grow e p')
  | Err ex p' =>
      (ex = EOF /\ p' = p)
      \/ Mutable.runStep step (Mutable.grow e p) = Err ex (Mutable.grow e p')
  end.
Proof.
  intros Hlen.
  destruct step as [ | | | | | | | | | | |sd]; unfold_mutable;
    cbn [Mutable.grow Mutable.reader Mutable.with_reader Mutable.header
         Mutable.steps Mutable.subfileDesignators Mutable.subfiles].
  all: try grow_reader_read p e.
  all: repeat match goal with
       | |- context [if ?b then _ else _] => destruct b
       | |- context [match parseInt ?x with _ => _ end] => destruct (parseInt x)
       end.
  all: try reflexivity.
  all: try (right; reflexivity).
  - (* designator *)
    destruct (peek 10 (Mutable.reader p)) as [block r|e1 r] eqn:E.
    + rewrite (EngineProps.peek_append 10 (Mutable.reader p) e block r)
        by first [exact E|lia].
      apply peek_Ok in E as (-> & Hav & _).
      destruct (read 2 _) as [type c1|e1 c1] eqn:E1.
      2:{ apply read_Err in E1 as (-> & _). left. split; [reflexivity|].
          destruct p; reflexivity. }
      destruct (read 4 c1) as [off c2|e1 c2] eqn:E2.
      2:{ apply read_Err in E2 as (-> & _). left. split; [reflexivity|].
          destruct p; reflexivity. }
      destruct (read 4 c2) as [len c3|e1 c3] eqn:E3.
      2:{ apply read_Err in E3 as (-> & _). left. split; [reflexivity|].
          destruct p; reflexivity. }
      destruct (parseInt off); [|right; reflexivity].
      destruct (parseInt len); [|right; reflexivity].
      rewrite (read_enough 10 (Mutable.reader p)) by assumption.
      rewrite (read_enough 10 (append e (Mutable.reader p)))
        by (unfold avail in *; simpl; rewrite length_app; lia).
      reflexivity.
    + apply peek_Err in E as (-> & -> & _). left. split; [reflexivity|].
      destruct p; reflexivity.
  - (* recognized subfile *)
    simpl.
    destruct (peek _ _) as [snapshot r|e1 r] eqn:E.
    + apply (EngineProps.peek_append _ _ e) in E; [|eauto]. unfold append in E at 1.
      simpl in E. rewrite E.
      destruct (Mutable.scanSubfile _ _) as [recs sf|e1 sf] eqn:Es;
        [reflexivity|].
      destruct (decide (e1 = EOF)) as [->|Hne]; [|right; reflexivity].
      left. split; [reflexivity|]. destruct p; reflexivity.
    + apply peek_Err in E as (-> & _). left. split; [reflexivity|].
      destruct p; reflexivity.
  - (* other subfile *)
    simpl.
    destruct (peek _ _) as [snapshot r|e1 r] eqn:E.
    + apply (EngineProps.peek_append _ _ e) in E; [|eauto]. unfold append in E at 1.
      simpl in E. rewrite E. reflexivity.
    + apply peek_Err in E as (-> & _). left. split; [reflexivity|].
      destruct p; reflexivity.
Qed.

(** What a step that returns does to the designator list and the queue. *)
Lemma runStep_Ok_designators step p u p' :
  Mutable.runStep step p = Ok u p' ->
  Mutable.subfileDesignators p `prefix_of` Mutable.subfileDesignators p'
  /\ Mutable.steps p `prefix_of` Mutable.steps p'
  /\ (forall sd, Mutable.SubfileStep sd ∈ Mutable.steps p' ->
                 Mutable.SubfileStep sd ∈ Mutable.steps p
                 \/ sd ∈ Mutable.subfileDesignators p')
  /\ Mutable.done p' = Mutable.done p.
Proof.
  assert (forall q : Mutable.Parser,
             Mutable.subfileDesignators q = Mutable.subfileDesignators p ->
             Mutable.steps q = Mutable.steps p ->
             Mutable.done q = Mutable.done p ->
             Ok u q = Ok u p' ->
             Mutable.subfileDesignators p `prefix_of` Mutable.subfileDesignators p'
             /\ Mutable.steps p `prefix_of` Mutable.steps p'
             /\ (forall sd, Mutable.SubfileStep sd ∈ Mutable.steps p' ->
                            Mutable.SubfileStep sd ∈ Mutable.steps p
                            \/ sd ∈ Mutable.subfileDesignators p')
             /\ Mutable.done p' = Mutable.done p) as Hsame.
  { intros q H1 H2 H3 [= <-]. rewrite H1, H2, H3. auto. }
  destruct step as [ | | | | | | | | | | |sd]; unfold_mutable.
  all: try (destruct (read _ (Mutable.reader p)) as [x r|e1 r]; [|discriminate]).
  all: repeat match goal with
       | |- context [if ?b then _ else _] => destruct b
       | |- context [match parseInt ?x with _ => _ end] => destruct (parseInt x)
       end.
  all: try discriminate.
  all: try (destruct u; apply Hsame; reflexivity).
  - (* push designator steps *)
    intros [= <- <-]. simpl. split; [reflexivity|].
    split; [apply prefix_app_r; reflexivity|].
    split; [|reflexivity]. intros sd H.
    apply elem_of_app in H as [H|H]; [auto|].
    apply elem_of_replicate in H as [[=] _].
  - (* designator *)
    destruct (peek 10 _) as [block r|e1 r]; [|discriminate].
    destruct (read 2 _) as [type c1|e1 c1]; [|discriminate].
    destruct (read 4 c1) as [off c2|e1 c2]; [|discriminate].
    destruct (read 4 c2) as [len c3|e1 c3]; [|discriminate].
    destruct (parseInt off); [|discriminate].
    destruct (parseInt len); [|discriminate].
    destruct (read 10 _) as [x r1|e1 r1]; [|discriminate].
    intros [= <- <-]. simpl.
    split; [apply prefix_app_r; reflexivity|].
    split; [apply prefix_app_r; reflexivity|].
    split; [|reflexivity]. intros sd H.
    apply elem_of_app in H as [H|H]; [auto|].
    apply list_elem_of_singleton in H as [= ->]. right.
    apply elem_of_app. right. apply list_elem_of_singleton. reflexivity.
  - simpl. destruct (peek _ _) as [snapshot r|e1 r]; [|discriminate].
    destruct (Mutable.scanSubfile _ _) as [recs sf|e1 sf]; [|discriminate].
    destruct u. apply Hsame; reflexivity.
  - simpl. destruct (peek _ _) as [snapshot r|e1 r]; [|discriminate].
    destruct u. apply Hsame; reflexivity.
Qed.

Lemma updateParseOnce_grow p e :
  (forall sd, head (Mutable.steps p) = Some (Mutable.SubfileStep sd) ->
              0 <= sd_length sd) ->
  match Mutable.updateParseOnce p with
  | Ok u p' =>
      Mutable.updateParseOnce (Mutable.grow e p) = Ok u (Mutable.grow e p')
  | Err ex p' =>
      (ex = EOF /\ p' = p)
      \/ Mutable.updateParseOnce (Mutable.grow e p)
         = Err ex (Mutable.grow e p')
  end.
Proof.
  intros Hlen. unfold Mutable.updateParseOnce, bind, get.
  change (Mutable.steps (Mutable.grow e p)) with (Mutable.steps p).
  destruct (Mutable.steps p) as [|step rest] eqn:Es.
  - reflexivity.
  - pose proof (runStep_grow step p e) as H.
    destruct (Mutable.runStep step p) as [u p1|ex p1].
    + rewrite H; [reflexivity|]. intros sd ->. apply Hlen. reflexivity.
    + destruct H as [H|H]; [intros sd ->; apply Hlen; reflexivity|auto|].
      right. rewrite H. reflexivity.
Qed.

Lemma updateParseOnce_Ok p u p' :
  Mutable.queued_known p ->
  Mutable.updateParseOnce p = Ok u p' ->
  Mutable.subfileDesignators p `prefix_of` Mutable.subfileDesignators p'
  /\ Mutable.queued_known p'.
Proof.
  intros Hq. unfold Mutable.updateParseOnce, bind, get.
  destruct (Mutable.steps p) as [|step rest] eqn:Es.
  - intros [= <- <-]. split; [reflexivity|]. intros sd H. simpl in H.
    rewrite Es in H. inversion H.
  - destruct (Mutable.runStep step p) as [u1 p1|ex p1] eqn:E; [|discriminate].
    intros [= <- <-].
    apply runStep_Ok_designators in E as (Hd & Hs & Hk & _).
    split; [exact Hd|]. intros sd H. simpl in H.
    assert (Mutable.SubfileStep sd ∈ Mutable.steps p1) as Hin.
    { destruct (Mutable.steps p1); [inversion H|]. simpl in H.
      apply elem_of_cons. auto. }
    simpl. destruct (Hk sd Hin) as [Hold|Hnew]; [|assumption].
    eapply elem_of_prefix; [|exact Hd]. apply Hq. assumption.
Qed.

(** The loop of updateParse: [None] only for lack of rounds. *)
Lemma updateParse_loop_fuel_mono fuel : forall p r fuel',
  Mutable.updateParse_loop fuel p = Some r -> (fuel <= fuel')%nat ->
  Mutable.updateParse_loop fuel' p = Some r.
Proof.
  induction fuel as [|fuel IH]; intros p r fuel' H Hle.
  - simpl in H. destruct (_ && _) eqn:Ec; [discriminate|].
    destruct fuel'; simpl; rewrite Ec; assumption.
  - destruct fuel' as [|fuel']; [lia|]. simpl in H |- *.
    destruct (_ && _); [|assumption].
    destruct (Mutable.updateParseOnce p) as [u p1|e p1]; [|assumption].
    apply (IH p1 r fuel' H). lia.
Qed.

Lemma updateParse_loop_designators fuel : forall p pR,
  Mutable.queued_known p ->
  Mutable.updateParse_loop fuel p = Some (Ok tt pR) ->
  Mutable.subfileDesignators p `prefix_of` Mutable.subfileDesignators pR.
Proof.
  induction fuel as [|fuel IH]; intros p pR Hq; simpl.
  - destruct (_ && _); [discriminate|]. intros [= <-]. reflexivity.
  - destruct (_ && _); [|intros [= <-]; reflexivity].
    destruct (Mutable.updateParseOnce p) as [u p1|e p1] eqn:E; [|discriminate].
    apply updateParseOnce_Ok in E as [Hd Hq1]; [|assumption].
    intros H. apply IH in H; [|assumption]. etransitivity; eassumption.
Qed.

Lemma grow_nil p : Mutable.grow [] p = p.
Proof.
  destruct p as [[d q] ? ? ? ? ? ?]. unfold Mutable.grow, append. simpl.
  rewrite app_nil_r. reflexivity.
Qed.

Lemma grow_grow a b p :
  Mutable.grow b (Mutable.grow a p) = Mutable.grow (a ++ b) p.
Proof.
  destruct p as [[d q] ? ? ? ? ? ?]. unfold Mutable.grow, append. simpl.
  rewrite app_assoc. reflexivity.
Qed.

Lemma updateParse_loop_S fuel p :
  Mutable.updateParse_loop (S fuel) p
  = if negb (Mutable.done p) && negb (bool_decide (is_Some (Mutable.error p)))
    then match Mutable.updateParseOnce p with
         | Ok _ p' => Mutable.updateParse_loop fuel p'
         | Err e p' => Some (Err e p')
         end
    else Some (Ok tt p).
Proof. reflexivity. Qed.

(** If the loop completes once [e] has been appended, then before that it
    either completes in the same way or stops on EOF in a state from which
    [e] leads to the same completion. *)
Lemma updateParse_loop_resume fuel : forall p e pR,
  Mutable.queued_known p -> Mutable.lengths_nonneg pR ->
  Mutable.updateParse_loop fuel (Mutable.grow e p) = Some (Ok tt pR) ->
  (exists p', Mutable.updateParse_loop fuel p = Some (Ok tt p')
              /\ Mutable.grow e p' = pR)
  \/ (exists p', Mutable.updateParse_loop fuel p = Some (Err EOF p')
                 /\ Mutable.queued_known p'
                 /\ Mutable.updateParse_loop fuel p' = Some (Err EOF p')
                 /\ Mutable.updateParse_loop fuel (Mutable.grow e p')
                    = Some (Ok tt pR)).
Proof.
  induction fuel as [|fuel IH]; intros p e pR Hq Hlen Hrun.
  - simpl in *. change (Mutable.done (Mutable.grow e p)) with (Mutable.done p) in Hrun.
    change (Mutable.error (Mutable.grow e p)) with (Mutable.error p) in Hrun.
    destruct (_ && _); [discriminate|]. injection Hrun as <-. left. eauto.
  - pose proof (updateParse_loop_designators _ (Mutable.grow e p) _ Hq Hrun)
      as Hpre.
    change (Mutable.subfileDesignators (Mutable.grow e p))
      with (Mutable.subfileDesignators p) in Hpre.
    pose proof Hrun as Hrun0.
    rewrite updateParse_loop_S in Hrun.
    change (Mutable.done (Mutable.grow e p)) with (Mutable.done p) in Hrun.
    change (Mutable.error (Mutable.grow e p)) with (Mutable.error p) in Hrun.
    destruct (negb (Mutable.done p) && _) eqn:Ec.
    2:{ injection Hrun as <-. left. exists p.
        rewrite updateParse_loop_S, Ec. auto. }
    assert (forall sd, head (Mutable.steps p) = Some (Mutable.SubfileStep sd) ->
                       0 <= sd_length sd) as Hhead.
    { intros sd Hsd. apply Hlen. eapply elem_of_prefix; [|exact Hpre].
      apply (Hq sd). destruct (Mutable.steps p); [discriminate|].
      injection Hsd as ->. apply elem_of_cons. auto. }
    pose proof (updateParseOnce_grow p e Hhead) as Hg.
    destruct (Mutable.updateParseOnce p) as [u p1|ex p1] eqn:E.
    + rewrite Hg in Hrun.
      destruct (updateParseOnce_Ok _ _ _ Hq E) as [_ Hq1].
      destruct (IH p1 e pR Hq1 Hlen Hrun)
        as [(p' & H1 & H2)|(p' & H1 & H2 & H3 & H4)].
      * left. exists p'. rewrite updateParse_loop_S, Ec, E. auto.
      * right. exists p'. rewrite updateParse_loop_S, Ec, E.
        split; [assumption|]. split; [assumption|].
        split; eapply updateParse_loop_fuel_mono; eauto.
    + destruct Hg as [[-> ->]|Hg].
      * right. exists p. rewrite updateParse_loop_S, Ec, E. auto.
      * rewrite Hg in Hrun. discriminate.
Qed.

Lemma updateParse_loop_Ok fuel : forall p p',
  Mutable.updateParse_loop fuel p = Some (Ok tt p') ->
  Mutable.done p' = true \/ is_Some (Mutable.error p').
Proof.
  induction fuel as [|fuel IH]; intros p p'.
  - simpl. destruct (Mutable.done p) eqn:Ed; simpl.
    + intros [= <-]. auto.
    + case_bool_decide; simpl; [|discriminate]. intros [= <-]. auto.
  - rewrite updateParse_loop_S.
    destruct (Mutable.done p) eqn:Ed; simpl.
    + intros [= <-]. auto.
    + case_bool_decide; simpl.
      * intros [= <-]. auto.
      * destruct (Mutable.updateParseOnce p); [apply IH|discriminate].
Qed.

Lemma updateParse_loop_Err fuel p e p' :
  Mutable.updateParse_loop fuel p = Some (Err e p') ->
  Mutable.done p = false /\ Mutable.error p = None.
Proof.
  destruct fuel; [simpl|rewrite updateParse_loop_S];
    destruct (Mutable.done p); simpl; try discriminate;
    case_bool_decide as He; simpl; try discriminate; intros _;
    (split; [reflexivity|]); destruct (Mutable.error p); [|reflexivity];
    exfalso; apply He; eauto.
Qed.

Lemma append_done fuel d p :
  Mutable.done p = true -> Mutable.append fuel d p = Some (false, p).
Proof.
  intros Hd. unfold Mutable.append. rewrite Hd, orb_true_r. reflexivity.
Qed.

Lemma appendAll_done fuel chunks p :
  Mutable.done p = true ->
  Mutable.appendAll fuel chunks p
  = Some (replicate (length chunks) false, p).
Proof.
  intros Hd. induction chunks as [|chunk chunks IH]; simpl; [reflexivity|].
  rewrite (append_done fuel chunk p Hd), IH. reflexivity.
Qed.

Lemma append_running fuel d p :
  Mutable.done p = false -> Mutable.error p = None ->
  Mutable.append fuel d p
  = match Mutable.updateParse_loop fuel (Mutable.grow d p) with
    | None => None
    | Some (Ok _ p') => Some (false, p')
    | Some (Err e p') =>
        if isEOF e then Some (true, p')
        else Some (false, Mutable.with_error (Some e) p')
    end.
Proof.
  intros Hd He. unfold Mutable.append, Mutable.updateParse.
  change (Mutable.error (Mutable.grow d p)) with (Mutable.error p).
  rewrite Hd, He. rewrite bool_decide_eq_false_2 by (intros [? ?]; discriminate).
  reflexivity.
Qed.

Lemma appendAll_cons fuel chunk chunks p :
  Mutable.appendAll fuel (chunk :: chunks) p
  = match Mutable.append fuel chunk p with
    | None => None
    | Some (waiting, p') =>
        match Mutable.appendAll fuel chunks p' with
        | None => None
        | Some (rest, p'') => Some (waiting :: rest, p'')
        end
    end.
Proof. reflexivity. Qed.

(** The chunks of an input that completes: the appends before the completing
    one return true (waiting), the completing one and all later ones return
    false, and the parser ends with the state of the single append, up to
    the part of the buffer that arrived after completion. *)
Lemma appendAll_resume fuel chunks : forall chunk p pR,
  Mutable.done p = false -> Mutable.error p = None ->
  Mutable.queued_known p -> Mutable.lengths_nonneg pR ->
  Mutable.error pR = None ->
  Mutable.updateParse_loop fuel (Mutable.grow (chunk ++ concat chunks) p)
  = Some (Ok tt pR) ->
  exists n p',
    Mutable.appendAll fuel (chunk :: chunks) p
    = Some (replicate n true ++ replicate (S (length chunks) - n) false, p')
    /\ (n <= length chunks)%nat
    /\ Mutable.header p' = Mutable.header pR
    /\ Mutable.subfileDesignators p' = Mutable.subfileDesignators pR
    /\ Mutable.subfiles p' = Mutable.subfiles pR
    /\ Mutable.done p' = true /\ Mutable.error p' = None.
Proof.
  induction chunks as [|next chunks IH]; intros chunk p pR Hd He Hq Hlen HeR Hrun.
  - simpl in Hrun. rewrite app_nil_r in Hrun.
    exists 0%nat, pR. rewrite appendAll_cons.
    rewrite append_running, Hrun by assumption. cbn [Mutable.appendAll].
    destruct (updateParse_loop_Ok _ _ _ Hrun) as [HdR|[? HeR']];
      [|congruence].
    repeat split; auto.
  - rewrite <- grow_grow in Hrun.
    destruct (updateParse_loop_resume fuel (Mutable.grow chunk p)
                (concat (next :: chunks)) pR Hq Hlen Hrun)
      as [(p1 & H1 & <-)|(p1 & H1 & Hq1 & H2 & H3)].
    + exists 0%nat, p1. rewrite appendAll_cons.
      rewrite append_running, H1 by assumption.
      destruct (updateParse_loop_Ok _ _ _ H1) as [Hd1|[? He1]].
      2:{ change (Mutable.error (Mutable.grow (concat (next :: chunks)) p1))
            with (Mutable.error p1) in HeR. congruence. }
      rewrite (appendAll_done fuel (next :: chunks) p1 Hd1).
      repeat split; auto; lia.
    + destruct (updateParse_loop_Err _ _ _ _ H2) as [Hd1 He1].
      simpl in H3.
      destruct (IH next p1 pR Hd1 He1 Hq1 Hlen HeR H3)
        as (n & p' & Hall & Hn & Hrest).
      exists (S n), p'. rewrite appendAll_cons.
      rewrite append_running, H1 by assumption. cbn [isEOF].
      rewrite Hall.
      split; [reflexivity|]. split; [simpl; lia|exact Hrest].
Qed.

(** The append-driven parser: when the input given in one [append] completes
    without error and no designator has a negative length, the same input
    given as any sequence of chunks completes with the same header,
    designators and subfiles.  [n] appends return true (waiting for more),
    the others false. *)
Theorem append_resumption_nonneg_lengths :
  forall fuel chunk chunks pR,
  Mutable.append fuel (chunk ++ concat chunks) (Mutable.makeDLIDParser [])
  = Some (false, pR) ->
  Mutable.error pR = None ->
  Mutable.lengths_nonneg pR ->
  exists n p',
    Mutable.appendAll fuel (chunk :: chunks) (Mutable.makeDLIDParser [])
    = Some (replicate n true ++ replicate (S (length chunks) - n) false, p')
    /\ (n <= length chunks)%nat
    /\ Mutable.header p' = Mutable.header pR
    /\ Mutable.subfileDesignators p' = Mutable.subfileDesignators pR
    /\ Mutable.subfiles p' = Mutable.subfiles pR
    /\ Mutable.done p' = true /\ Mutable.error p' = None.
Proof.
  intros fuel chunk chunks pR Hrun HeR Hlen.
  rewrite append_running in Hrun by reflexivity.
  apply appendAll_resume; try assumption; try reflexivity.
  - intros sd Hsd. simpl in Hsd. unfold Mutable.initialSteps in Hsd.
    repeat (apply elem_of_cons in Hsd as [Hsd|Hsd]; [discriminate|]).
    apply elem_of_nil in Hsd. contradiction.
  - destruct (Mutable.updateParse_loop _ _) as [[[] p1|ex p1]|];
      [|destruct (isEOF ex)|]; try discriminate.
    + injection Hrun as <-. reflexivity.
    + injection Hrun as <-. discriminate.
Qed.

Lemma append_resumption_nonneg_lengths_witness :
  let input := Engine.leadingSeparatorInput in
  exists n p',
    Mutable.appendAll 100
      [take 20 input; take 30 (drop 20 input); drop 50 input]
      (Mutable.makeDLIDParser [])
    = Some (replicate n true ++ replicate (3 - n) false, p')
    /\ Mutable.subfiles p' = {[ str "DL" := Engine.sampleRecords ]}.
Proof.
  intros input.
  edestruct (append_resumption_nonneg_lengths 100
               (take 20 input) [take 30 (drop 20 input); drop 50 input])
    as (n & p' & Hall & _ & _ & _ & Hsub & _).
  - vm_compute. reflexivity.
  - reflexivity.
  - intros sd Hsd. simpl in Hsd.
    apply list_elem_of_singleton in Hsd as ->. simpl. lia.
  - exists n, p'. split; [exact Hall|]. rewrite Hsub.
    apply (bool_decide_unpack _). vm_compute. exact I.
Defined.

(** *** The scan of well-formed subfile text *)

(** The value loop of [parseRecord]. *)
Lemma scan_value_loop header sep term d pre k dl post r :
  dataElementSeparator header = [sep] ->
  segmentTerminator header = [term] ->
  dl = sep \/ dl = term ->
  forall v2 v1 fuel,
  d = pre ++ k ++ v1 ++ v2 ++ dl :: post ->
  (length v2 < fuel)%nat ->
  sep ∉ v2 -> term ∉ v2 ->
  Mutable.parseRecord_loop fuel header v1
    (mkStringIO d (Z.of_nat (length pre + length k + length v1))) r
  = Ok (v1 ++ v2,
        mkStringIO d (Z.of_nat (length pre + length k + length v1 + length v2)))
       r.
Proof.
  intros Hsep Hterm Hdl.
  induction v2 as [|c v2 IH]; intros v1 fuel Hd Hfuel Hns Hnt;
    (destruct fuel as [|fuel]; [simpl in Hfuel; lia|]);
    simpl Mutable.parseRecord_loop; unfold bind at 1; unfold onLocal at 1.
  - rewrite (EngineProps.peek_split d (pre ++ k ++ v1) [dl] post)
      by (rewrite ?length_app; simpl; try lia;
          rewrite Hd, <- !app_assoc; reflexivity).
    rewrite Hsep, Hterm.
    assert (bool_decide ([dl] = [sep]) || bool_decide ([dl] = [term]) = true)
      as ->.
    { destruct Hdl as [-> | ->].
      - rewrite (bool_decide_eq_true_2 ([sep] = [sep])) by reflexivity.
        reflexivity.
      - rewrite (bool_decide_eq_true_2 ([term] = [term])) by reflexivity.
        apply orb_true_r. }
    unfold ret. rewrite app_nil_r. simpl. rewrite Nat.add_0_r. reflexivity.
  - rewrite (EngineProps.peek_split d (pre ++ k ++ v1) [c] (v2 ++ dl :: post))
      by (rewrite ?length_app; simpl; try lia;
          rewrite Hd, <- !app_assoc; reflexivity).
    rewrite Hsep, Hterm.
    rewrite bool_decide_eq_false_2
      by (intros [= ->]; apply Hns; apply elem_of_cons; auto).
    rewrite bool_decide_eq_false_2
      by (intros [= ->]; apply Hnt; apply elem_of_cons; auto).
    cbn [orb]. unfold bind at 1. unfold onLocal at 1.
    rewrite (EngineProps.read_split d (pre ++ k ++ v1) [c] (v2 ++ dl :: post) 1)
      by (rewrite ?length_app; simpl; try lia;
          rewrite Hd, <- !app_assoc; reflexivity).
    replace (Z.of_nat (length pre + length k + length v1) + 1)
      with (Z.of_nat (length pre + length k + length (v1 ++ [c])))
      by (rewrite length_app; simpl; lia).
    rewrite (IH (v1 ++ [c]) fuel).
    + rewrite <- app_assoc. cbn [app]. rewrite length_app. cbn [length].
      f_equal. f_equal. f_equal. lia.
    + rewrite Hd, <- !app_assoc. reflexivity.
    + simpl in Hfuel. lia.
    + intros H. apply Hns. apply elem_of_cons. auto.
    + intros H. apply Hnt. apply elem_of_cons. auto.
Qed.

(** [parseRecord] on a record that is in the snapshot: it returns the key
    and the value and leaves the reader on the character after the value. *)
Lemma parseRecord_entry header sep term d pre k v dl post :
  dataElementSeparator header = [sep] ->
  segmentTerminator header = [term] ->
  keyOK k -> valueOK sep term v ->
  dl = sep \/ dl = term ->
  d = pre ++ k ++ v ++ dl :: post ->
  Mutable.parseRecord header (mkStringIO d (Z.of_nat (length pre)))
  = Ok (k, v) (mkStringIO d (Z.of_nat (length pre + 3 + length v))).
Proof.
  intros Hsep Hterm Hk [Hns Hnt] Hdl Hd.
  pose proof (EngineProps.keyOK_length k Hk) as Hlen.
  unfold Mutable.parseRecord. unfold bind at 1. unfold get at 1.
  cbn [data pos]. unfold bind at 1. unfold onLocal at 1.
  rewrite (EngineProps.read_split d pre k (v ++ dl :: post) 3) by (auto; lia).
  rewrite (EngineProps.keyOK_pattern k Hk). cbn [negb].
  replace (Z.of_nat (length pre) + 3)
    with (Z.of_nat (length pre + length k + length (@nil ascii)))
    by (simpl; lia).
  unfold bind at 1.
  rewrite (scan_value_loop header sep term d pre k dl post _
             Hsep Hterm Hdl v []); try assumption.
  - cbn [data pos app length]. rewrite Hlen. f_equal. f_equal. f_equal. lia.
  - unfold avail. cbn [data pos]. subst d. rewrite !length_app.
    cbn [length]. lia.
Qed.

(** Rounds of the [while] of [parseSubfile]. *)
Lemma parseSubfile_loop_separators header sep term d recs :
  dataElementSeparator header = [sep] ->
  segmentTerminator header = [term] ->
  sep <> term ->
  forall g pre post fuel,
  d = pre ++ replicate g sep ++ post ->
  Mutable.parseSubfile_loop (g + fuel) header recs
    (mkStringIO d (Z.of_nat (length pre)))
  = Mutable.parseSubfile_loop fuel header recs
      (mkStringIO d (Z.of_nat (length pre + g))).
Proof.
  intros Hsep Hterm Hne.
  induction g as [|g IH]; intros pre post fuel Hd.
  - simpl. rewrite Nat.add_0_r. reflexivity.
  - cbn [Nat.add Mutable.parseSubfile_loop]. unfold bind at 1.
    rewrite (EngineProps.peek_split d pre [sep] (replicate g sep ++ post))
      by (auto; rewrite Hd; reflexivity).
    rewrite Hsep, Hterm.
    rewrite bool_decide_eq_false_2 by congruence.
    rewrite bool_decide_eq_true_2 by reflexivity.
    unfold bind at 1.
    rewrite (EngineProps.read_split d pre [sep] (replicate g sep ++ post) 1)
      by (auto; rewrite Hd; reflexivity).
    replace (Z.of_nat (length pre) + 1) with (Z.of_nat (length (pre ++ [sep])))
      by (rewrite length_app; simpl; lia).
    rewrite (IH (pre ++ [sep]) post fuel)
      by (rewrite Hd, <- app_assoc; reflexivity).
    rewrite length_app. simpl. f_equal. f_equal. lia.
Qed.

Lemma parseSubfile_loop_record header sep term d pre k v dl post recs fuel :
  dataElementSeparator header = [sep] ->
  segmentTerminator header = [term] ->
  isUpper sep = false -> isUpper term = false ->
  keyOK k -> valueOK sep term v ->
  dl = sep \/ dl = term ->
  d = pre ++ k ++ v ++ dl :: post ->
  Mutable.parseSubfile_loop (S fuel) header recs
    (mkStringIO d (Z.of_nat (length pre)))
  = Mutable.parseSubfile_loop fuel header (<[k := v]> recs)
      (mkStringIO d (Z.of_nat (length pre + 3 + length v))).
Proof.
  intros Hsep Hterm Hus Hut Hk Hv Hdl Hd.
  cbn [Mutable.parseSubfile_loop]. unfold bind at 1.
  destruct Hk as (a & b & c & -> & Ha & Hb & Hc).
  rewrite (EngineProps.peek_split d pre [a] (b :: c :: v ++ dl :: post))
    by (auto; rewrite Hd; reflexivity).
  rewrite Hsep, Hterm.
  rewrite bool_decide_eq_false_2 by (intros [= ->]; congruence).
  rewrite bool_decide_eq_false_2 by (intros [= ->]; congruence).
  unfold bind at 1.
  rewrite (parseRecord_entry header sep term d pre [a; b; c] v dl post
             Hsep Hterm) by (try assumption; exists a, b, c; auto).
  reflexivity.
Qed.

Lemma parseSubfile_loop_terminator header term d pre post recs fuel :
  segmentTerminator header = [term] ->
  d = pre ++ term :: post ->
  Mutable.parseSubfile_loop (S fuel) header recs
    (mkStringIO d (Z.of_nat (length pre)))
  = Ok recs (mkStringIO d (Z.of_nat (length pre + 1))).
Proof.
  intros Hterm Hd. cbn [Mutable.parseSubfile_loop]. unfold bind at 1.
  rewrite (EngineProps.peek_split d pre [term] post) by auto.
  rewrite Hterm. rewrite bool_decide_eq_true_2 by reflexivity.
  unfold bind at 1.
  rewrite (EngineProps.read_split d pre [term] post 1) by auto.
  unfold ret. f_equal. f_equal. lia.
Qed.

Lemma paddedRecordsText_cons sep e entries :
  paddedRecordsText sep (e :: entries)
  = replicate e.1 sep ++ e.2.1 ++ e.2.2 ++ [sep]
    ++ paddedRecordsText sep entries.
Proof. unfold paddedRecordsText. simpl. rewrite <- !app_assoc. reflexivity. Qed.

(** The loop walks over records that are each preceded by any number of
    data element separators; the separator after a record is met by the
    next round. *)
Lemma parseSubfile_loop_entries header sep term d :
  dataElementSeparator header = [sep] ->
  segmentTerminator header = [term] ->
  isUpper sep = false -> isUpper term = false -> sep <> term ->
  forall entries pre post recs fuel,
  Forall (fun e => entryOK sep term e.2) entries ->
  d = pre ++ paddedRecordsText sep entries ++ post ->
  Mutable.parseSubfile_loop
    (sum_list_with (fun e => e.1 + 2)%nat entries + fuel) header recs
    (mkStringIO d (Z.of_nat (length pre)))
  = Mutable.parseSubfile_loop fuel header (recordsOf (map snd entries) recs)
      (mkStringIO d
         (Z.of_nat (length (pre ++ paddedRecordsText sep entries)))).
Proof.
  intros Hsep Hterm Hus Hut Hne.
  induction entries as [|[g [k v]] entries IH]; intros pre post recs fuel Hok Hd.
  - simpl. unfold paddedRecordsText. simpl. rewrite app_nil_r. reflexivity.
  - apply Forall_cons in Hok as [[Hk Hv] Hok]. simpl in Hk, Hv.
    rewrite paddedRecordsText_cons in Hd |- *. cbn [fst snd] in Hd |- *.
    cbn [sum_list_with fst snd map].
    replace (g + 2 + sum_list_with (fun e => e.1 + 2) entries + fuel)%nat
      with (g + S (1 + (sum_list_with (fun e => e.1 + 2) entries + fuel)))%nat
      by lia.
    rewrite (parseSubfile_loop_separators header sep term d recs Hsep Hterm Hne
               g pre (k ++ v ++ [sep] ++ paddedRecordsText sep entries ++ post))
      by (rewrite Hd, <- !app_assoc; reflexivity).
    replace (Z.of_nat (length pre + g))
      with (Z.of_nat (length (pre ++ replicate g sep)))
      by (rewrite length_app, length_replicate; reflexivity).
    rewrite (parseSubfile_loop_record header sep term d
               (pre ++ replicate g sep) k v sep
               (paddedRecordsText sep entries ++ post) recs _
               Hsep Hterm Hus Hut Hk Hv (or_introl eq_refl))
      by (rewrite Hd, <- !app_assoc; reflexivity).
    replace (Z.of_nat (length (pre ++ replicate g sep) + 3 + length v))
      with (Z.of_nat (length (pre ++ replicate g sep ++ k ++ v)))
      by (rewrite !length_app, (EngineProps.keyOK_length k Hk); lia).
    rewrite (parseSubfile_loop_separators header sep term d _ Hsep Hterm Hne
               1 (pre ++ replicate g sep ++ k ++ v)
               (paddedRecordsText sep entries ++ post))
      by (rewrite Hd, <- !app_assoc; reflexivity).
    replace (Z.of_nat (length (pre ++ replicate g sep ++ k ++ v) + 1))
      with (Z.of_nat (length (pre ++ replicate g sep ++ k ++ v ++ [sep])))
      by (rewrite !length_app; simpl; lia).
    rewrite (IH (pre ++ replicate g sep ++ k ++ v ++ [sep]) post
               (<[k := v]> recs) fuel Hok)
      by (rewrite Hd, <- !app_assoc; reflexivity).
    rewrite <- !app_assoc. reflexivity.
Qed.

Lemma paddedRecordsText_rounds sep term entries :
  Forall (fun e => entryOK sep term e.2) entries ->
  (sum_list_with (fun e => e.1 + 2)%nat entries
   <= length (paddedRecordsText sep entries))%nat.
Proof.
  induction 1 as [|[g [k v]] entries [Hk _] _ IH]; [simpl; lia|].
  rewrite paddedRecordsText_cons, !length_app, length_replicate.
  simpl in *. rewrite (EngineProps.keyOK_length k Hk). lia.
Qed.

Lemma scanSubfile_padded header sep term type entries g last junk :
  dataElementSeparator header = [sep] ->
  segmentTerminator header = [term] ->
  isUpper sep = false -> isUpper term = false -> sep <> term ->
  length type = 2%nat ->
  Forall (fun e => entryOK sep term e.2) entries ->
  Forall (entryOK sep term) (option_list last) ->
  let body := type ++ paddedRecordsText sep entries ++ replicate g sep
              ++ lastText last ++ [term] ++ junk in
  let recs := recordsOf (map snd entries ++ option_list last) ∅ in
  Mutable.scanSubfile header (mkStringIO body 0)
  = Ok recs (mkStringIO body (Z.of_nat (length body - length junk))).
Proof.
  intros Hsep Hterm Hus Hut Hne Htype Hok Hlast body recs.
  unfold Mutable.scanSubfile. unfold bind at 1.
  rewrite (EngineProps.read_split body [] type
             (paddedRecordsText sep entries ++ replicate g sep
              ++ lastText last ++ [term] ++ junk) 2)
    by (auto; rewrite Htype; reflexivity).
  unfold bind, get. change (0 + 2) with 2.
  pose proof (paddedRecordsText_rounds sep term entries Hok) as Hrounds.
  set (n := sum_list_with (fun e => (e.1 + 2)%nat) entries) in *.
  assert (exists extra,
            (Z.to_nat (avail (mkStringIO body 2)) + 1
             = n + (g + (length (option_list last) + S extra)))%nat)
    as [extra ->].
  { unfold avail, body. cbn [data pos]. rewrite !length_app, Htype.
    rewrite length_replicate.
    exists (length (paddedRecordsText sep entries) - n
            + (length (lastText last) - length (option_list last))
            + length junk + 1)%nat.
    assert (length (option_list last) <= length (lastText last))%nat.
    { destruct last as [[k v]|]; [|simpl; lia].
      apply Forall_cons in Hlast as [[Hk _] _]. simpl in *.
      rewrite length_app, (EngineProps.keyOK_length k Hk). lia. }
    cbn [length]. lia. }
  replace (mkStringIO body 2) with (mkStringIO body (Z.of_nat (length type)))
    by (rewrite Htype; reflexivity).
  rewrite (parseSubfile_loop_entries header sep term body
             Hsep Hterm Hus Hut Hne entries type
             (replicate g sep ++ lastText last ++ [term] ++ junk) ∅ _ Hok
             eq_refl).
  rewrite (parseSubfile_loop_separators header sep term body _
             Hsep Hterm Hne g (type ++ paddedRecordsText sep entries)
             (lastText last ++ [term] ++ junk))
    by (unfold body; rewrite <- !app_assoc; reflexivity).
  replace (Z.of_nat (length (type ++ paddedRecordsText sep entries) + g))
    with (Z.of_nat (length (type ++ paddedRecordsText sep entries
                            ++ replicate g sep)))
    by (rewrite !length_app, length_replicate; lia).
  unfold recs. rewrite EngineProps.recordsOf_app.
  destruct last as [[k v]|].
  - change (length (option_list (Some (k, v))) + S extra)%nat
      with (S (S extra)).
    apply Forall_cons in Hlast as [[Hk Hv] _]. simpl in Hk, Hv.
    rewrite (parseSubfile_loop_record header sep term body
               (type ++ paddedRecordsText sep entries ++ replicate g sep)
               k v term junk _ _ Hsep Hterm Hus Hut Hk Hv
               (or_intror eq_refl))
      by (unfold body; cbn [lastText fst snd]; rewrite <- !app_assoc;
          reflexivity).
    replace (Z.of_nat (length (type ++ paddedRecordsText sep entries
                               ++ replicate g sep) + 3 + length v))
      with (Z.of_nat (length (type ++ paddedRecordsText sep entries
                              ++ replicate g sep ++ k ++ v)))
      by (rewrite !length_app, (EngineProps.keyOK_length k Hk); lia).
    rewrite (parseSubfile_loop_terminator header term body
               (type ++ paddedRecordsText sep entries ++ replicate g sep
                ++ k ++ v) junk _ _ Hterm)
      by (unfold body; cbn [lastText fst snd]; rewrite <- !app_assoc;
          reflexivity).
    f_equal. f_equal. unfold body. cbn [lastText fst snd].
    rewrite !length_app. cbn [length]. lia.
  - change (length (option_list (@None (jsstring * jsstring))) + S extra)%nat
      with (S extra).
    rewrite (parseSubfile_loop_terminator header term body
               (type ++ paddedRecordsText sep entries ++ replicate g sep)
               junk _ _ Hterm)
      by (unfold body; cbn [lastText app]; rewrite <- !app_assoc;
          reflexivity).
    f_equal. f_equal. unfold body. cbn [lastText].
    rewrite !length_app. cbn [length]. lia.
Qed.

(** [parseSubfile] takes its snapshot from the designator's range and scans
    it with a reader of its own. *)
Lemma parseSubfile_snapshot header sd pre body post q recs sfReader :
  sd_offset sd = Z.of_nat (length pre) ->
  sd_length sd = Z.of_nat (length body) ->
  Mutable.scanSubfile header (mkStringIO body 0) = Ok recs sfReader ->
  Mutable.parseSubfile header sd (mkStringIO (pre ++ body ++ post) q)
  = Ok recs (mkStringIO (pre ++ body ++ post) q).
Proof.
  intros Hoff Hlen Hscan.
  unfold Mutable.parseSubfile. unfold bind at 1. unfold get at 1.
  unfold bind at 1. unfold onLocal at 1. cbn [data].
  rewrite (EngineProps.peek_split _ pre body post) by auto.
  unfold bind at 1. unfold onLocal at 1. rewrite Hscan. reflexivity.
Qed.

(** The scan of the append-driven parser on well-formed text, for a header
    whose data element separator and segment terminator are single
    characters that are not upper-case letters and differ from each other:
    two characters (whatever they are), then records (a key of three
    upper-case letters and a value that holds neither the separator nor the
    terminator), each preceded by any number of data element separators and
    followed by one or, for the last record, by the segment terminator.
    [scanSubfile] returns the map that the assignments [records[k] = v]
    build in the order of the records and leaves its reader after the
    terminator; [parseSubfile] returns that map for a designator whose
    range holds the text. *)
Theorem scanSubfile_well_formed :
  forall header sep term type entries g last junk,
  dataElementSeparator header = [sep] ->
  segmentTerminator header = [term] ->
  isUpper sep = false -> isUpper term = false -> sep <> term ->
  length type = 2%nat ->
  Forall (fun e => entryOK sep term e.2) entries ->
  Forall (entryOK sep term) (option_list last) ->
  let body := type ++ paddedRecordsText sep entries ++ replicate g sep
              ++ lastText last ++ [term] ++ junk in
  let recs := recordsOf (map snd entries ++ option_list last) ∅ in
  Mutable.scanSubfile header (mkStringIO body 0)
  = Ok recs (mkStringIO body (Z.of_nat (length body - length junk)))
  /\ forall sd pre post q,
       sd_offset sd = Z.of_nat (length pre) ->
       sd_length sd = Z.of_nat (length body) ->
       Mutable.parseSubfile header sd (mkStringIO (pre ++ body ++ post) q)
       = Ok recs (mkStringIO (pre ++ body ++ post) q).
Proof.
  intros header sep term type entries g last junk Hsep Hterm Hus Hut Hne Htype
    Hok Hlast body recs.
  pose proof (scanSubfile_padded header sep term type entries g last junk
                Hsep Hterm Hus Hut Hne Htype Hok Hlast) as Hscan.
  split; [exact Hscan|].
  intros sd pre post q Hoff Hlen.
  eapply parseSubfile_snapshot; eassumption.
Qed.

(** The subfile of the sample data with a data element separator before
    its first record. *)
Lemma scanSubfile_well_formed_witness :
  let header := mkHeader [LF] [RS] [CR] (str "636000") (str "11") (str "00") 1 in
  let body := str "DL" ++ [LF] ++ str "DAQT64235789" ++ [LF]
              ++ str "DCSSAMPLE" ++ [CR] in
  Mutable.scanSubfile header (mkStringIO body 0)
  = Ok (recordsOf [(str "DAQ", str "T64235789"); (str "DCS", str "SAMPLE")] ∅)
       (mkStringIO body 26).
Proof.
  intros header body.
  refine (proj1 (scanSubfile_well_formed header LF CR (str "DL")
                   [(1%nat, (str "DAQ", str "T64235789"))] 0
                   (Some (str "DCS", str "SAMPLE")) []
                   eq_refl eq_refl eq_refl eq_refl _ eq_refl _ _)).
  - discriminate.
  - repeat constructor; simpl.
    + exists "D"%char, "A"%char, "Q"%char. auto.
    + apply (bool_decide_unpack _). vm_compute. exact I.
    + apply (bool_decide_unpack _). vm_compute. exact I.
  - repeat constructor; simpl.
    + exists "D"%char, "C"%char, "S"%char. auto.
    + apply (bool_decide_unpack _). vm_compute. exact I.
    + apply (bool_decide_unpack _). vm_compute. exact I.
Defined.

(** The two parsers on a well-formed subfile without extra separators, for
    a header whose data element separator and segment terminator are single
    characters that are not upper-case letters and differ from each other:
    the append-driven parser's [parseSubfile] returns the very map that the
    ParseResult-threading parser files under the designator's type, namely
    the map of the records in their order.  The hypothesis that separator
    and terminator differ is needed: with LF for both, on the subfile
    "DLDAQX<LF>DCSY<LF><LF>" the append-driven loop, which tests the
    terminator first, stops after the first record and returns DAQ only,
    while the record closures go on and file DAQ and DCS. *)
Theorem scan_agreement :
  (forall result sep term sd pre post q type entries last junk,
  dataElementSeparator (Engine.header result) = [sep] ->
  segmentTerminator (Engine.header result) = [term] ->
  isUpper sep = false -> isUpper term = false -> sep <> term ->
  recognized (sd_type sd) = true ->
  length type = 2%nat ->
  Forall (entryOK sep term) (entries ++ option_list last) ->
  let body := type ++ recordsText sep entries ++ lastText last
              ++ [term] ++ junk in
  sd_offset sd = Z.of_nat (length pre) ->
  sd_length sd = Z.of_nat (length body) ->
  let reader := mkStringIO (pre ++ body ++ post) q in
  exists recs,
    recs = recordsOf (entries ++ option_list last) ∅
    /\ Mutable.parseSubfile (Engine.header result) sd reader = Ok recs reader
    /\ Engine.parse (2 * length (entries ++ option_list last) + 2)
         (Engine.mkParser reader [Engine.ParseSubfile sd] result)
       = Engine.Done
           (Engine.mkParser reader []
              (Engine.mkParseResult (Engine.header result)
                 (Engine.subfileDesignators result)
                 (<[sd_type sd := recs]> (Engine.subfiles result)))))
  /\ (let h := mkHeader [LF] [RS] [LF] (str "636000") (str "11") (str "00")
                1 in
      let sd := mkSubfileDesignator (str "DL") 0 13 in
      let reader :=
        mkStringIO (str "DLDAQX" ++ [LF] ++ str "DCSY" ++ [LF; LF]) 0 in
      Mutable.parseSubfile h sd reader
      = Ok (<[str "DAQ" := str "X"]> ∅) reader
      /\ Engine.parse 6
           (Engine.mkParser reader [Engine.ParseSubfile sd]
              (Engine.mkParseResult h [] ∅))
         = Engine.Done
             (Engine.mkParser reader []
                (Engine.mkParseResult h []
                   (<[str "DL" := <[str "DCS" := str "Y"]>
                                     (<[str "DAQ" := str "X"]> ∅)]> ∅)))).
Proof.
  split; [|split; vm_compute; reflexivity].
  intros result sep term sd pre post q type entries last junk
    Hsep Hterm Hus Hut Hne Hty Htype Hok body Hoff Hlen reader.
  exists (recordsOf (entries ++ option_list last) ∅).
  split; [reflexivity|].
  change (Engine.mkParseResult (Engine.header result)
            (Engine.subfileDesignators result)
            (<[sd_type sd := recordsOf (entries ++ option_list last) ∅]>
               (Engine.subfiles result)))
    with (Engine.with_subfiles
            (<[sd_type sd := recordsOf (entries ++ option_list last) ∅]>
               (Engine.subfiles result))
            result).
  split.
  - pose proof Hok as Hok'. apply Forall_app in Hok' as [Hentries Hlast].
    assert (paddedRecordsText sep (map (fun kv => (0%nat, kv)) entries)
            = recordsText sep entries) as Hpad.
    { unfold paddedRecordsText, recordsText. rewrite map_map. reflexivity. }
    assert (map snd (map (fun kv : jsstring * jsstring => (0%nat, kv)) entries)
            = entries) as Hsnd.
    { rewrite map_map. apply map_id. }
    pose proof (scanSubfile_padded (Engine.header result) sep term type
                  (map (fun kv => (0%nat, kv)) entries) 0 last junk
                  Hsep Hterm Hus Hut Hne Htype) as H.
    rewrite Hpad, Hsnd in H. cbn [replicate app] in H.
    eapply parseSubfile_snapshot; [assumption..|].
    apply H; [|exact Hlast].
    apply Forall_forall. intros e He.
    apply list_elem_of_In, in_map_iff in He as (kv & <- & Hkv).
    simpl. eapply Forall_forall in Hentries; [exact Hentries|].
    apply list_elem_of_In. exact Hkv.
  - replace (2 * length (entries ++ option_list last) + 2)%nat
      with (S (2 * length (entries ++ option_list last) + 1 + 0)) by lia.
    rewrite (EngineProps.parse_Returned _ _ _ _ _ _ _
               (EngineProps.call_ParseSubfile_recognized result sd _ q pre body
                  post Hty eq_refl Hoff Hlen
                  ltac:(unfold body; rewrite length_app; lia))).
    cbn [Engine.pfr_next Engine.pfr_result app].
    replace (mkStringIO body 2)
      with (mkStringIO body (Z.of_nat (length type)))
      by (rewrite Htype; reflexivity).
    fold body.
    rewrite (EngineProps.parse_scan_body result (sd_type sd) sep term reader []
               type entries last junk _ Hsep Hterm Hut Hne Hok).
    apply EngineProps.parse_nil. reflexivity.
Qed.

Lemma scan_agreement_witness :
  let result :=
    Engine.mkParseResult
      (mkHeader [LF] [RS] [CR] (str "636000") (str "11") (str "00") 1) [] ∅ in
  let sd := mkSubfileDesignator (str "DL") 10 25 in
  let reader :=
    mkStringIO (str "0123456789" ++ Engine.sampleBody ++ str "rest") 0 in
  exists recs,
    recs = recordsOf [(str "DAQ", str "T64235789");
                      (str "DCS", str "SAMPLE")] ∅
    /\ Mutable.parseSubfile (Engine.header result) sd reader = Ok recs reader
    /\ Engine.parse 6 (Engine.mkParser reader [Engine.ParseSubfile sd] result)
       = Engine.Done
           (Engine.mkParser reader []
              (Engine.mkParseResult (Engine.header result) []
                 (<[str "DL" := recs]> ∅))).
Proof.
  intros result sd reader.
  refine (proj1 scan_agreement result LF CR sd (str "0123456789")
            (str "rest") 0
            (str "DL") [(str "DAQ", str "T64235789")]
            (Some (str "DCS", str "SAMPLE")) []
            eq_refl eq_refl eq_refl eq_refl _ eq_refl eq_refl _
            eq_refl eq_refl).
  - discriminate.
  - repeat constructor; simpl.
    + exists "D"%char, "A"%char, "Q"%char. auto.
    + apply (bool_decide_unpack _). vm_compute. exact I.
    + apply (bool_decide_unpack _). vm_compute. exact I.
    + exists "D"%char, "C"%char, "S"%char. auto.
    + apply (bool_decide_unpack _). vm_compute. exact I.
    + apply (bool_decide_unpack _). vm_compute. exact I.
Defined.

(** *** The scan loops end *)

Lemma Mutable_parseRecord_loop_fuel fuel header : forall val copied r,
  (Z.to_nat (avail copied) + 1 <= fuel)%nat ->
  Mutable.parseRecord_loop fuel header val copied r
  = Mutable.parseRecord_loop (Z.to_nat (avail copied) + 1) header val copied r.
Proof.
  induction fuel as [|fuel IH]; intros val copied r Hfuel; [lia|].
  rewrite Nat.add_1_r. cbn [Mutable.parseRecord_loop]. unfold bind, onLocal.
  destruct (peek 1 copied) as [next r1|e r1] eqn:Ep; [|reflexivity].
  apply peek_Ok in Ep as (-> & Hav & _).
  destruct (_ || _); [reflexivity|].
  rewrite read_enough by assumption.
  rewrite (IH _ (mkStringIO (data copied) (pos copied + 1)))
    by (unfold avail in *; cbn [data pos]; lia).
  f_equal. unfold avail in *. cbn [data pos]. lia.
Qed.

Lemma Mutable_parseRecord_loop_Ok fuel header :
  forall val copied r v copied' r',
  Mutable.parseRecord_loop fuel header val copied r = Ok (v, copied') r' ->
  r' = r /\ data copied' = data copied /\ pos copied <= pos copied'.
Proof.
  induction fuel as [|fuel IH]; intros val copied r v copied' r'; simpl.
  - discriminate.
  - unfold bind, onLocal, ret.
    destruct (peek 1 copied) as [next r1|e r1]; [|discriminate].
    destruct (_ || _).
    + intros [= <- <- <-]. repeat split; try reflexivity; lia.
    + destruct (read 1 copied) as [c r2|e r2] eqn:Er; [|discriminate].
      apply read_Ok in Er as (-> & _ & _).
      intros H. apply IH in H. simpl in H.
      repeat split; try tauto; lia.
Qed.

(** A record that [parseRecord] returns moved the reader by three
    characters at least. *)
Lemma Mutable_parseRecord_Ok header r k v r' :
  Mutable.parseRecord header r = Ok (k, v) r' ->
  data r' = data r /\ pos r + 3 <= pos r' /\ 3 <= avail r.
Proof.
  unfold Mutable.parseRecord. unfold bind, get, onLocal.
  destruct (read 3 _) as [key copied|e r1] eqn:Er; [|discriminate].
  apply read_Ok in Er as (-> & Hav & _). cbn [data pos] in *.
  destruct (negb _); [discriminate|].
  destruct (Mutable.parseRecord_loop _ _ _ _ _) as [[val copied'] r1|e r1] eqn:El;
    [|discriminate].
  apply Mutable_parseRecord_loop_Ok in El as (-> & _ & Hpos). simpl in Hpos.
  intros [= <- <- <-]. cbn [data pos]. unfold avail in *.
  cbn [data pos] in *. repeat split; try reflexivity; lia.
Qed.

Lemma Mutable_parseSubfile_loop_fuel header : forall fuel1 fuel2 recs r,
  (Z.to_nat (avail r) + 1 <= fuel1)%nat ->
  (Z.to_nat (avail r) + 1 <= fuel2)%nat ->
  Mutable.parseSubfile_loop fuel1 header recs r
  = Mutable.parseSubfile_loop fuel2 header recs r.
Proof.
  induction fuel1 as [|fuel1 IH]; intros fuel2 recs r H1 H2; [lia|].
  destruct fuel2 as [|fuel2]; [lia|].
  cbn [Mutable.parseSubfile_loop]. unfold bind.
  destruct (peek 1 r) as [next r1|e r1] eqn:Ep; [|reflexivity].
  apply peek_Ok in Ep as (-> & Hav & _).
  destruct (bool_decide _); [reflexivity|].
  destruct (bool_decide _).
  - rewrite read_enough by assumption.
    apply IH; unfold avail in *; cbn [data pos]; lia.
  - destruct (Mutable.parseRecord header r) as [[k v] r1|e r1] eqn:Er;
      [|reflexivity].
    apply Mutable_parseRecord_Ok in Er as (Hd & Hp & Hav3).
    apply IH; unfold avail in *; rewrite Hd; lia.
Qed.

Lemma Mutable_parseRecord_rounds_end fuel header : forall val copied r,
  (Z.to_nat (avail copied) + 1 <= fuel)%nat ->
  Mutable.parseRecord_rounds fuel header val copied r
  = Some (Mutable.parseRecord_loop fuel header val copied r).
Proof.
  induction fuel as [|fuel IH]; intros val copied r Hfuel; [lia|].
  cbn [Mutable.parseRecord_rounds Mutable.parseRecord_loop].
  unfold andThen, ended, bind, onLocal.
  destruct (peek 1 copied) as [next r1|e r1] eqn:Ep; [|reflexivity].
  apply peek_Ok in Ep as (-> & Hav & _).
  destruct (_ || _); [reflexivity|].
  rewrite read_enough by assumption.
  apply IH. unfold avail in *. cbn [data pos]. lia.
Qed.

Lemma Mutable_parseSubfile_rounds_end header : forall fuel recs r,
  (Z.to_nat (avail r) + 1 <= fuel)%nat ->
  Mutable.parseSubfile_rounds fuel header recs r
  = Some (Mutable.parseSubfile_loop fuel header recs r).
Proof.
  induction fuel as [|fuel IH]; intros recs r Hfuel; [lia|].
  cbn [Mutable.parseSubfile_rounds Mutable.parseSubfile_loop].
  unfold andThen, ended, bind.
  destruct (peek 1 r) as [next r1|e r1] eqn:Ep; [|reflexivity].
  apply peek_Ok in Ep as (-> & Hav & _).
  destruct (bool_decide _); [reflexivity|].
  destruct (bool_decide _).
  - rewrite read_enough by assumption.
    apply IH. unfold avail in *. cbn [data pos]. lia.
  - destruct (Mutable.parseRecord header r) as [[k v] r1|e r1] eqn:Er;
      [|reflexivity].
    apply Mutable_parseRecord_Ok in Er as (Hd & Hp & Hav3).
    apply IH. unfold avail in *. rewrite Hd. lia.
Qed.

(** The loops of the record scan end.  The [while (true)] loops of
    [parseRecord] (both parsers) and of the append-driven [parseSubfile]
    make at most as many rounds as there are characters left in the reader
    they advance, plus one: run under a bound on the rounds that large,
    with running out of the bound told apart from every outcome, each of
    them has ended, by returning or by a throw; and with every such bound
    the loop gives that one outcome. *)
Theorem scan_loops_end :
  (forall fuel result sfType key val copied sc,
      (Z.to_nat (avail copied) + 1 <= fuel)%nat ->
      Engine.parseRecord_rounds fuel result sfType key val copied sc
      = Some (Engine.parseRecord_loop (Z.to_nat (avail copied) + 1) result
                sfType key val copied sc)
      /\ Engine.parseRecord_loop fuel result sfType key val copied sc
         = Engine.parseRecord_loop (Z.to_nat (avail copied) + 1) result sfType
             key val copied sc)
  /\ (forall fuel header val copied r,
         (Z.to_nat (avail copied) + 1 <= fuel)%nat ->
         Mutable.parseRecord_rounds fuel header val copied r
         = Some (Mutable.parseRecord_loop (Z.to_nat (avail copied) + 1) header
                   val copied r)
         /\ Mutable.parseRecord_loop fuel header val copied r
            = Mutable.parseRecord_loop (Z.to_nat (avail copied) + 1) header val
                copied r)
  /\ (forall fuel header recs r,
         (Z.to_nat (avail r) + 1 <= fuel)%nat ->
         Mutable.parseSubfile_rounds fuel header recs r
         = Some (Mutable.parseSubfile_loop (Z.to_nat (avail r) + 1) header
                   recs r)
         /\ Mutable.parseSubfile_loop fuel header recs r
            = Mutable.parseSubfile_loop (Z.to_nat (avail r) + 1) header recs r).
Proof.
  split; [|split].
  - intros fuel result sfType key val copied sc Hfuel.
    rewrite EngineProps.parseRecord_rounds_end by exact Hfuel.
    rewrite EngineProps.parseRecord_loop_fuel by exact Hfuel.
    split; reflexivity.
  - intros fuel header val copied r Hfuel.
    rewrite Mutable_parseRecord_rounds_end by exact Hfuel.
    rewrite Mutable_parseRecord_loop_fuel by exact Hfuel.
    split; reflexivity.
  - intros fuel header recs r Hfuel.
    rewrite Mutable_parseSubfile_rounds_end by exact Hfuel.
    rewrite (Mutable_parseSubfile_loop_fuel header fuel
               (Z.to_nat (avail r) + 1)) by (exact Hfuel || lia).
    split; reflexivity.
Qed.

(** *** [updateParse] terminates *)

Lemma Mutable_cost_mono E E' step :
  (E' <= E)%nat -> (Mutable.cost E' step <= Mutable.cost E step)%nat.
Proof. intros H. destruct step; simpl; lia. Qed.

(** What a returning step does to the queue and to the entry count. *)
Lemma runStep_Ok_cost step rest p u p' :
  Mutable.steps p = step :: rest ->
  Mutable.runStep step p = Ok u p' ->
  (Mutable.entryBound p' <= Mutable.entryBound p)%nat
  /\ exists pushed,
       Mutable.steps p' = step :: rest ++ pushed
       /\ (sum_list_with (Mutable.cost (Mutable.entryBound p)) pushed + 1
           <= Mutable.cost (Mutable.entryBound p) step)%nat.
Proof.
  intros Hsteps.
  assert (forall q : Mutable.Parser,
             Mutable.steps q = Mutable.steps p ->
             (Mutable.entryBound q <= Mutable.entryBound p)%nat ->
             Ok u q = Ok u p' ->
             (Mutable.entryBound p' <= Mutable.entryBound p)%nat
             /\ exists pushed,
                  Mutable.steps p' = step :: rest ++ pushed
                  /\ (sum_list_with (Mutable.cost (Mutable.entryBound p)) pushed
                      + 1 <= Mutable.cost (Mutable.entryBound p) step)%nat)
    as Hsame.
  { intros q H1 H2 [= <-]. split; [assumption|]. exists [].
    rewrite H1, Hsteps, app_nil_r. split; [reflexivity|].
    destruct step; simpl; lia. }
  destruct step as [ | | | | | | | | | | |sd]; unfold_mutable.
  all: try (destruct (read _ (Mutable.reader p)) as [x r|e1 r] eqn:Er;
            [|discriminate]).
  all: repeat match goal with
       | |- context [if ?b then _ else _] => destruct b
       end.
  all: try discriminate.
  all: try (destruct u; apply Hsame; [reflexivity|unfold Mutable.entryBound; simpl; lia]).
  - (* entry count *)
    destruct (parseInt x) as [n|] eqn:En; [|discriminate].
    destruct u. apply Hsame; [reflexivity|].
    apply read_Ok in Er as (_ & _ & Hx).
    apply EngineProps.parseInt_short in En as [En _].
    pose proof (substring_length_le (data (Mutable.reader p))
                  (pos (Mutable.reader p)) (pos (Mutable.reader p) + 2)) as Hl.
    rewrite <- Hx in Hl. unfold Mutable.entryBound. simpl.
    specialize (En ltac:(lia)). lia.
  - (* push designator steps *)
    intros [= <- <-]. simpl. split; [unfold Mutable.entryBound; simpl; lia|].
    exists (replicate (Z.to_nat (numEntries (Mutable.header p)))
                      Mutable.DesignatorStep).
    rewrite Hsteps. split; [reflexivity|].
    assert (forall n E, sum_list_with (Mutable.cost E)
                          (replicate n Mutable.DesignatorStep) = (2 * n)%nat)
      as Hrep.
    { intros n E. induction n as [|n IHn]; simpl; lia. }
    rewrite Hrep. unfold Mutable.entryBound. lia.
  - (* designator *)
    destruct (peek 10 _) as [block r|e1 r]; [|discriminate].
    destruct (read 2 _) as [type c1|e1 c1]; [|discriminate].
    destruct (read 4 c1) as [off c2|e1 c2]; [|discriminate].
    destruct (read 4 c2) as [len c3|e1 c3]; [|discriminate].
    destruct (parseInt off); [|discriminate].
    destruct (parseInt len); [|discriminate].
    destruct (read 10 _) as [x r1|e1 r1]; [|discriminate].
    intros [= <- <-]. simpl. split; [unfold Mutable.entryBound; simpl; lia|].
    eexists [_]. rewrite Hsteps. split; [reflexivity|]. simpl. lia.
  - simpl. destruct (peek _ _) as [snapshot r|e1 r]; [|discriminate].
    destruct (Mutable.scanSubfile _ _) as [recs sf|e1 sf]; [|discriminate].
    destruct u. apply Hsame; [reflexivity|unfold Mutable.entryBound; simpl; lia].
  - simpl. destruct (peek _ _) as [snapshot r|e1 r]; [|discriminate].
    destruct u. apply Hsame; [reflexivity|unfold Mutable.entryBound; simpl; lia].
Qed.

Lemma updateParseOnce_budget p u p' :
  Mutable.steps p <> [] ->
  Mutable.updateParseOnce p = Ok u p' ->
  (Mutable.budget p' + 1 <= Mutable.budget p)%nat
  /\ Mutable.error p' = Mutable.error p.
Proof.
  intros Hne. unfold Mutable.updateParseOnce, bind, get.
  destruct (Mutable.steps p) as [|step rest] eqn:Es; [contradiction|].
  pose proof (keepsError_runStep step p) as Herr.
  destruct (Mutable.runStep step p) as [u1 p1|ex p1] eqn:E; [|discriminate].
  intros [= <- <-]. split; [|exact Herr].
  destruct (runStep_Ok_cost step rest p u1 p1 Es E)
    as (HE & pushed & Hsteps & Hcost).
  unfold Mutable.budget. cbn [Mutable.steps Mutable.with_steps].
  change (Mutable.entryBound (Mutable.with_steps (tail (Mutable.steps p1)) p1))
    with (Mutable.entryBound p1).
  rewrite Hsteps. cbn [tail sum_list_with]. rewrite sum_list_with_app.
  pose proof (EngineProps.sum_list_with_mono _ _ rest
                (fun s => Mutable_cost_mono _ _ s HE)).
  pose proof (EngineProps.sum_list_with_mono _ _ pushed
                (fun s => Mutable_cost_mono _ _ s HE)).
  rewrite Es. cbn [sum_list_with]. lia.
Qed.

Lemma updateParse_loop_within_budget fuel : forall p,
  (Mutable.budget p <= fuel)%nat ->
  is_Some (Mutable.updateParse_loop fuel p).
Proof.
  induction fuel as [|fuel IH]; intros p Hb.
  - unfold Mutable.budget in Hb. lia.
  - rewrite updateParse_loop_S.
    destruct (_ && _) eqn:Ec; [|eauto].
    destruct (Mutable.updateParseOnce p) as [u p1|e p1] eqn:E; [|eauto].
    destruct (Mutable.steps p) as [|step rest] eqn:Es.
    + (* the queue is empty: this round sets [done] *)
      unfold Mutable.updateParseOnce, bind, get in E. rewrite Es in E.
      injection E as <- <-.
      destruct fuel; simpl; eauto.
    + apply IH.
      destruct (updateParseOnce_budget p u p1) as [H _];
        [rewrite Es; discriminate|assumption|lia].
Qed.

(** [updateParse] always ends: from any state of the parser its loop ends,
    by completion, by a throw or because [done] or [error] is set, within
    [budget] rounds; so [append] always returns.  For a new parser the bound
    is 209 rounds, whatever the input. *)
Theorem updateParse_terminates :
  forall p,
  is_Some (Mutable.updateParse_loop (Mutable.budget p) p)
  /\ (forall d, is_Some (Mutable.append (Mutable.budget (Mutable.grow d p)) d p))
  /\ (forall d initialData,
        Mutable.budget (Mutable.grow d (Mutable.makeDLIDParser initialData))
        = 209%nat).
Proof.
  intros p.
  split; [apply updateParse_loop_within_budget; lia|]. split.
  - intros d. unfold Mutable.append, Mutable.updateParse.
    destruct (_ || _); [eauto|].
    destruct (bool_decide _); [eauto|].
    destruct (updateParse_loop_within_budget
                (Mutable.budget (Mutable.grow d p)) (Mutable.grow d p)
                (Nat.le_refl _)) as [[u p'|e p'] ->]; [eauto|].
    destruct (isEOF e); eauto.
  - reflexivity.
Qed.

(** *** A well-formed document, appended at once *)

Lemma updateParse_loop_round fuel p p1 :
  Mutable.done p = false -> Mutable.error p = None ->
  Mutable.updateParseOnce p = Ok tt p1 ->
  Mutable.updateParse_loop (S fuel) p = Mutable.updateParse_loop fuel p1.
Proof.
  intros Hd He H. rewrite updateParse_loop_S, Hd, He, H. reflexivity.
Qed.

Lemma updateParse_loop_step fuel r h sds subs step rest p1 :
  Mutable.runStep step (Mutable.mkParser r None h sds subs false (step :: rest))
  = Ok tt p1 ->
  Mutable.updateParse_loop (S fuel)
    (Mutable.mkParser r None h sds subs false (step :: rest))
  = Mutable.updateParse_loop fuel
      (Mutable.with_steps (tail (Mutable.steps p1)) p1).
Proof.
  intros H. apply updateParse_loop_round; [reflexivity..|].
  unfold Mutable.updateParseOnce, bind, get. cbn [Mutable.steps].
  rewrite H. reflexivity.
Qed.

Ltac norm_parser :=
  cbv [Mutable.with_steps Mutable.with_reader Mutable.with_header
       Mutable.with_subfileDesignators Mutable.with_subfiles Mutable.with_done
       Mutable.steps Mutable.reader Mutable.error Mutable.header
       Mutable.subfileDesignators Mutable.subfiles Mutable.done tail
       with_dataElementSeparator with_recordSeparator with_segmentTerminator
       with_iin with_aamvaVersion with_jurisdictionVersion with_numEntries
       dataElementSeparator recordSeparator segmentTerminator iin aamvaVersion
       jurisdictionVersion numEntries].

Ltac step_round d pre body post extra :=
  erewrite updateParse_loop_step;
  [|unfold_mutable; cbn [Mutable.reader];
    rewrite (EngineProps.read_split d pre body post) by reflexivity;
    extra; reflexivity];
  norm_parser.

Lemma steps_header_phase s1 s2 s3 iin av jv ne N rest fuel :
  invalidSeparatorPattern [s1] = false ->
  invalidSeparatorPattern [s2] = false ->
  invalidSeparatorPattern [s3] = false ->
  length iin = 6%nat -> length av = 2%nat -> length jv = 2%nat ->
  length ne = 2%nat -> parseInt ne = Some N ->
  let d := Engine.headerText s1 s2 s3 iin av jv ne ++ rest in
  Mutable.updateParse_loop (10 + fuel)
    (Mutable.grow d (Mutable.makeDLIDParser []))
  = Mutable.updateParse_loop fuel
      (Mutable.mkParser (mkStringIO d 21) None
         (mkHeader [s1] [s2] [s3] iin av jv N) [] ∅ false
         (replicate (Z.to_nat N) Mutable.DesignatorStep)).
Proof.
  intros H1 H2 H3 Hiin Hav Hjv Hne HN d.
  destruct iin as [|i0 [|i1 [|i2 [|i3 [|i4 [|i5 [|]]]]]]]; try discriminate.
  destruct av as [|a0 [|a1 [|]]]; try discriminate.
  destruct jv as [|j0 [|j1 [|]]]; try discriminate.
  destruct ne as [|n0 [|n1 [|]]]; try discriminate.
  unfold Engine.headerText in d. cbn [str list_ascii_of_string app] in d.
  unfold Mutable.makeDLIDParser, Mutable.grow, Mutable.initialSteps.
  norm_parser.
  change (append d (mkStringIO [] 0)) with (mkStringIO d 0).
  cbn [Nat.add].
  step_round d (@nil ascii) (str "@") (drop 1 d) idtac.
  step_round d (take 1 d) [s1] (drop 2 d) ltac:(rewrite H1).
  step_round d (take 2 d) [s2] (drop 3 d) ltac:(rewrite H2).
  step_round d (take 3 d) [s3] (drop 4 d) ltac:(rewrite H3).
  step_round d (take 4 d) (str "ANSI ") (drop 9 d) idtac.
  step_round d (take 9 d) [i0; i1; i2; i3; i4; i5] (drop 15 d) idtac.
  step_round d (take 15 d) [a0; a1] (drop 17 d) idtac.
  step_round d (take 17 d) [j0; j1] (drop 19 d) idtac.
  step_round d (take 19 d) [n0; n1] (drop 21 d) ltac:(rewrite HN).
  erewrite updateParse_loop_step; [|reflexivity]. norm_parser.
  reflexivity.
Qed.

Lemma Mutable_parseSubfileDesignator_block d q pre block sd post :
  Engine.blockOf block sd -> d = pre ++ block ++ post ->
  q = Z.of_nat (length pre) ->
  Mutable.parseSubfileDesignator (mkStringIO d q)
  = Ok sd (mkStringIO d (q + 10)).
Proof.
  intros Hb Hd Hq. pose proof (EngineProps.blockOf_length _ _ Hb) as H10.
  destruct Hb as [ty off len o l H1 H2 H3 Ho Hl].
  unfold Mutable.parseSubfileDesignator, SUBFILE_DESIGNATOR_SIZE.
  unfold bind at 1.
  rewrite (EngineProps.peek_split d pre (ty ++ off ++ len) post)
    by (assumption || lia).
  unfold bind at 1. unfold onLocal at 1. unfold bind at 1.
  rewrite (EngineProps.read_split _ [] ty (off ++ len)) by (reflexivity || lia).
  unfold bind at 1.
  rewrite (EngineProps.read_split _ ty off len) by (reflexivity || (simpl; lia)).
  unfold bind at 1.
  rewrite (EngineProps.read_split _ (ty ++ off) len [])
    by (rewrite <- ?app_assoc, ?app_nil_r, ?length_app; reflexivity || lia).
  unfold ret at 1. rewrite Ho, Hl. unfold bind, ret.
  rewrite (EngineProps.read_split d pre (ty ++ off ++ len) post)
    by (assumption || lia).
  reflexivity.
Qed.

Lemma steps_designators_phase blocks :
  forall sds pre post h sds0 subs queue fuel,
  Forall2 Engine.blockOf blocks sds ->
  let d := pre ++ concat blocks ++ post in
  Mutable.updateParse_loop (length blocks + fuel)
    (Mutable.mkParser (mkStringIO d (Z.of_nat (length pre))) None h sds0 subs
       false (replicate (length blocks) Mutable.DesignatorStep ++ queue))
  = Mutable.updateParse_loop fuel
      (Mutable.mkParser
         (mkStringIO d (Z.of_nat (length pre) + 10 * Z.of_nat (length blocks)))
         None h (sds0 ++ sds) subs false
         (queue ++ map Mutable.SubfileStep sds)).
Proof.
  induction blocks as [|block blocks IH];
    intros sds pre post h sds0 subs queue fuel Hb d.
  - apply Forall2_nil_inv_l in Hb as ->. simpl.
    rewrite !app_nil_r, Z.add_0_r. reflexivity.
  - apply Forall2_cons_inv_l in Hb as (sd & sds' & Hsd & Hsds & ->).
    pose proof (EngineProps.blockOf_length _ _ Hsd) as H10.
    cbn [length replicate app Nat.add].
    assert (d = pre ++ block ++ (concat blocks ++ post)) as Hd.
    { unfold d. simpl. rewrite <- app_assoc. reflexivity. }
    erewrite updateParse_loop_step;
      [|unfold Mutable.runStep; unfold bind at 1;
        unfold Mutable.onReader at 1; cbn [Mutable.reader];
        rewrite (Mutable_parseSubfileDesignator_block d _ pre block sd _
                   Hsd Hd eq_refl); reflexivity].
    norm_parser.
    assert (d = (pre ++ block) ++ concat blocks ++ post) as Hd'.
    { rewrite Hd, <- app_assoc. reflexivity. }
    replace (Z.of_nat (length pre) + 10)
      with (Z.of_nat (length (pre ++ block))) by (rewrite length_app; lia).
    cbn [app]. rewrite <- app_assoc. rewrite Hd'.
    rewrite (IH sds' (pre ++ block) post h (sds0 ++ [sd]) subs
               (queue ++ [Mutable.SubfileStep sd]) fuel Hsds).
    rewrite <- !app_assoc. cbn [app map].
    f_equal. f_equal. f_equal. rewrite length_app. lia.
Qed.

Lemma parseSubfile_unpadded header sep term sd pre post q type entries last
    junk :
  dataElementSeparator header = [sep] ->
  segmentTerminator header = [term] ->
  isUpper sep = false -> isUpper term = false -> sep <> term ->
  length type = 2%nat ->
  Forall (entryOK sep term) (entries ++ option_list last) ->
  let body := type ++ recordsText sep entries ++ lastText last
              ++ [term] ++ junk in
  sd_offset sd = Z.of_nat (length pre) ->
  sd_length sd = Z.of_nat (length body) ->
  let reader := mkStringIO (pre ++ body ++ post) q in
  Mutable.parseSubfile header sd reader
  = Ok (recordsOf (entries ++ option_list last) ∅) reader.
Proof.
  intros Hsep Hterm Hus Hut Hne Htype Hok body Hoff Hlen reader.
  pose proof Hok as Hok'. apply Forall_app in Hok' as [Hentries Hlast].
  assert (paddedRecordsText sep (map (fun kv => (0%nat, kv)) entries)
          = recordsText sep entries) as Hpad.
  { unfold paddedRecordsText, recordsText. rewrite map_map. reflexivity. }
  assert (map snd (map (fun kv : jsstring * jsstring => (0%nat, kv)) entries)
          = entries) as Hsnd.
  { rewrite map_map. apply map_id. }
  pose proof (scanSubfile_padded header sep term type
                (map (fun kv => (0%nat, kv)) entries) 0 last junk
                Hsep Hterm Hus Hut Hne Htype) as H.
  rewrite Hpad, Hsnd in H. cbn [replicate app] in H.
  eapply parseSubfile_snapshot; [assumption..|].
  apply H; [|exact Hlast].
  apply Forall_forall. intros e He.
  apply list_elem_of_In, in_map_iff in He as (kv & <- & Hkv).
  simpl. eapply Forall_forall in Hentries; [exact Hentries|].
  apply list_elem_of_In. exact Hkv.
Qed.

(** What [parseSubfile] and the skip of an unrecognized type do on a range
    that holds a well-formed subfile. *)
Lemma parseSubfile_holds header sep term d q sd rec :
  dataElementSeparator header = [sep] ->
  segmentTerminator header = [term] ->
  isUpper sep = false -> isUpper term = false -> sep <> term ->
  holdsSubfile sep term d sd rec ->
  if recognized (sd_type sd) then
    Mutable.parseSubfile header sd (mkStringIO d q)
    = Ok (default ∅ rec) (mkStringIO d q)
  else
    rec = None
    /\ peek (sd_length sd) (mkStringIO d (sd_offset sd))
       = Ok (substring d (sd_offset sd) (sd_offset sd + sd_length sd))
            (mkStringIO d (sd_offset sd)).
Proof.
  intros Hsep Hterm Hus Hut Hne (pre & body & post & Hd & Hoff & Hlen & Hbody).
  destruct (recognized (sd_type sd)).
  - destruct Hbody as (type & entries & last & junk & Htype & Hok & Hb & ->).
    subst d body. cbn [default].
    apply (parseSubfile_unpadded header sep term sd pre post q type entries
             last junk); assumption.
  - split; [exact Hbody|]. apply peek_enough.
    unfold avail. cbn [data pos]. subst d. rewrite !length_app. lia.
Qed.

Lemma steps_subfiles_phase sep term d q :
  isUpper sep = false -> isUpper term = false -> sep <> term ->
  forall sds recs, Forall2 (holdsSubfile sep term d) sds recs ->
  forall h sds0 subs fuel,
  dataElementSeparator h = [sep] -> segmentTerminator h = [term] ->
  Mutable.updateParse_loop (length sds + fuel)
    (Mutable.mkParser (mkStringIO d q) None h sds0 subs false
       (map Mutable.SubfileStep sds))
  = Mutable.updateParse_loop fuel
      (Mutable.mkParser (mkStringIO d q) None h sds0
         (filedEvery (zip sds recs) subs) false []).
Proof.
  intros Hus Hut Hne sds recs Hall.
  induction Hall as [|sd rec sds recs Hsd _ IH];
    intros h sds0 subs fuel Hsep Hterm.
  - reflexivity.
  - cbn [length map Nat.add zip zip_with].
    pose proof (parseSubfile_holds h sep term d q sd rec Hsep Hterm Hus Hut
                  Hne Hsd) as Hrun.
    destruct (recognized (sd_type sd)) eqn:Hty.
    + erewrite updateParse_loop_step;
        [|unfold Mutable.runStep; rewrite Hty; unfold bind at 1;
          unfold get at 1; unfold bind at 1; unfold Mutable.onReader at 1;
          cbn [Mutable.reader Mutable.header];
          rewrite Hrun; reflexivity].
      norm_parser. rewrite IH by assumption. reflexivity.
    + destruct Hrun as [-> Hpeek].
      erewrite updateParse_loop_step;
        [|unfold_mutable; rewrite Hty; cbn [Mutable.reader data];
          rewrite Hpeek; reflexivity].
      norm_parser. rewrite IH by assumption. reflexivity.
Qed.

(** A well-formed document, appended at once, parses to what it says.  The
    input is as for the ParseResult-threading parser: a header with three
    valid separators, as many directory entries as the entry count says,
    and a rest in which the range of every designator holds a well-formed
    subfile.  Then [append] returns false with [done] set and no error; the
    parser holds the header fields, the designators in order and, under
    every designator's type, the records of its subfile (the empty map for
    a type other than "DL" and "ID"; the later of two subfiles of a type).
    Two rounds of the loop per directory entry and eleven more are enough. *)
Theorem append_well_formed_document :
  forall s1 s2 s3 iin av jv ne N blocks sds tail recs fuel,
  invalidSeparatorPattern [s1] = false ->
  invalidSeparatorPattern [s2] = false ->
  invalidSeparatorPattern [s3] = false ->
  s1 <> s3 ->
  length iin = 6%nat -> length av = 2%nat -> length jv = 2%nat ->
  length ne = 2%nat -> parseInt ne = Some N ->
  Forall2 Engine.blockOf blocks sds -> Z.of_nat (length blocks) = N ->
  let input := Engine.headerText s1 s2 s3 iin av jv ne ++ concat blocks
               ++ tail in
  Forall2 (holdsSubfile s1 s3 input) sds recs ->
  (2 * length blocks + 11 <= fuel)%nat ->
  Mutable.append fuel input (Mutable.makeDLIDParser [])
  = Some (false,
          Mutable.mkParser (mkStringIO input (21 + 10 * N)) None
            (mkHeader [s1] [s2] [s3] iin av jv N) sds
            (filedEvery (zip sds recs) ∅) true []).
Proof.
  intros s1 s2 s3 iin av jv ne N blocks sds tail recs fuel H1 H2 H3 Hne13
    Hiin Hav Hjv Hne HN Hblocks Hcount input Hsubs Hfuel.
  set (hd := Engine.headerText s1 s2 s3 iin av jv ne) in *.
  pose proof (EngineProps.headerText_length s1 s2 s3 iin av jv ne Hiin Hav Hjv
                Hne) as Hhd.
  fold hd in Hhd.
  pose proof (Forall2_length _ _ _ Hblocks) as Hlen.
  unfold Mutable.append. cbn [Mutable.makeDLIDParser Mutable.error Mutable.done].
  change (bool_decide (is_Some (@None Exn)) || false) with false. cbv iota.
  unfold Mutable.updateParse.
  change (Mutable.error (Mutable.grow input (Mutable.makeDLIDParser [])))
    with (@None Exn).
  change (bool_decide (is_Some (@None Exn))) with false. cbv iota.
  replace fuel
    with (10 + (length blocks + (length sds
                                 + S (fuel - 2 * length blocks - 11))))%nat
    by lia.
  unfold input.
  rewrite (steps_header_phase s1 s2 s3 iin av jv ne N (concat blocks ++ tail))
    by assumption.
  fold hd. fold input.
  replace (Z.to_nat N) with (length blocks) by lia.
  replace 21 with (Z.of_nat (length hd)) at 1 by lia.
  rewrite <- (app_nil_r (replicate (length blocks) Mutable.DesignatorStep)).
  unfold input at 1.
  rewrite (steps_designators_phase blocks sds hd tail _ [] ∅ [] _ Hblocks).
  fold input. cbn [app].
  rewrite (steps_subfiles_phase s1 s3 input _
             (EngineProps.separator_not_upper s1 H1)
             (EngineProps.separator_not_upper s3 H3) Hne13 sds recs Hsubs)
    by reflexivity.
  rewrite updateParse_loop_S. cbn [Mutable.done Mutable.error negb andb].
  change (bool_decide (is_Some (@None Exn))) with false. cbn [negb andb].
  unfold Mutable.updateParseOnce, bind, get, Mutable.modify.
  cbn [Mutable.steps].
  assert (forall k p, Mutable.done p = true ->
            Mutable.updateParse_loop k p = Some (Ok tt p)) as Hdone.
  { intros k p Hp. destruct k; simpl; rewrite Hp; reflexivity. }
  rewrite Hdone by reflexivity.
  unfold Mutable.with_done. cbn [Mutable.reader Mutable.error Mutable.header
    Mutable.subfileDesignators Mutable.subfiles Mutable.steps].
  rewrite Hhd. f_equal. f_equal. f_equal. f_equal. lia.
Qed.

(** The sample document of the test suite, appended at once. *)
Lemma append_well_formed_document_witness :
  Mutable.append 15 exampleData (Mutable.makeDLIDParser [])
  = Some (false,
          Mutable.mkParser (mkStringIO exampleData 41) None
            (mkHeader [LF] [RS] [CR] (str "636000") (str "11") (str "00") 2)
            [mkSubfileDesignator (str "DL") 41 277;
             mkSubfileDesignator (str "ZV") 318 8]
            (<[str "ZV" := ∅]> (<[str "DL" := recordsOf exampleRecords ∅]> ∅))
            true []).
Proof.
  refine (append_well_formed_document LF RS CR (str "636000") (str "11")
            (str "00") (str "02") 2 [str "DL00410277"; str "ZV03180008"]
            [mkSubfileDesignator (str "DL") 41 277;
             mkSubfileDesignator (str "ZV") 318 8]
            (drop 41 exampleData)
            [Some (recordsOf exampleRecords ∅); None] 15
            eq_refl eq_refl eq_refl _ eq_refl eq_refl eq_refl eq_refl eq_refl
            EngineProps.exampleData_directory eq_refl
            EngineProps.exampleData_subfiles _).
  - discriminate.
  - simpl. lia.
Defined.

(** *** The records returned are well-formed *)

(** The append-driven parser (and the oldest, which has the same
    functions): the value loop keeps the value free of both separators. *)
Lemma Mutable_parseRecord_loop_clean fuel header :
  forall val copied r val' copied' r',
  cleanValue header val ->
  Mutable.parseRecord_loop fuel header val copied r = Ok (val', copied') r' ->
  cleanValue header val'.
Proof.
  induction fuel as [|fuel IH]; intros val copied r val' copied' r' Hval; simpl.
  - discriminate.
  - EngineProps.unfold_js.
    destruct (peek 1 copied) as [next c1|e1 c1] eqn:E; [|discriminate].
    apply peek_Ok in E as (-> & _ & Hnext).
    assert (length next <= 1)%nat as Hlen.
    { rewrite Hnext. apply (EngineProps.substring_length_nat _ _ 1). lia. }
    destruct (bool_decide (next = dataElementSeparator header)) eqn:Es;
      destruct (bool_decide (next = segmentTerminator header)) eqn:Et;
      cbn [orb]; try (intros [= <- <- <-]; exact Hval).
    destruct (read 1 copied) as [x1 r1|e1 r1] eqn:E1; [|discriminate].
    apply read_Ok in E1 as (_ & _ & Hx). rewrite <- Hnext in Hx. subst x1.
    apply IH. apply EngineProps.cleanValue_snoc; [assumption..| |].
    + apply (bool_decide_eq_false_1 _ Et).
    + apply (bool_decide_eq_false_1 _ Es).
Qed.

Lemma Mutable_parseRecord_clean header r k v r' :
  Mutable.parseRecord header r = Ok (k, v) r' ->
  keyOK k /\ cleanValue header v.
Proof.
  unfold Mutable.parseRecord. unfold bind at 1. unfold get at 1.
  unfold bind at 1. unfold onLocal at 1.
  destruct (read 3 _) as [key copied|e1 c1] eqn:E; [|discriminate].
  apply read_Ok in E as (_ & _ & Hkey). cbn [data pos] in Hkey.
  destruct (recordKeyPattern key) eqn:Hpat; [|discriminate]. cbn [negb].
  unfold bind at 1.
  destruct (Mutable.parseRecord_loop _ header [] copied r)
    as [[val copied'] r1|e1 r1] eqn:Eloop; [|discriminate].
  intros [= <- <- <-]. split.
  - apply EngineProps.keyOK_of_pattern; [exact Hpat|].
    rewrite Hkey. apply (EngineProps.substring_length_nat _ _ 3). lia.
  - eapply Mutable_parseRecord_loop_clean; [|exact Eloop]. constructor.
Qed.

Lemma Mutable_parseSubfile_loop_clean fuel header : forall recs r recs' r',
  recordsOK header recs ->
  Mutable.parseSubfile_loop fuel header recs r = Ok recs' r' ->
  recordsOK header recs'.
Proof.
  induction fuel as [|fuel IH]; intros recs r recs' r' Hrecs; simpl.
  - discriminate.
  - unfold bind at 1.
    destruct (peek 1 r) as [next r1|e1 r1] eqn:E; [|discriminate].
    apply peek_Ok in E as (-> & _ & _).
    destruct (bool_decide (next = segmentTerminator header)).
    + unfold bind, ret. destruct (read 1 r) as [x r1|e1 r1]; [|discriminate].
      intros [= <- <-]. exact Hrecs.
    + destruct (bool_decide (next = dataElementSeparator header)).
      * unfold bind at 1. destruct (read 1 r) as [x r1|e1 r1]; [|discriminate].
        apply IH. exact Hrecs.
      * unfold bind at 1.
        destruct (Mutable.parseRecord header r) as [[k v] r1|e1 r1] eqn:Er;
          [|discriminate].
        apply Mutable_parseRecord_clean in Er as [Hk Hv].
        apply IH. apply EngineProps.recordsOK_insert; assumption.
Qed.

(** [parseSubfile] of the append-driven and of the oldest parser returns
    well-formed records only: every key is three upper-case letters and
    every value holds neither the data element separator nor the segment
    terminator of the header it was given. *)
Theorem parseSubfile_records_well_formed :
  forall header sd reader recs reader' k v,
  Mutable.parseSubfile header sd reader = Ok recs reader' ->
  recs !! k = Some v ->
  keyOK k
  /\ Forall (fun c => [c] <> dataElementSeparator header
                      /\ [c] <> segmentTerminator header) v.
Proof.
  intros header sd reader recs reader' k v Hrun Hk.
  unfold Mutable.parseSubfile in Hrun. unfold bind at 1 in Hrun.
  unfold get at 1 in Hrun. unfold bind at 1 in Hrun.
  unfold onLocal at 1 in Hrun.
  destruct (peek (sd_length sd) _) as [snapshot c1|e1 c1]; [|discriminate].
  unfold bind at 1 in Hrun. unfold onLocal at 1 in Hrun.
  destruct (Mutable.scanSubfile header (mkStringIO snapshot 0))
    as [recs1 sf|e1 sf] eqn:Escan; [|discriminate].
  unfold ret in Hrun. injection Hrun as <- <-.
  unfold Mutable.scanSubfile in Escan. unfold bind at 1 in Escan.
  destruct (read 2 _) as [x sf1|e1 sf1]; [|discriminate].
  unfold bind, get in Escan.
  apply Mutable_parseSubfile_loop_clean in Escan.
  - exact (Escan k v Hk).
  - intros k0 v0 H. rewrite lookup_empty in H. discriminate.
Qed.

(** The subfile of the sample document. *)
Lemma parseSubfile_records_well_formed_witness :
  let h := mkHeader [LF] [RS] [CR] (str "636000") (str "11") (str "00") 1 in
  let sd := mkSubfileDesignator (str "DL") 0 25 in
  Mutable.parseSubfile h sd (mkStringIO Engine.sampleBody 0)
  = Ok Engine.sampleRecords (mkStringIO Engine.sampleBody 0)
  /\ keyOK (str "DCS")
  /\ Forall (fun c => [c] <> [LF] /\ [c] <> [CR]) (str "SAMPLE").
Proof.
  intros h sd.
  assert (Mutable.parseSubfile h sd (mkStringIO Engine.sampleBody 0)
          = Ok Engine.sampleRecords (mkStringIO Engine.sampleBody 0)) as H1
    by (vm_compute; reflexivity).
  split; [exact H1|].
  refine (parseSubfile_records_well_formed h sd _ _ _ (str "DCS")
            (str "SAMPLE") H1 _).
  apply (bool_decide_unpack _). vm_compute. exact I.
Defined.

(** *** A completed [append] says what the text holds *)

Lemma updateParse_loop_Ok_step fuel r h sds subs step rest p' :
  Mutable.updateParse_loop fuel
    (Mutable.mkParser r None h sds subs false (step :: rest))
  = Some (Ok tt p') ->
  exists fuel' p1,
    fuel = S fuel'
    /\ Mutable.runStep step
         (Mutable.mkParser r None h sds subs false (step :: rest)) = Ok tt p1
    /\ Mutable.updateParse_loop fuel'
         (Mutable.with_steps (tail (Mutable.steps p1)) p1) = Some (Ok tt p').
Proof.
  destruct fuel as [|fuel']; [discriminate|].
  rewrite updateParse_loop_S. cbn [Mutable.done Mutable.error negb andb].
  change (bool_decide (is_Some (@None Exn))) with false. cbn [negb andb].
  unfold Mutable.updateParseOnce, bind, get. cbn [Mutable.steps].
  destruct (Mutable.runStep step _) as [[] p1|e p1] eqn:E; [|discriminate].
  unfold Mutable.modify. intros H. exists fuel', p1. auto.
Qed.

Ltac norm_parser_in H :=
  cbv [Mutable.with_steps Mutable.with_reader Mutable.with_header
       Mutable.with_subfileDesignators Mutable.with_subfiles Mutable.with_done
       Mutable.steps Mutable.reader Mutable.error Mutable.header
       Mutable.subfileDesignators Mutable.subfiles Mutable.done tail
       with_dataElementSeparator with_recordSeparator with_segmentTerminator
       with_iin with_aamvaVersion with_jurisdictionVersion with_numEntries
       dataElementSeparator recordSeparator segmentTerminator iin aamvaVersion
       jurisdictionVersion numEntries] in H.

Ltac ok_step H Hstep :=
  let f := fresh "fuel" in let p1 := fresh "p1" in
  apply updateParse_loop_Ok_step in H as (f & p1 & -> & Hstep & H);
  unfold Mutable.runStep, Mutable.setHeader, Mutable.modify,
    Mutable.readSeparator in Hstep;
  unfold bind at 1 in Hstep; unfold Mutable.onReader at 1 in Hstep;
  cbn [Mutable.reader] in Hstep.

Ltac ok_read Hstep n x Hlen Hdrop :=
  let r := fresh "r" in let E := fresh "E" in let e := fresh "e" in
  match type of Hstep with
  | context [read n ?rd] =>
      destruct (read n rd) as [x r|e r] eqn:E; [|discriminate Hstep];
      apply EngineProps.read_Ok_drop in E as (-> & Hlen & Hdrop); [|lia|lia]
  end.

Lemma steps_header_sound d fuel p' :
  Mutable.updateParse_loop fuel (Mutable.grow d (Mutable.makeDLIDParser []))
  = Some (Ok tt p') ->
  exists s1 s2 s3 iin av jv ne N rest fuel',
    d = Engine.headerText s1 s2 s3 iin av jv ne ++ rest
    /\ invalidSeparatorPattern [s1] = false
    /\ invalidSeparatorPattern [s2] = false
    /\ invalidSeparatorPattern [s3] = false
    /\ length iin = 6%nat /\ length av = 2%nat /\ length jv = 2%nat
    /\ length ne = 2%nat /\ parseInt ne = Some N
    /\ Mutable.updateParse_loop fuel'
         (Mutable.mkParser (mkStringIO d 21) None
            (mkHeader [s1] [s2] [s3] iin av jv N) [] ∅ false
            (replicate (Z.to_nat N) Mutable.DesignatorStep))
       = Some (Ok tt p').
Proof.
  unfold Mutable.makeDLIDParser, Mutable.grow, Mutable.initialSteps.
  norm_parser. change (append d (mkStringIO [] 0)) with (mkStringIO d 0).
  intros H.
  (* '@' *)
  ok_step H Hstep. ok_read Hstep 1 x0 L0 D0.
  destruct (bool_decide (x0 = str "@")) eqn:E0; [|discriminate].
  apply bool_decide_eq_true_1 in E0. subst x0.
  unfold ret in Hstep. injection Hstep as <-. norm_parser_in H.
  (* separators *)
  ok_step H Hstep. unfold bind at 1 in Hstep. ok_read Hstep 1 x1 L1 D1.
  destruct (invalidSeparatorPattern x1) eqn:V1;
    [unfold throw in Hstep; discriminate|].
  unfold ret in Hstep. injection Hstep as <-. norm_parser_in H.
  ok_step H Hstep. unfold bind at 1 in Hstep. ok_read Hstep 1 x2 L2 D2.
  destruct (invalidSeparatorPattern x2) eqn:V2;
    [unfold throw in Hstep; discriminate|].
  unfold ret in Hstep. injection Hstep as <-. norm_parser_in H.
  ok_step H Hstep. unfold bind at 1 in Hstep. ok_read Hstep 1 x3 L3 D3.
  destruct (invalidSeparatorPattern x3) eqn:V3;
    [unfold throw in Hstep; discriminate|].
  unfold ret in Hstep. injection Hstep as <-. norm_parser_in H.
  (* "ANSI " *)
  ok_step H Hstep. ok_read Hstep 5 x4 L4 D4.
  destruct (bool_decide (x4 = str "ANSI ")) eqn:E4; [|discriminate].
  apply bool_decide_eq_true_1 in E4. subst x4.
  unfold ret in Hstep. injection Hstep as <-. norm_parser_in H.
  (* the fields *)
  ok_step H Hstep. ok_read Hstep 6 x5 L5 D5.
  injection Hstep as <-. norm_parser_in H.
  ok_step H Hstep. ok_read Hstep 2 x6 L6 D6.
  injection Hstep as <-. norm_parser_in H.
  ok_step H Hstep. ok_read Hstep 2 x7 L7 D7.
  injection Hstep as <-. norm_parser_in H.
  ok_step H Hstep. ok_read Hstep 2 x8 L8 D8.
  destruct (parseInt x8) as [N|] eqn:EN; [|discriminate].
  injection Hstep as <-. norm_parser_in H.
  (* the directory steps are queued *)
  apply updateParse_loop_Ok_step in H as (fuel9 & p1 & -> & Hstep & H).
  unfold Mutable.runStep, Mutable.modify in Hstep. injection Hstep as <-.
  norm_parser_in H. cbn [app] in H.
  destruct x1 as [|s1 [|]]; try discriminate.
  destruct x2 as [|s2 [|]]; try discriminate.
  destruct x3 as [|s3 [|]]; try discriminate.
  exists s1, s2, s3, x5, x6, x7, x8, N, (drop 21 d). eexists.
  repeat match goal with
         | Hx : context [Z.to_nat ?z] |- _ =>
             match z with
             | N => fail 1
             | _ => let v := eval vm_compute in (Z.to_nat z) in
                    change (Z.to_nat z) with v in Hx
             end
         end.
  change (drop 0 d) with d in D0.
  split.
  { unfold Engine.headerText. rewrite <- !app_assoc. cbn [app].
    rewrite D0 at 1. rewrite D1, D2, D3, D4, D5, D6, D7, D8. reflexivity. }
  repeat (split; [assumption|]).
  exact H.
Qed.

Lemma Mutable_parseSubfileDesignator_inv d q sd r' :
  0 <= q ->
  Mutable.parseSubfileDesignator (mkStringIO d q) = Ok sd r' ->
  exists block,
    Engine.blockOf block sd
    /\ drop (Z.to_nat q) d = block ++ drop (Z.to_nat (q + 10)) d
    /\ r' = mkStringIO d (q + 10).
Proof.
  intros Hq. unfold Mutable.parseSubfileDesignator, SUBFILE_DESIGNATOR_SIZE.
  unfold bind at 1.
  destruct (peek 10 (mkStringIO d q)) as [block r|e r] eqn:E; [|discriminate].
  apply peek_Ok in E as (-> & Hav & Hblock). cbn [data pos] in Hblock.
  unfold bind at 1. unfold onLocal at 1.
  intros H.
  unfold bind at 1 in H. ok_read H 2 type Lty Dty.
  unfold bind at 1 in H. ok_read H 4 off Lof Dof.
  unfold bind at 1 in H. ok_read H 4 len Lle Dle.
  unfold ret at 1 in H. cbv beta iota in H.
  destruct (parseInt off) as [o|] eqn:Eo; [|discriminate].
  destruct (parseInt len) as [l|] eqn:El; [|discriminate].
  unfold bind, ret in H.
  destruct (read 10 (mkStringIO d q)) as [x r|e r] eqn:E; [|discriminate].
  injection H as <- <-.
  pose proof E as E'. apply read_Ok in E' as (_ & _ & Hx).
  cbn [data pos] in Hx. rewrite <- Hblock in Hx. subst x.
  apply EngineProps.read_Ok_drop in E as (-> & L10 & D10); [|lia|lia].
  repeat match goal with
         | Hx : context [Z.to_nat ?z] |- _ =>
             match z with
             | context [q] => fail 1
             | _ => let v := eval vm_compute in (Z.to_nat z) in
                    change (Z.to_nat z) with v in Hx
             end
         end.
  change (drop 0 block) with block in Dty.
  assert (block = type ++ off ++ len) as Hb.
  { rewrite Dty at 1. rewrite Dof, Dle.
    rewrite (drop_ge block 10) by lia. rewrite app_nil_r. reflexivity. }
  exists block. split; [|split; [exact D10|reflexivity]].
  rewrite Hb. apply Engine.blockOf_intro; assumption.
Qed.

Lemma steps_designators_sound m :
  forall fuel d q h sds0 subs queue p',
  0 <= q ->
  Mutable.updateParse_loop fuel
    (Mutable.mkParser (mkStringIO d q) None h sds0 subs false
       (replicate m Mutable.DesignatorStep ++ queue))
  = Some (Ok tt p') ->
  exists blocks sds fuel',
    length blocks = m /\ Forall2 Engine.blockOf blocks sds
    /\ drop (Z.to_nat q) d
       = concat blocks ++ drop (Z.to_nat (q + 10 * Z.of_nat m)) d
    /\ Mutable.updateParse_loop fuel'
         (Mutable.mkParser (mkStringIO d (q + 10 * Z.of_nat m)) None h
            (sds0 ++ sds) subs false (queue ++ map Mutable.SubfileStep sds))
       = Some (Ok tt p').
Proof.
  induction m as [|m IH]; intros fuel d q h sds0 subs queue p' Hq H.
  - exists [], [], fuel. cbn [replicate app] in H.
    rewrite Z.mul_0_r, Z.add_0_r, !app_nil_r.
    split; [reflexivity|]. split; [constructor|]. split; [reflexivity|exact H].
  - cbn [replicate app] in H.
    apply updateParse_loop_Ok_step in H as (fuel1 & p1 & -> & Hstep & H).
    unfold Mutable.runStep in Hstep. unfold bind at 1 in Hstep.
    unfold Mutable.onReader at 1 in Hstep. cbn [Mutable.reader] in Hstep.
    destruct (Mutable.parseSubfileDesignator (mkStringIO d q))
      as [sd r1|e r1] eqn:E; [|discriminate].
    apply Mutable_parseSubfileDesignator_inv in E as (block & Hb & Hd & ->);
      [|exact Hq].
    unfold bind, Mutable.modify in Hstep. injection Hstep as <-.
    norm_parser_in H. cbn [app] in H. rewrite <- app_assoc in H.
    apply IH in H as (blocks & sds & fuel' & Hlen & Hall & Hdrop & H); [|lia].
    exists (block :: blocks), (sd :: sds), fuel'.
    split; [simpl; lia|]. split; [constructor; assumption|].
    replace (q + 10 * Z.of_nat (S m)) with (q + 10 + 10 * Z.of_nat m) by lia.
    split.
    + rewrite Hd, Hdrop. cbn [concat]. rewrite <- app_assoc. reflexivity.
    + rewrite <- !app_assoc in H. exact H.
Qed.

Lemma Mutable_parseSubfile_reader h sd r recs r' :
  Mutable.parseSubfile h sd r = Ok recs r' -> r' = r.
Proof.
  unfold Mutable.parseSubfile, bind, get, onLocal, ret.
  destruct (peek _ _) as [snapshot c|e c]; [|discriminate].
  destruct (Mutable.scanSubfile h _) as [x sf|e sf]; [|discriminate].
  intros [= _ <-]. reflexivity.
Qed.

Lemma steps_subfiles_sound sds :
  forall fuel r h sdsAll subs p',
  Mutable.updateParse_loop fuel
    (Mutable.mkParser r None h sdsAll subs false
       (map Mutable.SubfileStep sds))
  = Some (Ok tt p') ->
  exists recs,
    Forall2 (subfileRead h r) sds recs
    /\ p' = Mutable.mkParser r None h sdsAll
              (filedEvery (zip sds recs) subs) true [].
Proof.
  induction sds as [|sd sds IH]; intros fuel r h sdsAll subs p' H.
  - exists []. split; [constructor|].
    cbn [map] in H. destruct fuel as [|fuel]; [discriminate|].
    rewrite updateParse_loop_S in H.
    cbn [Mutable.done Mutable.error negb andb] in H.
    change (bool_decide (is_Some (@None Exn))) with false in H.
    cbn [negb andb] in H.
    unfold Mutable.updateParseOnce, bind, get, Mutable.modify in H.
    cbn [Mutable.steps] in H.
    destruct fuel; simpl in H; injection H as <-; reflexivity.
  - cbn [map] in H.
    apply updateParse_loop_Ok_step in H as (fuel1 & p1 & -> & Hstep & H).
    unfold Mutable.runStep in Hstep.
    destruct (recognized (sd_type sd)) eqn:Hty.
    + unfold bind at 1 in Hstep. unfold get at 1 in Hstep.
      unfold bind at 1 in Hstep. unfold Mutable.onReader at 1 in Hstep.
      cbn [Mutable.reader Mutable.header] in Hstep.
      destruct (Mutable.parseSubfile h sd r) as [parsed r1|e r1] eqn:E;
        [|discriminate].
      pose proof (Mutable_parseSubfile_reader _ _ _ _ _ E) as ->.
      unfold Mutable.modify in Hstep. injection Hstep as <-.
      norm_parser_in H.
      apply IH in H as (recs & Hall & ->).
      exists (Some parsed :: recs). split; [|reflexivity].
      constructor; [|exact Hall].
      unfold subfileRead. rewrite Hty. eauto.
    + unfold bind at 1 in Hstep. unfold get at 1 in Hstep.
      unfold bind at 1 in Hstep. unfold onLocal at 1 in Hstep.
      cbn [Mutable.reader] in Hstep.
      destruct (peek (sd_length sd) _) as [x c|e c] eqn:E; [|discriminate].
      apply peek_Ok in E as (_ & Hav & _).
      unfold Mutable.modify in Hstep. injection Hstep as <-.
      norm_parser_in H.
      apply IH in H as (recs & Hall & ->).
      exists (None :: recs). split; [|reflexivity].
      constructor; [|exact Hall].
      unfold subfileRead. rewrite Hty. auto.
Qed.

(** A subfile held by the text in the sense of [holdsSubfile] is one the
    reader can read. *)
Lemma holds_subfileRead h sep term d q sd rec :
  dataElementSeparator h = [sep] -> segmentTerminator h = [term] ->
  isUpper sep = false -> isUpper term = false -> sep <> term ->
  holdsSubfile sep term d sd rec ->
  subfileRead h (mkStringIO d q) sd rec.
Proof.
  intros Hsep Hterm Hus Hut Hne (pre & body & post & Hd & Hoff & Hlen & Hbody).
  unfold subfileRead. destruct (recognized (sd_type sd)).
  - destruct Hbody as (type & entries & last & junk & Htype & Hok & Hb & ->).
    eexists. split; [reflexivity|]. subst d body.
    apply (parseSubfile_unpadded h sep term sd pre post q type entries
             last junk); assumption.
  - split; [exact Hbody|].
    unfold avail. cbn [data pos]. subst d. rewrite !length_app. lia.
Qed.

Lemma runStep_done step p :
  match Mutable.runStep step p with
  | Ok _ p' | Err _ p' => Mutable.done p' = Mutable.done p
  end.
Proof.
  destruct step; unfold Mutable.runStep, Mutable.setHeader, Mutable.onReader,
    Mutable.modify, bind, get, ret, throw, onLocal;
    repeat match goal with
           | |- context [match ?x with _ => _ end] =>
               lazymatch x with
               | context [match _ with _ => _ end] => fail
               | _ => destruct x
               end
           end; reflexivity.
Qed.

Lemma updateParse_loop_Err_done fuel : forall p e p',
  Mutable.updateParse_loop fuel p = Some (Err e p') ->
  Mutable.done p' = false.
Proof.
  induction fuel as [|fuel IH]; intros p e p' H.
  - simpl in H. destruct (_ && _); discriminate.
  - pose proof (updateParse_loop_Err _ _ _ _ H) as [Hd He].
    rewrite updateParse_loop_S, Hd, He in H.
    change (bool_decide (is_Some (@None Exn))) with false in H.
    cbn [negb andb] in H.
    unfold Mutable.updateParseOnce, bind, get, Mutable.modify in H.
    destruct (Mutable.steps p) as [|step rest].
    + apply IH in H. exact H.
    + pose proof (runStep_done step p) as Hstep.
      destruct (Mutable.runStep step p) as [u p1|e1 p1].
      * apply IH in H. exact H.
      * injection H as <- <-. congruence.
Qed.

(** A completed [append] says what the text holds.  When [append], given
    the whole input in a new parser, ends with [done] set, the input starts
    with a header text with three valid separators and an entry count that
    [parseInt] reads as [N], followed by [N] well-formed directory entries
    when [N] is positive, none otherwise; the parser holds exactly these
    header fields and the designators of these entries in order; every
    subfile step has run on the final reader ([parseSubfile] returned for
    a "DL" or "ID" designator; for another designator the length is at most
    the length of the input minus the offset, which is all that the [peek]
    of the step checks), and the subfiles map holds what these steps filed;
    [append] returned false and there is no error. *)
Theorem append_done_sound :
  forall d fuel b p',
  Mutable.append fuel d (Mutable.makeDLIDParser []) = Some (b, p') ->
  Mutable.done p' = true ->
  exists s1 s2 s3 iin av jv ne N blocks tail recs,
    d = Engine.headerText s1 s2 s3 iin av jv ne ++ concat blocks ++ tail
    /\ invalidSeparatorPattern [s1] = false
    /\ invalidSeparatorPattern [s2] = false
    /\ invalidSeparatorPattern [s3] = false
    /\ length iin = 6%nat /\ length av = 2%nat /\ length jv = 2%nat
    /\ length ne = 2%nat /\ parseInt ne = Some N
    /\ length blocks = Z.to_nat N
    /\ Forall2 Engine.blockOf blocks (Mutable.subfileDesignators p')
    /\ Forall2 (subfileRead (Mutable.header p') (Mutable.reader p'))
               (Mutable.subfileDesignators p') recs
    /\ b = false
    /\ p' = Mutable.mkParser
              (mkStringIO d (21 + 10 * Z.of_nat (length blocks))) None
              (mkHeader [s1] [s2] [s3] iin av jv N)
              (Mutable.subfileDesignators p')
              (filedEvery (zip (Mutable.subfileDesignators p') recs) ∅)
              true [].
Proof.
  intros d fuel b p' Hrun Hdone.
  unfold Mutable.append in Hrun.
  cbn [Mutable.makeDLIDParser Mutable.error Mutable.done] in Hrun.
  change (bool_decide (is_Some (@None Exn)) || false) with false in Hrun.
  cbv iota in Hrun. unfold Mutable.updateParse in Hrun.
  change (Mutable.error (Mutable.grow d (Mutable.makeDLIDParser [])))
    with (@None Exn) in Hrun.
  change (bool_decide (is_Some (@None Exn))) with false in Hrun.
  cbv iota in Hrun.
  destruct (Mutable.updateParse_loop fuel _) as [[[] p1|e p1]|] eqn:Hloop;
    [| |discriminate].
  2: { (* a throw leaves [done] as it was *)
       exfalso.
       pose proof (updateParse_loop_Err_done _ _ _ _ Hloop) as Hd1.
       destruct (isEOF e); injection Hrun as _ <-;
         cbn [Mutable.done Mutable.with_error] in Hdone; congruence. }
  injection Hrun as <- <-.
  apply steps_header_sound in Hloop
    as (s1 & s2 & s3 & iin & av & jv & ne & N & rest & fuel1 & Hd & H1 & H2
        & H3 & Hiin & Hav & Hjv & Hne & HN & H).
  rewrite <- (app_nil_r (replicate _ _)) in H.
  apply steps_designators_sound in H
    as (blocks & sds & fuel2 & Hlen & Hblocks & Hdrop & H); [|lia].
  cbn [app] in H.
  apply steps_subfiles_sound in H as (recs & Hall & ->).
  cbn [Mutable.subfileDesignators Mutable.header Mutable.reader].
  pose proof (EngineProps.headerText_length s1 s2 s3 iin av jv ne Hiin Hav Hjv
                Hne) as Hhd.
  exists s1, s2, s3, iin, av, jv, ne, N, blocks,
    (drop (Z.to_nat (21 + 10 * Z.of_nat (Z.to_nat N))) d), recs.
  split.
  { rewrite <- Hdrop. rewrite Hd at 2.
    change (Z.to_nat 21) with 21%nat. rewrite <- Hhd.
    rewrite drop_app_length. exact Hd. }
  repeat (split; [assumption|]).
  split; [reflexivity|]. rewrite Hlen. reflexivity.
Qed.

(** The document with one "DL" subfile. *)
Lemma append_done_sound_witness :
  let d := str "@" ++ [LF; RS; CR] ++ str "ANSI 636000110001"
           ++ str "DL00310025" ++ Engine.sampleBody in
  exists b p',
    Mutable.append 20 d (Mutable.makeDLIDParser []) = Some (b, p')
    /\ Mutable.done p' = true /\ b = false
    /\ Mutable.reader p' = mkStringIO d 31.
Proof.
  intros d.
  destruct (Mutable.append 20 d (Mutable.makeDLIDParser []))
    as [[b p']|] eqn:E.
  - exists b, p'. split; [reflexivity|].
    assert (Mutable.done p' = true) as Hd.
    { vm_compute in E. injection E as _ <-. reflexivity. }
    split; [exact Hd|].
    destruct (append_done_sound d 20 b p' E Hd)
      as (s1 & s2 & s3 & iin & av & jv & ne & N & blocks & tail & recs & _
          & _ & _ & _ & _ & _ & _ & _ & _ & _ & _ & _ & Hb & _).
    split; [exact Hb|].
    vm_compute in E. injection E as _ <-. reflexivity.
  - vm_compute in E. discriminate.
Defined.

End MutableProps.

(** ** The oldest parser *)
Module OldestProps.

(** *** [parseHeader] *)

(** [parseHeader] on a reader that has the 21 characters [c0 .. c20] under
    its cursor. *)
Lemma parseHeader_chars pre rest
    c0 c1 c2 c3 c4 c5 c6 c7 c8 c9 c10 c11 c12 c13 c14 c15 c16 c17 c18 c19 c20 :
  let d := pre ++ [c0; c1; c2; c3; c4; c5; c6; c7; c8; c9; c10; c11; c12;
                   c13; c14; c15; c16; c17; c18; c19; c20] ++ rest in
  let r := mkStringIO d (Z.of_nat (length pre)) in
  Oldest.parseHeader r
  = if negb (bool_decide ([c0] = str "@")) || badHeaderPattern [c1]
    then Err (ParseError []) r
    else if negb (bool_decide ([c4; c5; c6; c7; c8] = str "ANSI "))
    then Err (ParseError []) r
    else match parseInt [c19; c20] with
         | None => Err (ParseError []) r
         | Some N =>
             Ok (mkHeader [c1] [c2] [c3] [c9; c10; c11; c12; c13; c14]
                          [c15; c16] [c17; c18] N)
                (mkStringIO d (Z.of_nat (length pre) + 21))
         end.
Proof.
  intros d r. unfold Oldest.parseHeader. unfold bind at 1.
  unfold r at 1.
  rewrite (EngineProps.peek_split d pre [c0; c1]
             ([c2; c3; c4; c5; c6; c7; c8; c9; c10; c11; c12; c13; c14; c15;
               c16; c17; c18; c19; c20] ++ rest) 2) by reflexivity.
  change (Oldest.charAt [c0; c1] 0) with [c0].
  change (Oldest.charAt [c0; c1] 1) with [c1].
  destruct (negb (bool_decide ([c0] = str "@")) || badHeaderPattern [c1]);
    [reflexivity|].
  unfold bind at 1.
  rewrite (EngineProps.peek_split d pre
             [c0; c1; c2; c3; c4; c5; c6; c7; c8; c9; c10; c11; c12; c13; c14;
              c15; c16; c17; c18; c19; c20] rest Oldest.HEADER_SIZE)
    by reflexivity.
  unfold bind at 1. unfold onLocal at 1.
  repeat (unfold bind at 1;
          match goal with
          | |- context [read ?n (mkStringIO (c0 :: ?t) ?q)] =>
              let v := eval vm_compute in (read n (mkStringIO (c0 :: t) q)) in
              change (read n (mkStringIO (c0 :: t) q)) with v
          end; cbv beta iota).
  destruct (negb (bool_decide ([c4; c5; c6; c7; c8] = str "ANSI ")));
    [reflexivity|].
  repeat (unfold bind at 1;
          match goal with
          | |- context [read ?n (mkStringIO (c0 :: ?t) ?q)] =>
              let v := eval vm_compute in (read n (mkStringIO (c0 :: t) q)) in
              change (read n (mkStringIO (c0 :: t) q)) with v
          end; cbv beta iota).
  destruct (parseInt [c19; c20]) as [N|]; [|reflexivity].
  unfold ret at 1. cbv beta iota. unfold bind at 1.
  rewrite (EngineProps.read_split d pre
             [c0; c1; c2; c3; c4; c5; c6; c7; c8; c9; c10; c11; c12; c13; c14;
              c15; c16; c17; c18; c19; c20] rest Oldest.HEADER_SIZE)
    by reflexivity.
  reflexivity.
Qed.

(** A list of 21 characters, spelled out. *)
Lemma length_21 (l : jsstring) :
  length l = 21%nat ->
  exists c0 c1 c2 c3 c4 c5 c6 c7 c8 c9 c10 c11 c12 c13 c14 c15 c16 c17 c18
         c19 c20,
    l = [c0; c1; c2; c3; c4; c5; c6; c7; c8; c9; c10; c11; c12; c13; c14;
         c15; c16; c17; c18; c19; c20].
Proof.
  intros H.
  do 21 (destruct l as [|? l]; [discriminate|]).
  destruct l; [|discriminate].
  repeat eexists.
Qed.

Lemma parseHeader_short r :
  0 <= pos r -> avail r < 21 ->
  exists e, Oldest.parseHeader r = Err e r.
Proof.
  intros Hpos Hav. unfold Oldest.parseHeader, bind.
  destruct (peek 2 r) as [check r1|e r1] eqn:E2.
  - apply peek_Ok in E2 as (-> & _ & _).
    destruct (_ || _); [eexists; reflexivity|].
    rewrite peek_short by (unfold Oldest.HEADER_SIZE; lia).
    eexists; reflexivity.
  - apply peek_Err in E2 as (-> & -> & _). eexists; reflexivity.
Qed.

(** The buffer around the 21 characters under the cursor. *)
Lemma header_block r :
  0 <= pos r -> 21 <= avail r ->
  exists pre block rest,
    data r = pre ++ block ++ rest /\ pos r = Z.of_nat (length pre)
    /\ length block = 21%nat.
Proof.
  intros Hpos Hav. unfold avail in Hav.
  exists (take (Z.to_nat (pos r)) (data r)),
         (take 21 (drop (Z.to_nat (pos r)) (data r))),
         (drop 21 (drop (Z.to_nat (pos r)) (data r))).
  rewrite !take_drop. split; [reflexivity|].
  rewrite length_take, length_take, length_drop. lia.
Qed.

(** [parseHeader] of the oldest parser.  On a cursor inside the buffer it
    returns a header exactly when the next 21 characters are a header text:
    the marker, three separators of which only the first is looked at (it
    must not be a letter or digit), "ANSI ", the three identification fields
    and an entry count that [parseInt] reads; the header holds these fields
    and the cursor has moved past the 21 characters.  It never consumes
    anything when it throws, and it throws a ParseError at once, without
    waiting for 21 characters, when the first of two characters is not the
    marker or the second is a letter or digit. *)
Theorem oldest_parseHeader_spec r :
  0 <= pos r ->
  (forall h r',
      Oldest.parseHeader r = Ok h r'
      <-> r' = mkStringIO (data r) (pos r + 21)
          /\ exists s1 s2 s3 iin av jv ne pre rest,
               data r = pre ++ Engine.headerText s1 s2 s3 iin av jv ne ++ rest
               /\ pos r = Z.of_nat (length pre)
               /\ badHeaderPattern [s1] = false
               /\ length iin = 6%nat /\ length av = 2%nat
               /\ length jv = 2%nat /\ length ne = 2%nat
               /\ parseInt ne = Some (numEntries h)
               /\ h = mkHeader [s1] [s2] [s3] iin av jv (numEntries h))
  /\ (forall e r', Oldest.parseHeader r = Err e r' -> r' = r)
  /\ (forall pre c0 c1 rest,
         data r = pre ++ [c0; c1] ++ rest -> pos r = Z.of_nat (length pre) ->
         c0 <> "@"%char \/ badHeaderPattern [c1] = true ->
         Oldest.parseHeader r = Err (ParseError []) r).
Proof.
  intros Hpos. destruct r as [d q]. cbn [data pos] in *.
  split; [|split].
  - intros h r'. split.
    + intros Hrun.
      destruct (Z.lt_ge_cases (avail (mkStringIO d q)) 21) as [Hshort|Hav].
      { destruct (parseHeader_short (mkStringIO d q) Hpos Hshort) as [e He].
        congruence. }
      destruct (header_block (mkStringIO d q) Hpos Hav)
        as (pre & block & rest & Hd & Hq & Hlen).
      cbn [data pos] in Hd, Hq.
      destruct (length_21 block Hlen)
        as (c0 & c1 & c2 & c3 & c4 & c5 & c6 & c7 & c8 & c9 & c10 & c11 & c12
            & c13 & c14 & c15 & c16 & c17 & c18 & c19 & c20 & ->).
      subst d q. rewrite parseHeader_chars in Hrun.
      destruct (negb (bool_decide ([c0] = str "@"))) eqn:E0;
        [discriminate|].
      destruct (badHeaderPattern [c1]) eqn:E1; [discriminate|].
      destruct (negb (bool_decide ([c4; c5; c6; c7; c8] = str "ANSI ")))
        eqn:Ea; [discriminate|].
      destruct (parseInt [c19; c20]) as [N|] eqn:EN; [|discriminate].
      cbn [orb] in Hrun. injection Hrun as <- <-.
      split; [reflexivity|].
      apply negb_false_iff, bool_decide_eq_true_1 in E0.
      apply negb_false_iff, bool_decide_eq_true_1 in Ea.
      injection E0 as ->. injection Ea as -> -> -> -> ->.
      exists c1, c2, c3, [c9; c10; c11; c12; c13; c14], [c15; c16],
             [c17; c18], [c19; c20], pre, rest.
      cbn [numEntries]. repeat split; try reflexivity; assumption.
    + intros (-> & s1 & s2 & s3 & iin & av & jv & ne & pre & rest & Hd & Hq
              & H1 & Hiin & Hav & Hjv & Hne & HN & Hh).
      destruct iin as [|i0 [|i1 [|i2 [|i3 [|i4 [|i5 [|]]]]]]];
        try discriminate.
      destruct av as [|a0 [|a1 [|]]]; try discriminate.
      destruct jv as [|j0 [|j1 [|]]]; try discriminate.
      destruct ne as [|n0 [|n1 [|]]]; try discriminate.
      subst d q.
      etransitivity;
        [exact (parseHeader_chars pre rest "@" s1 s2 s3 "A" "N" "S" "I" " "
                  i0 i1 i2 i3 i4 i5 a0 a1 j0 j1 n0 n1)|].
      change (bool_decide ([("@")%char] = str "@")) with true.
      change (bool_decide
                ([("A")%char; ("N")%char; ("S")%char; ("I")%char; (" ")%char]
                 = str "ANSI ")) with true.
      cbn [negb orb].
      rewrite H1, HN, Hh. reflexivity.
  - intros e r' Hrun. unfold Oldest.parseHeader in Hrun.
    unfold bind at 1 in Hrun.
    destruct (peek 2 (mkStringIO d q)) as [check r1|e1 r1] eqn:E2.
    + apply peek_Ok in E2 as (-> & _ & _).
      destruct (_ || _); [injection Hrun as <- <-; reflexivity|].
      unfold bind at 1 in Hrun.
      destruct (peek Oldest.HEADER_SIZE (mkStringIO d q)) as [block r2|e2 r2]
        eqn:E21.
      * apply peek_Ok in E21 as (-> & Hav & _).
        unfold bind at 1 in Hrun. unfold onLocal at 1 in Hrun.
        match type of Hrun with
        | context [match ?m (mkStringIO block 0) with _ => _ end] =>
            destruct (m (mkStringIO block 0)) as [parsed r3|e3 r3]
        end.
        -- unfold read, bind, ret in Hrun.
           rewrite peek_enough in Hrun by exact Hav. discriminate.
        -- injection Hrun as <- <-. reflexivity.
      * apply peek_Err in E21 as (-> & -> & _).
        injection Hrun as <- <-. reflexivity.
    + apply peek_Err in E2 as (-> & -> & _).
      injection Hrun as <- <-. reflexivity.
  - intros pre c0 c1 rest Hd Hq Hbad. subst d q.
    unfold Oldest.parseHeader, bind.
    rewrite (EngineProps.peek_split _ pre [c0; c1] rest 2) by reflexivity.
    change (Oldest.charAt [c0; c1] 0) with [c0].
    change (Oldest.charAt [c0; c1] 1) with [c1].
    destruct Hbad as [H0|H1].
    + rewrite bool_decide_eq_false_2; [reflexivity|].
      intros [= ->]. congruence.
    + rewrite H1, orb_true_r. reflexivity.
Qed.

(** The header of the sample data. *)
Lemma oldest_parseHeader_spec_witness :
  let r := mkStringIO exampleData 0 in
  0 <= pos r
  /\ Oldest.parseHeader r
     = Ok (mkHeader [LF] [RS] [CR] (str "636000") (str "11") (str "00") 2)
          (mkStringIO exampleData 21).
Proof.
  intros r. split; [simpl; lia|].
  refine (proj2 (proj1 (oldest_parseHeader_spec r _) _ _) _); [simpl; lia|].
  split; [reflexivity|].
  exists LF, RS, CR, (str "636000"), (str "11"), (str "00"), (str "02"), [],
         (drop 21 exampleData).
  repeat split; reflexivity.
Defined.


(** *** The class *)

Lemma parseHeader_text s1 s2 s3 iin av jv ne N pre rest :
  badHeaderPattern [s1] = false ->
  length iin = 6%nat -> length av = 2%nat -> length jv = 2%nat ->
  length ne = 2%nat -> parseInt ne = Some N ->
  let d := pre ++ Engine.headerText s1 s2 s3 iin av jv ne ++ rest in
  Oldest.parseHeader (mkStringIO d (Z.of_nat (length pre)))
  = Ok (mkHeader [s1] [s2] [s3] iin av jv N)
       (mkStringIO d (Z.of_nat (length pre) + 21)).
Proof.
  intros H1 Hiin Hav Hjv Hne HN d.
  destruct iin as [|i0 [|i1 [|i2 [|i3 [|i4 [|i5 [|]]]]]]]; try discriminate.
  destruct av as [|a0 [|a1 [|]]]; try discriminate.
  destruct jv as [|j0 [|j1 [|]]]; try discriminate.
  destruct ne as [|n0 [|n1 [|]]]; try discriminate.
  etransitivity;
    [exact (parseHeader_chars pre rest "@" s1 s2 s3 "A" "N" "S" "I" " "
              i0 i1 i2 i3 i4 i5 a0 a1 j0 j1 n0 n1)|].
  change (bool_decide ([("@")%char] = str "@")) with true.
  change (bool_decide
            ([("A")%char; ("N")%char; ("S")%char; ("I")%char; (" ")%char]
             = str "ANSI ")) with true.
  cbn [negb orb]. rewrite H1, HN. reflexivity.
Qed.

Lemma oldest_loop_S fuel p :
  Oldest.updateParse_loop (S fuel) p
  = match Oldest.updateParseOnce p with
    | Ok true p' => Oldest.updateParse_loop fuel p'
    | Ok false p' => Some (Ok false p')
    | Err e p' => Some (Err e p')
    end.
Proof. reflexivity. Qed.

Lemma oldest_loop_mono fuel : forall p r fuel',
  Oldest.updateParse_loop fuel p = Some r -> (fuel <= fuel')%nat ->
  Oldest.updateParse_loop fuel' p = Some r.
Proof.
  induction fuel as [|fuel IH]; intros p r fuel' H Hle; [discriminate|].
  destruct fuel' as [|fuel']; [lia|].
  rewrite oldest_loop_S in *.
  destruct (Oldest.updateParseOnce p) as [[|] p1|e p1]; try exact H.
  apply IH; [exact H|lia].
Qed.

Ltac norm_oldest :=
  cbv [Oldest.with_reader Oldest.with_header Oldest.with_subfileDesignators
       Oldest.with_done Oldest.with_error Oldest.fileSubfile
       Oldest.reader Oldest.error Oldest.header Oldest.subfileDesignators
       Oldest.subfiles Oldest.nSubfiles Oldest.done].

Lemma oldest_designators_phase blocks :
  forall sds pre post h sds0 fuel,
  Forall2 Engine.blockOf blocks sds ->
  length blocks = Z.to_nat (numEntries h - Z.of_nat (length sds0)) ->
  let d := pre ++ concat blocks ++ post in
  Oldest.updateParse_loop (length blocks + fuel)
    (Oldest.mkParser (mkStringIO d (Z.of_nat (length pre))) None (Some h) sds0
       ∅ 0 false)
  = Oldest.updateParse_loop fuel
      (Oldest.mkParser
         (mkStringIO d (Z.of_nat (length pre) + 10 * Z.of_nat (length blocks)))
         None (Some h) (sds0 ++ sds) ∅ 0 false).
Proof.
  induction blocks as [|block blocks IH];
    intros sds pre post h sds0 fuel Hb HN d.
  - apply Forall2_nil_inv_l in Hb as ->. simpl.
    rewrite !app_nil_r, Z.add_0_r. reflexivity.
  - apply Forall2_cons_inv_l in Hb as (sd & sds' & Hsd & Hsds & ->).
    pose proof (EngineProps.blockOf_length _ _ Hsd) as H10.
    cbn [length Nat.add] in *.
    assert (d = pre ++ block ++ (concat blocks ++ post)) as Hd.
    { unfold d. simpl. rewrite <- app_assoc. reflexivity. }
    rewrite oldest_loop_S.
    unfold Oldest.updateParseOnce. unfold bind at 1. unfold get at 1.
    cbn [Oldest.header Oldest.subfileDesignators].
    destruct (Z.ltb_spec (Z.of_nat (length sds0)) (numEntries h)); [|lia].
    unfold bind at 1. unfold Oldest.onReader at 1. cbn [Oldest.reader].
    rewrite (MutableProps.Mutable_parseSubfileDesignator_block d _ pre block
               sd _ Hsd Hd eq_refl).
    unfold bind, Oldest.modify, ret. norm_oldest.
    assert (d = (pre ++ block) ++ concat blocks ++ post) as Hd'.
    { rewrite Hd, <- app_assoc. reflexivity. }
    replace (Z.of_nat (length pre) + 10)
      with (Z.of_nat (length (pre ++ block))) by (rewrite length_app; lia).
    rewrite Hd'.
    rewrite (IH sds' (pre ++ block) post h (sds0 ++ [sd]) fuel Hsds)
      by (rewrite length_app; simpl; lia).
    rewrite <- !app_assoc. cbn [app].
    f_equal. f_equal. f_equal. rewrite length_app. lia.
Qed.

(** One turn of the [for] loop on a designator whose type has a subfile
    already: nothing happens. *)
Lemma parseMissingSubfile_known h sd p :
  is_Some (Oldest.subfiles p !! sd_type sd) ->
  Oldest.parseMissingSubfile h sd p = Ok tt p.
Proof.
  intros H. unfold Oldest.parseMissingSubfile, bind, get.
  rewrite bool_decide_eq_true_2 by exact H. reflexivity.
Qed.

Lemma forSubfileDesignators_known h sds p :
  (forall sd, sd ∈ sds -> is_Some (Oldest.subfiles p !! sd_type sd)) ->
  Oldest.forSubfileDesignators h sds p = Ok tt p.
Proof.
  induction sds as [|sd sds IH]; intros H; [reflexivity|].
  cbn [Oldest.forSubfileDesignators]. unfold bind.
  rewrite parseMissingSubfile_known by (apply H; left).
  apply IH. intros sd' Hin. apply H. right. exact Hin.
Qed.

(** One turn of the [for] loop on a designator whose subfile can be read
    and whose type has no subfile yet. *)
Lemma parseMissingSubfile_read h d q sdsAll subs n sd rec :
  subfileRead h (mkStringIO d q) sd rec ->
  subs !! sd_type sd = None ->
  Oldest.parseMissingSubfile h sd
    (Oldest.mkParser (mkStringIO d q) None (Some h) sdsAll subs n false)
  = Ok tt (Oldest.mkParser (mkStringIO d q) None (Some h) sdsAll
             (<[sd_type sd := default ∅ rec]> subs) (n + 1) false).
Proof.
  intros Hrun Hnew. unfold subfileRead in Hrun.
  unfold Oldest.parseMissingSubfile. unfold bind at 1. unfold get at 1.
  cbn [Oldest.subfiles]. rewrite Hnew.
  rewrite bool_decide_eq_false_2 by (intros [? [=]]).
  destruct (recognized (sd_type sd)).
  - destruct Hrun as (parsed & -> & Hrun).
    unfold bind at 1. unfold Oldest.onReader at 1. cbn [Oldest.reader].
    rewrite Hrun. reflexivity.
  - destruct Hrun as [-> Hav]. cbn [data] in Hav.
    unfold bind at 1. unfold onLocal at 1. cbn [Oldest.reader data].
    rewrite peek_enough by exact Hav. reflexivity.
Qed.

(** The [for] loop when every subfile can be read: every type gets the
    subfile of the first designator that names it. *)
Lemma forSubfileDesignators_read h d q sdsAll :
  forall sds recs, Forall2 (subfileRead h (mkStringIO d q)) sds recs ->
  forall subs n,
  exists subs',
    Oldest.forSubfileDesignators h sds
      (Oldest.mkParser (mkStringIO d q) None (Some h) sdsAll subs n false)
    = Ok tt (Oldest.mkParser (mkStringIO d q) None (Some h) sdsAll subs'
               (n + Z.of_nat (size (dom subs')) - Z.of_nat (size (dom subs)))
               false)
    /\ dom subs' = dom subs ∪ Oldest.typesOf sds
    /\ (NoDup (map sd_type sds) ->
        (forall sd, sd ∈ sds -> subs !! sd_type sd = None) ->
        subs' = filedEvery (zip sds recs) subs).
Proof.
  intros sds recs Hall.
  induction Hall as [|sd rec sds recs Hsd _ IH]; intros subs n.
  - exists subs. split; [|split].
    + simpl. unfold ret. f_equal. f_equal. lia.
    + unfold Oldest.typesOf. simpl. rewrite union_empty_r_L. reflexivity.
    + reflexivity.
  - cbn [Oldest.forSubfileDesignators]. unfold bind at 1.
    destruct (subs !! sd_type sd) as [old|] eqn:Hold.
    + rewrite parseMissingSubfile_known by (cbn [Oldest.subfiles]; eauto).
      destruct (IH subs n) as (subs' & Hrun & Hdom & Hnodup).
      exists subs'. split; [exact Hrun|]. split.
      * rewrite Hdom. unfold Oldest.typesOf. cbn [map list_to_set].
        assert (sd_type sd ∈ dom subs) by (apply elem_of_dom; eauto).
        apply set_eq. intros x.
        rewrite !elem_of_union, elem_of_singleton.
        split; [tauto|]. intros [?|[->|?]]; auto.
      * intros _ Hfresh. specialize (Hfresh sd ltac:(left)). congruence.
    + rewrite (parseMissingSubfile_read h d q sdsAll subs n sd rec)
        by assumption.
      destruct (IH (<[sd_type sd := default ∅ rec]> subs) (n + 1))
        as (subs' & Hrun & Hdom & Hnodup).
      exists subs'. split; [|split].
      * rewrite Hrun. f_equal. f_equal.
        rewrite dom_insert_L, size_union, size_singleton.
        -- lia.
        -- apply disjoint_singleton_l. apply not_elem_of_dom. exact Hold.
      * rewrite Hdom, dom_insert_L. unfold Oldest.typesOf.
        cbn [map list_to_set]. apply set_eq. intros x.
        rewrite !elem_of_union, elem_of_singleton. tauto.
      * intros Hnd Hfresh. cbn [map] in Hnd. apply NoDup_cons in Hnd as [Hni Hnd].
        cbn [zip zip_with]. unfold filedEvery. cbn [fold_left fst snd].
        apply Hnodup; [exact Hnd|].
        intros sd' Hin.
        rewrite lookup_insert_ne.
        -- apply Hfresh. right. exact Hin.
        -- intros Heq. apply Hni. rewrite Heq.
           apply list_elem_of_fmap. exists sd'. split; [reflexivity|exact Hin].
Qed.

Lemma size_typesOf_le sds :
  (size (Oldest.typesOf sds) <= length sds)%nat.
Proof.
  unfold Oldest.typesOf. induction sds as [|sd sds IH]; [reflexivity|].
  cbn [map list_to_set length].
  rewrite size_union_alt, size_singleton.
  pose proof (subseteq_size (list_to_set (map sd_type sds) ∖ {[sd_type sd]})
                (list_to_set (map sd_type sds) : gset jsstring)
                ltac:(apply subseteq_difference_l; reflexivity)).
  lia.
Qed.

Lemma size_typesOf_NoDup sds :
  size (Oldest.typesOf sds) = length sds -> NoDup (map sd_type sds).
Proof.
  unfold Oldest.typesOf. induction sds as [|sd sds IH]; intros H.
  - constructor.
  - cbn [map list_to_set length] in *.
    pose proof (size_typesOf_le sds) as Hle. unfold Oldest.typesOf in Hle.
    destruct (decide (sd_type sd ∈ map sd_type sds)) as [Hin|Hni].
    + exfalso.
      assert ({[sd_type sd]} ∪ list_to_set (map sd_type sds)
              = (list_to_set (map sd_type sds) : gset jsstring)) as Heq.
      { apply set_eq. intros x. rewrite elem_of_union, elem_of_singleton,
          elem_of_list_to_set. split; [intros [->|]; assumption|auto]. }
      rewrite Heq in H. lia.
    + constructor; [exact Hni|]. apply IH.
      rewrite size_union, size_singleton in H; [lia|].
      apply disjoint_singleton_l. rewrite elem_of_list_to_set. exact Hni.
Qed.

Lemma size_typesOf_dup sds :
  ~ NoDup (map sd_type sds) -> (size (Oldest.typesOf sds) < length sds)%nat.
Proof.
  intros H. pose proof (size_typesOf_le sds) as Hle.
  destruct (decide (size (Oldest.typesOf sds) = length sds)) as [Heq|]; [|lia].
  exfalso. apply H. apply size_typesOf_NoDup. exact Heq.
Qed.

Lemma badHeaderPattern_not_upper c :
  badHeaderPattern [c] = false -> isUpper c = false.
Proof.
  unfold badHeaderPattern. cbn [existsb]. rewrite orb_false_r. intros H.
  apply orb_false_iff in H as [H _]. apply orb_false_iff in H as [_ H].
  exact H.
Qed.

(** The rounds that read the header and the directory of a well-formed
    document. *)
Lemma oldest_directory_rounds s1 s2 s3 iin av jv ne N blocks sds tail fuel :
  badHeaderPattern [s1] = false ->
  length iin = 6%nat -> length av = 2%nat -> length jv = 2%nat ->
  length ne = 2%nat -> parseInt ne = Some N ->
  Forall2 Engine.blockOf blocks sds -> length blocks = Z.to_nat N ->
  let input := Engine.headerText s1 s2 s3 iin av jv ne ++ concat blocks
               ++ tail in
  Oldest.updateParse_loop (S (length blocks + fuel))
    (Oldest.grow input (Oldest.makeDLIDParser []))
  = Oldest.updateParse_loop fuel
      (Oldest.mkParser
         (mkStringIO input (21 + 10 * Z.of_nat (length blocks))) None
         (Some (mkHeader [s1] [s2] [s3] iin av jv N)) sds ∅ 0 false).
Proof.
  intros H1 Hiin Hav Hjv Hne HN Hblocks Hcount input.
  set (hd := Engine.headerText s1 s2 s3 iin av jv ne) in *.
  pose proof (EngineProps.headerText_length s1 s2 s3 iin av jv ne Hiin Hav Hjv
                Hne) as Hhd.
  fold hd in Hhd.
  rewrite oldest_loop_S.
  unfold Oldest.updateParseOnce. unfold bind at 1. unfold get at 1.
  unfold Oldest.grow, Oldest.makeDLIDParser. norm_oldest.
  change (append input (mkStringIO [] 0)) with (mkStringIO ([] ++ input) 0).
  unfold bind at 1. unfold Oldest.onReader at 1. cbn [Oldest.reader].
  unfold input at 1. fold hd.
  change 0 with (Z.of_nat (length (@nil ascii))) at 1.
  unfold hd at 1.
  rewrite (parseHeader_text s1 s2 s3 iin av jv ne N [] (concat blocks ++ tail))
    by assumption.
  fold hd. cbn [app length]. fold input.
  unfold bind, Oldest.modify, ret. norm_oldest.
  change (Z.of_nat 0 + 21) with 21.
  replace 21 with (Z.of_nat (length hd)) at 1 by lia.
  unfold input at 1.
  rewrite (oldest_designators_phase blocks sds hd tail _ [] fuel Hblocks)
    by (cbn [numEntries length Nat.add]; lia).
  fold input. cbn [app]. rewrite Hhd. reflexivity.
Qed.

(** The round that runs the [for] loop over the designators found. *)
Lemma oldest_pass_round h d q sds recs :
  Forall2 (subfileRead h (mkStringIO d q)) sds recs ->
  numEntries h <= Z.of_nat (length sds) -> sds <> [] ->
  exists subs',
    Oldest.updateParseOnce
      (Oldest.mkParser (mkStringIO d q) None (Some h) sds ∅ 0 false)
    = Ok true (Oldest.mkParser (mkStringIO d q) None (Some h) sds subs'
                 (Z.of_nat (size (dom subs'))) false)
    /\ dom subs' = Oldest.typesOf sds
    /\ (NoDup (map sd_type sds) -> subs' = filedEvery (zip sds recs) ∅).
Proof.
  intros Hall HN Hnil.
  destruct (forSubfileDesignators_read h d q sds sds recs Hall ∅ 0)
    as (subs' & Hrun & Hdom & Hnd).
  exists subs'. split; [|split].
  - unfold Oldest.updateParseOnce. unfold bind at 1. unfold get at 1.
    cbn [Oldest.header Oldest.subfileDesignators Oldest.nSubfiles].
    destruct (Z.ltb_spec (Z.of_nat (length sds)) (numEntries h)); [lia|].
    destruct (Z.ltb_spec 0 (Z.of_nat (length sds))) as [_|Hle].
    + unfold bind, ret. rewrite Hrun. f_equal. f_equal.
      rewrite dom_empty_L, size_empty. lia.
    + destruct sds; [congruence|simpl in Hle; lia].
  - rewrite Hdom, dom_empty_L. apply union_empty_l_L.
  - intros Hno. apply Hnd; [exact Hno|]. intros sd _. apply lookup_empty.
Qed.

(** The run of the oldest parser on a header and a directory whose subfiles
    can all be read, when no type is named twice. *)
Lemma oldest_completes s1 s2 s3 iin av jv ne N blocks sds tail recs fuel :
  badHeaderPattern [s1] = false ->
  length iin = 6%nat -> length av = 2%nat -> length jv = 2%nat ->
  length ne = 2%nat -> parseInt ne = Some N ->
  Forall2 Engine.blockOf blocks sds -> length blocks = Z.to_nat N ->
  let input := Engine.headerText s1 s2 s3 iin av jv ne ++ concat blocks
               ++ tail in
  let h := mkHeader [s1] [s2] [s3] iin av jv N in
  let r := mkStringIO input (21 + 10 * Z.of_nat (length blocks)) in
  Forall2 (subfileRead h r) sds recs ->
  NoDup (map sd_type sds) ->
  (length blocks + 3 <= fuel)%nat ->
  Oldest.append fuel input (Oldest.makeDLIDParser [])
  = Some (false,
          Oldest.mkParser r None (Some h) sds (filedEvery (zip sds recs) ∅)
            (Z.of_nat (length sds)) true).
Proof.
  intros H1 Hiin Hav Hjv Hne HN Hblocks Hcount input h r Hsubs Hnodup Hfuel.
  pose proof (Forall2_length _ _ _ Hblocks) as Hlen.
  unfold Oldest.append.
  change (bool_decide (is_Some (Oldest.error (Oldest.makeDLIDParser [])))
          || Oldest.done (Oldest.makeDLIDParser [])) with false.
  cbv iota. unfold Oldest.updateParse.
  change (Oldest.error (Oldest.grow input (Oldest.makeDLIDParser [])))
    with (@None Exn).
  change (bool_decide (is_Some (@None Exn))) with false. cbv iota.
  replace fuel with (S (length blocks + S (S (fuel - length blocks - 3))))
    by lia.
  unfold input.
  rewrite (oldest_directory_rounds s1 s2 s3 iin av jv ne N blocks sds tail)
    by assumption.
  fold input. fold h. fold r.
  destruct sds as [|sd0 sds0].
  - (* no directory entry: the next round sets [done] *)
    apply Forall2_nil_inv_l in Hsubs as ->.
    rewrite oldest_loop_S.
    unfold Oldest.updateParseOnce. unfold bind at 1. unfold get at 1.
    cbn [Oldest.header Oldest.subfileDesignators Oldest.nSubfiles length].
    destruct (Z.ltb_spec (Z.of_nat 0) (numEntries h)) as [Hlt|_];
      [cbn [numEntries h] in Hlt; simpl in Hlen; lia|].
    reflexivity.
  - destruct (oldest_pass_round h input _ (sd0 :: sds0) recs Hsubs
                ltac:(cbn [numEntries h]; lia) ltac:(discriminate))
      as (subs' & Hrun & Hdom & Hnd).
    fold r in Hrun.
    rewrite oldest_loop_S, Hrun.
    rewrite oldest_loop_S.
    unfold Oldest.updateParseOnce. unfold bind at 1. unfold get at 1.
    cbn [Oldest.header Oldest.subfileDesignators Oldest.nSubfiles].
    destruct (Z.ltb_spec (Z.of_nat (length (sd0 :: sds0))) (numEntries h))
      as [Hlt|_]; [cbn [numEntries h] in Hlt; lia|].
    assert (size (dom subs') = length (sd0 :: sds0)) as Hsize.
    { rewrite Hdom. unfold Oldest.typesOf.
      rewrite size_list_to_set by exact Hnodup. apply length_map. }
    destruct (Z.ltb_spec (Z.of_nat (size (dom subs')))
                (Z.of_nat (length (sd0 :: sds0)))) as [Hlt|_]; [lia|].
    unfold bind, Oldest.modify, ret. norm_oldest.
    rewrite Hsize, (Hnd Hnodup). reflexivity.
Qed.

(** The same run when a type is named twice: it never ends. *)
Lemma oldest_hangs s1 s2 s3 iin av jv ne N blocks sds tail recs :
  badHeaderPattern [s1] = false ->
  length iin = 6%nat -> length av = 2%nat -> length jv = 2%nat ->
  length ne = 2%nat -> parseInt ne = Some N ->
  Forall2 Engine.blockOf blocks sds -> length blocks = Z.to_nat N ->
  let input := Engine.headerText s1 s2 s3 iin av jv ne ++ concat blocks
               ++ tail in
  let h := mkHeader [s1] [s2] [s3] iin av jv N in
  let r := mkStringIO input (21 + 10 * Z.of_nat (length blocks)) in
  Forall2 (subfileRead h r) sds recs ->
  ~ NoDup (map sd_type sds) ->
  forall fuel, Oldest.append fuel input (Oldest.makeDLIDParser []) = None.
Proof.
  intros H1 Hiin Hav Hjv Hne HN Hblocks Hcount input h r Hsubs Hdup fuel.
  pose proof (Forall2_length _ _ _ Hblocks) as Hlen.
  assert (sds <> []) as Hnil.
  { intros ->. apply Hdup. constructor. }
  destruct (oldest_pass_round h input _ sds recs Hsubs
              ltac:(cbn [numEntries h]; lia) Hnil)
    as (subs' & Hrun & Hdom & _).
  fold r in Hrun.
  set (stuck := Oldest.mkParser r None (Some h) sds subs'
                  (Z.of_nat (size (dom subs'))) false) in *.
  (* every later round leaves the parser as it is *)
  assert (Oldest.updateParseOnce stuck = Ok true stuck) as Hstuck.
  { unfold Oldest.updateParseOnce. unfold bind at 1. unfold get at 1.
    cbn [Oldest.header Oldest.subfileDesignators Oldest.nSubfiles stuck].
    destruct (Z.ltb_spec (Z.of_nat (length sds)) (numEntries h))
      as [Hlt|_]; [cbn [numEntries h] in Hlt; lia|].
    pose proof (size_typesOf_dup sds Hdup) as Hlt. rewrite <- Hdom in Hlt.
    destruct (Z.ltb_spec (Z.of_nat (size (dom subs')))
                (Z.of_nat (length sds))) as [_|Hge]; [|lia].
    unfold bind, ret. rewrite forSubfileDesignators_known; [reflexivity|].
    intros sd Hin. unfold stuck. cbn [Oldest.subfiles]. apply elem_of_dom.
    rewrite Hdom. unfold Oldest.typesOf. apply elem_of_list_to_set.
    apply list_elem_of_fmap. exists sd. split; [reflexivity|exact Hin]. }
  assert (forall k, Oldest.updateParse_loop k stuck = None) as Hloop.
  { induction k as [|k IH]; [reflexivity|].
    rewrite oldest_loop_S, Hstuck. exact IH. }
  assert (forall k,
            Oldest.updateParse_loop k
              (Oldest.grow input (Oldest.makeDLIDParser [])) = None) as Hall.
  { intros k.
    destruct (Oldest.updateParse_loop k _) as [res|] eqn:E; [|reflexivity].
    apply (oldest_loop_mono _ _ _ (S (length blocks + S (S k)))) in E; [|lia].
    unfold input in E.
    rewrite (oldest_directory_rounds s1 s2 s3 iin av jv ne N blocks sds tail)
      in E by assumption.
    fold input in E. fold h in E. fold r in E.
    rewrite oldest_loop_S, Hrun in E. fold stuck in E.
    rewrite Hloop in E. discriminate. }
  unfold Oldest.append.
  change (bool_decide (is_Some (Oldest.error (Oldest.makeDLIDParser [])))
          || Oldest.done (Oldest.makeDLIDParser [])) with false.
  cbv iota. unfold Oldest.updateParse.
  change (Oldest.error (Oldest.grow input (Oldest.makeDLIDParser [])))
    with (@None Exn).
  change (bool_decide (is_Some (@None Exn))) with false. cbv iota.
  rewrite Hall. reflexivity.
Qed.

(** A well-formed document whose directory names every type once, appended
    at once to the oldest parser, parses to what it says: [append] returns
    false with [done] set and no error, and the parser holds the header
    fields, the designators in order, under every designator's type the
    records of its subfile (the empty object for a type other than "DL" and
    "ID"), and as many counted subfiles as there are designators.  The
    header is accepted whenever its first separator is not a letter or
    digit; for the record scan the segment terminator must not be an
    upper-case letter and must differ from the data element separator. *)
Theorem oldest_well_formed_document :
  forall s1 s2 s3 iin av jv ne N blocks sds tail recs fuel,
  badHeaderPattern [s1] = false -> isUpper s3 = false -> s1 <> s3 ->
  length iin = 6%nat -> length av = 2%nat -> length jv = 2%nat ->
  length ne = 2%nat -> parseInt ne = Some N ->
  Forall2 Engine.blockOf blocks sds -> Z.of_nat (length blocks) = N ->
  let input := Engine.headerText s1 s2 s3 iin av jv ne ++ concat blocks
               ++ tail in
  Forall2 (holdsSubfile s1 s3 input) sds recs ->
  NoDup (map sd_type sds) ->
  (length blocks + 3 <= fuel)%nat ->
  Oldest.append fuel input (Oldest.makeDLIDParser [])
  = Some (false,
          Oldest.mkParser (mkStringIO input (21 + 10 * N)) None
            (Some (mkHeader [s1] [s2] [s3] iin av jv N)) sds
            (filedEvery (zip sds recs) ∅) N true).
Proof.
  intros s1 s2 s3 iin av jv ne N blocks sds tail recs fuel H1 H3 Hne13
    Hiin Hav Hjv Hne HN Hblocks Hcount input Hsubs Hnodup Hfuel.
  pose proof (Forall2_length _ _ _ Hblocks) as Hlen.
  assert (Forall2 (subfileRead (mkHeader [s1] [s2] [s3] iin av jv N)
                     (mkStringIO input (21 + 10 * N))) sds recs) as Hread.
  { eapply Forall2_impl; [exact Hsubs|]. intros sd rec Hsd.
    apply (MutableProps.holds_subfileRead _ s1 s3); try assumption;
      try reflexivity.
    apply badHeaderPattern_not_upper. exact H1. }
  subst N. rewrite Hlen at 3.
  apply (oldest_completes s1 s2 s3 iin av jv ne _ blocks sds tail recs fuel);
    try assumption.
  symmetry. apply Nat2Z.id.
Qed.

(** The sample document of the test suite, appended at once. *)
Lemma oldest_well_formed_document_witness :
  Oldest.append 5 exampleData (Oldest.makeDLIDParser [])
  = Some (false,
          Oldest.mkParser (mkStringIO exampleData 41) None
            (Some (mkHeader [LF] [RS] [CR] (str "636000") (str "11")
                            (str "00") 2))
            [mkSubfileDesignator (str "DL") 41 277;
             mkSubfileDesignator (str "ZV") 318 8]
            (<[str "ZV" := ∅]> (<[str "DL" := recordsOf exampleRecords ∅]> ∅))
            2 true).
Proof.
  refine (oldest_well_formed_document LF RS CR (str "636000") (str "11")
            (str "00") (str "02") 2 [str "DL00410277"; str "ZV03180008"]
            [mkSubfileDesignator (str "DL") 41 277;
             mkSubfileDesignator (str "ZV") 318 8]
            (drop 41 exampleData)
            [Some (recordsOf exampleRecords ∅); None] 5
            eq_refl eq_refl _ eq_refl eq_refl eq_refl eq_refl eq_refl
            EngineProps.exampleData_directory eq_refl
            EngineProps.exampleData_subfiles _ _).
  - discriminate.
  - apply (bool_decide_unpack _). vm_compute. exact I.
  - simpl. lia.
Defined.

(** A well-formed document whose directory names a type twice makes the
    oldest parser loop for ever: however many rounds are allowed,
    [updateParse] has not returned.  (The subfile count can never reach the
    number of designators, and a pass that files nothing still reports
    progress.) *)
Theorem oldest_repeated_type_hangs :
  forall s1 s2 s3 iin av jv ne N blocks sds tail recs,
  badHeaderPattern [s1] = false -> isUpper s3 = false -> s1 <> s3 ->
  length iin = 6%nat -> length av = 2%nat -> length jv = 2%nat ->
  length ne = 2%nat -> parseInt ne = Some N ->
  Forall2 Engine.blockOf blocks sds -> Z.of_nat (length blocks) = N ->
  let input := Engine.headerText s1 s2 s3 iin av jv ne ++ concat blocks
               ++ tail in
  Forall2 (holdsSubfile s1 s3 input) sds recs ->
  ~ NoDup (map sd_type sds) ->
  forall fuel, Oldest.append fuel input (Oldest.makeDLIDParser []) = None.
Proof.
  intros s1 s2 s3 iin av jv ne N blocks sds tail recs H1 H3 Hne13
    Hiin Hav Hjv Hne HN Hblocks Hcount input Hsubs Hdup fuel.
  assert (Forall2 (subfileRead (mkHeader [s1] [s2] [s3] iin av jv N)
                     (mkStringIO input (21 + 10 * Z.of_nat (length blocks))))
            sds recs) as Hread.
  { eapply Forall2_impl; [exact Hsubs|]. intros sd rec Hsd.
    apply (MutableProps.holds_subfileRead _ s1 s3); try assumption;
      try reflexivity.
    apply badHeaderPattern_not_upper. exact H1. }
  apply (oldest_hangs s1 s2 s3 iin av jv ne N blocks sds tail recs);
    try assumption.
  subst N. symmetry. apply Nat2Z.id.
Qed.

(** A document that lists its "DL" subfile twice. *)
Lemma oldest_repeated_type_hangs_witness :
  let doc := str "@" ++ [LF; RS; CR] ++ str "ANSI 636000110002"
             ++ str "DL00410025" ++ str "DL00410025" ++ Engine.sampleBody in
  Oldest.append 1000 doc (Oldest.makeDLIDParser []) = None.
Proof.
  intros doc.
  assert (holdsSubfile LF CR doc (mkSubfileDesignator (str "DL") 41 25)
            (Some (recordsOf [(str "DAQ", str "T64235789");
                              (str "DCS", str "SAMPLE")] ∅))) as Hsub.
  { exists (take 41 doc), Engine.sampleBody, [].
    split; [reflexivity|]. split; [reflexivity|]. split; [reflexivity|].
    cbn [sd_type]. change (recognized (str "DL")) with true. cbv iota.
    exists (str "DL"), [(str "DAQ", str "T64235789")],
      (Some (str "DCS", str "SAMPLE")), [].
    split; [reflexivity|]. split; [|split; reflexivity].
    cbn [app option_list]. EngineProps.solve_entryOK. }
  refine (oldest_repeated_type_hangs LF RS CR (str "636000") (str "11")
            (str "00") (str "02") 2 [str "DL00410025"; str "DL00410025"]
            [mkSubfileDesignator (str "DL") 41 25;
             mkSubfileDesignator (str "DL") 41 25]
            Engine.sampleBody [_; _]
            eq_refl eq_refl _ eq_refl eq_refl eq_refl eq_refl eq_refl
            _ eq_refl _ _ 1000).
  - discriminate.
  - repeat constructor;
      apply (Engine.blockOf_intro (str "DL") (str "0041") (str "0025") 41 25);
      reflexivity.
  - repeat constructor; exact Hsub.
  - intros H. cbn [map sd_type] in H. apply NoDup_cons in H as [Hni _].
    apply Hni. left.
Defined.

(** *** The oldest parser against the step-queue parser *)

Lemma invalidSeparatorPattern_bad c :
  invalidSeparatorPattern [c] = false -> badHeaderPattern [c] = false.
Proof.
  unfold invalidSeparatorPattern, badHeaderPattern. cbn [existsb].
  rewrite !orb_false_r. intros H. apply orb_false_iff in H as [H _]. exact H.
Qed.

(** Whenever the step-queue parser, given a whole text at once, ends with
    [done] set, the oldest parser given the same text either ends in the
    same state (same return value, reader, header, designators and subfiles,
    with every designator counted) or never returns; it returns exactly when
    no two designators of the directory name the same type. *)
Theorem oldest_agrees_with_step_queue :
  forall d fuel b p2,
  Mutable.append fuel d (Mutable.makeDLIDParser []) = Some (b, p2) ->
  Mutable.done p2 = true ->
  let sds := Mutable.subfileDesignators p2 in
  (NoDup (map sd_type sds) ->
   forall fuel', (length sds + 3 <= fuel')%nat ->
   Oldest.append fuel' d (Oldest.makeDLIDParser [])
   = Some (b, Oldest.mkParser (Mutable.reader p2) None
                (Some (Mutable.header p2)) sds (Mutable.subfiles p2)
                (Z.of_nat (length sds)) true))
  /\ (~ NoDup (map sd_type sds) ->
      forall fuel', Oldest.append fuel' d (Oldest.makeDLIDParser []) = None).
Proof.
  intros d fuel b p2 Hrun Hdone.
  unfold Mutable.append in Hrun.
  cbn [Mutable.makeDLIDParser Mutable.error Mutable.done] in Hrun.
  change (bool_decide (is_Some (@None Exn)) || false) with false in Hrun.
  cbv iota in Hrun. unfold Mutable.updateParse in Hrun.
  change (Mutable.error (Mutable.grow d (Mutable.makeDLIDParser [])))
    with (@None Exn) in Hrun.
  change (bool_decide (is_Some (@None Exn))) with false in Hrun.
  cbv iota in Hrun.
  destruct (Mutable.updateParse_loop fuel _) as [[[] p1|e p1]|] eqn:Hloop;
    [| |discriminate].
  2: { exfalso.
       pose proof (MutableProps.updateParse_loop_Err_done _ _ _ _ Hloop)
         as Hd1.
       destruct (isEOF e); injection Hrun as _ <-;
         cbn [Mutable.done Mutable.with_error] in Hdone; congruence. }
  injection Hrun as <- <-.
  apply MutableProps.steps_header_sound in Hloop
    as (s1 & s2 & s3 & iin & av & jv & ne & N & rest & fuel1 & Hd & H1 & _
        & _ & Hiin & Hav & Hjv & Hne & HN & H).
  rewrite <- (app_nil_r (replicate _ _)) in H.
  apply MutableProps.steps_designators_sound in H
    as (blocks & sds & fuel2 & Hlen & Hblocks & Hdrop & H); [|lia].
  cbn [app] in H.
  apply MutableProps.steps_subfiles_sound in H as (recs & Hall & ->).
  cbn [Mutable.subfileDesignators Mutable.header Mutable.reader
       Mutable.subfiles].
  pose proof (EngineProps.headerText_length s1 s2 s3 iin av jv ne Hiin Hav Hjv
                Hne) as Hhd.
  pose proof (Forall2_length _ _ _ Hblocks) as Hsds.
  assert (d = Engine.headerText s1 s2 s3 iin av jv ne ++ concat blocks
              ++ drop (Z.to_nat (21 + 10 * Z.of_nat (Z.to_nat N))) d) as Hdoc.
  { rewrite <- Hdrop. rewrite Hd at 2.
    change (Z.to_nat 21) with 21%nat. rewrite <- Hhd.
    rewrite drop_app_length. exact Hd. }
  apply invalidSeparatorPattern_bad in H1.
  rewrite <- Hlen in Hall |- *.
  set (tail := drop _ d) in Hdoc.
  split.
  - intros Hnodup fuel' Hfuel. rewrite Hdoc.
    apply (oldest_completes s1 s2 s3 iin av jv ne N blocks sds tail recs);
      try assumption; [rewrite <- Hdoc; exact Hall | lia].
  - intros Hdup fuel'. rewrite Hdoc.
    apply (oldest_hangs s1 s2 s3 iin av jv ne N blocks sds tail recs);
      try assumption.
    rewrite <- Hdoc. exact Hall.
Qed.

(** The sample document of the test suite in both parsers. *)
Lemma oldest_agrees_with_step_queue_witness :
  exists b p2,
    Mutable.append 20 exampleData (Mutable.makeDLIDParser []) = Some (b, p2)
    /\ Mutable.done p2 = true
    /\ Oldest.append 5 exampleData (Oldest.makeDLIDParser [])
       = Some (b, Oldest.mkParser (Mutable.reader p2) None
                    (Some (Mutable.header p2))
                    (Mutable.subfileDesignators p2) (Mutable.subfiles p2) 2
                    true).
Proof.
  destruct (Mutable.append 20 exampleData (Mutable.makeDLIDParser []))
    as [[b p2]|] eqn:E; [|vm_compute in E; discriminate].
  assert (Mutable.done p2 = true) as Hdone.
  { vm_compute in E. injection E as _ <-. reflexivity. }
  assert (Mutable.subfileDesignators p2
          = [mkSubfileDesignator (str "DL") 41 277;
             mkSubfileDesignator (str "ZV") 318 8]) as Hsds.
  { vm_compute in E. injection E as _ <-. reflexivity. }
  exists b, p2. split; [reflexivity|]. split; [exact Hdone|].
  destruct (oldest_agrees_with_step_queue exampleData 20 b p2 E Hdone)
    as [Hyes _].
  rewrite Hsds in Hyes |- *.
  apply (Hyes ltac:(apply (bool_decide_unpack _); vm_compute; exact I) 5%nat).
  simpl. lia.
Defined.

(** *** [done] is only ever set when the types are distinct *)

Lemma counted_fileSubfile type records p :
  Oldest.counted p -> Oldest.subfiles p !! type = None ->
  type ∈ Oldest.typesOf (Oldest.subfileDesignators p) ->
  Oldest.counted (Oldest.fileSubfile type records p).
Proof.
  intros [Hn Hdom] Hnew Hin. unfold Oldest.counted, Oldest.fileSubfile.
  cbn [Oldest.nSubfiles Oldest.subfiles Oldest.subfileDesignators].
  rewrite dom_insert_L. split.
  - rewrite size_union, size_singleton; [lia|].
    apply disjoint_singleton_l, not_elem_of_dom. exact Hnew.
  - apply union_subseteq. split; [|exact Hdom].
    apply singleton_subseteq_l. exact Hin.
Qed.

(** What one turn of the [for] loop keeps, whether it returns or throws. *)
Lemma parseMissingSubfile_counted h sd p :
  Oldest.counted p -> sd ∈ Oldest.subfileDesignators p ->
  match Oldest.parseMissingSubfile h sd p with
  | Ok _ p' | Err _ p' =>
      Oldest.counted p'
      /\ Oldest.subfileDesignators p' = Oldest.subfileDesignators p
      /\ Oldest.done p' = Oldest.done p
  end.
Proof.
  intros Hc Hin.
  assert (sd_type sd ∈ Oldest.typesOf (Oldest.subfileDesignators p)) as Hty.
  { unfold Oldest.typesOf. apply elem_of_list_to_set, list_elem_of_fmap.
    exists sd. split; [reflexivity|exact Hin]. }
  unfold Oldest.parseMissingSubfile. unfold bind at 1. unfold get at 1.
  destruct (Oldest.subfiles p !! sd_type sd) as [old|] eqn:Hold.
  - rewrite bool_decide_eq_true_2 by eauto. simpl. auto.
  - rewrite bool_decide_eq_false_2 by (intros [? [=]]).
    destruct (recognized (sd_type sd)).
    + unfold bind, Oldest.onReader, Oldest.modify.
      destruct (Mutable.parseSubfile h sd (Oldest.reader p)) as [recs r|e r].
      * split; [|split; reflexivity].
        apply (counted_fileSubfile _ _ (Oldest.with_reader r p));
          [exact Hc|exact Hold|exact Hty].
      * split; [exact Hc|split; reflexivity].
    + unfold bind, onLocal, Oldest.modify.
      destruct (peek _ _) as [x r|e r].
      * split; [|split; reflexivity].
        apply (counted_fileSubfile _ _ p); [exact Hc|exact Hold|exact Hty].
      * split; [exact Hc|split; reflexivity].
Qed.

Lemma forSubfileDesignators_counted h sds : forall p,
  Oldest.counted p -> (forall sd, sd ∈ sds -> sd ∈ Oldest.subfileDesignators p) ->
  match Oldest.forSubfileDesignators h sds p with
  | Ok _ p' | Err _ p' =>
      Oldest.counted p'
      /\ Oldest.subfileDesignators p' = Oldest.subfileDesignators p
      /\ Oldest.done p' = Oldest.done p
  end.
Proof.
  induction sds as [|sd sds IH]; intros p Hc Hsub.
  - simpl. auto.
  - cbn [Oldest.forSubfileDesignators]. unfold bind.
    pose proof (parseMissingSubfile_counted h sd p Hc (Hsub sd ltac:(left)))
      as H1.
    destruct (Oldest.parseMissingSubfile h sd p) as [u p1|e p1];
      [|exact H1].
    destruct H1 as (Hc1 & Hs1 & Hd1).
    specialize (IH p1 Hc1).
    rewrite Hs1, Hd1 in IH. apply IH.
    intros sd' Hin. apply Hsub. right. exact Hin.
Qed.

Lemma counted_distinct p :
  Oldest.counted p ->
  ~ (Oldest.nSubfiles p < Z.of_nat (length (Oldest.subfileDesignators p))) ->
  NoDup (map sd_type (Oldest.subfileDesignators p))
  /\ Oldest.nSubfiles p = Z.of_nat (length (Oldest.subfileDesignators p)).
Proof.
  intros [Hn Hdom] Hge.
  pose proof (subseteq_size _ _ Hdom) as H1.
  pose proof (size_typesOf_le (Oldest.subfileDesignators p)) as H2.
  split; [|lia]. apply size_typesOf_NoDup. lia.
Qed.

(** A round of [updateParse] keeps the invariant, and [done] is set by the
    round that ends the loop only. *)
Lemma updateParseOnce_settled p :
  Oldest.settled p -> Oldest.done p = false ->
  match Oldest.updateParseOnce p with
  | Ok true p' | Err _ p' => Oldest.settled p' /\ Oldest.done p' = false
  | Ok false p' => Oldest.settled p'
  end.
Proof.
  intros [Hc _] Hd.
  assert (forall p', Oldest.counted p' -> Oldest.done p' = false ->
            Oldest.settled p' /\ Oldest.done p' = false) as Hmk.
  { intros p' Hc' Hd'. split; [|exact Hd']. split; [exact Hc'|].
    rewrite Hd'. discriminate. }
  unfold Oldest.updateParseOnce. unfold bind at 1. unfold get at 1.
  destruct (Oldest.header p) as [h|] eqn:Hh.
  - destruct (Z.ltb_spec (Z.of_nat (length (Oldest.subfileDesignators p)))
                (numEntries h)) as [_|_].
    + unfold bind, Oldest.onReader, Oldest.modify, ret.
      destruct (Mutable.parseSubfileDesignator (Oldest.reader p)) as [sd r|e r].
      * apply Hmk; [|exact Hd]. destruct Hc as [Hn Hdom].
        split; [exact Hn|].
        cbn [Oldest.with_subfileDesignators Oldest.with_reader
             Oldest.subfiles Oldest.subfileDesignators].
        etransitivity; [exact Hdom|]. unfold Oldest.typesOf.
        rewrite map_app, list_to_set_app_L. apply union_subseteq_l.
      * apply Hmk; [exact Hc|exact Hd].
    + destruct (Z.ltb_spec (Oldest.nSubfiles p)
                  (Z.of_nat (length (Oldest.subfileDesignators p))))
        as [_|Hge].
      * unfold bind, ret.
        pose proof (forSubfileDesignators_counted h
                      (Oldest.subfileDesignators p) p Hc (fun _ H => H)) as H.
        destruct (Oldest.forSubfileDesignators h _ p) as [u p1|e p1];
          destruct H as (Hc1 & _ & Hd1); apply Hmk; congruence.
      * unfold bind, Oldest.modify, ret. split; [exact Hc|].
        intros _. apply (counted_distinct p Hc). lia.
  - unfold bind, Oldest.onReader, Oldest.modify, ret.
    destruct (Oldest.parseHeader (Oldest.reader p)) as [h r|e r];
      apply Hmk; assumption.
Qed.

Lemma oldest_loop_settled fuel : forall p r,
  Oldest.settled p -> Oldest.done p = false ->
  Oldest.updateParse_loop fuel p = Some r ->
  match r with Ok _ p' | Err _ p' => Oldest.settled p' end.
Proof.
  induction fuel as [|fuel IH]; intros p r Hs Hd Hrun; [discriminate|].
  rewrite oldest_loop_S in Hrun.
  pose proof (updateParseOnce_settled p Hs Hd) as H.
  destruct (Oldest.updateParseOnce p) as [[|] p1|e p1].
  - destruct H as [Hs1 Hd1]. exact (IH p1 r Hs1 Hd1 Hrun).
  - injection Hrun as <-. exact H.
  - injection Hrun as <-. apply H.
Qed.

Lemma oldest_append_settled fuel d p b p' :
  Oldest.settled p -> Oldest.append fuel d p = Some (b, p') ->
  Oldest.settled p'.
Proof.
  intros Hs. unfold Oldest.append.
  destruct (bool_decide (is_Some (Oldest.error p)) || Oldest.done p) eqn:E.
  { intros [= <- <-]. exact Hs. }
  apply orb_false_iff in E as [_ Hd].
  unfold Oldest.updateParse.
  destruct (bool_decide (is_Some (Oldest.error (Oldest.grow d p)))).
  { intros [= <- <-]. exact Hs. }
  destruct (Oldest.updateParse_loop fuel (Oldest.grow d p)) as [r|] eqn:Hrun;
    [|discriminate].
  apply oldest_loop_settled in Hrun; [|exact Hs|exact Hd].
  destruct r as [c p1|e p1].
  - intros [= <- <-]. exact Hrun.
  - destruct (isEOF e); intros [= <- <-]; exact Hrun.
Qed.

Lemma oldest_appendAll_settled fuel chunks : forall p flags p',
  Oldest.settled p -> Oldest.appendAll fuel chunks p = Some (flags, p') ->
  Oldest.settled p'.
Proof.
  induction chunks as [|chunk chunks IH]; intros p flags p' Hs H.
  - injection H as <- <-. exact Hs.
  - cbn [Oldest.appendAll] in H.
    destruct (Oldest.append fuel chunk p) as [[b p1]|] eqn:E; [|discriminate].
    destruct (Oldest.appendAll fuel chunks p1) as [[rest p2]|] eqn:E2;
      [|discriminate].
    injection H as <- <-.
    apply (IH p1 rest p2); [|exact E2].
    eapply oldest_append_settled; eassumption.
Qed.

(** The oldest parser only ever completes on a directory of distinct types.
    Whatever the input and however it is cut into [append] calls, when
    [done] is set the designators found have pairwise different types, the
    subfiles map has exactly these types as keys, and every one of them was
    counted. *)
Theorem oldest_done_distinct_types :
  forall initialData chunks fuel flags p',
  Oldest.appendAll fuel chunks (Oldest.makeDLIDParser initialData)
  = Some (flags, p') ->
  Oldest.done p' = true ->
  NoDup (map sd_type (Oldest.subfileDesignators p'))
  /\ dom (Oldest.subfiles p') = Oldest.typesOf (Oldest.subfileDesignators p')
  /\ Oldest.nSubfiles p' = Z.of_nat (length (Oldest.subfileDesignators p')).
Proof.
  intros initialData chunks fuel flags p' Hrun Hdone.
  assert (Oldest.settled (Oldest.makeDLIDParser initialData)) as H0.
  { split; [split|discriminate].
    - reflexivity.
    - cbn [Oldest.makeDLIDParser Oldest.subfiles]. rewrite dom_empty_L.
      apply empty_subseteq. }
  pose proof (oldest_appendAll_settled fuel chunks _ flags p' H0 Hrun)
    as [[Hn Hdom] Hd].
  destruct (Hd Hdone) as [Hnodup Hcount].
  split; [exact Hnodup|]. split; [|exact Hcount].
  assert (size (Oldest.typesOf (Oldest.subfileDesignators p'))
          <= size (dom (Oldest.subfiles p')))%nat as Hsize.
  { unfold Oldest.typesOf. rewrite size_list_to_set by exact Hnodup.
    rewrite length_map. lia. }
  exact (set_subseteq_size_eq _ _ Hdom Hsize).
Qed.

(** The sample document, appended in two pieces. *)
Lemma oldest_done_distinct_types_witness :
  exists flags p',
    Oldest.appendAll 5 [take 100 exampleData; drop 100 exampleData]
      (Oldest.makeDLIDParser []) = Some (flags, p')
    /\ Oldest.done p' = true
    /\ NoDup (map sd_type (Oldest.subfileDesignators p')).
Proof.
  destruct (Oldest.appendAll 5 [take 100 exampleData; drop 100 exampleData]
              (Oldest.makeDLIDParser [])) as [[flags p']|] eqn:E.
  - exists flags, p'. split; [reflexivity|].
    assert (Oldest.done p' = true) as Hd.
    { vm_compute in E. injection E as _ <-. reflexivity. }
    split; [exact Hd|].
    exact (proj1 (oldest_done_distinct_types [] _ 5 flags p' E Hd)).
  - vm_compute in E. discriminate.
Defined.

End OldestProps.

(** ** The input capture *)
Module CaptureProps.
Import Capture.

Lemma substringFrom_drop s : substringFrom s 1 = drop 1 s.
Proof.
  unfold substringFrom, substring, clamp.
  pose proof (Nat2Z.is_nonneg (length s)) as Hl.
  destruct s as [|c s]; [reflexivity|].
  cbn [length] in *. rewrite Nat2Z.inj_succ in *.
  rewrite (Z.max_l 1 0), (Z.min_l 1) by lia.
  rewrite (Z.max_l (Z.succ _) 0), (Z.min_l (Z.succ _)) by lia.
  rewrite Z.min_l, Z.max_r by lia.
  replace (Z.to_nat (Z.succ (Z.of_nat (length s)) - 1)) with (length s) by lia.
  change (Z.to_nat 1) with 1%nat. cbn [drop]. apply firstn_all.
Qed.

(** What [parse()] does to the parser during a capture. *)
Lemma parse_budget_cases p :
  (exists p', Engine.parse (Engine.budget p) p = Engine.Done p')
  \/ (exists e p', Engine.parse (Engine.budget p) p = Engine.Raised e p'
                   /\ data (Engine.reader p') = data (Engine.reader p)).
Proof.
  pose proof (EngineProps.parse_within_budget (Engine.budget p) p
                (Nat.le_refl _)) as Hfin.
  pose proof (EngineProps.parse_data (Engine.budget p) p) as Hdata.
  destruct (Engine.parse (Engine.budget p) p) as [p'|e p'|p'];
    [eauto|eauto|contradiction].
Qed.

Lemma consistent_make d : consistent (make d).
Proof. unfold consistent, make. simpl. auto. Qed.

Lemma consistent_append v i : consistent i -> consistent (append v i).
Proof.
  intros Hc. unfold append. unfold consistent in Hc.
  destruct (isCapturing (state i)) eqn:Ecap.
  - destruct Hc as [Ht [captured Hdata]].
    destruct (parse_budget_cases (Engine.feed v (parser i)))
      as [[p' ->]|(e & p' & -> & Hd)].
    + unfold consistent, completeCapturing. simpl. auto.
    + assert (data (Engine.reader p') = str "@" ++ (captured ++ v)) as Hd'.
      { rewrite Hd. simpl. rewrite Hdata, <- app_assoc. reflexivity. }
      destruct e as [|msg|msg].
      * destruct (_ && _); unfold consistent; simpl; rewrite ?Ecap;
          (split; [reflexivity|eexists; exact Hd']).
      * unfold consistent, cancelCapturing. simpl. rewrite Ecap. simpl. auto.
      * unfold consistent. simpl. rewrite Ecap.
        split; [reflexivity|eexists; exact Hd'].
  - destruct Hc as (Ht & Hp & Hd).
    destruct (endsWithAt _).
    + unfold consistent, startCapturing. simpl. rewrite Hp. simpl.
      split; [reflexivity|]. exists []. reflexivity.
    + unfold consistent. simpl. rewrite Ecap. auto.
Qed.

Lemma consistent_handleTimeout i : consistent i -> consistent (handleTimeout i).
Proof.
  intros Hc. unfold handleTimeout, cancelCapturing, consistent in *. simpl.
  destruct (isCapturing (state i)) eqn:Ecap; simpl.
  - auto.
  - rewrite Ecap. destruct Hc as (_ & ? & ?). auto.
Qed.

Lemma consistent_setValue v i : consistent i -> consistent (setValue v i).
Proof.
  intros Hc. unfold setValue.
  destruct (startsWith _ _); apply consistent_append; [assumption|].
  unfold consistent in *. simpl.
  destruct (isCapturing (state i)); assumption.
Qed.

Lemma consistent_step ev i : consistent i -> consistent (step ev i).
Proof.
  intros Hc. destruct ev as [v|v|]; simpl.
  - apply consistent_append. assumption.
  - apply consistent_setValue. assumption.
  - destruct (timeout i); [apply consistent_handleTimeout|]; assumption.
Qed.

Lemma consistent_run evs : forall i, consistent i -> consistent (run evs i).
Proof.
  unfold run. induction evs as [|ev evs IH]; intros i Hi; simpl; [assumption|].
  apply IH, consistent_step, Hi.
Qed.

(** The state of the input stays consistent, whatever is typed, set or
    timed out: a timer is pending exactly while it is capturing; while it
    is capturing the parser's buffer starts with the marker; when it is not,
    the parser is a new one over an empty buffer and [isParsingDLID] is
    off. *)
Theorem capture_consistent :
  forall evs initialData,
  let i := run evs (make initialData) in
  consistent i
  /\ timeout i = isCapturing (state i)
  /\ (isParsingDLID (state i) = true -> isCapturing (state i) = true).
Proof.
  intros evs initialData i.
  pose proof (consistent_run evs _ (consistent_make initialData)) as Hc.
  fold i in Hc. split; [assumption|]. unfold consistent in Hc.
  destruct (isCapturing (state i)).
  - destruct Hc as [-> _]. auto.
  - destruct Hc as (-> & _ & ->). split; [reflexivity|discriminate].
Qed.

Lemma append_text v i :
  consistent i ->
  (exists p',
      isCapturing (state i) = true
      /\ Engine.parse (Engine.budget (Engine.feed v (parser i)))
                      (Engine.feed v (parser i)) = Engine.Done p'
      /\ state (append v i)
         = mkInputState (value (state i)) false false
                        (Some (Engine.result p')))
  \/ fullText (append v i) = fullText i ++ v.
Proof.
  intros Hc. unfold append, fullText. unfold consistent in Hc.
  destruct (isCapturing (state i)) eqn:Ecap.
  - destruct Hc as [Ht [captured Hdata]].
    destruct (parse_budget_cases (Engine.feed v (parser i)))
      as [[p' Hrun]|(e & p' & Hrun & Hd)]; rewrite Hrun.
    + left. exists p'. auto.
    + right.
      assert (drop 1 (data (Engine.reader p'))
              = drop 1 (data (Engine.reader (parser i))) ++ v) as Hd'.
      { rewrite Hd. simpl. rewrite Hdata. reflexivity. }
      destruct e as [|msg|msg].
      * destruct (_ && _); simpl; rewrite Ecap, Hd', app_assoc; reflexivity.
      * unfold cancelCapturing. simpl. rewrite Ecap. simpl.
        rewrite substringFrom_drop, Hd', app_nil_r, app_assoc. reflexivity.
      * simpl. rewrite Ecap, Hd', app_assoc. reflexivity.
  - right. destruct Hc as (Ht & Hp & Hd).
    destruct (endsWithAt _).
    + unfold startCapturing. simpl. rewrite Hp. simpl.
      rewrite !app_nil_r. reflexivity.
    + simpl. rewrite Ecap, !app_nil_r. reflexivity.
Qed.

(** No typed text is lost.  In every reachable state, [append(v)] either
    completes a capture (the parse of the buffer with [v] returned; its
    result is published, the value is as before and the capture is over),
    or the text the input holds, its value and what it has captured after
    the marker, grows by exactly [v]: this covers a capture that goes on,
    one that starts, and one that is given up on a header error.  A timeout
    ends the capture and moves the captured text into the value. *)
Theorem capture_keeps_text :
  forall evs initialData,
  let i := run evs (make initialData) in
  (forall v,
     (exists p',
         isCapturing (state i) = true
         /\ Engine.parse (Engine.budget (Engine.feed v (parser i)))
                         (Engine.feed v (parser i)) = Engine.Done p'
         /\ state (append v i)
            = mkInputState (value (state i)) false false
                           (Some (Engine.result p')))
     \/ fullText (append v i) = fullText i ++ v)
  /\ isCapturing (state (handleTimeout i)) = false
  /\ value (state (handleTimeout i)) = fullText i
  /\ fullText (handleTimeout i) = fullText i.
Proof.
  intros evs initialData i.
  pose proof (consistent_run evs _ (consistent_make initialData)) as Hc.
  fold i in Hc. split; [intros v; apply append_text; assumption|].
  unfold handleTimeout, cancelCapturing, fullText. simpl.
  destruct (isCapturing (state i)) eqn:Ecap; simpl.
  - rewrite substringFrom_drop, app_nil_r. auto.
  - rewrite Ecap, app_nil_r. auto.
Qed.

Lemma endsWithAt_marker s : endsWithAt (s ++ str "@") = true.
Proof.
  unfold endsWithAt. rewrite length_app. simpl length.
  apply andb_true_iff. split; [apply Nat.ltb_lt; lia|].
  apply bool_decide_eq_true_2. unfold Oldest.charAt.
  replace (length s + 1 - 1)%nat with (length s + 0)%nat by lia.
  rewrite lookup_app_r by lia.
  replace (length s + 0 - length s)%nat with 0%nat by lia. reflexivity.
Qed.

(** A capture that is given, chunk by chunk, a text that parses. *)
Lemma capturing_result fuel pR chunks : forall i,
  consistent i -> isCapturing (state i) = true ->
  Engine.queued_known (parser i) ->
  chunks <> [] ->
  Engine.parse fuel (Engine.feed (concat chunks) (parser i)) = Engine.Done pR ->
  Engine.lengths_nonneg (Engine.result pR) ->
  exists done rest,
    chunks = done ++ rest /\ done <> []
    /\ let i' := run (map Append done) i in
       state i' = mkInputState (value (state i)) false false
                               (Some (Engine.result pR))
       /\ parser i' = Engine.fresh /\ timeout i' = false.
Proof.
  induction chunks as [|c cs IH]; intros i Hc Hcap Hq Hne Hrun Hlen;
    [contradiction|].
  simpl in Hrun. rewrite <- EngineProps.feed_feed in Hrun.
  assert (Engine.queued_known (Engine.feed c (parser i))) as Hq1 by exact Hq.
  destruct (EngineProps.parse_resume _ _ _ _ Hq1 Hlen Hrun)
    as [(p' & H1 & H2)|(p' & H1 & H2 & H3)].
  - exists [c], cs. split; [reflexivity|]. split; [discriminate|].
    cbn [map run fold_left step]. unfold append. rewrite Hcap.
    rewrite (EngineProps.parse_finished_budget fuel) by (rewrite H1; exact I).
    rewrite H1. unfold completeCapturing. simpl. rewrite <- H2.
    auto.
  - pose proof (consistent_append c i Hc) as Hc'.
    assert (append c i
            = (let i1 := resetTimeout (with_parser p' i) in
               if (4 <=? length (data (Engine.reader p')))%nat
                  && negb (isParsingDLID (state i1))
               then update (fun s => mkInputState (value s) (isCapturing s)
                                                  true (result s)) i1
               else i1)) as Happ.
    { unfold append. rewrite Hcap.
      rewrite (EngineProps.parse_finished_budget fuel)
        by (rewrite H1; exact I).
      rewrite H1. reflexivity. }
    destruct cs as [|c2 cs].
    { simpl in H3. rewrite EngineProps.feed_nil in H3.
      rewrite (EngineProps.parse_Raised_EOF_again _ _ _ H1) in H3.
      discriminate. }
    destruct (IH (append c i) Hc') as (done & rest & Hsplit & Hdone & Hfinal).
    + rewrite Happ. simpl. destruct (_ && _); simpl; assumption.
    + rewrite Happ. simpl. destruct (_ && _); simpl; assumption.
    + discriminate.
    + rewrite Happ. simpl. destruct (_ && _); simpl; assumption.
    + assumption.
    + exists (c :: done), rest. split; [rewrite Hsplit; reflexivity|].
      split; [discriminate|].
      change (run (map Append (c :: done)) i)
        with (run (map Append done) (append c i)).
      cbn zeta in Hfinal |- *.
      destruct Hfinal as (Hs & Hp & Ht). rewrite Hs, Hp, Ht.
      split; [|auto]. f_equal.
      rewrite Happ. simpl. destruct (_ && _); reflexivity.
Qed.

(** A capture completes with what [parse()] returns for the whole text.
    From a reachable state that is not capturing, text ending in the marker
    is typed, and then, in chunks, a text that together with the marker
    parses to completion with no negative designator length.  Then at one of
    the chunks the capture completes: the published result is the
    ParseResult of the whole text, the value is what it was when the
    capture started, the parser is a new one and no timer is pending. *)
Theorem capture_result :
  forall evs initialData pre chunks pR fuel,
  let i := run evs (make initialData) in
  isCapturing (state i) = false ->
  chunks <> [] ->
  Engine.parse fuel
    (Engine.makeDLIDParser (mkStringIO (str "@" ++ concat chunks) 0))
  = Engine.Done pR ->
  Engine.lengths_nonneg (Engine.result pR) ->
  exists done rest,
    chunks = done ++ rest /\ done <> []
    /\ let i' := run (Append (pre ++ str "@") :: map Append done) i in
       state i' = mkInputState (value (state i) ++ pre ++ str "@") false false
                               (Some (Engine.result pR))
       /\ parser i' = Engine.fresh /\ timeout i' = false.
Proof.
  intros evs initialData pre chunks pR fuel i Hcap Hne Hrun Hlen.
  pose proof (consistent_run evs _ (consistent_make initialData)) as Hc.
  fold i in Hc.
  pose proof (consistent_append (pre ++ str "@") i Hc) as Hc1.
  pose proof Hc as Hc0. unfold consistent in Hc0. rewrite Hcap in Hc0.
  destruct Hc0 as (Ht & Hp & Hd).
  assert (append (pre ++ str "@") i
          = startCapturing
              (update (fun s => mkInputState (value (state i) ++ pre ++ str "@")
                                  (isCapturing s) (isParsingDLID s) (result s))
                      i)) as Hstart.
  { unfold append. rewrite Hcap. cbn zeta.
    rewrite app_assoc, endsWithAt_marker, <- app_assoc. reflexivity. }
  destruct (capturing_result fuel pR chunks (append (pre ++ str "@") i) Hc1)
    as (done & rest & Hsplit & Hdone & Hfinal).
  - rewrite Hstart. reflexivity.
  - rewrite Hstart. unfold startCapturing. simpl. rewrite Hp.
    apply EngineProps.queued_known_fresh.
  - assumption.
  - rewrite Hstart. unfold startCapturing. simpl. rewrite Hp.
    rewrite <- Hrun. f_equal.
  - assumption.
  - exists done, rest. split; [assumption|]. split; [assumption|].
    change (run (Append (pre ++ str "@") :: map Append done) i)
      with (run (map Append done) (append (pre ++ str "@") i)).
    cbn zeta in Hfinal |- *.
    destruct Hfinal as (Hs & Hp' & Ht'). rewrite Hs, Hp', Ht'.
    split; [|auto]. rewrite Hstart. reflexivity.
Qed.

(** The sample document of the test suite, typed after "name: " in the
    chunks of the test "parses with multiple appends". *)
Lemma capture_result_witness :
  let chunks := [take 9 (drop 1 exampleData); take 90 (drop 10 exampleData);
                 take 200 (drop 100 exampleData); drop 300 exampleData] in
  let i := run [] (make None) in
  exists pR done rest,
    Engine.parse 100 (Engine.makeDLIDParser (mkStringIO exampleData 0))
    = Engine.Done pR
    /\ chunks = done ++ rest /\ done <> []
    /\ let i' := run (Append (str "name: " ++ str "@") :: map Append done) i in
       state i' = mkInputState (value (state i) ++ str "name: " ++ str "@")
                               false false (Some (Engine.result pR))
       /\ parser i' = Engine.fresh /\ timeout i' = false.
Proof.
  intros chunks i.
  assert (exists pR,
            Engine.parse 100
              (Engine.makeDLIDParser (mkStringIO (str "@" ++ concat chunks) 0))
            = Engine.Done pR
            /\ Engine.subfileDesignators (Engine.result pR)
               = [mkSubfileDesignator (str "DL") 41 277;
                  mkSubfileDesignator (str "ZV") 318 8])
    as (pR & Hrun & Hsds).
  { eexists. split; [vm_compute; reflexivity|reflexivity]. }
  destruct (capture_result [] None (str "name: ") chunks pR 100 eq_refl)
    as (done & rest & H).
  - discriminate.
  - exact Hrun.
  - intros sd Hsd. rewrite Hsds in Hsd.
    apply elem_of_cons in Hsd as [->|Hsd]; [simpl; lia|].
    apply list_elem_of_singleton in Hsd as ->. simpl. lia.
  - exists pR, done, rest. split; [exact Hrun|exact H].
Defined.

Lemma substringFrom_prefix v p :
  take (length p) v = p -> substringFrom v (Z.of_nat (length p)) = drop (length p) v.
Proof.
  intros Hp.
  assert (length p <= length v)%nat as Hle.
  { rewrite <- Hp at 1. rewrite length_take. lia. }
  unfold substringFrom, substring, clamp.
  rewrite (Z.max_l _ 0), (Z.max_l (Z.of_nat (length v)) 0) by lia.
  rewrite (Z.min_l (Z.of_nat (length p))), (Z.min_l (Z.of_nat (length v))) by lia.
  rewrite Z.min_l, Z.max_r by lia. rewrite Nat2Z.id.
  apply take_ge. rewrite length_drop. lia.
Qed.

(** [setValue(v)] on an input that is not capturing: the value becomes [v],
    whether or not [v] continues the old value, and a capture starts exactly
    when [v] ends with the marker. *)
Theorem setValue_not_capturing :
  forall evs initialData v,
  let i := run evs (make initialData) in
  isCapturing (state i) = false ->
  value (state (setValue v i)) = v
  /\ isCapturing (state (setValue v i)) = endsWithAt v
  /\ fullText (setValue v i) = v.
Proof.
  intros evs initialData v i Hcap.
  pose proof (consistent_run evs _ (consistent_make initialData)) as Hc.
  fold i in Hc. unfold consistent in Hc. rewrite Hcap in Hc.
  destruct Hc as (_ & Hfresh & _).
  assert (forall j w, isCapturing (state j) = false ->
            parser j = Engine.fresh ->
            value (state j) ++ w = v ->
            value (state (append w j)) = v
            /\ isCapturing (state (append w j)) = endsWithAt v
            /\ fullText (append w j) = v) as Happ.
  { intros j w Hj Hp Hv. unfold append, fullText. rewrite Hj. cbn zeta.
    rewrite Hv. destruct (endsWithAt v) eqn:E.
    - unfold startCapturing. simpl. rewrite Hp. simpl.
      rewrite app_nil_r. auto.
    - simpl. rewrite Hj, app_nil_r. auto. }
  unfold setValue. destruct (startsWith v (value (state i))) eqn:Es.
  - apply bool_decide_eq_true_1 in Es.
    apply Happ; [assumption..|].
    rewrite (substringFrom_prefix v _ Es).
    rewrite <- Es at 1. apply take_drop.
  - apply Happ; [assumption..|reflexivity].
Qed.

Lemma setValue_not_capturing_witness :
  let i := run [Append (str "abc")] (make None) in
  value (state (setValue (str "JOHN SAMPLE") i)) = str "JOHN SAMPLE"
  /\ isCapturing (state (setValue (str "JOHN SAMPLE") i))
     = endsWithAt (str "JOHN SAMPLE")
  /\ fullText (setValue (str "JOHN SAMPLE") i) = str "JOHN SAMPLE".
Proof.
  apply (setValue_not_capturing [Append (str "abc")] None (str "JOHN SAMPLE")).
  reflexivity.
Defined.





(** *** Once [isParsingDLID] is set the capture does not bail out *)

Lemma parsingPast_fresh s t n :
  isParsingDLID s = false -> parsingPast (mkInput Engine.fresh s t n).
Proof.
  intros Hs. split; [left; split; reflexivity|].
  cbn [state]. rewrite Hs. discriminate.
Qed.

Lemma parsingPast_make d : parsingPast (make d).
Proof. apply parsingPast_fresh. reflexivity. Qed.

Lemma parsingPast_cancelCapturing i :
  parsingPast i -> parsingPast (cancelCapturing i).
Proof.
  intros Hi. unfold cancelCapturing. cbn [state with_timeout].
  destruct (isCapturing (state i)).
  - apply parsingPast_fresh. reflexivity.
  - exact Hi.
Qed.

Lemma parsingPast_append v i : parsingPast i -> parsingPast (append v i).
Proof.
  intros [Hshape Hpast]. unfold append.
  destruct (isCapturing (state i)) eqn:Hcap.
  - set (p := Engine.feed v (parser i)).
    assert (Engine.headerShape p) as Hp by exact Hshape.
    pose proof (EngineProps.parse_headerShape (Engine.budget p) p Hp) as Hout.
    assert (isParsingDLID (state i) = true ->
            Forall Engine.pastFront
              (Engine.funcs (Engine.stateOf (Engine.parse (Engine.budget p) p))))
      as Hkeep.
    { intros H. apply EngineProps.parse_pastFront. exact (Hpast H). }
    destruct (Engine.parse (Engine.budget p) p) as [p'|e p'|p'].
    + apply parsingPast_fresh. reflexivity.
    + destruct e as [|m|m]; cbn [Engine.outcomeShape Engine.stateOf] in *.
      * destruct Hout as [Hshape' Hfour].
        cbn [state with_parser resetTimeout with_timeout].
        destruct (4 <=? length (data (Engine.reader p')))%nat eqn:E4;
          cbn [andb].
        -- destruct (isParsingDLID (state i)) eqn:Hpar; cbn [negb].
           ++ split; [exact Hshape'|]. intros _. apply Hkeep. reflexivity.
           ++ split; [exact Hshape'|]. intros _. apply Hfour.
              apply Nat.leb_le. exact E4.
        -- split; [exact Hshape'|exact Hkeep].
      * unfold cancelCapturing. cbn [state with_parser with_timeout].
        rewrite Hcap. apply parsingPast_fresh. reflexivity.
      * split; [right; right; exact Hout|intros _; exact Hout].
    + split; assumption.
  - cbn [state update]. destruct (endsWithAt _).
    + unfold startCapturing. split; [exact Hshape|exact Hpast].
    + split; [exact Hshape|exact Hpast].
Qed.

Lemma parsingPast_step ev i : parsingPast i -> parsingPast (step ev i).
Proof.
  intros Hi. destruct ev as [v|v|]; cbn [step].
  - apply parsingPast_append. exact Hi.
  - unfold setValue. destruct (startsWith v (value (state i))).
    + apply parsingPast_append. exact Hi.
    + apply parsingPast_append. exact Hi.
  - destruct (timeout i); [|exact Hi].
    unfold handleTimeout. apply parsingPast_cancelCapturing. exact Hi.
Qed.

Lemma parsingPast_run evs : forall i, parsingPast i -> parsingPast (run evs i).
Proof.
  unfold run. induction evs as [|ev evs IH]; intros i Hi; simpl; [assumption|].
  apply IH, parsingPast_step, Hi.
Qed.

(** Once [isParsingDLID] is set the capture does not bail out.  In every
    state the input can reach, when [isParsingDLID] is set the four
    characters that can raise HeaderParseError have been accepted; so
    [append] either completes the capture with what [parse()] returns, or
    leaves the visible state as it is and restarts the timer.  The text
    captured so far comes back into the value by the timeout only. *)
Theorem capture_parsing_never_bails :
  forall evs initialData v,
  let i := run evs (make initialData) in
  isParsingDLID (state i) = true ->
  let p := Engine.feed v (parser i) in
  (exists p',
      Engine.parse (Engine.budget p) p = Engine.Done p'
      /\ state (append v i)
         = mkInputState (value (state i)) false false
                        (Some (Engine.result p')))
  \/ (state (append v i) = state i /\ timeout (append v i) = true
      /\ isCapturing (state i) = true
      /\ exists e p', Engine.parse (Engine.budget p) p = Engine.Raised e p'
                      /\ parser (append v i) = p'
                      /\ forall m, e <> HeaderParseError m).
Proof.
  intros evs initialData v i Hpar p.
  pose proof (consistent_run evs _ (consistent_make initialData)) as Hc.
  pose proof (parsingPast_run evs _ (parsingPast_make initialData))
    as [_ Hpast].
  fold i in Hc, Hpast. specialize (Hpast Hpar).
  assert (isCapturing (state i) = true) as Hcap.
  { unfold consistent in Hc. destruct (isCapturing (state i)); [reflexivity|].
    destruct Hc as (_ & _ & Hc). congruence. }
  pose proof (EngineProps.parse_pastFront (Engine.budget p) p Hpast)
    as [_ He].
  unfold append. rewrite Hcap. fold p.
  destruct (parse_budget_cases p) as [(p' & Hrun)|(e & p' & Hrun & _)];
    rewrite Hrun in *.
  - left. exists p'. split; [reflexivity|]. reflexivity.
  - right. destruct e as [|m|m].
    + cbn [state with_parser resetTimeout with_timeout]. rewrite Hpar.
      rewrite andb_false_r.
      split; [reflexivity|]. split; [reflexivity|]. split; [reflexivity|].
      exists EOF, p'. split; [reflexivity|]. split; [reflexivity|exact He].
    + exfalso. exact (He m eq_refl).
    + split; [reflexivity|]. split; [reflexivity|]. split; [reflexivity|].
      exists (ParseError m), p'.
      split; [reflexivity|]. split; [reflexivity|exact He].
Qed.

(** The marker and three separators have been typed; then "A". *)
Lemma capture_parsing_never_bails_witness :
  let i := run [Append (str "x@"); Append [LF; RS; CR]] (make None) in
  isParsingDLID (state i) = true
  /\ state (append (str "A") i) = state i
  /\ timeout (append (str "A") i) = true.
Proof.
  intros i.
  assert (isParsingDLID (state i) = true) as Hpar by reflexivity.
  split; [exact Hpar|].
  destruct (capture_parsing_never_bails
              [Append (str "x@"); Append [LF; RS; CR]] None (str "A") Hpar)
    as [(p' & Hrun & _)|(Hst & Ht & _)].
  - exfalso. vm_compute in Hrun. discriminate.
  - split; [exact Hst|exact Ht].
Defined.

End CaptureProps.
